(** * mobilePCD: the audio analysis engine, embedded and verified

    The engine of mobilePCD (windowing, real FFT, pitch-class mapper,
    primary-pitch estimator, stream orchestrator) is translated function by
    function into Rocq definitions, and the properties of its specification
    are stated and settled against these definitions.

    Number model.  A JavaScript number that holds a sample, a magnitude, a
    frequency or a level is a real number ([R]): arithmetic is exact, so the
    rounding of IEEE doubles and of [Float32Array] storage, NaN and the
    infinities are outside the model; a statement that depends on values
    that would overflow or be flushed in a [Float32Array], or on a
    division or logarithm that the source takes outside the reals, carries
    the range as a hypothesis.  A JavaScript number that holds a
    count, an index or a bit pattern is an integer ([Z]); the 32-bit
    operators ([|], [<<], [>>], [&], [^]) wrap as ECMAScript's ToInt32 does.
    A loop that the source can fail to leave is run on fuel and its
    exhaustion is reported as [Loops]; an exception is reported as
    [Throws]. *)

From Stdlib Require Import ZArith List Bool Reals Lra Lia Psatz.
Import ListNotations.

Local Open Scope Z_scope.
Local Open Scope R_scope.

(* ------------------------------------------------------------------ *)
(** ** JavaScript primitives used by the engine *)

Module JS.

(** How a call ends: with a value, with an exception, or never. *)
Inductive Completion (A : Type) : Type :=
| Normal (a : A)
| Throws
| Loops.
Arguments Normal {A} a.
Arguments Throws {A}.
Arguments Loops {A}.

Definition bind {A B : Type} (c : Completion A) (k : A -> Completion B)
  : Completion B :=
  match c with
  | Normal a => k a
  | Throws => Throws
  | Loops => Loops
  end.

(** ToInt32 on an integer: reduction modulo 2^32 into [-2^31, 2^31). *)
Definition wrap32 (z : Z) : Z := ((z + 2 ^ 31) mod 2 ^ 32 - 2 ^ 31)%Z.

(** ToUint32 on an integer, as a [Uint32Array] stores it. *)
Definition toUint32 (z : Z) : Z := (z mod 2 ^ 32)%Z.

(** Truncation toward zero, the first step of ToInt32 on a number. *)
Definition truncZ (x : R) : Z := if Rle_dec 0 x then Zfloor x else Zceil x.

(** [x | 0]. *)
Definition ToInt32 (x : R) : Z := wrap32 (truncZ x).

(** [a << n], [a >> n], [a & b], [a ^ b] on integer-valued numbers. *)
Definition shl (a n : Z) : Z := wrap32 (wrap32 a * 2 ^ (n mod 32)).
Definition sar (a n : Z) : Z := Z.shiftr (wrap32 a) (n mod 32).
Definition band (a b : Z) : Z := Z.land (wrap32 a) (wrap32 b).
Definition bxor (a b : Z) : Z := Z.lxor (wrap32 a) (wrap32 b).

Definition Math_floor (x : R) : Z := Zfloor x.
(** [Math.round] rounds half-way cases up. *)
Definition Math_round (x : R) : Z := Zfloor (x + / 2).
Definition Math_log2 (x : R) : R := ln x / ln 2.
Definition Math_log10 (x : R) : R := ln x / ln 10.
Definition Math_hypot (a b : R) : R := sqrt (a * a + b * b).

(** [Math.pow] on a base that is not negative and an exponent that is not
    negative (a zero base with a negative exponent is Infinity in
    JavaScript and is outside the model). *)
Definition Math_pow (x e : R) : R :=
  if Req_dec_T x 0 then (if Req_dec_T e 0 then 1 else 0) else Rpower x e.

Definition clampR (value lo hi : R) : R := Rmin hi (Rmax lo value).

(** Typed arrays are lists.  A read is used only at indices inside the
    array (an outside read is [undefined] in JavaScript); a write outside
    the array is dropped, as typed arrays do. *)
Definition get {A : Type} (d : A) (l : list A) (i : Z) : A :=
  if (i <? 0)%Z then d else nth (Z.to_nat i) l d.

Fixpoint set_nat {A : Type} (l : list A) (i : nat) (v : A) : list A :=
  match l, i with
  | [], _ => []
  | _ :: t, O => v :: t
  | h :: t, S j => h :: set_nat t j v
  end.

Definition set {A : Type} (l : list A) (i : Z) (v : A) : list A :=
  if (i <? 0)%Z then l else set_nat l (Z.to_nat i) v.

Definition getR : list R -> Z -> R := get 0.
Definition getZ : list Z -> Z -> Z := get 0%Z.

Definition zeros (n : nat) : list R := repeat 0 n.

(** [new Float32Array(n)]: a RangeError on a negative length. *)
Definition Float32Array_new (n : Z) : Completion (list R) :=
  if (n <? 0)%Z then Throws else Normal (zeros (Z.to_nat n)).

Definition UintArray_new (n : Z) : Completion (list Z) :=
  if (n <? 0)%Z then Throws else Normal (repeat 0%Z (Z.to_nat n)).

(** The indices [lo, lo+1, ..., hi] of a counting [for] loop. *)
Definition range (lo hi : Z) : list Z :=
  map (fun i => (lo + Z.of_nat i)%Z) (seq 0 (Z.to_nat (hi - lo + 1))).

Definition sumR (l : list R) : R := fold_right Rplus 0 l.

(** One round of a loop that writes cell [i] from the value found there. *)
Definition cell_step {A : Type} (d : A) (g : Z -> A -> A) (a : list A) (i : Z)
  : list A :=
  set a i (g i (get d a i)).

End JS.

Import JS.

(* ------------------------------------------------------------------ *)
(** ** The cells of a Float32Array

    The buffers of the source are Float32 arrays; the model computes with
    exact reals.  The two agree up to rounding as long as no value leaves
    the range of the cells: a size above [max_value] is stored as
    Infinity (and scales to NaN), a size below [min_normal] is flushed
    toward zero.  A statement that depends on the values stored carries
    the range as a hypothesis. *)

Module Float32.

(** The largest finite value, [(2 - 2^-23) * 2^127], and the smallest
    positive normal value, [2^-126]. *)
Definition max_value : R := 340282346638528859811704183484516925440.
Definition min_normal : R := / 85070591730234615865843651857942052864.

(** A number that a cell holds up to rounding. *)
Definition holds (x : R) : Prop :=
  x = 0 \/ min_normal <= Rabs x <= max_value.


End Float32.

(* ------------------------------------------------------------------ *)
(** ** audio/windowing.js *)

Module Windowing.

(** [hannWindow(size)].  The module-level cache only saves the work of a
    second computation; the table returned has the values computed here. *)
Definition hannWindow (size : Z) : Completion (list R) :=
  bind (Float32Array_new size) (fun window =>
  let factor := 2 * PI / (IZR size - 1) in
  Normal (fold_left (fun w n => set w n (0.5 * (1 - cos (factor * IZR n))))
                    (range 0 (size - 1)) window)).

End Windowing.

(* ------------------------------------------------------------------ *)
(** ** RealFFT *)

Module RealFFT.

Record t : Type := mk {
  size : Z;
  real : list R;
  imag : list R;
  magnitudes : list R;
  bitRevTable : list Z
}.

(** The constructor: no buffers yet (null is the empty list). *)
Definition create : t :=
  {| size := 0; real := []; imag := []; magnitudes := []; bitRevTable := [] |}.

(** [for (; j & bit; bit >>= 1) j ^= bit;] giving the final [(j, bit)]. *)
Fixpoint carry (fuel : nat) (j bit : Z) : Completion (Z * Z) :=
  if (band j bit =? 0)%Z then Normal (j, bit)
  else match fuel with
       | O => Loops
       | S f => carry f (bxor j bit) (sar bit 1)
       end.

(** One round of the table loop of [ensureSize], at index [i]. *)
Definition bitrev_step (size : Z) (acc : Completion (Z * list Z)) (i : Z)
  : Completion (Z * list Z) :=
  bind acc (fun '(j, table) =>
  bind (carry 64 j (sar size 1)) (fun '(j1, bit) =>
  let j2 := bxor j1 bit in
  Normal (j2, set table i (toUint32 j2)))).

Definition ensureSize (this : t) (n : Z) : Completion t :=
  if (size this =? n)%Z then Normal this
  else
    bind (Float32Array_new n) (fun re =>
    bind (Float32Array_new n) (fun im =>
    bind (Float32Array_new (Z.quot n 2)) (fun mags =>
    bind (UintArray_new n) (fun table0 =>
    bind (fold_left (bitrev_step n) (range 1 (n - 1)) (Normal (0%Z, table0)))
         (fun '(_, table) =>
    Normal {| size := n; real := re; imag := im; magnitudes := mags;
              bitRevTable := table |}))))).

(** [while (size < signal.length) size <<= 1;] *)
Fixpoint sizing (fuel : nat) (sz len : Z) : Completion Z :=
  if (sz <? len)%Z then
    match fuel with
    | O => Loops
    | S f => sizing f (shl sz 1) len
    end
  else Normal sz.

(** The bit-reversal pass, at index [i]. *)
Definition bitrev_swap (table : list Z) (bufs : list R * list R) (i : Z)
  : list R * list R :=
  let '(re, im) := bufs in
  let j := getZ table i in
  if (i <? j)%Z then
    (set (set re i (getR re j)) j (getR re i),
     set (set im i (getR im j)) j (getR im i))
  else (re, im).

(** One butterfly: the body of the [k] loop, for block start [i]. *)
Definition butterfly (wlenRe wlenIm : R) (i halfLen : Z)
  (st : list R * list R * R * R) (k : Z) : list R * list R * R * R :=
  let '(re, im, wRe, wIm) := st in
  let uRe := getR re (i + k) in
  let uIm := getR im (i + k) in
  let vRe := getR re (i + k + halfLen) * wRe - getR im (i + k + halfLen) * wIm in
  let vIm := getR re (i + k + halfLen) * wIm + getR im (i + k + halfLen) * wRe in
  let re1 := set re (i + k) (uRe + vRe) in
  let im1 := set im (i + k) (uIm + vIm) in
  let re2 := set re1 (i + k + halfLen) (uRe - vRe) in
  let im2 := set im1 (i + k + halfLen) (uIm - vIm) in
  let nextWRe := wRe * wlenRe - wIm * wlenIm in
  let nextWIm := wRe * wlenIm + wIm * wlenRe in
  (re2, im2, nextWRe, nextWIm).

(** One block: the body of the [i] loop. *)
Definition block (wlenRe wlenIm : R) (len : Z) (bufs : list R * list R)
  (i : Z) : list R * list R :=
  let '(re, im) := bufs in
  let halfLen := sar len 1 in
  let '(re', im', _, _) :=
    fold_left (butterfly wlenRe wlenIm i halfLen) (range 0 (halfLen - 1))
              (re, im, 1, 0) in
  (re', im').

(** The block starts [0, len, 2 len, ...] below [n]. *)
Definition block_starts (n len : Z) : list Z :=
  map (fun q => (q * len)%Z) (range 0 ((n - 1) / len)).

(** [for (let i = 0; i < size; i += len)]: with a step that is not
    positive [i] never reaches a positive [size]. *)
Definition stage (n len : Z) (bufs : list R * list R)
  : Completion (list R * list R) :=
  let ang := -2 * PI / IZR len in
  let wlenRe := cos ang in
  let wlenIm := sin ang in
  if (0 <? len)%Z then
    Normal (fold_left (block wlenRe wlenIm len) (block_starts n len) bufs)
  else if (0 <? n)%Z then Loops
  else Normal bufs.

(** [for (let len = 2; len <= size; len <<= 1)] *)
Fixpoint stages (fuel : nat) (n len : Z) (bufs : list R * list R)
  : Completion (list R * list R) :=
  if (len <=? n)%Z then
    bind (stage n len bufs) (fun bufs' =>
    match fuel with
    | O => Loops
    | S f => stages f n (shl len 1) bufs'
    end)
  else Normal bufs.

Definition fill0 (l : list R) : list R := zeros (length l).

(** [typed.set(source)]: copy [source] to the front. *)
Fixpoint blit (dst src : list R) : list R :=
  match dst, src with
  | _ :: d, s :: r => s :: blit d r
  | _, _ => dst
  end.

(** [transform(signal)], with the fuel of its two doubling loops. *)
Definition transform_fuel (fuel : nat) (this : t) (signal : list R)
  : Completion (t * list R) :=
  bind (sizing fuel 1 (Z.of_nat (length signal))) (fun n =>
  bind (ensureSize this n) (fun this1 =>
  let re0 := blit (fill0 (real this1)) signal in
  let im0 := fill0 (imag this1) in
  let '(re1, im1) :=
    fold_left (bitrev_swap (bitRevTable this1)) (range 1 (n - 1)) (re0, im0) in
  bind (stages fuel n 2 (re1, im1)) (fun '(re2, im2) =>
  let half := sar n 1 in
  let mags :=
    fold_left (fun m i => set m i (Math_hypot (getR re2 i) (getR im2 i)))
              (range 0 (half - 1)) (magnitudes this1) in
  Normal ({| size := size this1; real := re2; imag := im2;
             magnitudes := mags; bitRevTable := bitRevTable this1 |},
          firstn (Z.to_nat half) mags)))).

(** Both loops double a 32-bit integer: 64 rounds are more than they can
    make before they stop or repeat. *)
Definition transform : t -> list R -> Completion (t * list R) :=
  transform_fuel 64.

End RealFFT.

(* ------------------------------------------------------------------ *)
(** ** PitchClassComputer *)

Module PitchClassComputer.

Record t : Type := mk {
  lookupTable : option (list Z);
  prevSampleRate : R;
  prevA4 : R;
  prevLength : Z;
  output : list R;
  zero : list R
}.

Definition create : t :=
  {| lookupTable := None; prevSampleRate := 0; prevA4 := 0; prevLength := 0;
     output := zeros 12; zero := zeros 12 |}.

(** The fields of the options object that [compute] reads. *)
Record Options : Type := mkOptions {
  minHz : R;
  maxHz : R;
  pcdThreshold : R;
  pcdNormalize : R;
  refA4 : R
}.

Definition toUint8 (z : Z) : Z := (z mod 256)%Z.

(** The body of the table loop of [ensureLookup], at bin [k]. *)
Definition lookup_entry (binHz log2A4 : R) (k : Z) : Z :=
  let freq := IZR k * binHz in
  if Rlt_dec 0 freq then
    let midi := 69 + 12 * (Math_log2 freq - log2A4) in
    Z.rem (Z.rem (Math_round midi) 12 + 12) 12
  else 0%Z.

Definition build_table (length : Z) (sampleRate a4 : R) : list Z :=
  let binHz := sampleRate / (IZR length * 2) in
  let log2A4 := Math_log2 a4 in
  fold_left (fun table k => set table k (toUint8 (lookup_entry binHz log2A4 k)))
            (range 0 (length - 1)) (repeat 0%Z (Z.to_nat length)).

Definition cache_hit (this : t) (length : Z) (sampleRate a4 : R) : bool :=
  match lookupTable this with
  | None => false
  | Some _ =>
      (if Req_dec_T (prevSampleRate this) sampleRate then true else false)
      && (if Req_dec_T (prevA4 this) a4 then true else false)
      && (prevLength this =? length)%Z
  end.

Definition ensureLookup (this : t) (length : Z) (sampleRate a4 : R) : t :=
  if cache_hit this length sampleRate a4 then this
  else
    {| lookupTable := Some (build_table length sampleRate a4);
       prevSampleRate := sampleRate; prevA4 := a4; prevLength := length;
       output := output this; zero := zero this |}.

Definition table_of (this : t) : list Z :=
  match lookupTable this with Some table => table | None => [] end.

(** The body of the aggregation loop, at bin [k]. *)
Definition accumulate (mags : list R) (threshold : R) (table : list Z)
  (out : list R) (k : Z) : list R :=
  let mag := getR mags k in
  if Rlt_dec threshold mag then
    let pitchClass := getZ table k in
    set out pitchClass (getR out pitchClass + mag * mag)
  else out.

Definition pow_step (e : R) (acc : list R * R) (i : Z) : list R * R :=
  let '(out, sum) := acc in
  let v := Math_pow (getR out i) e in
  (set out i v, sum + v).

Definition sum_step (acc : list R * R) (i : Z) : list R * R :=
  let '(out, sum) := acc in (out, sum + getR out i).

Definition scale_step (inv : R) (out : list R) (i : Z) : list R :=
  set out i (getR out i * inv).

(** [compute(magnitudes, sampleRate, options)].  The cells of [output]
    are exact reals here and Float32 in the source: the two agree up to
    rounding on the spectra of [Reference.in_float32]. *)
Definition compute (this : t) (mags : list R) (sampleRate : R) (options : Options)
  : t * list R :=
  let len := Z.of_nat (length mags) in
  let this1 := ensureLookup this len sampleRate (refA4 options) in
  let out0 := RealFFT.fill0 (output this1) in
  let binHz := sampleRate / (IZR len * 2) in
  let minBin := Z.max 1 (Math_floor (minHz options / binHz)) in
  let maxBin := Z.min (len - 1) (Math_floor (maxHz options / binHz)) in
  let out1 :=
    fold_left (accumulate mags (pcdThreshold options) (table_of this1))
              (range minBin maxBin) out0 in
  let '(out2, sum) :=
    if Req_dec_T (pcdNormalize options) 1
    then fold_left sum_step (range 0 11) (out1, 0)
    else fold_left (pow_step (pcdNormalize options)) (range 0 11) (out1, 0) in
  let out3 :=
    if Rlt_dec 0 sum
    then fold_left (scale_step (1 / sum)) (range 0 11) out2
    else out2 in
  ({| lookupTable := lookupTable this1; prevSampleRate := prevSampleRate this1;
      prevA4 := prevA4 this1; prevLength := prevLength this1;
      output := out3; zero := zero this1 |},
   out3).

Definition getSilentOutput (this : t) : t * list R :=
  let z := RealFFT.fill0 (zero this) in
  ({| lookupTable := lookupTable this; prevSampleRate := prevSampleRate this;
      prevA4 := prevA4 this; prevLength := prevLength this;
      output := output this; zero := z |},
   z).

End PitchClassComputer.

(* ------------------------------------------------------------------ *)
(** ** primary-detection: estimatePrimary *)

Module PrimaryDetection.

Record Estimate : Type := mkEstimate {
  freq : R;
  kRef : R;
  prominenceDb : R
}.

(** The absolute floor [1e-6] and the guard [1e-12]. *)
Definition floor_level : R := / 1000000.
Definition eps : R := / 1000000000000.

Definition peak_step (mags : list R) (acc : R * Z) (i : Z) : R * Z :=
  let '(maxVal, k) := acc in
  let value := getR mags i in
  if Rlt_dec maxVal value then (value, i) else (maxVal, k).

Definition neighbor_step (mags : list R) (k : Z) (acc : R * Z) (i : Z) : R * Z :=
  let '(sum, count) := acc in
  if (i =? k)%Z then (sum, count) else (sum + getR mags i, (count + 1)%Z).

(** The indices [from, from+2, ...] up to [to]. *)
Definition range2 (from to : Z) : list Z :=
  map (fun q => (from + 2 * q)%Z) (range 0 ((to - from) / 2)).

(** [estimatePrimary(magnitudes, sampleRate, minHz, maxHz)], for a
    positive sample rate (at a rate of zero the divisions of the source
    give infinities, which the reals do not have). *)
Definition estimatePrimary (mags : list R) (sampleRate minHz maxHz : R)
  : option Estimate :=
  let halfSize := Z.of_nat (length mags) in
  let binHz := sampleRate / (IZR halfSize * 2) in
  let kMin := Z.max 2 (Math_floor (minHz / binHz)) in
  let kMax := Z.min (halfSize - 3) (Math_floor (maxHz / binHz)) in
  let '(maxVal, k) := fold_left (peak_step mags) (range kMin kMax) (0, kMin) in
  if Rlt_dec maxVal floor_level then None
  else
    let neighborhood := 10%Z in
    let from := Z.max kMin (k - neighborhood) in
    let to := Z.min kMax (k + neighborhood) in
    let '(sum, count) := fold_left (neighbor_step mags k) (range2 from to) (0, 0%Z) in
    let avgNeighbor := if (0 <? count)%Z then sum / IZR count else 0 in
    let prominenceDb :=
      if Rlt_dec 0 avgNeighbor
      then 20 * Math_log10 ((maxVal + eps) / (avgNeighbor + eps))
      else 0 in
    let a := getR mags (k - 1) in
    let b := getR mags k in
    let c := getR mags (k + 1) in
    let denom := if Req_dec_T (a - 2 * b + c) 0 then eps else a - 2 * b + c in
    let delta := 0.5 * (a - c) / denom in
    let kRef := IZR k + Rmax (-1) (Rmin 1 delta) in
    let freq := kRef * binHz in
    Some {| freq := freq; kRef := kRef; prominenceDb := prominenceDb |}.

End PrimaryDetection.

(* ------------------------------------------------------------------ *)
(** ** AudioProcessor: the stream orchestrator *)

Module AudioProcessor.

(** [frameRms(buffer)] *)
Definition frameRms (buffer : list R) : R :=
  let sum := fold_left (fun sum sample => sum + sample * sample) buffer 0 in
  sqrt (sum / INR (length buffer)).

(** [toPowerOfTwo(value)] *)
Definition toPowerOfTwo (value : R) : Z :=
  let clamped := Z.max 32 (ToInt32 value) in
  let exponent := Math_round (Math_log2 (IZR clamped)) in
  shl 1 (Z.max 5 exponent).

Definition clamp : R -> R -> R -> R := clampR.

Record Config : Type := mkConfig {
  windowSize : Z;
  hopSize : Z;
  minHz : R;
  maxHz : R;
  smoothing : R;
  pcdMinRms : R;
  pcdThreshold : R;
  pcdNormalize : R;
  refA4 : R
}.

Definition DEFAULT_AUDIO_CONFIG : Config :=
  {| windowSize := 16384; hopSize := 1024; minHz := 50; maxHz := 5000;
     smoothing := 0.6; pcdMinRms := 0.001; pcdThreshold := 0.005;
     pcdNormalize := 1; refA4 := 440 |}.

Record TunerConfig : Type := mkTuner {
  enabled : bool;
  t_minHz : R;
  t_maxHz : R;
  minProminence : R;
  minRMS : R;
  reactivity : R
}.

Definition DEFAULT_TUNER_CONFIG : TunerConfig :=
  {| enabled := true; t_minHz := 70; t_maxHz := 1800; minProminence := 6;
     minRMS := 0.003; reactivity := 0.35 |}.

(** The object passed to [updateConfig]: an absent key is [None]. *)
Record Updates : Type := mkUpdates {
  u_windowSize : option R;
  u_hopSize : option R;
  u_minHz : option R;
  u_maxHz : option R;
  u_smoothing : option R;
  u_pcdMinRms : option R;
  u_pcdThreshold : option R;
  u_pcdNormalize : option R;
  u_refA4 : option R
}.

Definition no_updates : Updates :=
  mkUpdates None None None None None None None None None.

(** The object passed to [updateTuner]. *)
Record TunerUpdates : Type := mkTunerUpdates {
  tu_enabled : option bool;
  tu_minHz : option R;
  tu_maxHz : option R;
  tu_minProminence : option R;
  tu_minRMS : option R;
  tu_reactivity : option R
}.

Record Primary : Type := mkPrimary {
  p_freq : R;
  p_prominenceDb : R;
  cents : R;
  pitchClass : Z;
  nearestMidi : Z;
  midi : R
}.

(** The detail of an [analysis] event ([audioTime], the clock of the audio
    device, is left out). *)
Record Detail : Type := mkDetail {
  pcd : list R;
  d_rawPcd : list R;
  rms : R;
  d_magnitudes : list R;
  primary : option Primary;
  d_sampleRate : R
}.

Inductive Event : Type :=
| Analysis (detail : Detail)
| StateChange (running : bool)
| Error.

(** The fields of the processor that the analysis reads or writes (the
    handles of the audio device are left out). *)
Record t : Type := mk {
  config : Config;
  tunerConfig : TunerConfig;
  sampleRate : R;
  running : bool;
  fft : RealFFT.t;
  pcdComputer : PitchClassComputer.t;
  windowFn : list R;
  ringBuffer : list R;
  analysisBuffer : list R;
  writeIndex : Z;
  filled : Z;
  hopCounter : Z;
  currentPcd : list R;
  rawPcd : list R;
  lastRms : R
}.

Definition with_config (this : t) (c : Config) : t :=
  mk c (tunerConfig this) (sampleRate this) (running this) (fft this)
     (pcdComputer this) (windowFn this) (ringBuffer this) (analysisBuffer this)
     (writeIndex this) (filled this) (hopCounter this) (currentPcd this)
     (rawPcd this) (lastRms this).

Definition with_tunerConfig (this : t) (c : TunerConfig) : t :=
  mk (config this) c (sampleRate this) (running this) (fft this)
     (pcdComputer this) (windowFn this) (ringBuffer this) (analysisBuffer this)
     (writeIndex this) (filled this) (hopCounter this) (currentPcd this)
     (rawPcd this) (lastRms this).

Definition with_running (this : t) (b : bool) : t :=
  mk (config this) (tunerConfig this) (sampleRate this) b (fft this)
     (pcdComputer this) (windowFn this) (ringBuffer this) (analysisBuffer this)
     (writeIndex this) (filled this) (hopCounter this) (currentPcd this)
     (rawPcd this) (lastRms this).

Definition with_sampleRate (this : t) (r : R) : t :=
  mk (config this) (tunerConfig this) r (running this) (fft this)
     (pcdComputer this) (windowFn this) (ringBuffer this) (analysisBuffer this)
     (writeIndex this) (filled this) (hopCounter this) (currentPcd this)
     (rawPcd this) (lastRms this).

Definition with_window (this : t) (w rb ab : list R) : t :=
  mk (config this) (tunerConfig this) (sampleRate this) (running this)
     (fft this) (pcdComputer this) w rb ab
     (writeIndex this) (filled this) (hopCounter this) (currentPcd this)
     (rawPcd this) (lastRms this).

Definition with_analysisBuffer (this : t) (ab : list R) : t :=
  with_window this (windowFn this) (ringBuffer this) ab.

Definition with_lastRms (this : t) (r : R) : t :=
  mk (config this) (tunerConfig this) (sampleRate this) (running this)
     (fft this) (pcdComputer this) (windowFn this) (ringBuffer this)
     (analysisBuffer this) (writeIndex this) (filled this) (hopCounter this)
     (currentPcd this) (rawPcd this) r.

Definition with_engines (this : t) (f : RealFFT.t) (p : PitchClassComputer.t) : t :=
  mk (config this) (tunerConfig this) (sampleRate this) (running this)
     f p (windowFn this) (ringBuffer this)
     (analysisBuffer this) (writeIndex this) (filled this) (hopCounter this)
     (currentPcd this) (rawPcd this) (lastRms this).

Definition with_pcds (this : t) (cur raw : list R) : t :=
  mk (config this) (tunerConfig this) (sampleRate this) (running this)
     (fft this) (pcdComputer this) (windowFn this) (ringBuffer this)
     (analysisBuffer this) (writeIndex this) (filled this) (hopCounter this)
     cur raw (lastRms this).

Definition with_cursor (this : t) (rb : list R) (wi fi hc : Z) : t :=
  mk (config this) (tunerConfig this) (sampleRate this) (running this)
     (fft this) (pcdComputer this) (windowFn this) rb
     (analysisBuffer this) wi fi hc
     (currentPcd this) (rawPcd this) (lastRms this).

Definition with_windowSize (c : Config) (n : Z) : Config :=
  mkConfig n (hopSize c) (minHz c) (maxHz c) (smoothing c) (pcdMinRms c)
           (pcdThreshold c) (pcdNormalize c) (refA4 c).

Definition with_hopSize (c : Config) (n : Z) : Config :=
  mkConfig (windowSize c) n (minHz c) (maxHz c) (smoothing c) (pcdMinRms c)
           (pcdThreshold c) (pcdNormalize c) (refA4 c).

(** [resetBuffers()] *)
Definition resetBuffers (this : t) : t :=
  mk (config this) (tunerConfig this) (sampleRate this) (running this)
     (fft this) (pcdComputer this) (windowFn this)
     (RealFFT.fill0 (ringBuffer this)) (RealFFT.fill0 (analysisBuffer this))
     0 0 0
     (RealFFT.fill0 (currentPcd this)) (RealFFT.fill0 (rawPcd this)) 0.

(** The window table of a constructor call; the default size is positive. *)
Definition window_or_empty (n : Z) : list R :=
  match Windowing.hannWindow n with Normal w => w | _ => [] end.

(** [new AudioProcessor()] with the default configuration. *)
Definition create : t :=
  let n := windowSize DEFAULT_AUDIO_CONFIG in
  mk DEFAULT_AUDIO_CONFIG DEFAULT_TUNER_CONFIG 48000 false
     RealFFT.create PitchClassComputer.create
     (window_or_empty n) (zeros (Z.to_nat n)) (zeros (Z.to_nat n))
     0 0 0 (zeros 12) (zeros 12) 0.

(** A number in a condition is true unless it is zero. *)
Definition truthy (x : R) : bool := if Req_dec_T x 0 then false else true.

Definition differs (x y : R) : bool := if Req_dec_T x y then false else true.

(** The window branch of [updateConfig]: the state it leaves, and whether
    the window was re-made ([reinitWindow]) or the allocation threw. *)
Definition update_window (updates : Updates) (this : t) : t * Completion bool :=
  let cfg := config this in
  match u_windowSize updates with
  | Some w =>
      if truthy w && differs w (IZR (windowSize cfg)) then
        let size := toPowerOfTwo w in
        if (size =? windowSize cfg)%Z then (this, Normal false)
        else
          let this1 := with_config this (with_windowSize cfg size) in
          match Windowing.hannWindow size with
          | Normal w' =>
              match Float32Array_new size, Float32Array_new size with
              | Normal rb, Normal ab => (with_window this1 w' rb ab, Normal true)
              | _, _ => (this1, Throws)
              end
          | Throws => (this1, Throws)
          | Loops => (this1, Loops)
          end
      else (this, Normal false)
  | None => (this, Normal false)
  end.

(** The assignments of [updateConfig] between the window branch and the
    reset, one function for each [if] of the source. *)
Definition assign_hopSize (updates : Updates) (cfg : Config) : Config :=
  match u_hopSize updates with
  | Some h => if truthy h then with_hopSize cfg (Z.max 1 (ToInt32 h)) else cfg
  | None => cfg
  end.

Definition assign_minHz (updates : Updates) (cfg : Config) : Config :=
  match u_minHz updates with
  | Some v =>
      mkConfig (windowSize cfg) (hopSize cfg) (Rmax 0 v) (maxHz cfg)
               (smoothing cfg) (pcdMinRms cfg) (pcdThreshold cfg)
               (pcdNormalize cfg) (refA4 cfg)
  | None => cfg
  end.

Definition assign_maxHz (updates : Updates) (cfg : Config) : Config :=
  match u_maxHz updates with
  | Some v =>
      mkConfig (windowSize cfg) (hopSize cfg) (minHz cfg)
               (Rmax (minHz cfg + 1) v) (smoothing cfg) (pcdMinRms cfg)
               (pcdThreshold cfg) (pcdNormalize cfg) (refA4 cfg)
  | None => cfg
  end.

(** [if (cfg.maxHz <= cfg.minHz) cfg.maxHz = cfg.minHz + 1;] *)
Definition repair_band (cfg : Config) : Config :=
  if Rle_dec (maxHz cfg) (minHz cfg)
  then mkConfig (windowSize cfg) (hopSize cfg) (minHz cfg) (minHz cfg + 1)
                (smoothing cfg) (pcdMinRms cfg) (pcdThreshold cfg)
                (pcdNormalize cfg) (refA4 cfg)
  else cfg.

Definition assign_smoothing (updates : Updates) (cfg : Config) : Config :=
  match u_smoothing updates with
  | Some v =>
      mkConfig (windowSize cfg) (hopSize cfg) (minHz cfg) (maxHz cfg)
               (clamp v 0 0.999) (pcdMinRms cfg) (pcdThreshold cfg)
               (pcdNormalize cfg) (refA4 cfg)
  | None => cfg
  end.

Definition assign_pcdMinRms (updates : Updates) (cfg : Config) : Config :=
  match u_pcdMinRms updates with
  | Some v =>
      mkConfig (windowSize cfg) (hopSize cfg) (minHz cfg) (maxHz cfg)
               (smoothing cfg) (Rmax 0 v) (pcdThreshold cfg)
               (pcdNormalize cfg) (refA4 cfg)
  | None => cfg
  end.

Definition assign_pcdThreshold (updates : Updates) (cfg : Config) : Config :=
  match u_pcdThreshold updates with
  | Some v =>
      mkConfig (windowSize cfg) (hopSize cfg) (minHz cfg) (maxHz cfg)
               (smoothing cfg) (pcdMinRms cfg) (Rmax 0 v)
               (pcdNormalize cfg) (refA4 cfg)
  | None => cfg
  end.

Definition assign_pcdNormalize (updates : Updates) (cfg : Config) : Config :=
  match u_pcdNormalize updates with
  | Some v =>
      mkConfig (windowSize cfg) (hopSize cfg) (minHz cfg) (maxHz cfg)
               (smoothing cfg) (pcdMinRms cfg) (pcdThreshold cfg)
               (Rmax 0.1 v) (refA4 cfg)
  | None => cfg
  end.

Definition assign_refA4 (updates : Updates) (cfg : Config) : Config :=
  match u_refA4 updates with
  | Some v =>
      mkConfig (windowSize cfg) (hopSize cfg) (minHz cfg) (maxHz cfg)
               (smoothing cfg) (pcdMinRms cfg) (pcdThreshold cfg)
               (pcdNormalize cfg) (Rmax 1 v)
  | None => cfg
  end.

(** The assignments in the order of the source. *)
Definition update_fields (updates : Updates) (cfg : Config) : Config :=
  assign_refA4 updates
    (assign_pcdNormalize updates
      (assign_pcdThreshold updates
        (assign_pcdMinRms updates
          (assign_smoothing updates
            (repair_band
              (assign_maxHz updates
                (assign_minHz updates
                  (assign_hopSize updates cfg)))))))).

Definition clamp_hop (c : Config) : Config :=
  with_hopSize c (Z.min (hopSize c) (windowSize c)).

(** [updateConfig(updates)]: the state after the call and how it ended. *)
Definition updateConfig (updates : Updates) (this : t) : t * Completion unit :=
  match update_window updates this with
  | (this1, Normal reinitWindow) =>
      let this2 := with_config this1 (update_fields updates (config this1)) in
      let this3 := if reinitWindow then resetBuffers this2 else this2 in
      (with_config this3 (clamp_hop (config this3)), Normal tt)
  | (this1, Throws) => (this1, Throws)
  | (this1, Loops) => (this1, Loops)
  end.

Definition merge {A : Type} (o : option A) (old : A) : A :=
  match o with Some v => v | None => old end.

(** [updateTuner(updates)]: [Object.assign(this.tunerConfig, updates)]. *)
Definition updateTuner (updates : TunerUpdates) (this : t) : t :=
  let c := tunerConfig this in
  with_tunerConfig this
    {| enabled := merge (tu_enabled updates) (enabled c);
       t_minHz := merge (tu_minHz updates) (t_minHz c);
       t_maxHz := merge (tu_maxHz updates) (t_maxHz c);
       minProminence := merge (tu_minProminence updates) (minProminence c);
       minRMS := merge (tu_minRMS updates) (minRMS c);
       reactivity := merge (tu_reactivity updates) (reactivity c) |}.

(** [setRunning(value)] *)
Definition setRunning (value : bool) (this : t) : t * list Event :=
  if Bool.eqb (running this) value then (this, [])
  else (with_running this value, [StateChange value]).

(** [start()] when the audio device is acquired, with the device's rate. *)
Definition start (deviceRate : R) (this : t) : t * list Event :=
  if running this then (this, [])
  else setRunning true (resetBuffers (with_sampleRate this deviceRate)).

(** [stop()] of a running processor. *)
Definition stop (this : t) : t * list Event :=
  let '(this1, evs) := setRunning false this in
  (resetBuffers this1, evs).

(** [typed.set(source, offset)]: a RangeError when the source does not fit. *)
Definition typed_set (dst src : list R) (offset : Z) : Completion (list R) :=
  if (Z.of_nat (length dst) <? offset + Z.of_nat (length src))%Z then Throws
  else Normal (firstn (Z.to_nat offset) dst
               ++ RealFFT.blit (skipn (Z.to_nat offset) dst) src).

Definition subarray (l : list R) (from to : Z) : list R :=
  firstn (Z.to_nat (to - from)) (skipn (Z.to_nat from) l).

Definition subarray_from (l : list R) (from : Z) : list R :=
  skipn (Z.to_nat from) l.

Definition window_step (windowFn : list R) (ab : list R) (i : Z) : list R :=
  set ab i (getR ab i * getR windowFn i).

Definition smooth_step (smoothing beta : R) (raw : list R) (cur : list R) (i : Z)
  : list R :=
  set cur i (smoothing * getR cur i + beta * getR raw i).

(** The smoothing of [processFrame]: the clamped factor and the loop over
    the twelve classes. *)
Definition smooth (cfg : Config) (raw cur : list R) : list R :=
  let smoothing := clamp (smoothing cfg) 0 0.999 in
  let beta := 1 - smoothing in
  fold_left (smooth_step smoothing beta raw) (range 0 11) cur.

Definition options_of (c : Config) : PitchClassComputer.Options :=
  PitchClassComputer.mkOptions (minHz c) (maxHz c) (pcdThreshold c)
                               (pcdNormalize c) (refA4 c).

(** The tuner part of [processFrame], for a positive sample rate and
    reference pitch (the logarithm of the source is infinite or NaN on a
    quotient that is not positive). *)
Definition find_primary (tc : TunerConfig) (cfg : Config) (rate rms : R)
  (magnitudes : list R) : option Primary :=
  if enabled tc && (if Rle_dec (minRMS tc) rms then true else false) then
    match PrimaryDetection.estimatePrimary magnitudes rate (t_minHz tc) (t_maxHz tc) with
    | Some est =>
        if Rle_dec (minProminence tc) (PrimaryDetection.prominenceDb est) then
          let midiReal := 69 + 12 * Math_log2 (PrimaryDetection.freq est / refA4 cfg) in
          let nearest := Math_round midiReal in
          let cents := (midiReal - IZR nearest) * 100 in
          let pitchClass := Z.rem (Z.rem nearest 12 + 12) 12 in
          Some {| p_freq := PrimaryDetection.freq est;
                  p_prominenceDb := PrimaryDetection.prominenceDb est;
                  cents := cents; pitchClass := pitchClass;
                  nearestMidi := nearest; midi := midiReal |}
        else None
    | None => None
    end
  else None.

(** The body of the [try] block of [processFrame]: the state it leaves and
    the detail it dispatches, or the state at the exception. *)
Definition analyse (this : t) : t * Completion Detail :=
  let cfg := config this in
  let windowSize := windowSize cfg in
  let start := Z.rem (writeIndex this) windowSize in
  let first := subarray_from (ringBuffer this) start in
  match typed_set (analysisBuffer this) first 0 with
  | Normal ab1 =>
    let second :=
      if (0 <? start)%Z
      then typed_set ab1 (subarray (ringBuffer this) 0 start)
                     (Z.of_nat (length first))
      else Normal ab1 in
    match second with
    | Normal ab2 =>
      let ab3 := fold_left (window_step (windowFn this)) (range 0 (windowSize - 1)) ab2 in
      let rms := frameRms ab3 in
      let this1 := with_lastRms (with_analysisBuffer this ab3) rms in
      match RealFFT.transform (fft this) ab3 with
      | Normal (fft1, magnitudes) =>
        let '(pc1, rawPcd) :=
          if Rle_dec (pcdMinRms cfg) rms
          then PitchClassComputer.compute (pcdComputer this) magnitudes
                 (sampleRate this) (options_of cfg)
          else PitchClassComputer.getSilentOutput (pcdComputer this) in
        let this2 := with_engines this1 fft1 pc1 in
        match typed_set (AudioProcessor.rawPcd this) rawPcd 0 with
        | Normal raw1 =>
          let cur1 := smooth cfg raw1 (currentPcd this) in
          let primary := find_primary (tunerConfig this) cfg (sampleRate this)
                                      rms magnitudes in
          (with_pcds this2 cur1 raw1,
           Normal {| pcd := cur1; d_rawPcd := raw1; rms := rms;
                     d_magnitudes := magnitudes; primary := primary;
                     d_sampleRate := sampleRate this |})
        | Throws => (this2, Throws)
        | Loops => (this2, Loops)
        end
      | Throws => (this1, Throws)
      | Loops => (this1, Loops)
      end
    | Throws => (with_analysisBuffer this ab1, Throws)
    | Loops => (with_analysisBuffer this ab1, Loops)
    end
  | Throws => (this, Throws)
  | Loops => (this, Loops)
  end.

(** [processFrame()]: the state after the call and the events dispatched. *)
Definition processFrame (this : t) : Completion (t * list Event) :=
  if negb (running this) then Normal (this, [])
  else
    match analyse this with
    | (this1, Normal detail) => Normal (this1, [Analysis detail])
    | (this1, Throws) => Normal (this1, [Error])
    | (_, Loops) => Loops
    end.

(** The body of the sample loop of [handleAudioFrame]; [windowSize] is the
    value read before the loop. *)
Definition sample_step (windowSize : Z) (acc : Completion (t * list Event))
  (sample : R) : Completion (t * list Event) :=
  bind acc (fun '(this, evs) =>
  let rb := set (ringBuffer this) (writeIndex this) sample in
  let wi := (writeIndex this + 1)%Z in
  let wi := if (wi >=? windowSize)%Z then 0%Z else wi in
  let fi := if (filled this <? windowSize)%Z then (filled this + 1)%Z else filled this in
  let hc := (hopCounter this + 1)%Z in
  if (hc >=? hopSize (config this))%Z && (fi >=? windowSize)%Z then
    bind (processFrame (with_cursor this rb wi fi 0))
         (fun '(this1, evs1) => Normal (this1, evs ++ evs1))
  else Normal (with_cursor this rb wi fi hc, evs)).

(** [handleAudioFrame(event)] on the samples [frame] of the event. *)
Definition handleAudioFrame (frame : list R) (this : t) : Completion (t * list Event) :=
  if negb (running this) then Normal (this, [])
  else fold_left (sample_step (windowSize (config this))) frame (Normal (this, [])).

End AudioProcessor.

(* ------------------------------------------------------------------ *)
(** ** The pitch-class mapper as the specification words it *)

Module Reference.

Import PitchClassComputer.

(** The pitch class of bin [k]: [round(69 + 12*log2(freq/refPitch)) mod 12]
    with [freq = k * sample_rate / (2 * length)]. *)
Definition pitch_class (length : Z) (sampleRate refPitch : R) (k : Z) : Z :=
  let bin_hz := sampleRate / (2 * IZR length) in
  let freq := IZR k * bin_hz in
  let midi := 69 + 12 * Math_log2 (freq / refPitch) in
  (Math_round midi mod 12)%Z.

Definition first_bin (length : Z) (sampleRate lowHz : R) : Z :=
  Z.max 1 (Math_floor (lowHz / (sampleRate / (2 * IZR length)))).

Definition last_bin (length : Z) (sampleRate highHz : R) : Z :=
  Z.min (length - 1) (Math_floor (highHz / (sampleRate / (2 * IZR length)))).

Definition exceeds (threshold : R) (mags : list R) (k : Z) : bool :=
  if Rlt_dec threshold (getR mags k) then true else false.

(** The power added to pitch class [c]: the sum of [magnitude^2] over the
    bins of the band whose magnitude exceeds the threshold and whose pitch
    class is [c]. *)
Definition accumulated (mags : list R) (sampleRate : R) (o : Options) (c : Z) : R :=
  let len := Z.of_nat (length mags) in
  sumR (map (fun k => getR mags k * getR mags k)
            (filter (fun k => exceeds (pcdThreshold o) mags k
                              && (pitch_class len sampleRate (refA4 o) k =? c)%Z)
                    (range (first_bin len sampleRate (minHz o))
                           (last_bin len sampleRate (maxHz o))))).

(** Raised to the normalization exponent when that is not 1. *)
Definition raised (mags : list R) (sampleRate : R) (o : Options) (c : Z) : R :=
  if Req_dec_T (pcdNormalize o) 1
  then accumulated mags sampleRate o c
  else Math_pow (accumulated mags sampleRate o c) (pcdNormalize o).

Definition total (mags : list R) (sampleRate : R) (o : Options) : R :=
  sumR (map (raised mags sampleRate o) (range 0 11)).

(** Scaled to sum to 1 when the sum is positive, all zero otherwise. *)
Definition compute (mags : list R) (sampleRate : R) (o : Options) : list R :=
  map (fun c => if Rlt_dec 0 (total mags sampleRate o)
                then raised mags sampleRate o c / total mags sampleRate o
                else 0)
      (range 0 11).

(** [compute] stays within the cells of its Float32 output buffer: every
    square it adds, every accumulated value and every value raised to the
    exponent is one that a cell holds. *)
Definition in_float32 (mags : list R) (sampleRate : R) (o : Options) : Prop :=
  let len := Z.of_nat (length mags) in
  (forall k,
     In k (range (first_bin len sampleRate (minHz o))
                 (last_bin len sampleRate (maxHz o))) ->
     exceeds (pcdThreshold o) mags k = true ->
     Float32.holds (getR mags k * getR mags k)) /\
  (forall c, (0 <= c <= 11)%Z ->
     Float32.holds (accumulated mags sampleRate o c) /\
     Float32.holds (raised mags sampleRate o c)).

(** The cached table, when there is one, is the table of the cached key. *)
Definition lookup_inv (this : t) : Prop :=
  match lookupTable this with
  | Some table =>
      table = build_table (prevLength this) (prevSampleRate this) (prevA4 this)
  | None => True
  end.

End Reference.

(* ------------------------------------------------------------------ *)
(** ** The search of the primary-pitch estimator as the specification
       words it *)

Module PrimaryReference.

(** The clamped search range
    [max(2, floor(minHz/bin_hz)) .. min(len-3, floor(maxHz/bin_hz))]. *)
Definition search_lo (len : Z) (sampleRate lowHz : R) : Z :=
  Z.max 2 (Math_floor (lowHz / (sampleRate / (2 * IZR len)))).

Definition search_hi (len : Z) (sampleRate highHz : R) : Z :=
  Z.min (len - 3) (Math_floor (highHz / (sampleRate / (2 * IZR len)))).

(** The maximum of a list; an empty list has none. *)
Definition maximum (l : list R) : option R :=
  match l with
  | [] => None
  | x :: rest => Some (fold_left Rmax rest x)
  end.

Definition range_maximum (mags : list R) (lo hi : Z) : option R :=
  maximum (map (getR mags) (range lo hi)).

(** The maximum is below the floor; an empty range counts as below. *)
Definition below_floor (m : option R) : Prop :=
  match m with
  | None => True
  | Some v => v < PrimaryDetection.floor_level
  end.

End PrimaryReference.

(* ------------------------------------------------------------------ *)
(** ** The properties the specification names *)

Module Invariants.

Import AudioProcessor.

(** The configuration invariant of the data model: [maxHz > minHz >= 0],
    a window that is a power of two at least 32, and a hop between 1 and
    the window. *)
Definition config_inv (c : Config) : Prop :=
  0 <= minHz c /\ minHz c < maxHz c /\
  (exists k, (5 <= k)%Z /\ windowSize c = (2 ^ k)%Z) /\
  (1 <= hopSize c <= windowSize c)%Z.

(** The buffers of the FFT engine have the size it records. *)
Definition fft_sized (st : RealFFT.t) : Prop :=
  (0 <= RealFFT.size st)%Z /\
  length (RealFFT.real st) = Z.to_nat (RealFFT.size st) /\
  length (RealFFT.imag st) = Z.to_nat (RealFFT.size st) /\
  length (RealFFT.magnitudes st) = Z.to_nat (Z.quot (RealFFT.size st) 2).

(** [n] is the smallest power of two that is at least [len]. *)
Definition next_pow2 (len n : Z) : Prop :=
  exists m, (0 <= m)%Z /\ n = (2 ^ m)%Z /\ (len <= n)%Z /\
            (m = 0%Z \/ (2 ^ (m - 1) < len)%Z).

(** A processor whose buffers fit its configuration, with a window the
    FFT engine can transform (at most 2^29 samples). *)
Definition ready (p : t) : Prop :=
  (1 <= windowSize (config p) <= 2 ^ 29)%Z /\
  length (ringBuffer p) = Z.to_nat (windowSize (config p)) /\
  length (analysisBuffer p) = Z.to_nat (windowSize (config p)) /\
  (0 <= writeIndex p < windowSize (config p))%Z /\
  length (currentPcd p) = 12%nat /\ length (rawPcd p) = 12%nat /\
  length (PitchClassComputer.output (pcdComputer p)) = 12%nat /\
  length (PitchClassComputer.zero (pcdComputer p)) = 12%nat /\
  Reference.lookup_inv (pcdComputer p) /\
  fft_sized (fft p).

(** The raw PCD of a hop, from the RMS and the magnitudes of its frame:
    the output of [compute] when the RMS passes the gate, zero otherwise. *)
Definition raw_of_hop (p : t) (rms : R) (magnitudes : list R) : list R :=
  if Rle_dec (pcdMinRms (config p)) rms
  then snd (PitchClassComputer.compute (pcdComputer p) magnitudes
              (sampleRate p) (options_of (config p)))
  else zeros 12.

(** A PCD vector: twelve values, none negative, summing to at most 1. *)
Definition pcd_bounded (l : list R) : Prop :=
  length l = 12%nat /\ Forall (fun x => 0 <= x) l /\ sumR l <= 1.

(** Successive calls of [handleAudioFrame], one for each chunk, with the
    events of all of them. *)
Fixpoint feed (frames : list (list R)) (p : t) : Completion (t * list Event) :=
  match frames with
  | [] => Normal (p, [])
  | frame :: rest =>
      bind (handleAudioFrame frame p) (fun '(p1, evs1) =>
      bind (feed rest p1) (fun '(p2, evs2) => Normal (p2, evs1 ++ evs2)))
  end.

(** The number of analysis events after [n] samples since a reset: none
    until the window is full, one when it fills, then one for every [hop]
    samples. *)
Definition events_after (window hop n : Z) : Z :=
  if (n <? window)%Z then 0%Z else (1 + (n - window) / hop)%Z.

(** The counters of a processor that has taken [n] samples since a reset. *)
Definition at_sample (n : Z) (p : t) : Prop :=
  let W := windowSize (config p) in
  let H := hopSize (config p) in
  filled p = Z.min n W /\
  hopCounter p = (if (n <? W)%Z then n else (n - W) mod H)%Z.

Definition raw_of (e : Event) : list R :=
  match e with Analysis d => d_rawPcd d | _ => [] end.

Definition is_analysis (e : Event) : Prop :=
  match e with Analysis _ => True | _ => False end.

(** An analysis event of a silent hop: zero PCD, zero raw PCD, no
    primary-pitch result. *)
Definition silent_event (e : Event) : Prop :=
  match e with
  | Analysis d => pcd d = zeros 12 /\ d_rawPcd d = zeros 12 /\ primary d = None
  | _ => False
  end.

(** The updates object [{ hopSize: h }]. *)
Definition hop_update (h : R) : Updates :=
  mkUpdates None (Some h) None None None None None None None.

(** The processor of the scenario of the specification: window 16384,
    hop 4096, started at 48000 Hz. *)
Definition scenario : t :=
  fst (start 48000 (fst (updateConfig (hop_update 4096) create))).

(** The fill counter after one more sample. *)
Definition filled_next (p : t) : Z :=
  if (filled p <? windowSize (config p))%Z then (filled p + 1)%Z else filled p.

(** The write cursor after one more sample. *)
Definition cursor_next (p : t) : Z :=
  if (writeIndex p + 1 >=? windowSize (config p))%Z then 0%Z
  else (writeIndex p + 1)%Z.

(** The sample completes a hop on a full window. *)
Definition fires (p : t) : bool :=
  (hopCounter p + 1 >=? hopSize (config p))%Z
  && (filled_next p >=? windowSize (config p))%Z.

(** The processor after the sample is stored, with hop counter [hc]. *)
Definition advanced (p : t) (sample : R) (hc : Z) : t :=
  with_cursor p (set (ringBuffer p) (writeIndex p) sample)
              (cursor_next p) (filled_next p) hc.

(** Both buffers have [n] cells. *)
Definition sized (n : nat) (bufs : list R * list R) : Prop :=
  length (fst bufs) = n /\ length (snd bufs) = n.

(** Both buffers are all zero. *)
Definition silent (n : nat) (bufs : list R * list R) : Prop :=
  fst bufs = zeros n /\ snd bufs = zeros n.

(** The updates object [{ windowSize: w }]. *)
Definition window_update (w : R) : Updates :=
  mkUpdates (Some w) None None None None None None None None.

(** What the run keeps: the bounds of the smoothed vector, the shape of
    every raw vector dispatched, and a smoothed vector that is zero while
    every raw vector was. *)
Definition pcd_inv (p : t) (evs : list Event) : Prop :=
  0 < sampleRate p /\ 0 < refA4 (config p) /\
  pcd_bounded (currentPcd p) /\
  Forall (fun e => is_analysis e /\ pcd_bounded (raw_of e) /\
                   (sumR (raw_of e) = 1 \/ raw_of e = zeros 12)) evs /\
  ((forall e, In e evs -> sumR (raw_of e) = 0) -> currentPcd p = zeros 12).

(** A spectrum of 16 bins at 48 kHz with all its energy in bin 1
    (1500 Hz). *)
Definition one_bin_spectrum : list R :=
  [0; 1; 0; 0; 0; 0; 0; 0; 0; 0; 0; 0; 0; 0; 0; 0].

(** What the run keeps of the counters and of the number of events. *)
Definition count_inv (n : Z) (p : t) (evs : list Event) : Prop :=
  (0 <= n)%Z /\
  (1 <= hopSize (config p) <= windowSize (config p))%Z /\
  at_sample n p /\
  Z.of_nat (length evs)
  = events_after (windowSize (config p)) (hopSize (config p)) n /\
  Forall is_analysis evs.

(** What a run on silence keeps. *)
Definition silent_inv (p : t) (evs : list Event) : Prop :=
  ringBuffer p = zeros (length (ringBuffer p)) /\
  currentPcd p = zeros 12 /\ 0 < pcdMinRms (config p) /\
  Forall silent_event evs.

(** One hop of silence of the scenario: 4096 samples. *)
Definition silent_hop : list R := zeros (Z.to_nat 4096).

(** An updates object that carries [windowSize] only. *)
Definition window_only (u : Updates) : Prop :=
  u_hopSize u = None /\ u_minHz u = None /\ u_maxHz u = None /\
  u_smoothing u = None /\ u_pcdMinRms u = None /\ u_pcdThreshold u = None /\
  u_pcdNormalize u = None /\ u_refA4 u = None.



(** The engine of [q] is that of [p]: configuration, tuner, sample rate,
    FFT engine, pitch-class mapper, window table and both PCD vectors. *)
Definition same_engine (p q : t) : Prop :=
  config q = config p /\ tunerConfig q = tunerConfig p /\
  sampleRate q = sampleRate p /\ fft q = fft p /\
  pcdComputer q = pcdComputer p /\ windowFn q = windowFn p /\
  currentPcd q = currentPcd p /\ rawPcd q = rawPcd p.



(** [new AudioProcessor(config)] for a configuration object that gives
    every audio key and no tuner key, with a window that is not
    negative. *)
Definition construct (c : Config) : t :=
  let n := windowSize c in
  mk c DEFAULT_TUNER_CONFIG 48000 false
     RealFFT.create PitchClassComputer.create
     (window_or_empty n) (zeros (Z.to_nat n)) (zeros (Z.to_nat n))
     0 0 0 (zeros 12) (zeros 12) 0.

(** The default configuration with the smallest window, 32 samples, one
    hop for each window, and the smoothing factor [s]. *)
Definition small_config (s : R) : Config :=
  {| windowSize := 32; hopSize := 32; minHz := 50; maxHz := 5000;
     smoothing := s; pcdMinRms := 0.001; pcdThreshold := 0.005;
     pcdNormalize := 1; refA4 := 440 |}.

(** The processor constructed with it and started at 48 kHz. *)
Definition small (s : R) : t := fst (start 48000 (construct (small_config s))).

(** One window of audio: silence but for a click, the sample 16 of 32. *)
Definition click : list R := set (zeros 32) 16 1.

(** The weight of the window table of 32 entries at the click. *)
Definition click_weight : R := getR (window_or_empty 32) 16.

(** The processor [small s] at the call of [processFrame] that follows
    the last sample of a click, with the smoothed vector [cur] that
    earlier hops have left. *)
Definition primed (s : R) (cur : list R) : t :=
  with_pcds (with_cursor (small s) click 0 32 0) cur (zeros 12).

(** [primed] after [updateTuner({ maxHz: 5000, minProminence: 0 })]. *)
Definition tuned : t :=
  updateTuner (mkTunerUpdates None None (Some 5000) (Some 0) None None)
              (primed 0.6 (zeros 12)).

(** A processor in the middle of a stream: the default configuration,
    running, with a cursor, counters, buffers, smoothed and raw PCD and
    RMS that are not zero. *)
Definition mid_stream : t :=
  mk DEFAULT_AUDIO_CONFIG DEFAULT_TUNER_CONFIG 48000 true
     RealFFT.create PitchClassComputer.create
     (window_or_empty 16384)
     (repeat (/ 2) (Z.to_nat 16384)) (repeat (/ 4) (Z.to_nat 16384))
     100 16384 7
     [0.4; 0.6; 0; 0; 0; 0; 0; 0; 0; 0; 0; 0]
     [1; 0; 0; 0; 0; 0; 0; 0; 0; 0; 0; 0]
     0.2.

End Invariants.

(* ------------------------------------------------------------------ *)
(** ** audio/windowing.js: the cache of window tables *)

Module WindowCache.

(** The module-level [windowCache], a [Map] from sizes to tables, as the
    list of its entries in insertion order. *)
Definition Cache : Type := list (Z * list R).

(** [windowCache.has(size)] and [windowCache.get(size)]. *)
Fixpoint lookup (cache : Cache) (size : Z) : option (list R) :=
  match cache with
  | [] => None
  | (k, w) :: rest => if (k =? size)%Z then Some w else lookup rest size
  end.

(** [windowCache.set(size, window)]: the value of a key that is present is
    replaced, a new key is added at the end. *)
Fixpoint store (cache : Cache) (size : Z) (window : list R) : Cache :=
  match cache with
  | [] => [(size, window)]
  | (k, w) :: rest =>
      if (k =? size)%Z then (k, window) :: rest
      else (k, w) :: store rest size window
  end.

(** [hannWindow(size)] with the cache: the cache after the call and the
    table returned.  The table of a miss is computed as
    [Windowing.hannWindow] does. *)
Definition hannWindow (cache : Cache) (size : Z) : Cache * Completion (list R) :=
  match lookup cache size with
  | Some w => (cache, Normal w)
  | None =>
      match Windowing.hannWindow size with
      | Normal window => (store cache size window, Normal window)
      | Throws => (cache, Throws)
      | Loops => (cache, Loops)
      end
  end.

(** [clearWindowCache()] *)
Definition clearWindowCache (cache : Cache) : Cache := [].

(** Every table of the cache is the table of its size. *)
Definition coherent (cache : Cache) : Prop :=
  forall k w, lookup cache k = Some w -> Windowing.hannWindow k = Normal w.

End WindowCache.

(* ------------------------------------------------------------------ *)
(** ** pcd-dft.js: the 12-point transform of a PCD vector *)

Module PcdDft.

(** [Math.atan2(y, x)] on real numbers (the sign of a zero, which selects
    between [PI] and [-PI] on the negative axis, is outside the model: a
    zero [y] with a negative [x] gives [PI]). *)
Definition Math_atan2 (y x : R) : R :=
  if Rlt_dec 0 x then atan (y / x)
  else if Rlt_dec x 0 then
    (if Rle_dec 0 y then atan (y / x) + PI else atan (y / x) - PI)
  else if Rlt_dec 0 y then PI / 2
  else if Rlt_dec y 0 then - (PI / 2)
  else 0.

(** [arr.reduce((a, b) => a + b, 0)] *)
Definition reduce_sum (arr : list R) : R := fold_left Rplus arr 0.

(** [normalize12(arr)] *)
Definition normalize12 (arr : list R) : list R :=
  let sum := reduce_sum arr in
  if Req_dec_T sum 0 then arr else map (fun v => v / sum) arr.

Record FrequencyDomain : Type := mkFrequencyDomain {
  amplitudes : list R;
  phases : list R;
  normalizedInput : list R
}.

(** The body of the [t] loop of the forward transform. *)
Definition forward_step (normalized : list R) (base : R) (acc : R * R) (t : Z)
  : R * R :=
  let '(re, im) := acc in
  let angle := base * IZR t in
  (re + getR normalized t * cos angle, im + getR normalized t * sin angle).

(** The body of the [k] loop of the forward transform. *)
Definition forward_bin (normalized : list R) (acc : list R * list R) (k : Z)
  : list R * list R :=
  let '(amplitudes, phases) := acc in
  let base := -2 * PI * IZR k / 12 in
  let '(re, im) := fold_left (forward_step normalized base) (range 0 11) (0, 0) in
  (set amplitudes k (sqrt (re * re + im * im)),
   set phases k (Math_atan2 im re)).

(** [pcdToFrequencyDomain(pcdValues)] on an array; [new Array(7)] is a
    list of seven cells, all of them written by the loop. *)
Definition pcdToFrequencyDomain (pcdValues : list R) : Completion FrequencyDomain :=
  if negb (length pcdValues =? 12)%nat then Throws
  else
    let sum := reduce_sum pcdValues in
    let normalized :=
      if Req_dec_T sum 0 then pcdValues else map (fun v => v / sum) pcdValues in
    let '(amplitudes, phases) :=
      fold_left (forward_bin normalized) (range 0 6) (zeros 7, zeros 7) in
    Normal {| amplitudes := amplitudes; phases := phases;
              normalizedInput := normalized |}.

(** The first loop of the inverse transform: the bins 0 to 6. *)
Definition fill_positive (amplitudes phases : list R) (spectrum : list (R * R))
  (k : Z) : list (R * R) :=
  set spectrum k (getR amplitudes k * cos (getR phases k),
                  getR amplitudes k * sin (getR phases k)).

(** The second loop: the conjugates, at [N - k]. *)
Definition fill_negative (spectrum : list (R * R)) (k : Z) : list (R * R) :=
  let s := get (0, 0) spectrum k in
  set spectrum (12 - k) (fst s, - snd s).

(** The body of the [k] loop of the inverse transform, at time [t]. *)
Definition inverse_step (spectrum : list (R * R)) (t : Z) (re : R) (k : Z) : R :=
  let angle := 2 * PI * IZR k * IZR t / 12 in
  let s := get (0, 0) spectrum k in
  re + (fst s * cos angle - snd s * sin angle).

(** [frequencyDomainToPcd(amplitudes, phases)] *)
Definition frequencyDomainToPcd (amplitudes phases : list R)
  : Completion (list R) :=
  if negb (length amplitudes =? 7)%nat then Throws
  else if negb (length phases =? 7)%nat then Throws
  else
    let spectrum0 := repeat (0, 0) 12 in
    let spectrum1 := fold_left (fill_positive amplitudes phases) (range 0 6) spectrum0 in
    let spectrum := fold_left fill_negative (range 1 5) spectrum1 in
    Normal (fold_left
              (fun reconstructed t =>
                 set reconstructed t
                     (fold_left (inverse_step spectrum t) (range 0 11) 0 / 12))
              (range 0 11) (zeros 12)).

End PcdDft.

(* ------------------------------------------------------------------ *)
(** ** The 12-point discrete Fourier transform, as mathematics has it *)

Module DftReference.

(** The real and the imaginary part of
    [X_k = sum_s x_s * exp(-2*pi*i*k*s/12)]. *)
Definition bin_re (x : list R) (k : Z) : R :=
  sumR (map (fun s => getR x s * cos (2 * PI * IZR k * IZR s / 12)) (range 0 11)).

Definition bin_im (x : list R) (k : Z) : R :=
  - sumR (map (fun s => getR x s * sin (2 * PI * IZR k * IZR s / 12)) (range 0 11)).

(** A PCD vector as the forward transform expects it: twelve values, none
    negative, with a positive sum. *)
Definition distribution (x : list R) : Prop :=
  length x = 12%nat /\ Forall (fun v => 0 <= v) x /\ 0 < sumR x.

End DftReference.

(* ------------------------------------------------------------------ *)
(** ** TorusVisualizer: where a point of the torus is drawn *)

Module TorusVisualizer.

Definition TORUS_MAJOR_RADIUS : R := 1.
Definition TORUS_MINOR_RADIUS : R := 0.3.

(** [toroidalToCartesian(pha5, pha3, mag3)]: the coordinates of the
    [THREE.Vector3] it returns. *)
Definition toroidalToCartesian (pha5 pha3 mag3 : R) : R * R * R :=
  let tubeRadius := mag3 * TORUS_MINOR_RADIUS in
  let majorX := TORUS_MAJOR_RADIUS * cos pha5 in
  let majorZ := TORUS_MAJOR_RADIUS * sin pha5 in
  let x := majorX + tubeRadius * cos pha3 * cos pha5 in
  let y := tubeRadius * sin pha3 in
  let z := majorZ + tubeRadius * cos pha3 * sin pha5 in
  (x, y, z).

(** The position that [updateFromAudio] gives the sphere for a transform
    result: the phases of the bins 5 and 3 and the amplitude of bin 3. *)
Definition audio_position (dftResult : PcdDft.FrequencyDomain) : R * R * R :=
  let pha5 := getR (PcdDft.phases dftResult) 5 in
  let pha3 := getR (PcdDft.phases dftResult) 3 in
  let mag3 := getR (PcdDft.amplitudes dftResult) 3 in
  toroidalToCartesian pha5 pha3 mag3.

End TorusVisualizer.

(* ------------------------------------------------------------------ *)
(** ** script.js: the tuning needle *)

Module Script.

Import AudioProcessor.

(** The fields of [RING] that place the needle. *)
Definition baseRotation : R := - PI / 2.
Definition gapRadians : R := 0.02.

(** The size of an angle difference up to which the model follows the
    loops of [wrapDiff].  On the doubles of the source [d - 2*Math.PI] is
    [d] again once [d] reaches 2^56, and the loop no longer ends; far
    below that the rounding of each subtraction is small, and the model,
    which subtracts exactly, is followed up to rounding. *)
Definition max_difference : R := 65536.

(** [while (d > Math.PI) d -= 2*Math.PI;] *)
Fixpoint wrap_down (fuel : nat) (d : R) : Completion R :=
  if Rlt_dec PI d then
    match fuel with
    | O => Loops
    | S f => wrap_down f (d - 2 * PI)
    end
  else Normal d.

(** [while (d < -Math.PI) d += 2*Math.PI;] *)
Fixpoint wrap_up (fuel : nat) (d : R) : Completion R :=
  if Rlt_dec d (- PI) then
    match fuel with
    | O => Loops
    | S f => wrap_up f (d + 2 * PI)
    end
  else Normal d.

(** [wrapDiff(target, current)], with the fuel of each of its loops. *)
Definition wrapDiff (fuel : nat) (target current : R) : Completion R :=
  bind (wrap_down fuel (target - current)) (wrap_up fuel).

(** The variables [needleAngleSm] and [centsSm] of the page: [null] or a
    number. *)
Record Needle : Type := mkNeedle {
  needleAngleSm : option R;
  centsSm : option R
}.

(** The angle at which the needle points for a tuner reading: the middle
    of the wedge of its pitch class, moved by its deviation. *)
Definition angleRaw (userRotation : R) (pr : Primary) : R :=
  let slice := PI * 2 / 12 in
  let pc := IZR (pitchClass pr) in
  let a0 := baseRotation + userRotation + pc * slice + gapRadians / 2 in
  let a1 := a0 + slice - gapRadians in
  let mid := (a0 + a1) / 2 in
  mid + cents pr / 100 * slice.

(** What the listener of the [analysis] event does to the needle, for the
    [primary] of the event, the rotation of the ring and
    [TUNER.reactivity] (its writes to the page are left out). *)
Definition on_analysis (fuel : nat) (reactivity userRotation : R)
  (primary : option Primary) (n : Needle) : Completion Needle :=
  match primary with
  | Some pr =>
      let raw := angleRaw userRotation pr in
      let angle0 := match needleAngleSm n with None => raw | Some a => a end in
      let cents0 := match centsSm n with None => cents pr | Some c => c end in
      let step := Rmax 0.05 (Rmin 1 reactivity) in
      bind (wrapDiff fuel raw angle0) (fun dAng =>
      Normal {| needleAngleSm := Some (angle0 + step * dAng);
                centsSm := Some (cents0 + step * (cents pr - cents0)) |})
  | None => Normal {| needleAngleSm := None; centsSm := None |}
  end.

End Script.

(* ------------------------------------------------------------------ *)
(** ** The discrete Fourier transform and the bit reversal, as
       mathematics has them *)

Module FftReference.

(** [p] with its [w] low bits in the reverse order. *)
Fixpoint rev (w : nat) (p : Z) : Z :=
  match w with
  | O => 0%Z
  | S w' => (rev w' (p / 2) + (p mod 2) * 2 ^ Z.of_nat w')%Z
  end.

(** The real and the imaginary part of
    [X_k = sum_{t < N} x_t * exp(-2*pi*i*k*t/N)] for a real sequence. *)
Definition dft_re (x : Z -> R) (N k : Z) : R :=
  sumR (map (fun t => x t * cos (2 * PI * IZR k * IZR t / IZR N))
            (range 0 (N - 1))).

Definition dft_im (x : Z -> R) (N k : Z) : R :=
  - sumR (map (fun t => x t * sin (2 * PI * IZR k * IZR t / IZR N))
              (range 0 (N - 1))).

(** The transform as a pair, and the frame continued with zeros. *)
Definition dft (x : Z -> R) (N k : Z) : R * R := (dft_re x N k, dft_im x N k).

Definition padded (signal : list R) (t : Z) : R :=
  if (t <? Z.of_nat (length signal))%Z then getR signal t else 0.

(** The table of the engine is the bit-reversal table of its size. *)
Definition table_inv (st : RealFFT.t) : Prop :=
  length (RealFFT.bitRevTable st) = Z.to_nat (RealFFT.size st) /\
  (RealFFT.size st = 0%Z \/
   exists m : nat,
     RealFFT.size st = (2 ^ Z.of_nat m)%Z /\
     forall i, (0 <= i < RealFFT.size st)%Z ->
               getZ (RealFFT.bitRevTable st) i = rev m i).

(** An engine as the constructor and [transform] leave it. *)
Definition fft_ok (st : RealFFT.t) : Prop :=
  Invariants.fft_sized st /\ table_inv st.

(** The cell [p] of a pair of buffers, as a complex number. *)
Definition cell (bufs : list R * list R) (p : Z) : R * R :=
  (getR (fst bufs) p, getR (snd bufs) p).

Definition cadd (a b : R * R) : R * R := (fst a + fst b, snd a + snd b).
Definition csub (a b : R * R) : R * R := (fst a - fst b, snd a - snd b).
Definition cmul (a b : R * R) : R * R :=
  (fst a * fst b - snd a * snd b, fst a * snd b + snd a * fst b).

(** The twiddle factor [exp(i*k*ang)]. *)
Definition twiddle (ang : R) (k : Z) : R * R :=
  (cos (IZR k * ang), sin (IZR k * ang)).

(** What one stage of butterflies of length [len] makes of the cells. *)
Definition stage_fn (len : Z) (f : Z -> R * R) (p : Z) : R * R :=
  let half := (len / 2)%Z in
  let k := (p mod len)%Z in
  let ang := -2 * PI / IZR len in
  if (k <? half)%Z
  then cadd (f p) (cmul (f (p + half)%Z) (twiddle ang k))
  else csub (f (p - half)%Z) (cmul (f p) (twiddle ang (k - half))).

(** The buffers after the stages up to block length [2^j], of [2^d]
    blocks: block [b] holds the transform of the [2^j] terms of [x] that
    start at the reverse of [b] and lie [2^d] apart. *)
Definition staged (x : Z -> R) (j d : nat) (bufs : list R * list R) : Prop :=
  forall b k, (0 <= b < 2 ^ Z.of_nat d)%Z -> (0 <= k < 2 ^ Z.of_nat j)%Z ->
    cell bufs (b * 2 ^ Z.of_nat j + k)
    = dft (fun t => x (rev d b + t * 2 ^ Z.of_nat d)%Z) (2 ^ Z.of_nat j) k.

End FftReference.

(* ------------------------------------------------------------------ *)
(** ** Further properties of the orchestrator *)

Module Properties.

Import AudioProcessor.

(** The ranges into which [updateConfig] clamps the levels. *)
Definition levels_inv (c : Config) : Prop :=
  0 <= smoothing c <= 0.999 /\ 0 <= pcdMinRms c /\ 0 <= pcdThreshold c /\
  0.1 <= pcdNormalize c /\ 1 <= refA4 c.

(** The window of [p] is the one the updates ask for: no [windowSize] key,
    a zero, the stored size, or a size that rounds to the stored one. *)
Definition window_settled (u : Updates) (p : t) : Prop :=
  forall w, u_windowSize u = Some w ->
    w = 0 \/ w = IZR (windowSize (config p))
    \/ toPowerOfTwo w = windowSize (config p).

(** The stream state: the ring buffer with its counters, the analysis
    buffer, both PCD vectors and the last RMS. *)
Definition same_stream (p q : t) : Prop :=
  ringBuffer q = ringBuffer p /\ writeIndex q = writeIndex p /\
  filled q = filled p /\ hopCounter q = hopCounter p /\
  analysisBuffer q = analysisBuffer p /\ windowFn q = windowFn p /\
  currentPcd q = currentPcd p /\ rawPcd q = rawPcd p /\
  lastRms q = lastRms p.

(** The ring buffer holds the last [windowSize] samples of the stream
    [hist], sample number [j] in cell [j mod windowSize], and the cursor is
    at the cell of the next sample. *)
Definition ring_holds (hist : list R) (p : t) : Prop :=
  let W := windowSize (config p) in
  let n := Z.of_nat (length hist) in
  writeIndex p = (n mod W)%Z /\
  forall j, (0 <= j < n)%Z -> (n - W <= j)%Z ->
            getR (ringBuffer p) (j mod W) = getR hist j.

(** The analysis buffer holds the last [windowSize] samples of [hist],
    the oldest first, each multiplied by its entry of the window table;
    the last RMS is the RMS of that buffer. *)
Definition frame_is_recent (hist : list R) (p : t) : Prop :=
  let W := windowSize (config p) in
  let n := Z.of_nat (length hist) in
  (forall i, (0 <= i < W)%Z ->
     getR (analysisBuffer p) i = getR hist (n - W + i) * getR (windowFn p) i) /\
  lastRms p = frameRms (analysisBuffer p).

(** What a run keeps of the ring: the counters, the contents, and the
    frame analysed when the last sample completed a hop. *)
Definition ring_inv (hist : list R) (p : t) : Prop :=
  let W := windowSize (config p) in
  let n := Z.of_nat (length hist) in
  (1 <= hopSize (config p) <= W)%Z /\
  Invariants.at_sample n p /\
  ring_holds hist p /\
  ((W <= n)%Z -> hopCounter p = 0%Z -> frame_is_recent hist p).

(** The options with another magnitude threshold. *)
Definition with_threshold (o : PitchClassComputer.Options) (thr : R)
  : PitchClassComputer.Options :=
  PitchClassComputer.mkOptions
    (PitchClassComputer.minHz o) (PitchClassComputer.maxHz o) thr
    (PitchClassComputer.pcdNormalize o) (PitchClassComputer.refA4 o).

End Properties.

(* ------------------------------------------------------------------ *)
(** * Facts about the primitives *)

Module JSFacts.

Lemma wrap32_small (z : Z) :
  (- 2 ^ 31 <= z < 2 ^ 31)%Z -> wrap32 z = z.
Proof.
  intros H. unfold wrap32. rewrite Z.mod_small; lia.
Qed.

Lemma shl_small (a n : Z) :
  (0 <= n < 32)%Z -> (- 2 ^ 31 <= a < 2 ^ 31)%Z ->
  (- 2 ^ 31 <= a * 2 ^ n < 2 ^ 31)%Z -> shl a n = (a * 2 ^ n)%Z.
Proof.
  intros Hn Ha Hr. unfold shl.
  rewrite (Z.mod_small n) by lia.
  rewrite (wrap32_small a) by exact Ha.
  apply wrap32_small; exact Hr.
Qed.

Lemma shl_1 (a : Z) : (0 <= a < 2 ^ 30)%Z -> shl a 1 = (2 * a)%Z.
Proof.
  intros H. rewrite shl_small; lia.
Qed.

Lemma sar_1 (a : Z) : (- 2 ^ 31 <= a < 2 ^ 31)%Z -> sar a 1 = (a / 2)%Z.
Proof.
  intros H. unfold sar. rewrite wrap32_small by exact H.
  change (1 mod 32)%Z with 1%Z. rewrite Z.shiftr_div_pow2 by lia.
  reflexivity.
Qed.

Lemma band_0_r (j : Z) : band j 0 = 0%Z.
Proof.
  unfold band. change (wrap32 0) with 0%Z. apply Z.land_0_r.
Qed.

Lemma length_set_nat {A : Type} (l : list A) (i : nat) (v : A) :
  length (set_nat l i v) = length l.
Proof.
  revert i; induction l as [|h t IH]; intros [|i]; simpl; auto.
Qed.

Lemma length_set {A : Type} (l : list A) (i : Z) (v : A) :
  length (set l i v) = length l.
Proof.
  unfold set. destruct (i <? 0)%Z; auto using length_set_nat.
Qed.

Lemma nth_set_nat_eq {A : Type} (d : A) (l : list A) (i : nat) (v : A) :
  (i < length l)%nat -> nth i (set_nat l i v) d = v.
Proof.
  revert i; induction l as [|h t IH]; intros [|i] H; simpl in *;
    try lia; auto. apply IH; lia.
Qed.

Lemma nth_set_nat_neq {A : Type} (d : A) (l : list A) (i j : nat) (v : A) :
  i <> j -> nth j (set_nat l i v) d = nth j l d.
Proof.
  revert i j; induction l as [|h t IH]; intros [|i] [|j] H; simpl;
    try congruence; auto.
Qed.

Lemma get_set_eq {A : Type} (d : A) (l : list A) (i : Z) (v : A) :
  (0 <= i < Z.of_nat (length l))%Z -> get d (set l i v) i = v.
Proof.
  intros H. unfold get, set.
  destruct (i <? 0)%Z eqn:E; [lia|].
  apply nth_set_nat_eq; lia.
Qed.

Lemma get_set_neq {A : Type} (d : A) (l : list A) (i j : Z) (v : A) :
  i <> j -> get d (set l i v) j = get d l j.
Proof.
  intros H. unfold get, set.
  destruct (j <? 0)%Z eqn:Ej; auto.
  destruct (i <? 0)%Z eqn:Ei; auto.
  apply nth_set_nat_neq. lia.
Qed.


Lemma set_outside {A : Type} (l : list A) (i : Z) (v : A) :
  (i < 0 \/ Z.of_nat (length l) <= i)%Z -> set l i v = l.
Proof.
  intros H. unfold set. destruct (i <? 0)%Z eqn:E; auto.
  assert (Hn : (length l <= Z.to_nat i)%nat) by lia.
  clear H E. revert Hn. generalize (Z.to_nat i) as n.
  induction l as [|h t IH]; intros [|n] Hn; simpl in *; auto; try lia.
  f_equal. apply IH. lia.
Qed.

Lemma set_nat_repeat {A : Type} (x : A) (n i : nat) :
  set_nat (repeat x n) i x = repeat x n.
Proof.
  revert i; induction n as [|n IH]; intros [|i]; simpl; auto.
  f_equal; apply IH.
Qed.

Lemma set_zeros (n : nat) (i : Z) : set (zeros n) i 0 = zeros n.
Proof.
  unfold set, zeros. destruct (i <? 0)%Z; auto using set_nat_repeat.
Qed.

Lemma nth_repeat_any {A : Type} (x : A) (n i : nat) : nth i (repeat x n) x = x.
Proof.
  revert i; induction n as [|n IH]; intros [|i]; simpl; auto.
Qed.

Lemma getR_zeros (n : nat) (i : Z) : getR (zeros n) i = 0.
Proof.
  unfold getR, get, zeros. destruct (i <? 0)%Z; auto using nth_repeat_any.
Qed.

Lemma length_zeros (n : nat) : length (zeros n) = n.
Proof. apply repeat_length. Qed.


Lemma range_nil (lo hi : Z) : (hi < lo)%Z -> range lo hi = [].
Proof.
  intros H. unfold range.
  replace (Z.to_nat (hi - lo + 1)) with 0%nat by lia. reflexivity.
Qed.

Lemma range_cons (lo hi : Z) :
  (lo <= hi)%Z -> range lo hi = lo :: range (lo + 1) hi.
Proof.
  intros H. unfold range.
  replace (Z.to_nat (hi - lo + 1)) with (S (Z.to_nat (hi - (lo + 1) + 1))) by lia.
  rewrite <- cons_seq, <- seq_shift, map_cons, map_map.
  f_equal; [lia|]. apply map_ext. intros a. lia.
Qed.

Lemma range_snoc (lo hi : Z) :
  (lo <= hi)%Z -> range lo hi = range lo (hi - 1) ++ [hi].
Proof.
  intros H. unfold range.
  replace (Z.to_nat (hi - lo + 1)) with (Z.to_nat (hi - 1 - lo + 1) + 1)%nat by lia.
  rewrite seq_app, map_app. simpl. f_equal. f_equal. lia.
Qed.

Lemma In_range (lo hi k : Z) : In k (range lo hi) <-> (lo <= k <= hi)%Z.
Proof.
  unfold range. rewrite in_map_iff. split.
  - intros [i [<- Hi]]. apply in_seq in Hi. lia.
  - intros H. exists (Z.to_nat (k - lo)). split; [lia|].
    apply in_seq. lia.
Qed.

Lemma sumR_app (a b : list R) : sumR (a ++ b) = sumR a + sumR b.
Proof.
  induction a as [|x a IH]; simpl; [lra|]. unfold sumR in *. simpl.
  rewrite IH. lra.
Qed.

Lemma sumR_zeros (n : nat) : sumR (zeros n) = 0.
Proof.
  induction n as [|n IH]; simpl; auto. unfold sumR, zeros in *. simpl.
  rewrite IH. lra.
Qed.

Lemma sumR_nonneg (l : list R) : Forall (fun x => 0 <= x) l -> 0 <= sumR l.
Proof.
  induction 1 as [|x l Hx Hl IH]; simpl; [lra|].
  unfold sumR in *; simpl. lra.
Qed.

Lemma bind_normal {A B : Type} (c : Completion A) (k : A -> Completion B) (b : B) :
  bind c k = Normal b -> exists a, c = Normal a /\ k a = Normal b.
Proof.
  destruct c; simpl; intros H; try discriminate. eauto.
Qed.

End JSFacts.

(* ------------------------------------------------------------------ *)
(** * Counting loops that write one cell per round *)

Module LoopFacts.

Import JSFacts.

Section Pointwise.

Variable A : Type.
Variable d : A.
(** The value written at index [i], from the value found there. *)
Variable g : Z -> A -> A.

Lemma fold_cell_length (ks : list Z) (init : list A) :
  length (fold_left (cell_step d g) ks init) = length init.
Proof.
  revert init; induction ks as [|k ks IH]; intros init; simpl; auto.
  rewrite IH. apply length_set.
Qed.

Lemma fold_cell_untouched (ks : list Z) (init : list A) (k : Z) :
  ~ In k ks -> get d (fold_left (cell_step d g) ks init) k = get d init k.
Proof.
  revert init; induction ks as [|j ks IH]; intros init Hk; simpl; auto.
  rewrite IH by (intros H; apply Hk; right; exact H).
  apply get_set_neq. intros ->. apply Hk. left. reflexivity.
Qed.

Lemma fold_cell_range (lo hi : Z) (init : list A) (k : Z) :
  (lo <= k <= hi)%Z -> (0 <= k < Z.of_nat (length init))%Z ->
  get d (fold_left (cell_step d g) (range lo hi) init) k = g k (get d init k).
Proof.
  intros Hk Hb.
  remember (Z.to_nat (hi - lo + 1)) as n eqn:Hn.
  revert lo init Hk Hb Hn. induction n as [|n IH]; intros lo init Hk Hb Hn.
  - lia.
  - rewrite range_cons by lia. simpl.
    destruct (Z.eq_dec k lo) as [->|Hne].
    + rewrite fold_cell_untouched by (rewrite In_range; lia).
      unfold cell_step. apply get_set_eq. exact Hb.
    + rewrite IH; try lia.
      * unfold cell_step. rewrite get_set_neq by congruence. reflexivity.
      * unfold cell_step. rewrite length_set. exact Hb.
Qed.

End Pointwise.

(** A list of twelve cells, spelled out. *)
Lemma twelve {A : Type} (l : list A) :
  length l = 12%nat ->
  exists a0 a1 a2 a3 a4 a5 a6 a7 a8 a9 a10 a11,
    l = [a0; a1; a2; a3; a4; a5; a6; a7; a8; a9; a10; a11].
Proof.
  intros H.
  do 12 (destruct l as [|? l]; [discriminate|]).
  destruct l; [|discriminate].
  repeat eexists.
Qed.

End LoopFacts.

(* ------------------------------------------------------------------ *)
(** * The configuration surface: [toPowerOfTwo], [updateConfig],
      [updateTuner] *)

Module ConfigFacts.

Import AudioProcessor JSFacts.

Lemma ln2_pos : 0 < ln 2.
Proof. generalize ln_lt_2; lra. Qed.

Lemma ln_le_mono (x y : R) : 0 < x -> x <= y -> ln x <= ln y.
Proof.
  intros Hx [H| ->]; [left; apply ln_increasing; assumption | right; reflexivity].
Qed.

Lemma ln_pow2 (n : Z) : (0 <= n)%Z -> ln (IZR (2 ^ n)) = IZR n * ln 2.
Proof.
  intros Hn. rewrite <- (Z2Nat.id n) at 1 by exact Hn.
  rewrite <- pow_IZR, ln_pow by lra.
  rewrite INR_IZR_INZ, Z2Nat.id by exact Hn. reflexivity.
Qed.

(** [Math.round(Math.log2(c))] on an integer, by integer comparisons:
    it is [e] exactly when [2^(e - 1/2) <= c < 2^(e + 1/2)]. *)
Lemma round_log2 (c e : Z) :
  (0 < c)%Z -> (0 <= e)%Z ->
  (2 ^ (2 * e) <= 2 * (c * c))%Z -> (c * c < 2 * 2 ^ (2 * e))%Z ->
  Math_round (Math_log2 (IZR c)) = e.
Proof.
  intros Hc He Hlo Hhi. unfold Math_round, Math_log2.
  assert (Hc' : 0 < IZR c) by (apply IZR_lt; exact Hc).
  assert (Hp : (0 < 2 ^ (2 * e))%Z) by (apply Z.pow_pos_nonneg; lia).
  assert (H2 : ln (IZR (2 ^ (2 * e))) = 2 * IZR e * ln 2).
  { rewrite ln_pow2 by lia. rewrite mult_IZR. reflexivity. }
  assert (Hcc : ln (IZR (c * c)) = 2 * ln (IZR c)).
  { rewrite mult_IZR, ln_mult by assumption. lra. }
  assert (Hlo' : ln (IZR (2 ^ (2 * e))) <= ln (IZR (2 * (c * c)))).
  { apply ln_le_mono; [apply IZR_lt; exact Hp | apply IZR_le; exact Hlo]. }
  assert (Hhi' : ln (IZR (c * c)) < ln (IZR (2 * 2 ^ (2 * e)))).
  { apply ln_increasing; [apply IZR_lt; nia | apply IZR_lt; exact Hhi]. }
  rewrite (mult_IZR 2 (c * c)), ln_mult in Hlo'
    by (try lra; apply IZR_lt; nia).
  rewrite (mult_IZR 2 (2 ^ _)), ln_mult in Hhi'
    by (try lra; apply IZR_lt; exact Hp).
  rewrite H2 in Hlo', Hhi'. rewrite Hcc in Hlo', Hhi'.
  pose proof ln2_pos as L.
  apply Zfloor_eq. split.
  - apply Rmult_le_reg_r with (ln 2); [exact L|].
    unfold Rdiv. rewrite Rmult_plus_distr_r, Rmult_assoc, Rinv_l by lra. lra.
  - apply Rmult_lt_reg_r with (ln 2); [exact L|].
    unfold Rdiv. rewrite Rmult_plus_distr_r, Rmult_assoc, Rinv_l by lra. lra.
Qed.

Lemma truncZ_IZR (z : Z) : truncZ (IZR z) = z.
Proof.
  unfold truncZ. destruct (Rle_dec 0 (IZR z)).
  - apply ZfloorZ.
  - unfold Zceil. rewrite ZfloorNZ. lia.
Qed.

Lemma ToInt32_IZR (z : Z) :
  (- 2 ^ 31 <= z < 2 ^ 31)%Z -> ToInt32 (IZR z) = z.
Proof.
  intros H. unfold ToInt32. rewrite truncZ_IZR. apply wrap32_small; exact H.
Qed.

Lemma wrap32_range (z : Z) : (- 2 ^ 31 <= wrap32 z < 2 ^ 31)%Z.
Proof.
  unfold wrap32. pose proof (Z.mod_pos_bound (z + 2 ^ 31) (2 ^ 32)). lia.
Qed.

(** [toPowerOfTwo] from the exponent that brackets the clamped value. *)
Lemma toPowerOfTwo_exponent (value : R) (e : Z) :
  let c := Z.max 32 (ToInt32 value) in
  (5 <= e <= 31)%Z ->
  (2 ^ (2 * e) <= 2 * (c * c))%Z -> (c * c < 2 * 2 ^ (2 * e))%Z ->
  toPowerOfTwo value = shl 1 e.
Proof.
  intros c He Hlo Hhi. unfold toPowerOfTwo. fold c.
  rewrite (round_log2 c e) by (try assumption; lia).
  rewrite Z.max_r by lia. reflexivity.
Qed.


Lemma toPowerOfTwo_8192 : toPowerOfTwo 8192 = 8192%Z.
Proof.
  rewrite (toPowerOfTwo_exponent 8192 13);
    rewrite ?ToInt32_IZR by lia; vm_compute; intuition congruence.
Qed.

(** At two thousand million the shift reaches the sign bit. *)
Lemma toPowerOfTwo_overflow : toPowerOfTwo 2000000000 = (- 2147483648)%Z.
Proof.
  rewrite (toPowerOfTwo_exponent 2000000000 31);
    rewrite ?ToInt32_IZR by lia; vm_compute; intuition congruence.
Qed.

End ConfigFacts.

Module UpdateFacts.

Import AudioProcessor JSFacts ConfigFacts Invariants.

Ltac step_cases :=
  unfold assign_hopSize, assign_minHz, assign_maxHz, repair_band,
    assign_smoothing, assign_pcdMinRms, assign_pcdThreshold,
    assign_pcdNormalize, assign_refA4;
  repeat match goal with
         | |- context [match ?o with Some _ => _ | None => _ end] => destruct o
         | |- context [if truthy ?h then _ else _] => destruct (truthy h)
         | |- context [Rle_dec ?a ?b] => destruct (Rle_dec a b)
         end; try reflexivity.

(** The assignments after the band leave the window, the hop and the band
    alone. *)
Lemma late_assignments (u : Updates) (c : Config) :
  let c' := assign_refA4 u (assign_pcdNormalize u (assign_pcdThreshold u
              (assign_pcdMinRms u (assign_smoothing u c)))) in
  windowSize c' = windowSize c /\ hopSize c' = hopSize c /\
  minHz c' = minHz c /\ maxHz c' = maxHz c.
Proof.
  cbv zeta.
  assert (H5 : forall c, windowSize (assign_refA4 u c) = windowSize c /\
     hopSize (assign_refA4 u c) = hopSize c /\ minHz (assign_refA4 u c) = minHz c
     /\ maxHz (assign_refA4 u c) = maxHz c) by (intros; repeat split; step_cases).
  assert (H4 : forall c, windowSize (assign_pcdNormalize u c) = windowSize c /\
     hopSize (assign_pcdNormalize u c) = hopSize c /\
     minHz (assign_pcdNormalize u c) = minHz c
     /\ maxHz (assign_pcdNormalize u c) = maxHz c) by (intros; repeat split; step_cases).
  assert (H3 : forall c, windowSize (assign_pcdThreshold u c) = windowSize c /\
     hopSize (assign_pcdThreshold u c) = hopSize c /\
     minHz (assign_pcdThreshold u c) = minHz c
     /\ maxHz (assign_pcdThreshold u c) = maxHz c) by (intros; repeat split; step_cases).
  assert (H2 : forall c, windowSize (assign_pcdMinRms u c) = windowSize c /\
     hopSize (assign_pcdMinRms u c) = hopSize c /\
     minHz (assign_pcdMinRms u c) = minHz c
     /\ maxHz (assign_pcdMinRms u c) = maxHz c) by (intros; repeat split; step_cases).
  assert (H1 : forall c, windowSize (assign_smoothing u c) = windowSize c /\
     hopSize (assign_smoothing u c) = hopSize c /\
     minHz (assign_smoothing u c) = minHz c
     /\ maxHz (assign_smoothing u c) = maxHz c) by (intros; repeat split; step_cases).
  destruct (H5 (assign_pcdNormalize u (assign_pcdThreshold u
              (assign_pcdMinRms u (assign_smoothing u c))))) as (-> & -> & -> & ->).
  destruct (H4 (assign_pcdThreshold u
              (assign_pcdMinRms u (assign_smoothing u c)))) as (-> & -> & -> & ->).
  destruct (H3 (assign_pcdMinRms u (assign_smoothing u c))) as (-> & -> & -> & ->).
  destruct (H2 (assign_smoothing u c)) as (-> & -> & -> & ->).
  destruct (H1 c) as (-> & -> & -> & ->).
  repeat split.
Qed.

Lemma update_fields_windowSize (u : Updates) (c : Config) :
  windowSize (update_fields u c) = windowSize c.
Proof.
  unfold update_fields.
  destruct (late_assignments u (repair_band (assign_maxHz u (assign_minHz u
             (assign_hopSize u c))))) as (-> & _).
  step_cases.
Qed.

Lemma update_fields_hopSize (u : Updates) (c : Config) :
  hopSize (update_fields u c) =
  match u_hopSize u with
  | Some h => if truthy h then Z.max 1 (ToInt32 h) else hopSize c
  | None => hopSize c
  end.
Proof.
  unfold update_fields.
  destruct (late_assignments u (repair_band (assign_maxHz u (assign_minHz u
             (assign_hopSize u c))))) as (_ & -> & _).
  step_cases.
Qed.

Lemma update_fields_minHz (u : Updates) (c : Config) :
  minHz (update_fields u c) =
  match u_minHz u with Some v => Rmax 0 v | None => minHz c end.
Proof.
  unfold update_fields.
  destruct (late_assignments u (repair_band (assign_maxHz u (assign_minHz u
             (assign_hopSize u c))))) as (_ & _ & -> & _).
  step_cases.
Qed.

Lemma update_fields_maxHz (u : Updates) (c : Config) :
  maxHz (update_fields u c) =
  let lo := match u_minHz u with Some v => Rmax 0 v | None => minHz c end in
  let hi := match u_maxHz u with Some v => Rmax (lo + 1) v | None => maxHz c end in
  if Rle_dec hi lo then lo + 1 else hi.
Proof.
  unfold update_fields.
  destruct (late_assignments u (repair_band (assign_maxHz u (assign_minHz u
             (assign_hopSize u c))))) as (_ & _ & _ & ->).
  unfold assign_hopSize, assign_minHz, assign_maxHz, repair_band.
  destruct (u_hopSize u) as [h|]; [destruct (truthy h)|];
    destruct (u_minHz u); destruct (u_maxHz u); cbn;
    repeat match goal with
           | |- context [Rle_dec ?a ?b] => destruct (Rle_dec a b); cbn
           end; try reflexivity; try lra.
Qed.

Lemma update_fields_window_only (u : Updates) (c : Config) :
  window_only u -> minHz c < maxHz c -> update_fields u c = c.
Proof.
  intros (H1 & H2 & H3 & H4 & H5 & H6 & H7 & H8) Hlt.
  assert (E1 : assign_hopSize u c = c) by (unfold assign_hopSize; rewrite H1; reflexivity).
  assert (E2 : assign_minHz u c = c) by (unfold assign_minHz; rewrite H2; reflexivity).
  assert (E3 : assign_maxHz u c = c) by (unfold assign_maxHz; rewrite H3; reflexivity).
  assert (E4 : repair_band c = c).
  { unfold repair_band. destruct (Rle_dec (maxHz c) (minHz c)); [lra | reflexivity]. }
  assert (E5 : assign_smoothing u c = c) by (unfold assign_smoothing; rewrite H4; reflexivity).
  assert (E6 : assign_pcdMinRms u c = c) by (unfold assign_pcdMinRms; rewrite H5; reflexivity).
  assert (E7 : assign_pcdThreshold u c = c) by (unfold assign_pcdThreshold; rewrite H6; reflexivity).
  assert (E8 : assign_pcdNormalize u c = c) by (unfold assign_pcdNormalize; rewrite H7; reflexivity).
  assert (E9 : assign_refA4 u c = c) by (unfold assign_refA4; rewrite H8; reflexivity).
  unfold update_fields. rewrite E1, E2, E3, E4, E5, E6, E7, E8, E9. reflexivity.
Qed.



Lemma hannWindow_normal (n0 : Z) :
  (0 <= n0)%Z -> exists w, Windowing.hannWindow n0 = Normal w /\
                           length w = Z.to_nat n0.
Proof.
  intros H. unfold Windowing.hannWindow, Float32Array_new.
  destruct (n0 <? 0)%Z eqn:E; [lia|]. cbn [bind].
  eexists; split; [reflexivity|].
  rewrite (LoopFacts.fold_cell_length R 0
             (fun n _ => 0.5 * (1 - cos (2 * PI / (IZR n0 - 1) * IZR n)))).
  apply length_zeros.
Qed.

(** What the window branch does when it re-makes the window. *)
Lemma update_window_changes (u : Updates) (p : t) (w : R) :
  u_windowSize u = Some w -> w <> 0 -> w <> IZR (windowSize (config p)) ->
  toPowerOfTwo w <> windowSize (config p) -> (0 <= toPowerOfTwo w)%Z ->
  exists tbl,
    Windowing.hannWindow (toPowerOfTwo w) = Normal tbl /\
    update_window u p =
    (with_window (with_config p (with_windowSize (config p) (toPowerOfTwo w)))
                 tbl (zeros (Z.to_nat (toPowerOfTwo w)))
                 (zeros (Z.to_nat (toPowerOfTwo w))),
     Normal true).
Proof.
  intros Hu Hw0 Hw1 Hsz Hpos.
  destruct (hannWindow_normal _ Hpos) as [tbl [Htbl _]].
  exists tbl. split; [exact Htbl|].
  unfold update_window. rewrite Hu.
  unfold truthy, differs.
  destruct (Req_dec_T w 0); [contradiction|].
  destruct (Req_dec_T w (IZR (windowSize (config p)))); [contradiction|].
  cbn [andb].
  destruct (toPowerOfTwo w =? windowSize (config p))%Z eqn:E; [lia|].
  rewrite Htbl. unfold Float32Array_new.
  destruct (toPowerOfTwo w <? 0)%Z eqn:E2; [lia|]. reflexivity.
Qed.


End UpdateFacts.


(* ------------------------------------------------------------------ *)
(** * Claims about the configuration surface *)

Module ConfigClaims.

Import AudioProcessor JSFacts ConfigFacts Invariants UpdateFacts.



(** C8, at the input that breaks it: [updateConfig({ windowSize: 2000000000 })]
    on the default configuration stores the window [1 << 31 = -2147483648]
    and throws from the allocation of the window table, before the hop is
    clamped; the configuration it leaves is outside the invariant. *)
Theorem updateConfig_window_overflow :
  snd (updateConfig (window_update 2000000000) create) = Throws /\
  windowSize (config (fst (updateConfig (window_update 2000000000) create)))
  = (- 2147483648)%Z /\
  ~ config_inv (config (fst (updateConfig (window_update 2000000000) create))).
Proof.
  assert (E : updateConfig (window_update 2000000000) create =
              (with_config create
                 (with_windowSize DEFAULT_AUDIO_CONFIG (- 2147483648)), Throws)).
  { unfold updateConfig, update_window. cbn [u_windowSize window_update].
    unfold truthy, differs.
    destruct (Req_dec_T 2000000000 0) as [H|_]; [lra|].
    change (config create) with DEFAULT_AUDIO_CONFIG.
    cbn [windowSize DEFAULT_AUDIO_CONFIG].
    destruct (Req_dec_T 2000000000 16384) as [H|_]; [lra|].
    cbn [andb]. rewrite toPowerOfTwo_overflow. reflexivity. }
  rewrite E. cbn [fst snd]. repeat split.
  intros (_ & _ & (k & Hk & Hwin) & _). cbn in Hwin.
  assert (0 < 2 ^ k)%Z by (apply Z.pow_pos_nonneg; lia). lia.
Qed.

(** C9, refuted: [updateTuner({ reactivity: 5 })] stores the reactivity 5,
    outside [0.05, 1.0]. *)
Lemma updateTuner_out_of_range :
  ~ (0.05 <= reactivity (tunerConfig
       (updateTuner (mkTunerUpdates None None None None None (Some 5)) create))
     <= 1).
Proof.
  cbn. lra.
Qed.

(** C9, as the code has it: [updateTuner] copies every supplied field as it
    is, without validating or clamping it, and leaves the other fields and
    the rest of the processor as they were; the stored reactivity is then
    the supplied one, in or out of [0.05, 1.0]. *)
Theorem updateTuner_assigns (u : TunerUpdates) (p : t) :
  let c := tunerConfig p in
  let c' := tunerConfig (updateTuner u p) in
  enabled c' = merge (tu_enabled u) (enabled c) /\
  t_minHz c' = merge (tu_minHz u) (t_minHz c) /\
  t_maxHz c' = merge (tu_maxHz u) (t_maxHz c) /\
  minProminence c' = merge (tu_minProminence u) (minProminence c) /\
  minRMS c' = merge (tu_minRMS u) (minRMS c) /\
  reactivity c' = merge (tu_reactivity u) (reactivity c) /\
  (forall r, tu_reactivity u = Some r -> reactivity c' = r) /\
  (tu_reactivity u = None -> reactivity c' = reactivity c) /\
  config (updateTuner u p) = config p /\
  currentPcd (updateTuner u p) = currentPcd p.
Proof.
  cbn. repeat split; try reflexivity.
  - intros r ->. reflexivity.
  - intros ->. reflexivity.
Qed.

(** C10: a call of [updateConfig] that changes the window size and returns
    has reset the cursor, the fill and hop counters, both sample buffers,
    the smoothed and the raw PCD and the last RMS to zero; the reset itself
    leaves the configuration alone, so the configuration after the call is
    the one the assignments of the call produce (with a [windowSize]-only
    update and [minHz < maxHz]: the old one but for the window and the hop
    clamp), and the tuner configuration, the sample rate and the running
    flag are untouched. *)
Theorem updateConfig_window_change_resets (u : Updates) (p : t) (w : R) :
  u_windowSize u = Some w -> w <> 0 -> w <> IZR (windowSize (config p)) ->
  toPowerOfTwo w <> windowSize (config p) -> (0 <= toPowerOfTwo w)%Z ->
  let n := toPowerOfTwo w in
  let p' := fst (updateConfig u p) in
  snd (updateConfig u p) = Normal tt /\
  windowSize (config p') = n /\
  writeIndex p' = 0%Z /\ filled p' = 0%Z /\ hopCounter p' = 0%Z /\
  ringBuffer p' = zeros (Z.to_nat n) /\
  analysisBuffer p' = zeros (Z.to_nat n) /\
  currentPcd p' = zeros (length (currentPcd p)) /\
  rawPcd p' = zeros (length (rawPcd p)) /\
  lastRms p' = 0 /\
  config (resetBuffers p) = config p /\
  config p' = clamp_hop (update_fields u (with_windowSize (config p) n)) /\
  (window_only u -> minHz (config p) < maxHz (config p) ->
   config p' = clamp_hop (with_windowSize (config p) n)) /\
  tunerConfig p' = tunerConfig p /\
  sampleRate p' = sampleRate p /\
  running p' = running p.
Proof.
  intros Hu Hw0 Hw1 Hsz Hpos n p'.
  destruct (update_window_changes u p w Hu Hw0 Hw1 Hsz Hpos) as (tbl & _ & E).
  unfold p', updateConfig. rewrite E. cbn [fst snd]. fold n.
  unfold resetBuffers, RealFFT.fill0. cbn.
  rewrite !length_zeros.
  repeat split; try reflexivity.
  - apply update_fields_windowSize.
  - intros Hwo Hlt. rewrite update_fields_window_only; auto.
Qed.

(** The reset seen on a processor in the middle of a stream. *)
Lemma updateConfig_window_change_resets_witness :
  writeIndex mid_stream = 100%Z /\ filled mid_stream = 16384%Z /\
  hopCounter mid_stream = 7%Z /\ lastRms mid_stream = 0.2 /\
  getR (currentPcd mid_stream) 1 = 0.6 /\ getR (rawPcd mid_stream) 0 = 1 /\
  getR (ringBuffer mid_stream) 0 = / 2 /\
  snd (updateConfig (window_update 8192) mid_stream) = Normal tt /\
  windowSize (config (fst (updateConfig (window_update 8192) mid_stream)))
  = 8192%Z /\
  writeIndex (fst (updateConfig (window_update 8192) mid_stream)) = 0%Z /\
  filled (fst (updateConfig (window_update 8192) mid_stream)) = 0%Z /\
  hopCounter (fst (updateConfig (window_update 8192) mid_stream)) = 0%Z /\
  ringBuffer (fst (updateConfig (window_update 8192) mid_stream))
  = zeros (Z.to_nat 8192) /\
  analysisBuffer (fst (updateConfig (window_update 8192) mid_stream))
  = zeros (Z.to_nat 8192) /\
  currentPcd (fst (updateConfig (window_update 8192) mid_stream)) = zeros 12 /\
  rawPcd (fst (updateConfig (window_update 8192) mid_stream)) = zeros 12 /\
  lastRms (fst (updateConfig (window_update 8192) mid_stream)) = 0 /\
  running (fst (updateConfig (window_update 8192) mid_stream)) = true.
Proof.
  assert (H8 : toPowerOfTwo 8192 = 8192%Z) by exact toPowerOfTwo_8192.
  destruct (updateConfig_window_change_resets (window_update 8192)
                                              mid_stream 8192)
    as (Hret & Hw & Hi & Hf & Hh & Hrb & Hab & Hc & Hr & Hl & _ & _ & _ & _
        & _ & Hrun).
  - reflexivity.
  - lra.
  - change (windowSize (config mid_stream)) with 16384%Z. lra.
  - rewrite H8. change (windowSize (config mid_stream)) with 16384%Z. lia.
  - rewrite H8. lia.
  - rewrite H8 in Hw, Hrb, Hab.
    split; [reflexivity|]. split; [reflexivity|]. split; [reflexivity|].
    split; [reflexivity|].
    split; [unfold getR, get; cbn; reflexivity|].
    split; [unfold getR, get; cbn; reflexivity|].
    split; [reflexivity|].
    split; [exact Hret|]. split; [exact Hw|]. split; [exact Hi|].
    split; [exact Hf|]. split; [exact Hh|]. split; [exact Hrb|].
    split; [exact Hab|]. split; [exact Hc|]. split; [exact Hr|].
    split; [exact Hl | exact Hrun].
Defined.

End ConfigClaims.


(* ------------------------------------------------------------------ *)
(** * The pitch-class lookup table *)

Module LookupFacts.

Import PitchClassComputer JSFacts LoopFacts ConfigFacts Reference.

Lemma rem_wrap (r : Z) : Z.rem (Z.rem r 12 + 12) 12 = (r mod 12)%Z.
Proof.
  Z.to_euclidean_division_equations. lia.
Qed.

Lemma log2_quotient (f a : R) :
  0 < f -> 0 < a -> Math_log2 (f / a) = Math_log2 f - Math_log2 a.
Proof.
  intros Hf Ha. unfold Math_log2, Rdiv.
  rewrite ln_mult by (try assumption; apply Rinv_0_lt_compat; assumption).
  rewrite ln_Rinv by assumption. lra.
Qed.

(** The entry the loop writes at a positive bin is the pitch class of the
    bin. *)
Lemma lookup_entry_pitch_class (length : Z) (sampleRate a4 : R) (k : Z) :
  0 < sampleRate -> 0 < a4 -> (0 < k < length)%Z ->
  toUint8 (lookup_entry (sampleRate / (IZR length * 2)) (Math_log2 a4) k)
  = pitch_class length sampleRate a4 k.
Proof.
  intros Hs Ha Hk. unfold lookup_entry, pitch_class.
  assert (Hl : 0 < IZR length) by (apply IZR_lt; lia).
  assert (Hkk : 0 < IZR k) by (apply IZR_lt; lia).
  assert (Hb : 0 < sampleRate / (IZR length * 2)).
  { apply Rdiv_lt_0_compat; lra. }
  assert (Hf : 0 < IZR k * (sampleRate / (IZR length * 2))).
  { apply Rmult_lt_0_compat; assumption. }
  destruct (Rlt_dec 0 (IZR k * (sampleRate / (IZR length * 2)))); [|contradiction].
  replace (2 * IZR length) with (IZR length * 2) by ring.
  rewrite log2_quotient by assumption.
  rewrite rem_wrap. unfold toUint8.
  pose proof (Z.mod_pos_bound
    (Math_round (69 + 12 * (Math_log2 (IZR k * (sampleRate / (IZR length * 2)))
                            - Math_log2 a4))) 12).
  apply Z.mod_small. lia.
Qed.



Lemma build_table_entry (length : Z) (sampleRate a4 : R) (k : Z) :
  (0 <= k < length)%Z ->
  getZ (build_table length sampleRate a4) k
  = toUint8 (lookup_entry (sampleRate / (IZR length * 2)) (Math_log2 a4) k).
Proof.
  intros Hk. unfold build_table, getZ.
  rewrite (fold_cell_range Z 0%Z (fun k _ =>
             toUint8 (lookup_entry (sampleRate / (IZR length * 2)) (Math_log2 a4) k)));
    auto; try lia.
  rewrite repeat_length. lia.
Qed.


Lemma cache_hit_true (this : t) (length : Z) (sampleRate a4 : R) :
  cache_hit this length sampleRate a4 = true <->
  lookupTable this <> None /\ prevSampleRate this = sampleRate /\
  prevA4 this = a4 /\ prevLength this = length.
Proof.
  unfold cache_hit. destruct (lookupTable this) as [tbl|].
  - destruct (Req_dec_T (prevSampleRate this) sampleRate);
      destruct (Req_dec_T (prevA4 this) a4);
      destruct (Z.eqb_spec (prevLength this) length); cbn;
      split; try discriminate; try tauto; intros; repeat split; congruence.
  - split; [discriminate | tauto].
Qed.

(** After [ensureLookup] the table is the table of the requested key. *)
Lemma ensureLookup_table_of (this : t) (length : Z) (sampleRate a4 : R) :
  lookup_inv this ->
  table_of (ensureLookup this length sampleRate a4)
  = build_table length sampleRate a4.
Proof.
  intros Hinv. unfold ensureLookup.
  destruct (cache_hit this length sampleRate a4) eqn:E.
  - apply cache_hit_true in E. destruct E as (Hn & <- & <- & <-).
    unfold table_of, lookup_inv in *.
    destruct (lookupTable this); [exact Hinv | congruence].
  - reflexivity.
Qed.

Lemma ensureLookup_inv (this : t) (length : Z) (sampleRate a4 : R) :
  lookup_inv this -> lookup_inv (ensureLookup this length sampleRate a4).
Proof.
  intros Hinv. unfold ensureLookup.
  destruct (cache_hit this length sampleRate a4); [exact Hinv|].
  unfold lookup_inv; cbn. reflexivity.
Qed.

Lemma create_lookup_inv : lookup_inv create.
Proof. exact I. Qed.



End LookupFacts.


(* ------------------------------------------------------------------ *)
(** * The pitch-class distribution *)

Module ComputeFacts.

Import PitchClassComputer JSFacts LoopFacts ConfigFacts Reference LookupFacts.

Lemma Math_pow_nonneg (x e : R) : 0 <= Math_pow x e.
Proof.
  unfold Math_pow. destruct (Req_dec_T x 0).
  - destruct (Req_dec_T e 0); lra.
  - unfold Rpower. left. apply exp_pos.
Qed.

Lemma sum_squares_nonneg (mags : list R) (ks : list Z) :
  0 <= sumR (map (fun k => getR mags k * getR mags k) ks).
Proof.
  apply sumR_nonneg. apply Forall_forall. intros x Hx.
  apply in_map_iff in Hx. destruct Hx as [k [<- _]]. nra.
Qed.

Lemma accumulated_nonneg (mags : list R) (sampleRate : R) (o : Options) (c : Z) :
  0 <= accumulated mags sampleRate o c.
Proof. apply sum_squares_nonneg. Qed.

Lemma raised_nonneg (mags : list R) (sampleRate : R) (o : Options) (c : Z) :
  0 <= raised mags sampleRate o c.
Proof.
  unfold raised. destruct (Req_dec_T (pcdNormalize o) 1).
  - apply accumulated_nonneg.
  - apply Math_pow_nonneg.
Qed.

Lemma accumulate_length (mags : list R) (thr : R) (table : list Z)
  (ks : list Z) (out : list R) :
  length (fold_left (accumulate mags thr table) ks out) = length out.
Proof.
  revert out; induction ks as [|k ks IH]; intros out; simpl; auto.
  rewrite IH. unfold accumulate.
  destruct (Rlt_dec thr (getR mags k)); auto using length_set.
Qed.

(** The aggregation loop, class by class: cell [c] gains the squares of the
    bins above the threshold that the table sends to [c]. *)
Lemma accumulate_cell (mags : list R) (thr : R) (table : list Z)
  (ks : list Z) (out : list R) (c : Z) :
  (0 <= c < Z.of_nat (length out))%Z ->
  getR (fold_left (accumulate mags thr table) ks out) c
  = getR out c
    + sumR (map (fun k => getR mags k * getR mags k)
                (filter (fun k => exceeds thr mags k && (getZ table k =? c)%Z) ks)).
Proof.
  revert out; induction ks as [|k ks IH]; intros out Hc; simpl.
  - unfold sumR; simpl. lra.
  - rewrite IH.
    2: { unfold accumulate. destruct (Rlt_dec thr (getR mags k));
         rewrite ?length_set; exact Hc. }
    unfold accumulate, exceeds.
    destruct (Rlt_dec thr (getR mags k)) as [Hgt|Hle]; cbn [andb].
    + destruct (Z.eqb_spec (getZ table k) c) as [->|Hne].
      * unfold getR at 1. rewrite get_set_eq by exact Hc.
        unfold sumR; simpl. fold (getR out c). lra.
      * unfold getR at 1. rewrite get_set_neq by exact Hne.
        fold (getR out c). reflexivity.
    + reflexivity.
Qed.

Section Compute.

Variable this : t.
Variable mags : list R.
Variable sampleRate : R.
Variable o : Options.

Hypothesis Hinv : lookup_inv this.
Hypothesis Hout : length (output this) = 12%nat.
Hypothesis Hrate : 0 < sampleRate.
Hypothesis Hpitch : 0 < refA4 o.

Let len := Z.of_nat (length mags).
Let this1 := ensureLookup this len sampleRate (refA4 o).

Lemma ensureLookup_output : output this1 = output this.
Proof.
  unfold this1, ensureLookup.
  destruct (cache_hit this len sampleRate (refA4 o)); reflexivity.
Qed.

(** The loop bounds of the code are the band of the specification. *)
Lemma code_band :
  Z.max 1 (Math_floor (minHz o / (sampleRate / (IZR len * 2))))
  = first_bin len sampleRate (minHz o) /\
  Z.min (len - 1) (Math_floor (maxHz o / (sampleRate / (IZR len * 2))))
  = last_bin len sampleRate (maxHz o).
Proof.
  unfold first_bin, last_bin.
  replace (2 * IZR len) with (IZR len * 2) by ring. split; reflexivity.
Qed.

(** After the aggregation loop, cell [c] holds the accumulated power of
    pitch class [c]. *)
Lemma aggregation_cell (c : Z) :
  (0 <= c < 12)%Z ->
  getR (fold_left (accumulate mags (pcdThreshold o) (table_of this1))
                  (range (first_bin len sampleRate (minHz o))
                         (last_bin len sampleRate (maxHz o)))
                  (RealFFT.fill0 (output this1))) c
  = accumulated mags sampleRate o c.
Proof.
  intros Hc. rewrite accumulate_cell.
  2: { unfold RealFFT.fill0. rewrite length_zeros, ensureLookup_output, Hout. lia. }
  unfold RealFFT.fill0. rewrite getR_zeros, Rplus_0_l.
  unfold accumulated. fold len. f_equal. f_equal.
  apply filter_ext_in. intros k Hk. apply In_range in Hk.
  unfold first_bin, last_bin in Hk.
  f_equal. f_equal. unfold this1.
  rewrite ensureLookup_table_of by exact Hinv.
  rewrite build_table_entry by lia.
  apply lookup_entry_pitch_class; try assumption. lia.
Qed.

Lemma aggregation_list :
  fold_left (accumulate mags (pcdThreshold o) (table_of this1))
            (range (first_bin len sampleRate (minHz o))
                   (last_bin len sampleRate (maxHz o)))
            (RealFFT.fill0 (output this1))
  = map (accumulated mags sampleRate o) (range 0 11).
Proof.
  match goal with |- ?l = _ => assert (Hl : length l = 12%nat) end.
  { rewrite accumulate_length. unfold RealFFT.fill0.
    rewrite length_zeros, ensureLookup_output. exact Hout. }
  pose proof aggregation_cell as Hc.
  revert Hl Hc.
  match goal with |- length ?l = _ -> _ => generalize l end.
  intros l Hl Hc.
  destruct (twelve l Hl) as (a0 & a1 & a2 & a3 & a4 & a5 & a6 & a7 & a8 & a9
                             & a10 & a11 & ->).
  pose proof (Hc 0%Z ltac:(lia)) as H0. pose proof (Hc 1%Z ltac:(lia)) as H1.
  pose proof (Hc 2%Z ltac:(lia)) as H2. pose proof (Hc 3%Z ltac:(lia)) as H3.
  pose proof (Hc 4%Z ltac:(lia)) as H4. pose proof (Hc 5%Z ltac:(lia)) as H5.
  pose proof (Hc 6%Z ltac:(lia)) as H6. pose proof (Hc 7%Z ltac:(lia)) as H7.
  pose proof (Hc 8%Z ltac:(lia)) as H8. pose proof (Hc 9%Z ltac:(lia)) as H9.
  pose proof (Hc 10%Z ltac:(lia)) as H10. pose proof (Hc 11%Z ltac:(lia)) as H11.
  cbv [getR get Z.ltb Z.compare Z.to_nat Pos.to_nat Pos.iter_op Nat.add nth]
    in H0, H1, H2, H3, H4, H5, H6, H7, H8, H9, H10, H11.
  subst. reflexivity.
Qed.

End Compute.

End ComputeFacts.

(* ------------------------------------------------------------------ *)
(** * The band of a spectrum and the range of the Float32 cells *)

Module BandFacts.

Import PitchClassComputer JSFacts LoopFacts ConfigFacts Reference LookupFacts
  ComputeFacts.

(** A member of a list of numbers that are not negative is at most their
    sum. *)
Lemma sumR_member (l : list R) (x : R) :
  Forall (fun y => 0 <= y) l -> In x l -> x <= sumR l.
Proof.
  induction 1 as [|y l Hy Hl IH]; intros Hin; [contradiction|].
  unfold sumR in *; cbn [fold_right].
  pose proof (sumR_nonneg l Hl) as Hn. unfold sumR in Hn.
  destruct Hin as [->|Hin]; [lra|]. specialize (IH Hin). lra.
Qed.

Lemma holds_0 : Float32.holds 0.
Proof. left. reflexivity. Qed.

Lemma holds_between (x lo hi : R) :
  Float32.min_normal <= lo -> hi <= Float32.max_value -> lo <= x <= hi ->
  Float32.holds x.
Proof.
  intros Hlo Hhi Hx. right.
  assert (0 < Float32.min_normal).
  { unfold Float32.min_normal. apply Rinv_0_lt_compat. lra. }
  rewrite Rabs_right by lra. lra.
Qed.

Lemma pitch_class_range (len : Z) (sampleRate a4 : R) (k : Z) :
  (0 <= pitch_class len sampleRate a4 k <= 11)%Z.
Proof.
  unfold pitch_class.
  match goal with |- (0 <= ?r mod 12 <= 11)%Z =>
    pose proof (Z.mod_pos_bound r 12) end.
  lia.
Qed.

(** The sum of the squares of the selected bins, when each of them lies
    between [lo] and [hi]: zero, or between [lo] and [hi] for each bin of
    the range. *)
Lemma selected_sum_bounds (mags : list R) (ks : list Z) (sel : Z -> bool)
  (lo hi : R) :
  0 <= lo -> lo <= hi ->
  (forall k, In k ks -> sel k = true ->
             lo <= getR mags k * getR mags k <= hi) ->
  sumR (map (fun k => getR mags k * getR mags k) (filter sel ks)) = 0 \/
  lo <= sumR (map (fun k => getR mags k * getR mags k) (filter sel ks))
     <= INR (length ks) * hi.
Proof.
  intros Hlo Hhi. induction ks as [|k ks IH]; intros H.
  - left. reflexivity.
  - assert (IH' := IH (fun j Hj => H j (or_intror Hj))).
    cbn [filter length]. rewrite S_INR.
    pose proof (pos_INR (length ks)) as Hn.
    destruct (sel k) eqn:Ek.
    + right. cbn [map]. unfold sumR in *. cbn [fold_right].
      pose proof (H k (or_introl eq_refl) Ek) as Hk.
      destruct IH' as [E0|Hb]; [rewrite E0|]; nra.
    + destruct IH' as [E0|Hb]; [left; exact E0 | right; nra].
Qed.

Section Band.

Variable mags : list R.
Variable sampleRate : R.
Variable o : Options.

Let len := Z.of_nat (length mags).
Let band := range (first_bin len sampleRate (minHz o))
                  (last_bin len sampleRate (maxHz o)).

(** A bin of the band above the threshold, with a magnitude that is not
    zero, gives the distribution a positive total. *)
Lemma total_positive (k : Z) :
  In k band -> exceeds (pcdThreshold o) mags k = true -> getR mags k <> 0 ->
  0 < total mags sampleRate o.
Proof.
  intros Hin Hex Hne.
  set (c0 := pitch_class len sampleRate (refA4 o) k).
  pose proof (pitch_class_range len sampleRate (refA4 o) k) as Hc0. fold c0 in Hc0.
  assert (Hacc : 0 < accumulated mags sampleRate o c0).
  { apply Rlt_le_trans with (getR mags k * getR mags k); [nra|].
    unfold accumulated. fold len. apply sumR_member.
    - apply Forall_forall. intros y Hy. apply in_map_iff in Hy.
      destruct Hy as [j [<- _]]. nra.
    - apply (in_map (fun j => getR mags j * getR mags j)).
      apply filter_In. split; [exact Hin|].
      rewrite Hex. fold c0. rewrite Z.eqb_refl. reflexivity. }
  assert (Hraised : 0 < raised mags sampleRate o c0).
  { unfold raised. destruct (Req_dec_T (pcdNormalize o) 1); [exact Hacc|].
    unfold Math_pow. destruct (Req_dec_T _ 0) as [E0|_]; [lra|].
    unfold Rpower. apply exp_pos. }
  apply Rlt_le_trans with (raised mags sampleRate o c0); [exact Hraised|].
  unfold total. apply sumR_member.
  - apply Forall_forall. intros y Hy. apply in_map_iff in Hy.
    destruct Hy as [c [<- _]]. apply raised_nonneg.
  - apply in_map. apply In_range. lia.
Qed.

(** With the exponent 1, [compute] stays within its Float32 cells when
    the squares of the bins it adds lie between two bounds that the
    cells hold, the upper one also when taken once for each bin. *)
Lemma in_float32_band (lo hi : R) :
  pcdNormalize o = 1 ->
  Float32.min_normal <= lo -> lo <= hi ->
  INR (length band) * hi <= Float32.max_value ->
  (forall k, In k band -> exceeds (pcdThreshold o) mags k = true ->
             lo <= getR mags k * getR mags k <= hi) ->
  in_float32 mags sampleRate o.
Proof.
  intros He Hlo Hhi Hmax Hsq.
  assert (Hmin : 0 < Float32.min_normal).
  { unfold Float32.min_normal. apply Rinv_0_lt_compat. lra. }
  unfold in_float32. fold len. fold band. split.
  - intros k Hin Hex.
    assert (1 <= INR (length band)).
    { destruct band as [|b bs]; [contradiction|].
      cbn [length]. rewrite S_INR. pose proof (pos_INR (length bs)). lra. }
    apply (holds_between _ lo hi); [exact Hlo | nra | apply Hsq; assumption].
  - intros c Hc.
    assert (Hacc : Float32.holds (accumulated mags sampleRate o c)).
    { unfold accumulated. fold len. fold band.
      destruct (selected_sum_bounds mags band
                  (fun k => exceeds (pcdThreshold o) mags k
                            && (pitch_class len sampleRate (refA4 o) k =? c)%Z)
                  lo hi) as [E0|Hb]; try lra.
      - intros k Hin Hsel. apply andb_true_iff in Hsel.
        apply Hsq; tauto.
      - rewrite E0. apply holds_0.
      - apply (holds_between _ lo (INR (length band) * hi)); assumption. }
    split; [exact Hacc|].
    unfold raised. destruct (Req_dec_T (pcdNormalize o) 1); [exact Hacc|].
    contradiction.
Qed.

End Band.

(** The band of the default configuration on 16 bins at 48 kHz: bins 1
    to 3. *)
Lemma band_16 :
  first_bin 16 48000 50 = 1%Z /\ last_bin 16 48000 5000 = 3%Z.
Proof.
  unfold first_bin, last_bin, Math_floor. split.
  - rewrite (Zfloor_eq 0); [reflexivity|].
    replace (50 / (48000 / (2 * 16))) with (/ 30) by field. lra.
  - rewrite (Zfloor_eq 3); [reflexivity|].
    replace (5000 / (48000 / (2 * 16))) with (10 / 3) by field. lra.
Qed.

(** [compute] with the default band, the exponent 1 and the reference
    pitch 440 Hz on 16 bins at 48 kHz, by the bins 1 to 3. *)
Lemma in_float32_16 (mags : list R) (thr lo hi : R) :
  length mags = 16%nat ->
  Float32.min_normal <= lo -> lo <= hi -> 3 * hi <= Float32.max_value ->
  (forall k, (1 <= k <= 3)%Z -> thr < getR mags k ->
             lo <= getR mags k * getR mags k <= hi) ->
  in_float32 mags 48000 (mkOptions 50 5000 thr 1 440).
Proof.
  intros L Hlo Hhi Hmax Hsq. destruct band_16 as [E1 E3].
  apply (in_float32_band mags 48000 (mkOptions 50 5000 thr 1 440) lo hi);
    cbn [pcdNormalize minHz maxHz pcdThreshold]; rewrite ?L;
    change (Z.of_nat 16) with 16%Z; rewrite ?E1, ?E3;
    try assumption; try reflexivity.
  - change (INR (length (range 1 3))) with (INR 3).
    replace (INR 3) with 3 by (cbn; lra). exact Hmax.
  - intros k Hin Hex. apply In_range in Hin.
    apply Hsq; [exact Hin|].
    unfold exceeds in Hex. destruct (Rlt_dec thr (getR mags k)); [assumption|].
    discriminate.
Qed.

(** A bin of the band above the threshold gives a positive total. *)
Lemma total_positive_16 (mags : list R) (thr : R) (k : Z) :
  length mags = 16%nat -> (1 <= k <= 3)%Z -> 0 <= thr -> thr < getR mags k ->
  0 < total mags 48000 (mkOptions 50 5000 thr 1 440).
Proof.
  intros L Hk Hthr Hex. destruct band_16 as [E1 E3].
  apply (total_positive mags 48000 (mkOptions 50 5000 thr 1 440) k);
    cbn [pcdNormalize minHz maxHz pcdThreshold]; rewrite ?L;
    change (Z.of_nat 16) with 16%Z; rewrite ?E1, ?E3.
  - apply In_range. exact Hk.
  - unfold exceeds. destruct (Rlt_dec thr (getR mags k)); [reflexivity|].
    contradiction.
  - lra.
Qed.

(** A spectrum of 16 bins whose band holds energy in bin 1 only. *)
Lemma one_bin_in_float32 (mags : list R) (thr : R) :
  length mags = 16%nat ->
  1 <= getR mags 1 <= 2 -> getR mags 2 = 0 -> getR mags 3 = 0 -> 0 <= thr ->
  in_float32 mags 48000 (mkOptions 50 5000 thr 1 440).
Proof.
  intros L H1 H2 H3 Hthr.
  apply (in_float32_16 _ thr 1 4); try assumption.
  - unfold Float32.min_normal. lra.
  - lra.
  - unfold Float32.max_value. lra.
  - intros k Hk.
    assert (k = 1 \/ k = 2 \/ k = 3)%Z as [-> | [-> | ->]] by lia;
      intros H; nra.
Qed.

Lemma one_bin_total (mags : list R) (thr : R) :
  length mags = 16%nat -> 0 <= thr -> thr < getR mags 1 ->
  0 < total mags 48000 (mkOptions 50 5000 thr 1 440).
Proof.
  intros L Hthr H1. apply (total_positive_16 _ thr 1); try assumption. lia.
Qed.

(** The cells of the spectrum of one bin, scaled. *)
Lemma one_bin_cells (g : R) :
  length (map (Rmult g) Invariants.one_bin_spectrum) = 16%nat /\
  getR (map (Rmult g) Invariants.one_bin_spectrum) 1 = g /\
  getR (map (Rmult g) Invariants.one_bin_spectrum) 2 = 0 /\
  getR (map (Rmult g) Invariants.one_bin_spectrum) 3 = 0 /\
  length Invariants.one_bin_spectrum = 16%nat /\
  getR Invariants.one_bin_spectrum 1 = 1 /\
  getR Invariants.one_bin_spectrum 2 = 0 /\
  getR Invariants.one_bin_spectrum 3 = 0.
Proof.
  unfold getR, get, Invariants.one_bin_spectrum.
  cbv [map Z.ltb Z.compare Z.to_nat Pos.to_nat Pos.iter_op Nat.add nth length].
  repeat split; ring.
Qed.

End BandFacts.

(* ------------------------------------------------------------------ *)
(** * [compute] against the mapper of the specification *)

Module ComputeClaim.

Import PitchClassComputer JSFacts LoopFacts ConfigFacts Reference LookupFacts
  ComputeFacts BandFacts.

Lemma range_0_11 : range 0 11 = [0; 1; 2; 3; 4; 5; 6; 7; 8; 9; 10; 11]%Z.
Proof. reflexivity. Qed.

Lemma sumR_scale (inv : R) (l : list R) :
  sumR (map (fun x => x * inv) l) = sumR l * inv.
Proof.
  induction l as [|x l IH]; unfold sumR in *; cbn [map fold_right]; [ring|].
  rewrite IH. ring.
Qed.

Section TwelveCells.

Variables a0 a1 a2 a3 a4 a5 a6 a7 a8 a9 a10 a11 : R.

Let cells : list R := [a0; a1; a2; a3; a4; a5; a6; a7; a8; a9; a10; a11].

Lemma sum_loop :
  fold_left sum_step (range 0 11) (cells, 0)
  = (cells, 0 + a0 + a1 + a2 + a3 + a4 + a5 + a6 + a7 + a8 + a9 + a10 + a11).
Proof. reflexivity. Qed.

Lemma pow_loop (e : R) :
  fold_left (pow_step e) (range 0 11) (cells, 0)
  = (map (fun x => Math_pow x e) cells,
     0 + Math_pow a0 e + Math_pow a1 e + Math_pow a2 e + Math_pow a3 e
     + Math_pow a4 e + Math_pow a5 e + Math_pow a6 e + Math_pow a7 e
     + Math_pow a8 e + Math_pow a9 e + Math_pow a10 e + Math_pow a11 e).
Proof. reflexivity. Qed.

Lemma scale_loop (inv : R) :
  fold_left (scale_step inv) (range 0 11) cells = map (fun x => x * inv) cells.
Proof. reflexivity. Qed.

Lemma sumR_cells :
  sumR cells = 0 + a0 + a1 + a2 + a3 + a4 + a5 + a6 + a7 + a8 + a9 + a10 + a11.
Proof. unfold cells, sumR; cbn [fold_right]. ring. Qed.

(** Twelve values that are not negative and do not sum to a positive value
    are all zero. *)
Lemma cells_all_zero :
  Forall (fun x => 0 <= x) cells -> ~ 0 < sumR cells -> cells = zeros 12.
Proof.
  intros HF Hs. rewrite sumR_cells in Hs. unfold cells in *.
  repeat match goal with
         | H : Forall _ (_ :: _) |- _ => inversion H; clear H; subst
         end.
  assert (a0 = 0) by lra. assert (a1 = 0) by lra. assert (a2 = 0) by lra.
  assert (a3 = 0) by lra. assert (a4 = 0) by lra. assert (a5 = 0) by lra.
  assert (a6 = 0) by lra. assert (a7 = 0) by lra. assert (a8 = 0) by lra.
  assert (a9 = 0) by lra. assert (a10 = 0) by lra. assert (a11 = 0) by lra.
  subst. reflexivity.
Qed.

End TwelveCells.

Section Refinement.

Variable this : t.
Variable mags : list R.
Variable sampleRate : R.
Variable o : Options.

Hypothesis Hinv : lookup_inv this.
Hypothesis Hout : length (output this) = 12%nat.
Hypothesis Hrate : 0 < sampleRate.
Hypothesis Hpitch : 0 < refA4 o.

Let r := raised mags sampleRate o.
Let T := total mags sampleRate o.

(** The output of the code, before the buffer is stored. *)
Lemma compute_output :
  snd (PitchClassComputer.compute this mags sampleRate o)
  = if Rlt_dec 0 T then map (fun x => x * (1 / T)) (map r (range 0 11))
    else map r (range 0 11).
Proof.
  unfold PitchClassComputer.compute.
  destruct (code_band mags sampleRate o) as [-> ->].
  rewrite (aggregation_list this mags sampleRate o Hinv Hout Hrate Hpitch).
  assert (HT : T = sumR (map r (range 0 11))) by reflexivity.
  assert (Hloop :
    (if Req_dec_T (pcdNormalize o) 1
     then fold_left sum_step (range 0 11)
            (map (accumulated mags sampleRate o) (range 0 11), 0)
     else fold_left (pow_step (pcdNormalize o)) (range 0 11)
            (map (accumulated mags sampleRate o) (range 0 11), 0))
    = (map r (range 0 11), T)).
  { rewrite HT. unfold r, raised.
    destruct (Req_dec_T (pcdNormalize o) 1) as [E1|E1].
    - rewrite range_0_11 at 2. cbn [map]. rewrite sum_loop.
      rewrite range_0_11. cbn [map]. rewrite sumR_cells. reflexivity.
    - rewrite range_0_11 at 2. cbn [map]. rewrite pow_loop.
      rewrite range_0_11. cbn [map]. rewrite sumR_cells. reflexivity. }
  rewrite Hloop. cbn [snd].
  destruct (Rlt_dec 0 T); [|reflexivity].
  rewrite range_0_11. cbn [map]. rewrite scale_loop. reflexivity.
Qed.

Lemma raised_cells_nonneg : Forall (fun x => 0 <= x) (map r (range 0 11)).
Proof.
  apply Forall_forall. intros x Hx. apply in_map_iff in Hx.
  destruct Hx as [c [<- _]]. apply raised_nonneg.
Qed.

Lemma compute_is_reference :
  snd (PitchClassComputer.compute this mags sampleRate o)
  = Reference.compute mags sampleRate o.
Proof.
  rewrite compute_output. unfold Reference.compute. fold T. fold r.
  destruct (Rlt_dec 0 T) as [Hp|Hn].
  - rewrite map_map. apply map_ext. intros c. unfold Rdiv. ring.
  - pose proof raised_cells_nonneg as HF.
    assert (Hs : ~ 0 < sumR (map r (range 0 11))) by exact Hn.
    revert HF Hs. rewrite range_0_11. cbn [map]. intros HF Hs.
    rewrite (cells_all_zero _ _ _ _ _ _ _ _ _ _ _ _ HF Hs). reflexivity.
Qed.

Lemma compute_sums_to_one :
  0 < T -> sumR (snd (PitchClassComputer.compute this mags sampleRate o)) = 1.
Proof.
  intros Hp. rewrite compute_output.
  destruct (Rlt_dec 0 T) as [_|Hn]; [|contradiction].
  rewrite sumR_scale. change (sumR (map r (range 0 11))) with T.
  field. lra.
Qed.

Lemma compute_all_zero :
  ~ 0 < T -> snd (PitchClassComputer.compute this mags sampleRate o) = zeros 12.
Proof.
  intros Hn. rewrite compute_is_reference. unfold Reference.compute. fold T.
  destruct (Rlt_dec 0 T) as [Hp|_]; [contradiction|]. reflexivity.
Qed.

Lemma compute_nonneg :
  Forall (fun x => 0 <= x) (snd (PitchClassComputer.compute this mags sampleRate o)).
Proof.
  rewrite compute_is_reference. unfold Reference.compute. fold T. fold r.
  apply Forall_forall. intros x Hx. apply in_map_iff in Hx.
  destruct Hx as [c [<- _]].
  destruct (Rlt_dec 0 T) as [Hp|_]; [|lra].
  pose proof (raised_nonneg mags sampleRate o c). fold r in H.
  apply Rmult_le_pos; [exact H|]. left. apply Rinv_0_lt_compat. exact Hp.
Qed.

Lemma compute_state :
  output (fst (PitchClassComputer.compute this mags sampleRate o))
  = snd (PitchClassComputer.compute this mags sampleRate o) /\
  lookup_inv (fst (PitchClassComputer.compute this mags sampleRate o)) /\
  zero (fst (PitchClassComputer.compute this mags sampleRate o)) = zero this.
Proof.
  unfold PitchClassComputer.compute.
  match goal with
  | |- context [let '(out2, sum) := ?x in _] => destruct x as [out2 sum]
  end.
  cbn [fst snd output zero]. split; [reflexivity|]. split.
  - pose proof (ensureLookup_inv this (Z.of_nat (length mags)) sampleRate
                                 (refA4 o) Hinv) as H.
    unfold lookup_inv in *. cbn. exact H.
  - unfold ensureLookup. destruct (cache_hit _ _ _ _); reflexivity.
Qed.

End Refinement.



End ComputeClaim.

(* ------------------------------------------------------------------ *)
(** * The primary-pitch estimator *)

Module PrimaryClaim.

Import PrimaryDetection PrimaryReference JSFacts.

Lemma floor_level_pos : 0 < floor_level.
Proof. unfold floor_level. apply Rinv_0_lt_compat. lra. Qed.

Lemma fold_Rmax_shift (l : list R) (a x : R) :
  fold_left Rmax l (Rmax a x) = Rmax a (fold_left Rmax l x).
Proof.
  revert x; induction l as [|y l IH]; intros x; simpl; auto.
  rewrite <- Rmax_assoc. apply IH.
Qed.

Lemma fold_Rmax_ge (l : list R) (x : R) :
  x <= fold_left Rmax l x /\ forall y, In y l -> y <= fold_left Rmax l x.
Proof.
  revert x; induction l as [|z l IH]; intros x; simpl.
  - split; [lra | tauto].
  - destruct (IH (Rmax x z)) as [H1 H2].
    pose proof (Rmax_l x z). pose proof (Rmax_r x z).
    split; [lra|]. intros y [<-|Hy]; [lra | auto].
Qed.

Lemma peak_step_eq (mags : list R) (mv : R) (k i : Z) :
  peak_step mags (mv, k) i
  = if Rlt_dec mv (getR mags i) then (getR mags i, i) else (mv, k).
Proof. reflexivity. Qed.

(** The running maximum of the peak loop is the maximum of the values met. *)
Lemma peak_value (mags : list R) (ks : list Z) (mv0 : R) (k0 : Z) :
  fst (fold_left (peak_step mags) ks (mv0, k0))
  = fold_left Rmax (map (getR mags) ks) mv0.
Proof.
  revert mv0 k0; induction ks as [|i ks IH]; intros mv0 k0;
    cbn [fold_left map]; auto.
  rewrite peak_step_eq.
  destruct (Rlt_dec mv0 (getR mags i)) as [Hlt|Hge]; rewrite IH; f_equal.
  - rewrite Rmax_right; lra.
  - rewrite Rmax_left; lra.
Qed.

(** The bin kept by the peak loop: the start bin while nothing exceeded the
    start value, else a bin of the range that holds the maximum. *)
Lemma peak_bin (mags : list R) (ks : list Z) (mv0 : R) (k0 : Z) :
  let r := fold_left (peak_step mags) ks (mv0, k0) in
  (fst r = mv0 /\ snd r = k0) \/ (In (snd r) ks /\ fst r = getR mags (snd r)).
Proof.
  revert mv0 k0; induction ks as [|i ks IH]; intros mv0 k0;
    cbn [fold_left]; cbv zeta.
  - left; split; reflexivity.
  - rewrite peak_step_eq.
    destruct (Rlt_dec mv0 (getR mags i)) as [Hlt|Hge].
    + destruct (IH (getR mags i) i) as [[H1 H2]|[H1 H2]].
      * right. rewrite H1, H2. split; [left; reflexivity | reflexivity].
      * right. split; [right; exact H1 | exact H2].
    + destruct (IH mv0 k0) as [[H1 H2]|[H1 H2]].
      * left. split; assumption.
      * right. split; [right; exact H1 | exact H2].
Qed.

Lemma code_search_range (mags : list R) (sampleRate lowHz highHz : R) :
  let len := Z.of_nat (length mags) in
  Z.max 2 (Math_floor (lowHz / (sampleRate / (IZR len * 2))))
  = search_lo len sampleRate lowHz /\
  Z.min (len - 3) (Math_floor (highHz / (sampleRate / (IZR len * 2))))
  = search_hi len sampleRate highHz.
Proof.
  unfold search_lo, search_hi. cbv zeta.
  replace (2 * IZR (Z.of_nat (length mags)))
    with (IZR (Z.of_nat (length mags)) * 2) by ring.
  split; reflexivity.
Qed.

(** The test of the estimator on the loop's maximum, by the maximum of the
    range. *)
Lemma peak_below_floor (mags : list R) (lo hi : Z) :
  fst (fold_left (peak_step mags) (range lo hi) (0, lo)) < floor_level
  <-> below_floor (range_maximum mags lo hi).
Proof.
  rewrite peak_value. unfold range_maximum, maximum, below_floor.
  destruct (map (getR mags) (range lo hi)) as [|x rest]; simpl.
  - pose proof floor_level_pos. tauto.
  - rewrite fold_Rmax_shift. pose proof floor_level_pos.
    generalize (fold_left Rmax rest x). intros M.
    unfold Rmax. destruct (Rle_dec 0 M); split; lra.
Qed.

(** The estimator returns none exactly when the maximum kept by its peak
    loop is below the floor. *)
Lemma estimatePrimary_none_peak (mags : list R) (sampleRate lowHz highHz : R) :
  let len := Z.of_nat (length mags) in
  estimatePrimary mags sampleRate lowHz highHz = None
  <-> fst (fold_left (peak_step mags)
                     (range (search_lo len sampleRate lowHz)
                            (search_hi len sampleRate highHz))
                     (0, search_lo len sampleRate lowHz)) < floor_level.
Proof.
  intros len.
  destruct (code_search_range mags sampleRate lowHz highHz) as [Elo Ehi].
  fold len in Elo, Ehi.
  unfold estimatePrimary. fold len. rewrite Elo, Ehi.
  destruct (fold_left (peak_step mags) _ _) as [maxVal k].
  cbn [fst].
  destruct (Rlt_dec maxVal floor_level) as [Hlt|Hge].
  - tauto.
  - destruct (fold_left _ _ _) as [sum count]. split; [discriminate | tauto].
Qed.

(** On magnitudes that are all below the floor the estimator returns
    none. *)
Lemma estimatePrimary_quiet (mags : list R) (sampleRate lowHz highHz : R) :
  (forall i, getR mags i < floor_level) ->
  estimatePrimary mags sampleRate lowHz highHz = None.
Proof.
  intros Hq. apply estimatePrimary_none_peak. cbv zeta.
  rewrite peak_value.
  generalize (range (search_lo (Z.of_nat (length mags)) sampleRate lowHz)
                    (search_hi (Z.of_nat (length mags)) sampleRate highHz)).
  intros ks. pose proof floor_level_pos as Hpos. revert Hpos.
  generalize 0 at 1 2. induction ks as [|k ks IH]; intros m Hm; cbn; auto.
  apply IH. unfold Rmax. destruct (Rle_dec m (getR mags k)); auto.
Qed.

(** What the estimator returns when it returns a record, for a positive
    sample rate: a refined bin within one bin of a bin of the range that
    holds the maximum, and the frequency of that refined bin, which is
    positive. *)
Lemma estimatePrimary_reading (mags : list R) (sampleRate lowHz highHz : R) :
  0 < sampleRate ->
  let len := Z.of_nat (length mags) in
  let lo := search_lo len sampleRate lowHz in
  let hi := search_hi len sampleRate highHz in
  forall e, estimatePrimary mags sampleRate lowHz highHz = Some e ->
     exists k, (lo <= k <= hi)%Z /\
       floor_level <= getR mags k /\
       (forall i, (lo <= i <= hi)%Z -> getR mags i <= getR mags k) /\
       IZR k - 1 <= kRef e <= IZR k + 1 /\
       freq e = kRef e * (sampleRate / (IZR len * 2)) /\
       0 < freq e.
Proof.
  intros Hrate len lo hi.
  destruct (code_search_range mags sampleRate lowHz highHz) as [Elo Ehi].
  fold len in Elo, Ehi. fold lo in Elo. fold hi in Ehi.
  pose proof (peak_value mags (range lo hi) 0 lo) as Hval.
  pose proof (peak_bin mags (range lo hi) 0 lo) as Hbin. cbv zeta in Hbin.
  assert (Hnone :
    estimatePrimary mags sampleRate lowHz highHz = None
    <-> fst (fold_left (peak_step mags) (range lo hi) (0, lo)) < floor_level)
    by exact (estimatePrimary_none_peak mags sampleRate lowHz highHz).
  intros e He.
  assert (Hge : ~ fst (fold_left (peak_step mags) (range lo hi) (0, lo))
                  < floor_level).
  { intros Hlt. apply Hnone in Hlt. congruence. }
  revert He. unfold estimatePrimary. fold len. rewrite Elo, Ehi.
  destruct (fold_left (peak_step mags) (range lo hi) (0, lo)) as [maxVal k].
  cbn [fst snd] in *.
  destruct (Rlt_dec maxVal floor_level) as [Hlt|_]; [contradiction|].
  destruct (fold_left _ _ _) as [sum count].
  intros He. injection He as <-. cbn [kRef freq].
  pose proof floor_level_pos as Hpos.
  destruct Hbin as [[H1 _]|[Hin Hk]]; [lra|].
  apply In_range in Hin.
  assert (Hk2 : (2 <= k)%Z) by (unfold lo, search_lo in Hin; lia).
  assert (Hlen : (5 <= len)%Z) by (unfold hi, search_hi in Hin; lia).
  assert (Hbound : forall d, -1 <= Rmax (-1) (Rmin 1 d) <= 1).
  { intros d. pose proof (Rmin_l 1 d). pose proof (Rmax_l (-1) (Rmin 1 d)).
    unfold Rmax in *. destruct (Rle_dec (-1) (Rmin 1 d)); lra. }
  exists k. split; [exact Hin|]. split; [lra|]. split.
  - intros i Hi. rewrite <- Hk, Hval.
    apply fold_Rmax_ge. apply in_map. apply In_range. exact Hi.
  - match goal with |- _ <= _ + Rmax _ (Rmin 1 ?d) <= _ /\ _ =>
      pose proof (Hbound d) as Hd
    end.
    split; [lra|]. split; [reflexivity|].
    assert (Hk2' : 2 <= IZR k) by (apply IZR_le; exact Hk2).
    assert (Hlen' : 5 <= IZR len) by (apply IZR_le; exact Hlen).
    apply Rmult_lt_0_compat; [lra|].
    apply Rdiv_lt_0_compat; lra.
Qed.

(** C5: for a positive sample rate, [estimatePrimary] returns none exactly
    when the maximum magnitude over the clamped search range
    [max(2, floor(minHz/bin_hz)) .. min(len-3, floor(maxHz/bin_hz))] is below
    the floor [1e-6], an empty range included (none, not an error);
    otherwise it returns a record whose refined bin lies within one bin of a
    bin of the range that holds the maximum, with the frequency of that
    refined bin, which is positive, and a prominence. *)
Theorem estimatePrimary_none_iff (mags : list R) (sampleRate lowHz highHz : R) :
  0 < sampleRate ->
  let len := Z.of_nat (length mags) in
  let lo := search_lo len sampleRate lowHz in
  let hi := search_hi len sampleRate highHz in
  (estimatePrimary mags sampleRate lowHz highHz = None
   <-> below_floor (range_maximum mags lo hi)) /\
  ((hi < lo)%Z -> estimatePrimary mags sampleRate lowHz highHz = None) /\
  (forall e, estimatePrimary mags sampleRate lowHz highHz = Some e ->
     exists k, (lo <= k <= hi)%Z /\
       floor_level <= getR mags k /\
       (forall i, (lo <= i <= hi)%Z -> getR mags i <= getR mags k) /\
       IZR k - 1 <= kRef e <= IZR k + 1 /\
       freq e = kRef e * (sampleRate / (IZR len * 2)) /\
       0 < freq e).
Proof.
  intros Hrate len lo hi.
  destruct (code_search_range mags sampleRate lowHz highHz) as [Elo Ehi].
  fold len in Elo, Ehi. fold lo in Elo. fold hi in Ehi.
  pose proof (peak_below_floor mags lo hi) as Hfloor.
  pose proof (peak_value mags (range lo hi) 0 lo) as Hval.
  pose proof (peak_bin mags (range lo hi) 0 lo) as Hbin. cbv zeta in Hbin.
  assert (Hnone :
    estimatePrimary mags sampleRate lowHz highHz = None
    <-> fst (fold_left (peak_step mags) (range lo hi) (0, lo)) < floor_level)
    by exact (estimatePrimary_none_peak mags sampleRate lowHz highHz).
  split; [rewrite Hnone; exact Hfloor|].
  split.
  { intros Hempty. apply Hnone. rewrite range_nil by lia. cbn.
    exact floor_level_pos. }
  exact (estimatePrimary_reading mags sampleRate lowHz highHz Hrate).
Qed.

(** The spectrum with its peak in bin 3 of the range 2..5: a record, with
    a refined bin within one bin of 3 and a positive frequency. *)
Lemma estimatePrimary_none_iff_witness :
  exists e,
    estimatePrimary [0; 0; 0; 1; 0; 0; 0; 0] 16 2 5 = Some e /\
    2 <= kRef e <= 4 /\ freq e = kRef e * (16 / (8 * 2)) /\ 0 < freq e.
Proof.
  assert (Elo : search_lo 8 16 2 = 2%Z).
  { unfold search_lo, Math_floor. rewrite (Zfloor_eq 2); [reflexivity|].
    replace (2 / (16 / (2 * 8))) with 2 by field. lra. }
  assert (Ehi : search_hi 8 16 5 = 5%Z).
  { unfold search_hi, Math_floor. rewrite (Zfloor_eq 5); [reflexivity|].
    replace (5 / (16 / (2 * 8))) with 5 by field. lra. }
  destruct (estimatePrimary_none_iff [0; 0; 0; 1; 0; 0; 0; 0] 16 2 5)
    as (Hiff & _ & Hsome); [lra|].
  cbv zeta in Hiff, Hsome.
  cbn [length Z.of_nat Pos.of_succ_nat Pos.succ] in Hiff, Hsome.
  rewrite Elo, Ehi in Hiff, Hsome.
  destruct (estimatePrimary [0; 0; 0; 1; 0; 0; 0; 0] 16 2 5) as [e|] eqn:Ee.
  - destruct (Hsome e eq_refl) as (k & Hk & Hkfloor & _ & Hkref & Hfreq & Hpos).
    exists e. split; [reflexivity|].
    assert (Ek : k = 3%Z).
    { assert (Hc : (k = 2 \/ k = 3 \/ k = 4 \/ k = 5)%Z) by lia.
      unfold floor_level in Hkfloor.
      destruct Hc as [-> | [-> | [-> | ->]]]; try reflexivity;
        exfalso;
        cbv [getR get Z.ltb Z.compare Z.to_nat Pos.to_nat Pos.iter_op Nat.add nth]
          in Hkfloor; lra. }
    subst k. split; [lra|]. split; [exact Hfreq | exact Hpos].
  - exfalso. destruct Hiff as [Hnone _]. specialize (Hnone eq_refl).
    unfold below_floor, range_maximum, maximum in Hnone.
    change (range 2 5) with [2; 3; 4; 5]%Z in Hnone.
    unfold floor_level in Hnone.
    cbv [map fold_left getR get Z.ltb Z.compare Z.to_nat Pos.to_nat Pos.iter_op
         Nat.add nth] in Hnone.
    rewrite (Rmax_right 0 1), !(Rmax_left 1 0) in Hnone by lra. lra.
Defined.

End PrimaryClaim.

(* ------------------------------------------------------------------ *)
(** * The FFT engine *)

Module FFTFacts.

Import RealFFT JSFacts LoopFacts Invariants.

Lemma pow2_pos (k : Z) : (0 <= k)%Z -> (0 < 2 ^ k)%Z.
Proof. intros H. apply Z.pow_pos_nonneg; lia. Qed.

Lemma pow2_le (a b : Z) : (0 <= a <= b)%Z -> (2 ^ a <= 2 ^ b)%Z.
Proof. intros H. apply Z.pow_le_mono_r; lia. Qed.

Lemma pow2_lt (a b : Z) : (0 <= a < b)%Z -> (2 ^ a < 2 ^ b)%Z.
Proof. intros H. apply Z.pow_lt_mono_r; lia. Qed.

Lemma pow2_succ (k : Z) : (0 <= k)%Z -> (2 ^ (k + 1) = 2 * 2 ^ k)%Z.
Proof. intros H. rewrite Z.pow_add_r by lia. lia. Qed.

(** The carry loop of the table ends: its bit reaches zero. *)
Lemma carry_normal (b fuel : nat) (j bit : Z) :
  (0 <= bit < 2 ^ Z.of_nat b)%Z -> (bit < 2 ^ 31)%Z -> (b <= fuel)%nat ->
  exists r, carry fuel j bit = Normal r.
Proof.
  revert fuel j bit. induction b as [|b IH]; intros fuel j bit Hb H31 Hf.
  - assert (bit = 0%Z) by (change (2 ^ Z.of_nat 0)%Z with 1%Z in Hb; lia).
    subst bit. destruct fuel; cbn [carry]; rewrite band_0_r; cbn; eauto.
  - destruct fuel as [|fuel]; [lia|]. cbn [carry].
    destruct (band j bit =? 0)%Z; [eauto|].
    apply IH; try lia.
    + rewrite sar_1 by lia.
      rewrite Nat2Z.inj_succ, <- Z.add_1_r, pow2_succ in Hb by lia.
      split; [apply Z.div_pos; lia|].
      apply Z.div_lt_upper_bound; lia.
    + rewrite sar_1 by lia.
      apply Z.le_lt_trans with bit; [|lia].
      apply Z.div_le_upper_bound; lia.
Qed.

(** The table loop ends, and the table keeps its length. *)
Lemma table_loop_normal (n : Z) (ks : list Z) (j : Z) (table : list Z) :
  (0 <= n < 2 ^ 31)%Z ->
  exists j' table',
    fold_left (bitrev_step n) ks (Normal (j, table)) = Normal (j', table') /\
    length table' = length table.
Proof.
  intros Hn. revert j table. induction ks as [|i ks IH]; intros j table.
  - cbn. eauto.
  - cbn [fold_left]. unfold bitrev_step at 2. cbn [bind].
    destruct (carry_normal 31 64 j (sar n 1)) as [[j1 bit] Hc].
    + rewrite sar_1 by lia. change (2 ^ Z.of_nat 31)%Z with (2 ^ 31)%Z.
      split; [apply Z.div_pos; lia | apply Z.div_lt_upper_bound; lia].
    + rewrite sar_1 by lia. apply Z.div_lt_upper_bound; lia.
    + lia.
    + rewrite Hc. cbn [bind].
      destruct (IH (bxor j1 bit) (set table i (toUint32 (bxor j1 bit))))
        as (j' & table' & E & L).
      exists j', table'. split; [exact E|]. rewrite L. apply length_set.
Qed.

Lemma ensureSize_normal (this : t) (n : Z) :
  (0 <= n < 2 ^ 31)%Z -> fft_sized this ->
  exists this', ensureSize this n = Normal this' /\ size this' = n /\
                fft_sized this'.
Proof.
  intros Hn Hwf. unfold ensureSize.
  destruct (Z.eqb_spec (size this) n) as [E|E].
  - exists this. auto.
  - unfold Float32Array_new, UintArray_new.
    destruct (n <? 0)%Z eqn:E1; [lia|].
    assert (0 <= Z.quot n 2)%Z by (apply Z.quot_pos; lia).
    destruct (Z.quot n 2 <? 0)%Z eqn:E2; [lia|].
    cbn [bind].
    destruct (table_loop_normal n (range 1 (n - 1)) 0 (repeat 0%Z (Z.to_nat n)))
      as (j' & table' & Et & _); [lia|].
    rewrite Et. cbn [bind].
    eexists. split; [reflexivity|]. split; [reflexivity|].
    unfold fft_sized; cbn. rewrite !length_zeros. repeat split; lia.
Qed.

(** The sizing loop, started at a power of two: it ends at the smallest
    power of two that is at least the length, while that is at most 2^30. *)
Lemma sizing_pow2 (fuel : nat) (k len : Z) :
  (0 <= k <= 30)%Z -> (30 - k < Z.of_nat fuel)%Z -> (len <= 2 ^ 30)%Z ->
  (k = 0%Z \/ (2 ^ (k - 1) < len)%Z) ->
  exists m, (k <= m <= 30)%Z /\ sizing fuel (2 ^ k) len = Normal (2 ^ m)%Z /\
            (len <= 2 ^ m)%Z /\ (m = 0%Z \/ (2 ^ (m - 1) < len)%Z).
Proof.
  revert k. induction fuel as [|fuel IH]; intros k Hk Hf Hlen Hmin; [lia|].
  cbn [sizing]. destruct (Z.ltb_spec (2 ^ k) len) as [Hlt|Hge].
  - assert (k < 30)%Z.
    { destruct (Z_lt_dec k 30); [assumption|].
      assert (k = 30%Z) by lia. subst k. lia. }
    pose proof (pow2_pos k ltac:(lia)).
    pose proof (pow2_lt k 30 ltac:(lia)).
    rewrite shl_1 by lia. rewrite <- pow2_succ by lia.
    destruct (IH (k + 1)%Z) as (m & Hm & E & Hle & Hsm); try lia.
    + right. replace (k + 1 - 1)%Z with k by lia. exact Hlt.
    + exists m. repeat split; try lia; assumption.
  - exists k. repeat split; try lia; assumption.
Qed.

Lemma sizing_normal (fuel : nat) (len : Z) :
  (len <= 2 ^ 30)%Z -> (30 < Z.of_nat fuel)%Z ->
  exists n m, sizing fuel 1 len = Normal n /\ n = (2 ^ m)%Z /\
              (0 <= m <= 30)%Z /\ (len <= n)%Z /\
              (m = 0%Z \/ (2 ^ (m - 1) < len)%Z).
Proof.
  intros Hlen Hf.
  destruct (sizing_pow2 fuel 0 len) as (m & Hm & E & H1 & H2); try lia.
  exists (2 ^ m)%Z, m. change (2 ^ 0)%Z with 1%Z in E.
  repeat split; try lia; assumption.
Qed.

Lemma fold_left_keeps {A B : Type} (P : A -> Prop) (f : A -> B -> A)
  (l : list B) (a : A) :
  (forall a b, P a -> P (f a b)) -> P a -> P (fold_left f l a).
Proof.
  intros Hf. revert a. induction l as [|b l IH]; intros a Ha; cbn; auto.
Qed.

Section ButterflyInvariant.

(** A property of the two buffers that every butterfly keeps. *)
Variable Q : list R * list R -> Prop.

Hypothesis butterfly_keeps :
  forall wlenRe wlenIm i halfLen re im wRe wIm k,
    Q (re, im) ->
    Q (fst (fst (fst (butterfly wlenRe wlenIm i halfLen (re, im, wRe, wIm) k))),
       snd (fst (fst (butterfly wlenRe wlenIm i halfLen (re, im, wRe, wIm) k)))).

Lemma block_keeps (wlenRe wlenIm : R) (len : Z) (bufs : list R * list R) (i : Z) :
  Q bufs -> Q (block wlenRe wlenIm len bufs i).
Proof.
  intros HQ. unfold block. destruct bufs as [re im].
  pose proof (fold_left_keeps
    (fun st : list R * list R * R * R => Q (fst (fst (fst st)), snd (fst (fst st))))
    (butterfly wlenRe wlenIm i (sar len 1)) (range 0 (sar len 1 - 1))
    (re, im, 1, 0)) as H.
  cbn [fst snd] in H.
  destruct (fold_left _ _ _) as [[[re' im'] wr] wi]. cbn [fst snd] in H.
  apply H; [|exact HQ].
  intros [[[r1 i1] w1] w2] k Hq. cbn [fst snd] in Hq.
  apply butterfly_keeps. exact Hq.
Qed.

Lemma stage_keeps (n len : Z) (bufs : list R * list R) :
  (0 < len)%Z -> Q bufs ->
  exists bufs', stage n len bufs = Normal bufs' /\ Q bufs'.
Proof.
  intros Hlen HQ. unfold stage.
  destruct (Z.ltb_spec 0 len) as [_|H]; [|lia].
  eexists. split; [reflexivity|].
  apply fold_left_keeps; [|exact HQ].
  intros a b Ha. apply block_keeps. exact Ha.
Qed.

(** The stage loop on a size [2^m] with [m <= 29] ends, from any stage
    [2^j] it has reached. *)
Lemma stages_keeps (fuel : nat) (m j : Z) (bufs : list R * list R) :
  (0 <= m <= 29)%Z -> (1 <= j <= m + 1)%Z -> (m + 1 - j < Z.of_nat fuel)%Z ->
  Q bufs ->
  exists bufs', stages fuel (2 ^ m) (2 ^ j) bufs = Normal bufs' /\ Q bufs'.
Proof.
  revert j bufs. induction fuel as [|fuel IH]; intros j bufs Hm Hj Hf HQ; [lia|].
  cbn [stages].
  destruct (Z.leb_spec (2 ^ j) (2 ^ m)) as [Hle|Hgt].
  - assert (j <= m)%Z.
    { destruct (Z_le_gt_dec j m); [assumption|].
      pose proof (pow2_lt m j ltac:(lia)). lia. }
    destruct (stage_keeps (2 ^ m) (2 ^ j) bufs) as (bufs1 & E1 & HQ1);
      [apply pow2_pos; lia | exact HQ |].
    rewrite E1. cbn [bind].
    pose proof (pow2_pos j ltac:(lia)).
    pose proof (pow2_lt j 30 ltac:(lia)).
    rewrite shl_1 by lia. rewrite <- pow2_succ by lia.
    apply IH; try lia. exact HQ1.
  - exists bufs. split; [reflexivity | exact HQ].
Qed.

End ButterflyInvariant.

Lemma butterfly_sized (n : nat) :
  forall wlenRe wlenIm i halfLen re im wRe wIm k,
    sized n (re, im) ->
    sized n
      (fst (fst (fst (butterfly wlenRe wlenIm i halfLen (re, im, wRe, wIm) k))),
       snd (fst (fst (butterfly wlenRe wlenIm i halfLen (re, im, wRe, wIm) k)))).
Proof.
  intros wlenRe wlenIm i halfLen re im wRe wIm k [H1 H2].
  unfold sized, butterfly; cbn [fst snd]. rewrite !length_set. auto.
Qed.

Lemma butterfly_silent (n : nat) :
  forall wlenRe wlenIm i halfLen re im wRe wIm k,
    silent n (re, im) ->
    silent n
      (fst (fst (fst (butterfly wlenRe wlenIm i halfLen (re, im, wRe, wIm) k))),
       snd (fst (fst (butterfly wlenRe wlenIm i halfLen (re, im, wRe, wIm) k)))).
Proof.
  intros wlenRe wlenIm i halfLen re im wRe wIm k [H1 H2].
  cbn [fst snd] in H1, H2. subst re im.
  unfold silent, butterfly; cbn [fst snd]. rewrite !getR_zeros.
  replace (0 + (0 * wRe - 0 * wIm)) with 0 by ring.
  replace (0 - (0 * wRe - 0 * wIm)) with 0 by ring.
  replace (0 + (0 * wIm + 0 * wRe)) with 0 by ring.
  replace (0 - (0 * wIm + 0 * wRe)) with 0 by ring.
  rewrite !set_zeros. auto.
Qed.

Lemma bitrev_swap_sized (n : nat) (table : list Z) (bufs : list R * list R) (i : Z) :
  sized n bufs -> sized n (bitrev_swap table bufs i).
Proof.
  destruct bufs as [re im]. intros [H1 H2]. unfold bitrev_swap, sized.
  destruct (i <? getZ table i)%Z; cbn [fst snd] in *; rewrite ?length_set; auto.
Qed.

Lemma bitrev_swap_silent (n : nat) (table : list Z) (bufs : list R * list R) (i : Z) :
  silent n bufs -> silent n (bitrev_swap table bufs i).
Proof.
  destruct bufs as [re im]. intros [H1 H2]. cbn [fst snd] in H1, H2. subst.
  unfold bitrev_swap, silent.
  destruct (i <? getZ table i)%Z; cbn [fst snd];
    rewrite ?getR_zeros, ?set_zeros; auto.
Qed.

Lemma length_blit (dst src : list R) : length (blit dst src) = length dst.
Proof.
  revert src; induction dst as [|d dst IH]; intros [|s src]; cbn; auto.
Qed.

Lemma blit_zeros (n k : nat) : blit (zeros n) (zeros k) = zeros n.
Proof.
  revert k; induction n as [|n IH]; intros [|k]; cbn; auto.
  f_equal. apply IH.
Qed.

(** A list whose cells all read zero is the zero list. *)
Lemma all_zero_cells (l : list R) :
  (forall i, (0 <= i < Z.of_nat (length l))%Z -> getR l i = 0) ->
  l = zeros (length l).
Proof.
  induction l as [|x l IH]; intros H; [reflexivity|].
  cbn [length zeros repeat]. f_equal.
  - apply (H 0%Z). cbn [length]. lia.
  - apply IH. intros i Hi.
    specialize (H (i + 1)%Z). cbn [length] in H.
    rewrite <- H by lia.
    unfold getR, get.
    destruct (i <? 0)%Z eqn:E1; [lia|]. destruct (i + 1 <? 0)%Z eqn:E2; [lia|].
    replace (Z.to_nat (i + 1)) with (S (Z.to_nat i)) by lia. reflexivity.
Qed.

End FFTFacts.

(* ------------------------------------------------------------------ *)
(** * Claims about the FFT engine *)

Module FFTClaims.

Import RealFFT JSFacts LoopFacts Invariants FFTFacts.

Lemma hypot_0 : Math_hypot 0 0 = 0.
Proof.
  unfold Math_hypot. replace (0 * 0 + 0 * 0) with 0 by ring. apply sqrt_0.
Qed.

Lemma create_sized : fft_sized create.
Proof. unfold fft_sized; cbn. repeat split; lia. Qed.

(** The magnitude loop: every cell below [half] is the modulus of the
    spectrum there. *)
Lemma magnitude_loop (re im mags0 : list R) (half : Z) :
  let mags := fold_left (fun m i => set m i (Math_hypot (getR re i) (getR im i)))
                        (range 0 (half - 1)) mags0 in
  length mags = length mags0 /\
  forall i, (0 <= i < half)%Z -> (i < Z.of_nat (length mags0))%Z ->
            getR mags i = Math_hypot (getR re i) (getR im i).
Proof.
  cbv zeta. split.
  - apply (fold_cell_length R 0 (fun i _ => Math_hypot (getR re i) (getR im i))).
  - intros i Hi Hl.
    apply (fold_cell_range R 0 (fun i _ => Math_hypot (getR re i) (getR im i)));
      lia.
Qed.

(** [transform] returns on a frame of at most 2^29 samples. *)
Lemma transform_returns (this : t) (signal : list R) :
  fft_sized this ->
  (0 < Z.of_nat (length signal) <= 2 ^ 29)%Z ->
  exists this' mags n,
    transform this signal = Normal (this', mags) /\
    next_pow2 (Z.of_nat (length signal)) n /\
    Z.of_nat (length mags) = (n / 2)%Z /\
    fft_sized this' /\
    (signal = zeros (length signal) -> mags = zeros (length mags)).
Proof.
  intros Hwf [Hpos Hlen].
  unfold transform, transform_fuel.
  destruct (sizing_normal 64 (Z.of_nat (length signal)))
    as (n & m & Es & Hn & Hm & Hle & Hsm); [lia | lia |].
  assert (Hm29 : (m <= 29)%Z).
  { destruct Hsm as [->|Hsm]; [lia|].
    destruct (Z_le_gt_dec m 29); [assumption|].
    pose proof (pow2_le 29 (m - 1) ltac:(lia)). lia. }
  pose proof (pow2_pos m ltac:(lia)) as Hnpos.
  pose proof (pow2_le m 29 ltac:(lia)) as Hn29.
  rewrite <- Hn in Hnpos, Hn29.
  rewrite Es. cbn [bind].
  destruct (ensureSize_normal this n) as (this1 & E1 & Hsz & Hwf1);
    [lia | exact Hwf |].
  rewrite E1. cbn [bind].
  destruct Hwf1 as (_ & Lre & Lim & Lmag). rewrite Hsz in Lre, Lim, Lmag.
  set (re0 := blit (fill0 (real this1)) signal).
  set (im0 := fill0 (imag this1)).
  assert (S0 : sized (Z.to_nat n) (re0, im0)).
  { unfold sized, re0, im0, fill0; cbn [fst snd].
    rewrite length_blit, !length_zeros. auto. }
  pose proof (fold_left_keeps (sized (Z.to_nat n))
                (bitrev_swap (bitRevTable this1)) (range 1 (n - 1)) (re0, im0)
                (fun a b => bitrev_swap_sized _ _ a b) S0) as S1.
  assert (Z0 : signal = zeros (length signal) ->
               silent (Z.to_nat n) (re0, im0)).
  { intros Hz. unfold silent, re0, im0, fill0; cbn [fst snd].
    rewrite Hz, Lre, Lim, blit_zeros. auto. }
  pose proof (fun Hz => fold_left_keeps (silent (Z.to_nat n))
                (bitrev_swap (bitRevTable this1)) (range 1 (n - 1)) (re0, im0)
                (fun a b => bitrev_swap_silent _ _ a b) (Z0 Hz)) as Z1.
  destruct (fold_left (bitrev_swap (bitRevTable this1)) (range 1 (n - 1))
                      (re0, im0)) as [re1 im1].
  rewrite Hn.
  destruct (stages_keeps
              (fun bufs => sized (Z.to_nat n) bufs /\
                           (signal = zeros (length signal) ->
                            silent (Z.to_nat n) bufs))
              ltac:(intros wr wi i h re im w1 w2 k [Hs Hz]; split;
                    [apply butterfly_sized; exact Hs
                    | intros Hsig; apply butterfly_silent; auto])
              64 m 1 (re1, im1))
    as ([re2 im2] & E2 & S2 & Z2); try lia; [split; assumption|].
  change (2 ^ 1)%Z with 2%Z in E2. rewrite E2. cbn [bind].
  rewrite <- Hn.
  assert (Hhalf : sar n 1 = (n / 2)%Z) by (apply sar_1; lia).
  assert (Hquot : Z.quot n 2 = (n / 2)%Z) by (apply Z.quot_div_nonneg; lia).
  rewrite Hquot in Lmag. rewrite Hhalf.
  destruct (magnitude_loop re2 im2 (magnitudes this1) (n / 2)) as [Lm Cm].
  set (mags := fold_left _ (range 0 (n / 2 - 1)) (magnitudes this1)) in *.
  assert (Hfirst : firstn (Z.to_nat (n / 2)) mags = mags).
  { apply firstn_all2. rewrite Lm, Lmag. lia. }
  rewrite Hfirst.
  exists {| size := size this1; real := re2; imag := im2; magnitudes := mags;
            bitRevTable := bitRevTable this1 |}, mags, n.
  split; [reflexivity|]. split.
  { exists m. repeat split; try lia; assumption. }
  assert (Hdiv : (0 <= n / 2)%Z) by (apply Z.div_pos; lia).
  split; [rewrite Lm, Lmag; lia|].
  split.
  { destruct S2 as [L1 L2]. cbn [fst snd] in L1, L2.
    unfold fft_sized; cbn. rewrite Hsz, Hquot, L1, L2, Lm, Lmag.
    repeat split; lia. }
  intros Hz. apply all_zero_cells. intros i Hi.
  destruct (Z2 Hz) as [R2 I2]. cbn [fst snd] in R2, I2.
  rewrite Cm by (rewrite Lm, Lmag in Hi; rewrite ?Lmag; lia).
  rewrite R2, I2, !getR_zeros. apply hypot_0.
Qed.

(** [transform] on a frame of at most 2^29 samples: it returns, the
    magnitude buffer has [N/2] cells for the smallest power of two [N] that
    is at least the length of the frame, and an all-zero frame gives an
    all-zero buffer. *)
Theorem transform_pads_and_halves (this : t) (signal : list R) :
  fft_sized this ->
  (0 < Z.of_nat (length signal) <= 2 ^ 29)%Z ->
  exists this' mags n,
    transform this signal = Normal (this', mags) /\
    next_pow2 (Z.of_nat (length signal)) n /\
    Z.of_nat (length mags) = (n / 2)%Z /\
    fft_sized this' /\
    (signal = zeros (length signal) -> mags = zeros (length mags)).
Proof.
  intros Hwf Hlen. exact (transform_returns this signal Hwf Hlen).
Qed.

Lemma transform_pads_and_halves_witness :
  exists this' mags n,
    transform create (zeros 48) = Normal (this', mags) /\
    next_pow2 48 n /\ Z.of_nat (length mags) = (n / 2)%Z /\
    fft_sized this' /\ (zeros 48 = zeros 48 -> mags = zeros (length mags)).
Proof.
  apply (transform_pads_and_halves create (zeros 48)).
  - exact create_sized.
  - rewrite length_zeros. lia.
Defined.

(** For a frame of more than 2^29 and at most 2^30 samples the sizing loop,
    if it ends, ends at 2^30. *)
Lemma sizing_to_2pow30 (fuel : nat) (k len : Z) :
  (0 <= k <= 30)%Z -> (2 ^ 29 < len <= 2 ^ 30)%Z ->
  sizing fuel (2 ^ k) len = Loops \/ sizing fuel (2 ^ k) len = Normal (2 ^ 30)%Z.
Proof.
  revert k. induction fuel as [|fuel IH]; intros k Hk Hlen; cbn [sizing].
  - destruct (Z.ltb_spec (2 ^ k) len) as [Hlt|Hge]; [left; reflexivity|].
    right. f_equal.
    destruct (Z_lt_dec k 30); [|f_equal; lia].
    pose proof (pow2_le k 29 ltac:(lia)). lia.
  - destruct (Z.ltb_spec (2 ^ k) len) as [Hlt|Hge].
    + assert (k < 30)%Z.
      { destruct (Z_lt_dec k 30); [assumption|].
        assert (k = 30%Z) by lia. subst k. lia. }
      pose proof (pow2_pos k ltac:(lia)).
      pose proof (pow2_lt k 30 ltac:(lia)).
      rewrite shl_1 by lia. rewrite <- pow2_succ by lia.
      apply IH; lia.
    + right. f_equal.
      destruct (Z_lt_dec k 30); [|f_equal; lia].
      pose proof (pow2_le k 29 ltac:(lia)). lia.
Qed.

(** On the size 2^30 the stage loop does not end, whatever its fuel: after
    the stage [len = 2^30] the shift [len <<= 1] gives [-2^31], which is
    still [<= size], and the block loop [for (i = 0; i < size; i += len)]
    then steps backwards for ever. *)
Lemma stages_hang (fuel : nat) (j : Z) (bufs : list R * list R) :
  (1 <= j <= 30)%Z -> stages fuel (2 ^ 30) (2 ^ j) bufs = Loops.
Proof.
  revert j bufs. induction fuel as [|fuel IH]; intros j bufs Hj;
    cbn [stages];
    pose proof (pow2_le j 30 ltac:(lia)) as Hle;
    destruct (Z.leb_spec (2 ^ j) (2 ^ 30)) as [_|Hgt]; try lia;
    destruct (stage_keeps (fun _ => True) ltac:(intros; exact I)
                          (2 ^ 30) (2 ^ j) bufs) as (bufs1 & E1 & _);
    try (apply pow2_pos; lia); try exact I; rewrite E1; cbn [bind].
  - reflexivity.
  - destruct (Z_lt_dec j 30) as [Hlt|Hge].
    + pose proof (pow2_pos j ltac:(lia)).
      pose proof (pow2_lt j 30 ltac:(lia)).
      rewrite shl_1 by lia. rewrite <- pow2_succ by lia.
      apply IH. lia.
    + assert (j = 30%Z) by lia. subst j.
      change (shl (2 ^ 30) 1) with (- 2147483648)%Z.
      destruct fuel; reflexivity.
Qed.

(** C6, at an input that breaks it: on a frame of 2^29 + 1 = 536870913
    samples (all zero here) [transform] does not return, whatever fuel its
    loops are given; the claim has it return a buffer of 2^29 magnitudes. *)
Theorem transform_hangs_above_2pow29 (fuel : nat) :
  transform_fuel fuel create (zeros (Z.to_nat 536870913)) = Loops.
Proof.
  unfold transform_fuel. rewrite length_zeros, Z2Nat.id by lia.
  destruct (sizing_to_2pow30 fuel 0 536870913) as [E|E]; try lia;
    change (2 ^ 0)%Z with 1%Z in E; rewrite E; cbn [bind]; [reflexivity|].
  destruct (ensureSize_normal create (2 ^ 30)) as (this1 & E1 & _ & _);
    [lia | exact create_sized |].
  rewrite E1. cbn [bind].
  destruct (fold_left (bitrev_swap (bitRevTable this1)) _ _) as [re1 im1].
  pose proof (stages_hang fuel 1 (re1, im1) ltac:(lia)) as Eh.
  change (2 ^ 1)%Z with 2%Z in Eh. rewrite Eh. reflexivity.
Qed.

End FFTClaims.

(* ------------------------------------------------------------------ *)
(** * The per-hop pipeline *)

Module ProcessorFacts.

Import AudioProcessor JSFacts LoopFacts Invariants Reference FFTFacts.

Lemma blit_fits (dst src : list R) :
  (length src <= length dst)%nat ->
  RealFFT.blit dst src = src ++ skipn (length src) dst.
Proof.
  revert src; induction dst as [|d dst IH]; intros [|s src] H; cbn in *;
    try lia; auto.
  f_equal. apply IH. lia.
Qed.

Lemma blit_same_length (dst src : list R) :
  length src = length dst -> RealFFT.blit dst src = src.
Proof.
  intros H. rewrite blit_fits by lia. rewrite H, skipn_all. apply app_nil_r.
Qed.

Lemma typed_set_whole (dst src : list R) :
  length src = length dst -> typed_set dst src 0 = Normal src.
Proof.
  intros H. unfold typed_set.
  destruct (Z.ltb_spec (Z.of_nat (length dst)) (0 + Z.of_nat (length src)));
    [lia|].
  cbn [Z.to_nat firstn skipn app]. rewrite blit_same_length; auto.
Qed.

(** The two copies of [processFrame] lay the ring buffer out from its
    oldest sample. *)
Lemma frame_copy (ring ab : list R) (W start : Z) :
  length ring = Z.to_nat W -> length ab = Z.to_nat W -> (0 <= start < W)%Z ->
  exists ab1,
    typed_set ab (subarray_from ring start) 0 = Normal ab1 /\
    (if (0 <? start)%Z
     then typed_set ab1 (subarray ring 0 start)
            (Z.of_nat (length (subarray_from ring start)))
     else Normal ab1)
    = Normal (skipn (Z.to_nat start) ring ++ firstn (Z.to_nat start) ring).
Proof.
  intros Lr La Hs. unfold subarray_from, subarray.
  assert (Lf : length (skipn (Z.to_nat start) ring) = (Z.to_nat W - Z.to_nat start)%nat)
    by (rewrite length_skipn; lia).
  unfold typed_set at 1.
  destruct (Z.ltb_spec (Z.of_nat (length ab))
                       (0 + Z.of_nat (length (skipn (Z.to_nat start) ring))));
    [lia|].
  cbn [Z.to_nat firstn skipn app].
  eexists. split; [reflexivity|].
  rewrite blit_fits by lia.
  destruct (Z.ltb_spec 0 start) as [Hpos|Hzero].
  - unfold typed_set.
    replace (start - 0)%Z with start by lia. cbn [Z.to_nat skipn].
    assert (Ls : length (firstn (Z.to_nat start) ring) = Z.to_nat start)
      by (rewrite length_firstn; lia).
    match goal with |- (if ?c then _ else _) = _ => destruct c eqn:E end.
    { apply Z.ltb_lt in E.
      rewrite ?length_app, ?length_skipn, ?length_firstn in E.
      rewrite ?length_skipn in E. lia. }
    f_equal. rewrite Nat2Z.id.
    rewrite firstn_app, Nat.sub_diag, firstn_all. cbn [firstn].
    rewrite app_nil_r. f_equal.
    rewrite skipn_app, Nat.sub_diag, skipn_all. cbn [skipn app].
    apply blit_same_length. rewrite length_skipn. lia.
  - assert (start = 0%Z) by lia. subst start.
    cbn [Z.to_nat skipn firstn]. rewrite app_nil_r.
    f_equal. rewrite Lr, <- La, skipn_all. apply app_nil_r.
Qed.

Lemma window_loop_length (w : list R) (ks : list Z) (ab : list R) :
  length (fold_left (window_step w) ks ab) = length ab.
Proof.
  apply (fold_cell_length R 0 (fun i x => x * getR w i)).
Qed.

Lemma window_loop_zeros (w : list R) (lo hi : Z) (n : nat) :
  fold_left (window_step w) (range lo hi) (zeros n) = zeros n.
Proof.
  apply (fold_left_keeps (fun l => l = zeros n)); [|reflexivity].
  intros a i ->. unfold window_step. rewrite getR_zeros.
  replace (0 * getR w i) with 0 by ring. apply set_zeros.
Qed.

Lemma frameRms_zeros (n : nat) : frameRms (zeros n) = 0.
Proof.
  unfold frameRms.
  assert (E : fold_left (fun sum sample => sum + sample * sample) (zeros n) 0 = 0).
  { induction n as [|n IH]; cbn [zeros repeat fold_left]; [reflexivity|].
    replace (0 + 0 * 0) with 0 by ring. exact IH. }
  rewrite E. unfold Rdiv. rewrite Rmult_0_l. apply sqrt_0.
Qed.

Lemma skipn_zeros (k n : nat) : skipn k (zeros n) = zeros (n - k).
Proof.
  revert k; induction n as [|n IH]; intros [|k]; cbn; auto.
Qed.

Lemma firstn_zeros (k n : nat) : (k <= n)%nat -> firstn k (zeros n) = zeros k.
Proof.
  revert k; induction n as [|n IH]; intros [|k] H; cbn; auto; try lia.
  f_equal. apply IH. lia.
Qed.

Lemma zeros_app (a b : nat) : zeros a ++ zeros b = zeros (a + b).
Proof. unfold zeros. symmetry. apply repeat_app. Qed.

(** The smoothing loop on twelve cells. *)
Lemma smooth_loop_cell (s beta : R) (raw cur : list R) (i : Z) :
  length cur = 12%nat -> (0 <= i < 12)%Z ->
  getR (fold_left (smooth_step s beta raw) (range 0 11) cur) i
  = s * getR cur i + beta * getR raw i.
Proof.
  intros L Hi.
  apply (fold_cell_range R 0 (fun i x => s * x + beta * getR raw i)); lia.
Qed.

Lemma smooth_loop_length (s beta : R) (raw cur : list R) :
  length (fold_left (smooth_step s beta raw) (range 0 11) cur) = length cur.
Proof.
  apply (fold_cell_length R 0 (fun i x => s * x + beta * getR raw i)).
Qed.

Lemma smooth_loop_zeros (s beta : R) :
  fold_left (smooth_step s beta (zeros 12)) (range 0 11) (zeros 12) = zeros 12.
Proof.
  apply (fold_left_keeps (fun l => l = zeros 12)); [|reflexivity].
  intros a i ->. unfold smooth_step. rewrite !getR_zeros.
  replace (s * 0 + beta * 0) with 0 by ring. apply set_zeros.
Qed.

Lemma clamp_bounds (v : R) : 0 <= clamp v 0 0.999 <= 0.999.
Proof.
  unfold clamp, clampR, Rmin, Rmax.
  destruct (Rle_dec 0 v); destruct (Rle_dec 0.999 _); lra.
Qed.


Lemma sum_loop_length (ks : list Z) (acc : list R * R) :
  length (fst (fold_left PitchClassComputer.sum_step ks acc)) = length (fst acc).
Proof.
  apply (fold_left_keeps (fun a : list R * R => length (fst a) = length (fst acc)));
    [|reflexivity].
  intros [out sum] i H. exact H.
Qed.

Lemma pow_loop_length (e : R) (ks : list Z) (acc : list R * R) :
  length (fst (fold_left (PitchClassComputer.pow_step e) ks acc))
  = length (fst acc).
Proof.
  apply (fold_left_keeps (fun a : list R * R => length (fst a) = length (fst acc)));
    [|reflexivity].
  intros [out sum] i H. cbn [PitchClassComputer.pow_step fst] in *.
  rewrite length_set. exact H.
Qed.

Lemma scale_loop_length (inv : R) (ks : list Z) (out : list R) :
  length (fold_left (PitchClassComputer.scale_step inv) ks out) = length out.
Proof.
  apply (fold_cell_length R 0 (fun _ x => x * inv)).
Qed.

(** [compute] returns twelve values whatever its arguments. *)
Lemma compute_length (this : PitchClassComputer.t) (mags : list R)
  (sampleRate : R) (o : PitchClassComputer.Options) :
  length (PitchClassComputer.output this) = 12%nat ->
  length (snd (PitchClassComputer.compute this mags sampleRate o)) = 12%nat.
Proof.
  intros Hout. unfold PitchClassComputer.compute.
  set (out1 := fold_left (PitchClassComputer.accumulate _ _ _) _ _).
  assert (L1 : length out1 = 12%nat).
  { unfold out1. rewrite ComputeFacts.accumulate_length.
    unfold RealFFT.fill0. rewrite length_zeros.
    rewrite ComputeFacts.ensureLookup_output. exact Hout. }
  assert (L2 : length (fst (if Req_dec_T (PitchClassComputer.pcdNormalize o) 1
                then fold_left PitchClassComputer.sum_step (range 0 11) (out1, 0)
                else fold_left (PitchClassComputer.pow_step
                                  (PitchClassComputer.pcdNormalize o))
                               (range 0 11) (out1, 0))) = 12%nat).
  { destruct (Req_dec_T _ 1);
      [rewrite sum_loop_length | rewrite pow_loop_length]; exact L1. }
  destruct (if Req_dec_T _ 1 then _ else _) as [out2 sum].
  cbn [fst snd] in *.
  destruct (Rlt_dec 0 sum); [rewrite scale_loop_length|]; exact L2.
Qed.

Lemma getSilentOutput_zeros (this : PitchClassComputer.t) :
  length (PitchClassComputer.zero this) = 12%nat ->
  snd (PitchClassComputer.getSilentOutput this) = zeros 12 /\
  PitchClassComputer.zero (fst (PitchClassComputer.getSilentOutput this))
  = zeros 12 /\
  PitchClassComputer.output (fst (PitchClassComputer.getSilentOutput this))
  = PitchClassComputer.output this /\
  (lookup_inv this ->
   lookup_inv (fst (PitchClassComputer.getSilentOutput this))).
Proof.
  intros H. unfold PitchClassComputer.getSilentOutput, RealFFT.fill0.
  cbn [fst snd PitchClassComputer.zero PitchClassComputer.output].
  rewrite H. repeat split. intros Hi. exact Hi.
Qed.

End ProcessorFacts.

Module HopFacts.

Import AudioProcessor JSFacts LoopFacts Invariants Reference FFTFacts ProcessorFacts.

(** What one run of the [try] block of [processFrame] does on a ready
    processor. *)
Lemma analyse_returns (p : t) :
  ready p ->
  exists p' d,
    analyse p = (p', Normal d) /\
    (config p' = config p /\ tunerConfig p' = tunerConfig p /\
     sampleRate p' = sampleRate p /\ running p' = running p /\
     ringBuffer p' = ringBuffer p /\ writeIndex p' = writeIndex p /\
     filled p' = filled p /\ hopCounter p' = hopCounter p) /\
    ready p' /\
    (rawPcd p' = d_rawPcd d /\ currentPcd p' = pcd d /\ lastRms p' = rms d) /\
    rawPcd p' = raw_of_hop p (rms d) (d_magnitudes d) /\
    currentPcd p' = smooth (config p) (rawPcd p') (currentPcd p) /\
    primary d = find_primary (tunerConfig p) (config p) (sampleRate p)
                             (rms d) (d_magnitudes d) /\
    (ringBuffer p = zeros (length (ringBuffer p)) ->
     rms d = 0 /\ d_magnitudes d = zeros (length (d_magnitudes d))).
Proof.
  intros (HW & Lr & La & Hwi & Lc & Lraw & Lout & Lzero & Hinv & Hfft).
  unfold analyse.
  rewrite Z.rem_small by lia.
  destruct (frame_copy (ringBuffer p) (analysisBuffer p)
                       (windowSize (config p)) (writeIndex p) Lr La Hwi)
    as (ab1 & E1 & E2).
  rewrite E1, E2.
  set (frame := skipn (Z.to_nat (writeIndex p)) (ringBuffer p)
                ++ firstn (Z.to_nat (writeIndex p)) (ringBuffer p)).
  assert (Lf : length frame = Z.to_nat (windowSize (config p))).
  { unfold frame. rewrite length_app, length_skipn, length_firstn. lia. }
  set (ab3 := fold_left (window_step (windowFn p))
                        (range 0 (windowSize (config p) - 1)) frame).
  assert (L3 : length ab3 = Z.to_nat (windowSize (config p))).
  { unfold ab3. rewrite window_loop_length. exact Lf. }
  destruct (FFTClaims.transform_returns (fft p) ab3 Hfft)
    as (fft1 & mags & n & Et & _ & _ & Hfft1 & Hz); [rewrite L3; lia|].
  rewrite Et.
  assert (Hraw :
    exists pc1,
      (if Rle_dec (pcdMinRms (config p)) (frameRms ab3)
       then PitchClassComputer.compute (pcdComputer p) mags (sampleRate p)
              (options_of (config p))
       else PitchClassComputer.getSilentOutput (pcdComputer p))
      = (pc1, raw_of_hop p (frameRms ab3) mags) /\
      length (raw_of_hop p (frameRms ab3) mags) = 12%nat /\
      length (PitchClassComputer.output pc1) = 12%nat /\
      length (PitchClassComputer.zero pc1) = 12%nat /\
      lookup_inv pc1).
  { unfold raw_of_hop.
    destruct (Rle_dec (pcdMinRms (config p)) (frameRms ab3)).
    - pose proof (compute_length (pcdComputer p) mags (sampleRate p)
                                 (options_of (config p)) Lout) as Lc1.
      destruct (ComputeClaim.compute_state (pcdComputer p) mags (sampleRate p)
                  (options_of (config p)) Hinv) as (Ho & Hi & Hzz).
      eexists. split; [apply surjective_pairing|].
      rewrite Ho, Hzz. auto.
    - destruct (getSilentOutput_zeros (pcdComputer p) Lzero)
        as (Hs & Hzz & Ho & Hi).
      eexists. split; [rewrite <- Hs; apply surjective_pairing|].
      rewrite Hzz, Ho, length_zeros. auto. }
  destruct Hraw as (pc1 & Eraw & Lr1 & Lo1 & Lz1 & Hinv1).
  rewrite Eraw.
  rewrite typed_set_whole by (rewrite Lr1, Lraw; reflexivity).
  eexists _, _. split; [reflexivity|].
  cbn [config tunerConfig sampleRate running ringBuffer writeIndex filled
       hopCounter rawPcd currentPcd lastRms with_pcds with_engines
       with_lastRms with_analysisBuffer with_window
       pcd d_rawPcd rms d_magnitudes primary].
  split; [repeat split|].
  split.
  { unfold ready.
    cbn [config ringBuffer analysisBuffer writeIndex currentPcd rawPcd
         pcdComputer fft with_pcds with_engines with_lastRms
         with_analysisBuffer with_window].
    unfold smooth. rewrite smooth_loop_length.
    destruct Hfft1 as (F1 & F2 & F3 & F4).
    repeat split; try assumption; try lia. }
  split; [repeat split|].
  split; [reflexivity|].
  split; [reflexivity|].
  split; [reflexivity|].
  intros Hring.
  assert (Hframe : frame = zeros (Z.to_nat (windowSize (config p)))).
  { unfold frame. rewrite Hring, Lr, skipn_zeros, firstn_zeros, zeros_app by lia.
    f_equal. lia. }
  assert (Hab3 : ab3 = zeros (Z.to_nat (windowSize (config p)))).
  { unfold ab3. rewrite Hframe. apply window_loop_zeros. }
  split.
  - rewrite Hab3. apply frameRms_zeros.
  - apply Hz. rewrite Hab3, length_zeros. reflexivity.
Qed.

Lemma processFrame_returns (p : t) :
  ready p -> running p = true ->
  exists p' d,
    processFrame p = Normal (p', [Analysis d]) /\ analyse p = (p', Normal d).
Proof.
  intros Hr Hrun. destruct (analyse_returns p Hr) as (p' & d & E & _).
  exists p', d. unfold processFrame. rewrite Hrun, E. auto.
Qed.

(** [ready] looks at the configuration, the cursor and the sizes only. *)
Lemma ready_with_cursor (p : t) (rb : list R) (wi fi hc : Z) :
  ready p -> length rb = length (ringBuffer p) ->
  (0 <= wi < windowSize (config p))%Z ->
  ready (with_cursor p rb wi fi hc).
Proof.
  intros (HW & Lr & La & Hwi & Lc & Lraw & Lout & Lzero & Hinv & Hfft) L Hw.
  unfold ready. cbn. rewrite L. repeat split; try assumption; try lia;
    destruct Hfft as (F1 & F2 & F3 & F4); assumption.
Qed.

Lemma ready_resetBuffers (p : t) : ready p -> ready (resetBuffers p).
Proof.
  intros (HW & Lr & La & Hwi & Lc & Lraw & Lout & Lzero & Hinv & Hfft).
  unfold ready, resetBuffers, RealFFT.fill0. cbn. rewrite !length_zeros.
  destruct Hfft as (F1 & F2 & F3 & F4).
  repeat split; try assumption; try lia.
Qed.

Lemma ready_create : ready create.
Proof.
  unfold ready.
  change (config create) with DEFAULT_AUDIO_CONFIG.
  change (windowSize DEFAULT_AUDIO_CONFIG) with 16384%Z.
  change (ringBuffer create) with (zeros (Z.to_nat 16384)).
  change (analysisBuffer create) with (zeros (Z.to_nat 16384)).
  change (writeIndex create) with 0%Z.
  change (currentPcd create) with (zeros 12).
  change (rawPcd create) with (zeros 12).
  change (pcdComputer create) with PitchClassComputer.create.
  change (fft create) with RealFFT.create.
  rewrite !length_zeros.
  repeat split; try lia; try reflexivity.
Qed.

(** A configuration update that leaves the window alone. *)
Lemma updateConfig_same_window (u : Updates) (p : t) :
  u_windowSize u = None ->
  updateConfig u p
  = (with_config p (clamp_hop (update_fields u (config p))), Normal tt).
Proof.
  intros Hu. unfold updateConfig, update_window. rewrite Hu. reflexivity.
Qed.

Lemma ready_with_config (p : t) (c : Config) :
  ready p -> windowSize c = windowSize (config p) -> ready (with_config p c).
Proof.
  intros (HW & Lr & La & Hwi & Lc & Lraw & Lout & Lzero & Hinv & Hfft) E.
  unfold ready. cbn. rewrite E.
  destruct Hfft as (F1 & F2 & F3 & F4).
  repeat split; try assumption; try lia.
Qed.

Lemma start_idle (rate : R) (p : t) :
  running p = false ->
  start rate p = (with_running (resetBuffers (with_sampleRate p rate)) true,
                  [StateChange true]).
Proof.
  intros H. unfold start, setRunning. rewrite H.
  change (running (resetBuffers (with_sampleRate p rate))) with (running p).
  rewrite H. reflexivity.
Qed.

Lemma ready_start (rate : R) (p : t) :
  ready p -> running p = false ->
  ready (fst (start rate p)) /\ running (fst (start rate p)) = true /\
  config (fst (start rate p)) = config p /\
  tunerConfig (fst (start rate p)) = tunerConfig p /\
  sampleRate (fst (start rate p)) = rate /\
  filled (fst (start rate p)) = 0%Z /\ hopCounter (fst (start rate p)) = 0%Z /\
  writeIndex (fst (start rate p)) = 0%Z /\
  currentPcd (fst (start rate p)) = zeros 12 /\
  ringBuffer (fst (start rate p)) = zeros (Z.to_nat (windowSize (config p))).
Proof.
  intros Hr Hrun. rewrite start_idle by exact Hrun. cbn [fst].
  pose proof Hr as (HW & Lr & La & Hwi & Lc & Lraw & Lout & Lzero & Hinv & Hfft).
  split.
  { assert (R1 : ready (with_sampleRate p rate)).
    { unfold ready. cbn. destruct Hfft as (F1 & F2 & F3 & F4).
      repeat split; try assumption; try lia. }
    apply ready_resetBuffers in R1.
    destruct R1 as (HW1 & Lr1 & La1 & Hwi1 & Lc1 & Lraw1 & Lout1 & Lzero1
                    & Hinv1 & Hfft1).
    unfold ready. cbn in *. destruct Hfft1 as (F1 & F2 & F3 & F4).
    repeat split; try assumption; try lia. }
  unfold resetBuffers, RealFFT.fill0. cbn. rewrite Lc, Lr. repeat split.
Qed.

(** The scenario processor: window 16384, hop 4096, running, just reset. *)
Lemma scenario_state :
  ready scenario /\ running scenario = true /\
  windowSize (config scenario) = 16384%Z /\
  hopSize (config scenario) = 4096%Z /\
  pcdMinRms (config scenario) = 0.001 /\
  sampleRate scenario = 48000 /\ refA4 (config scenario) = 440 /\
  filled scenario = 0%Z /\ hopCounter scenario = 0%Z /\
  writeIndex scenario = 0%Z /\
  currentPcd scenario = zeros 12 /\
  ringBuffer scenario = zeros (Z.to_nat 16384).
Proof.
  unfold scenario.
  rewrite updateConfig_same_window by reflexivity. cbn [fst].
  assert (Ec : clamp_hop (update_fields (hop_update 4096) (config create))
               = with_hopSize DEFAULT_AUDIO_CONFIG 4096).
  { change (config create) with DEFAULT_AUDIO_CONFIG.
    assert (E1 : assign_hopSize (hop_update 4096) DEFAULT_AUDIO_CONFIG
                 = with_hopSize DEFAULT_AUDIO_CONFIG 4096).
    { unfold assign_hopSize. cbn [u_hopSize hop_update].
      unfold truthy. destruct (Req_dec_T 4096 0) as [H|_]; [lra|].
      rewrite ConfigFacts.ToInt32_IZR by lia. reflexivity. }
    assert (E2 : repair_band (with_hopSize DEFAULT_AUDIO_CONFIG 4096)
                 = with_hopSize DEFAULT_AUDIO_CONFIG 4096).
    { unfold repair_band. cbn [maxHz minHz with_hopSize DEFAULT_AUDIO_CONFIG].
      destruct (Rle_dec 5000 50) as [H|_]; [lra | reflexivity]. }
    unfold update_fields. rewrite E1.
    change (assign_minHz (hop_update 4096) ?c) with c.
    change (assign_maxHz (hop_update 4096) ?c) with c.
    rewrite E2. reflexivity. }
  rewrite Ec.
  set (p1 := with_config create (with_hopSize DEFAULT_AUDIO_CONFIG 4096)).
  assert (R1 : ready p1).
  { apply ready_with_config; [exact ready_create | reflexivity]. }
  destruct (ready_start 48000 p1 R1 eq_refl)
    as (H1 & H2 & H3 & H4 & H5 & H6 & H7 & H8 & H9 & H10).
  split; [exact H1|].
  rewrite H3. repeat split; try assumption; try reflexivity.
Qed.

End HopFacts.

(* ------------------------------------------------------------------ *)
(** * Claims about the smoothing *)

Module SmoothingClaims.

Import AudioProcessor JSFacts LoopFacts Invariants Reference FFTFacts
  ProcessorFacts HopFacts.


End SmoothingClaims.

(* ------------------------------------------------------------------ *)
(** * Runs of the sample loop *)

Module RunFacts.

Import AudioProcessor JSFacts LoopFacts Invariants Reference FFTFacts
  ProcessorFacts HopFacts.

Lemma sample_step_eq (p : t) (evs : list Event) (sample : R) :
  sample_step (windowSize (config p)) (Normal (p, evs)) sample
  = if fires p
    then bind (processFrame (advanced p sample 0))
              (fun '(p1, evs1) => Normal (p1, evs ++ evs1))
    else Normal (advanced p sample (hopCounter p + 1), evs).
Proof. reflexivity. Qed.

Lemma ready_advanced (p : t) (sample : R) (hc : Z) :
  ready p -> ready (advanced p sample hc).
Proof.
  intros Hr. unfold advanced. apply ready_with_cursor; [exact Hr | |].
  - apply length_set.
  - destruct Hr as (HW & _ & _ & Hwi & _). unfold cursor_next.
    destruct (Z.geb_spec (writeIndex p + 1) (windowSize (config p))); lia.
Qed.

(** One round of the sample loop on a ready, running processor: it
    returns; either no event is dispatched, or the frame is analysed and
    exactly one analysis event is. *)
Lemma sample_step_returns (p : t) (evs : list Event) (sample : R) :
  ready p -> running p = true ->
  exists p' new,
    sample_step (windowSize (config p)) (Normal (p, evs)) sample
    = Normal (p', evs ++ new) /\
    ready p' /\ running p' = true /\ config p' = config p /\
    tunerConfig p' = tunerConfig p /\ sampleRate p' = sampleRate p /\
    filled p' = filled_next p /\ writeIndex p' = cursor_next p /\
    ringBuffer p' = set (ringBuffer p) (writeIndex p) sample /\
    ((fires p = false /\ new = [] /\ hopCounter p' = (hopCounter p + 1)%Z /\
      p' = advanced p sample (hopCounter p + 1)) \/
     (fires p = true /\ hopCounter p' = 0%Z /\
      exists d, new = [Analysis d] /\
                analyse (advanced p sample 0) = (p', Normal d))).
Proof.
  intros Hr Hrun. rewrite sample_step_eq.
  destruct (fires p) eqn:Ef.
  - pose proof (ready_advanced p sample 0 Hr) as Hr1.
    destruct (processFrame_returns (advanced p sample 0) Hr1 Hrun)
      as (p' & d & Ep & Ea).
    destruct (analyse_returns (advanced p sample 0) Hr1)
      as (p2 & d2 & Ea2 & (C1 & C2 & C3 & C4 & C5 & C6 & C7 & C8) & Hr2 & _).
    rewrite Ea in Ea2. injection Ea2 as <- <-.
    exists p', [Analysis d]. rewrite Ep. cbn [bind].
    split; [reflexivity|]. split; [exact Hr2|].
    split; [rewrite C4; exact Hrun|].
    split; [exact C1|]. split; [exact C2|]. split; [exact C3|].
    split; [exact C7|]. split; [exact C6|]. split; [exact C5|].
    right. split; [reflexivity|]. split; [exact C8|].
    exists d. auto.
  - exists (advanced p sample (hopCounter p + 1)), [].
    rewrite app_nil_r. split; [reflexivity|].
    split; [apply ready_advanced; exact Hr|].
    split; [exact Hrun|].
    repeat split. left. auto.
Qed.

Lemma fold_stuck {A : Type} (f : Completion A -> R -> Completion A)
  (samples : list R) (c : Completion A) :
  (forall x, f Throws x = Throws) -> (forall x, f Loops x = Loops) ->
  c <> Throws /\ c <> Loops \/ fold_left f samples c = c.
Proof.
  intros HT HL. revert c. induction samples as [|x xs IH]; intros c.
  - right. reflexivity.
  - destruct c as [a| |].
    + left. split; discriminate.
    + right. cbn. rewrite HT. destruct (IH Throws) as [[H _]|H]; congruence.
    + right. cbn. rewrite HL. destruct (IH Loops) as [[_ H]|H]; congruence.
Qed.

Section RunInvariant.

(** A property of the number of samples taken, of the processor and of the
    events dispatched so far, for samples that satisfy [sample_ok]. *)
Variable sample_ok : R -> Prop.
Variable I : Z -> t -> list Event -> Prop.

(** It survives a sample that dispatches nothing ... *)
Hypothesis quiet_step :
  forall n p evs sample,
    ready p -> running p = true -> sample_ok sample -> I n p evs ->
    fires p = false ->
    I (n + 1)%Z (advanced p sample (hopCounter p + 1)) evs.

(** ... and a sample that completes a hop. *)
Hypothesis hop_step :
  forall n p evs sample p' d,
    ready p -> running p = true -> sample_ok sample -> I n p evs ->
    fires p = true ->
    analyse (advanced p sample 0) = (p', Normal d) ->
    I (n + 1)%Z p' (evs ++ [Analysis d]).

Lemma run_invariant (samples : list R) (n : Z) (p : t) (evs : list Event) :
  ready p -> running p = true -> Forall sample_ok samples -> I n p evs ->
  exists p' evs',
    fold_left (sample_step (windowSize (config p))) samples (Normal (p, evs))
    = Normal (p', evs') /\
    ready p' /\ running p' = true /\ config p' = config p /\
    tunerConfig p' = tunerConfig p /\ sampleRate p' = sampleRate p /\
    I (n + Z.of_nat (length samples))%Z p' evs'.
Proof.
  revert n p evs. induction samples as [|x xs IH]; intros n p evs Hr Hrun Hok HI.
  - exists p, evs. cbn [fold_left length Z.of_nat]. rewrite Z.add_0_r. auto 10.
  - cbn [fold_left]. inversion Hok as [|? ? Hx Hxs]; subst.
    destruct (sample_step_returns p evs x Hr Hrun)
      as (p1 & new & E & Hr1 & Hrun1 & Hc1 & Ht1 & Hs1 & _ & _ & _ & Hcase).
    rewrite E.
    assert (HI1 : I (n + 1)%Z p1 (evs ++ new)).
    { destruct Hcase as [(Hf & -> & _ & ->)|(Hf & _ & d & -> & Ea)].
      - rewrite app_nil_r. apply quiet_step; assumption.
      - apply (hop_step n p evs x p1 d); assumption. }
    destruct (IH (n + 1)%Z p1 (evs ++ new) Hr1 Hrun1 Hxs HI1)
      as (p' & evs' & E' & Hr' & Hrun' & Hc' & Ht' & Hs' & HI').
    rewrite Hc1 in E'.
    exists p', evs'. rewrite E'.
    split; [reflexivity|]. split; [exact Hr'|]. split; [exact Hrun'|].
    split; [congruence|]. split; [congruence|]. split; [congruence|].
    replace (n + Z.of_nat (length (x :: xs)))%Z
      with (n + 1 + Z.of_nat (length xs))%Z by (cbn [length]; lia).
    exact HI'.
Qed.

End RunInvariant.

(** The events dispatched before a run only prefix those of the run. *)
Lemma fold_shift (W : Z) (samples : list R) (p : t) (evs0 : list Event) :
  fold_left (sample_step W) samples (Normal (p, evs0))
  = bind (fold_left (sample_step W) samples (Normal (p, [])))
         (fun '(p', evs) => Normal (p', evs0 ++ evs)).
Proof.
  revert p evs0. induction samples as [|x xs IH]; intros p evs0.
  - cbn. rewrite app_nil_r. reflexivity.
  - cbn [fold_left].
    assert (Es : sample_step W (Normal (p, evs0)) x
                 = bind (sample_step W (Normal (p, [])) x)
                        (fun '(p', evs) => Normal (p', evs0 ++ evs))).
    { unfold sample_step. cbn [bind].
      destruct (_ && _); [|cbn; rewrite app_nil_r; reflexivity].
      destruct (processFrame _) as [[p1 e1]| |]; reflexivity. }
    rewrite Es.
    destruct (sample_step W (Normal (p, [])) x) as [[p1 e1]| |] eqn:E1; cbn [bind].
    + rewrite (IH p1 (evs0 ++ e1)), (IH p1 e1).
      destruct (fold_left (sample_step W) xs (Normal (p1, [])))
        as [[p2 e2]| |]; cbn [bind]; [rewrite app_assoc|..]; reflexivity.
    + destruct (fold_stuck (sample_step W) xs Throws) as [[H _]|H];
        try reflexivity; try congruence.
      rewrite H. reflexivity.
    + destruct (fold_stuck (sample_step W) xs Loops) as [[_ H]|H];
        try reflexivity; try congruence.
      rewrite H. reflexivity.
Qed.

(** Chunks do not matter: feeding the chunks one call after the other is
    feeding their samples in one call. *)
Lemma feed_concat (frames : list (list R)) (p : t) :
  ready p -> running p = true ->
  feed frames p = handleAudioFrame (concat frames) p.
Proof.
  revert p. induction frames as [|f fs IH]; intros p Hr Hrun.
  - cbn. unfold handleAudioFrame. rewrite Hrun. reflexivity.
  - cbn [feed concat]. unfold handleAudioFrame at 1 2. rewrite Hrun.
    cbn [negb]. rewrite fold_left_app.
    destruct (run_invariant (fun _ => True) (fun _ _ _ => True)
                            ltac:(auto) ltac:(auto) f 0 p [] Hr Hrun
                            ltac:(apply Forall_forall; auto) I)
      as (p1 & e1 & E1 & Hr1 & Hrun1 & Hc1 & _).
    rewrite E1. cbn [bind].
    rewrite (IH p1 Hr1 Hrun1). unfold handleAudioFrame. rewrite Hrun1.
    cbn [negb]. rewrite Hc1. symmetry. apply fold_shift.
Qed.

End RunFacts.

(* ------------------------------------------------------------------ *)
(** * The smoothed PCD over a run *)

Module SmoothedPcdClaims.

Import AudioProcessor JSFacts LoopFacts Invariants Reference FFTFacts
  ProcessorFacts HopFacts RunFacts.

Section TwelveAndTwelve.

Variables c0 c1 c2 c3 c4 c5 c6 c7 c8 c9 c10 c11 : R.
Variables r0 r1 r2 r3 r4 r5 r6 r7 r8 r9 r10 r11 : R.
Variables s beta : R.

Lemma smooth_cells :
  fold_left (smooth_step s beta [r0; r1; r2; r3; r4; r5; r6; r7; r8; r9; r10; r11])
            (range 0 11) [c0; c1; c2; c3; c4; c5; c6; c7; c8; c9; c10; c11]
  = [s * c0 + beta * r0; s * c1 + beta * r1; s * c2 + beta * r2;
     s * c3 + beta * r3; s * c4 + beta * r4; s * c5 + beta * r5;
     s * c6 + beta * r6; s * c7 + beta * r7; s * c8 + beta * r8;
     s * c9 + beta * r9; s * c10 + beta * r10; s * c11 + beta * r11].
Proof. reflexivity. Qed.

End TwelveAndTwelve.

(** The sum of the smoothed vector after a hop. *)
Lemma smooth_sum (cfg : Config) (raw cur : list R) :
  length raw = 12%nat -> length cur = 12%nat ->
  let s := clamp (smoothing cfg) 0 0.999 in
  length (smooth cfg raw cur) = 12%nat /\
  sumR (smooth cfg raw cur) = s * sumR cur + (1 - s) * sumR raw /\
  (Forall (fun x => 0 <= x) raw -> Forall (fun x => 0 <= x) cur ->
   Forall (fun x => 0 <= x) (smooth cfg raw cur)).
Proof.
  intros Lr Lc s. pose proof (clamp_bounds (smoothing cfg)) as Hs. fold s in Hs.
  destruct (twelve raw Lr) as (r0 & r1 & r2 & r3 & r4 & r5 & r6 & r7 & r8 & r9
                               & r10 & r11 & ->).
  destruct (twelve cur Lc) as (c0 & c1 & c2 & c3 & c4 & c5 & c6 & c7 & c8 & c9
                               & c10 & c11 & ->).
  unfold smooth. fold s. rewrite smooth_cells.
  split; [reflexivity|]. split.
  - unfold sumR; cbn [fold_right]. ring.
  - intros Fr Fc.
    repeat match goal with
           | H : Forall _ (_ :: _) |- _ => inversion H; clear H; subst
           end.
    repeat (apply Forall_cons; [nra|]). apply Forall_nil.
Qed.

Lemma smooth_bounded (cfg : Config) (raw cur : list R) :
  pcd_bounded raw -> pcd_bounded cur -> pcd_bounded (smooth cfg raw cur).
Proof.
  intros (Lr & Fr & Sr) (Lc & Fc & Sc).
  destruct (smooth_sum cfg raw cur Lr Lc) as (L & S & F).
  pose proof (clamp_bounds (smoothing cfg)) as Hs.
  pose proof (sumR_nonneg raw Fr). pose proof (sumR_nonneg cur Fc).
  split; [exact L|]. split; [auto|]. rewrite S. nra.
Qed.

Lemma zeros_bounded : pcd_bounded (zeros 12).
Proof.
  split; [reflexivity|]. split.
  - apply Forall_forall. intros x Hx. apply repeat_spec in Hx. lra.
  - rewrite sumR_zeros. lra.
Qed.

(** The raw PCD of a hop is normalised or all zero. *)
Lemma raw_of_hop_bounded (p : t) (level : R) (magnitudes : list R) :
  ready p -> 0 < sampleRate p -> 0 < refA4 (config p) ->
  pcd_bounded (raw_of_hop p level magnitudes) /\
  (sumR (raw_of_hop p level magnitudes) = 1 \/
   raw_of_hop p level magnitudes = zeros 12).
Proof.
  intros (_ & _ & _ & _ & _ & _ & Lout & _ & Hinv & _) Hs Ha.
  unfold raw_of_hop.
  destruct (Rle_dec (pcdMinRms (config p)) level).
  - set (o := options_of (config p)).
    assert (Ha' : 0 < PitchClassComputer.refA4 o) by exact Ha.
    pose proof (compute_length (pcdComputer p) magnitudes (sampleRate p) o Lout)
      as L.
    pose proof (ComputeClaim.compute_nonneg (pcdComputer p) magnitudes
                  (sampleRate p) o Hinv Lout Hs Ha') as F.
    destruct (Rlt_dec 0 (total magnitudes (sampleRate p) o)) as [Hp|Hn].
    + pose proof (ComputeClaim.compute_sums_to_one (pcdComputer p) magnitudes
                    (sampleRate p) o Hinv Lout Hs Ha' Hp) as S.
      split; [|left; exact S]. split; [exact L|]. split; [exact F|]. lra.
    + pose proof (ComputeClaim.compute_all_zero (pcdComputer p) magnitudes
                    (sampleRate p) o Hinv Lout Hs Ha' Hn) as Z.
      rewrite Z. split; [exact zeros_bounded | right; reflexivity].
  - split; [exact zeros_bounded | right; reflexivity].
Qed.

Lemma pcd_inv_hop (p : t) (evs : list Event) (p' : t) (d : Detail) :
  ready p -> pcd_inv p evs -> analyse p = (p', Normal d) ->
  pcd_inv p' (evs ++ [Analysis d]).
Proof.
  intros Hr (Hs & Ha & Hb & HF & Hz) Ea.
  destruct (analyse_returns p Hr)
    as (p2 & d2 & Ea2 & (C1 & _ & C3 & _) & _ & (Hraw & _) & Hhop & Hsm & _).
  rewrite Ea in Ea2. injection Ea2 as E1 E2. subst p2 d2.
  destruct (raw_of_hop_bounded p (rms d) (d_magnitudes d) Hr Hs Ha)
    as [Hrb Hdich].
  rewrite <- Hhop in Hrb, Hdich.
  split; [rewrite C3; exact Hs|]. split; [rewrite C1; exact Ha|].
  split; [rewrite Hsm; apply smooth_bounded; assumption|].
  split.
  - apply Forall_app. split; [exact HF|].
    apply Forall_cons; [|apply Forall_nil].
    cbn [is_analysis raw_of]. rewrite <- Hraw. auto.
  - intros Hall.
    assert (Hcur : currentPcd p = zeros 12).
    { apply Hz. intros e He. apply Hall. apply in_or_app. left. exact He. }
    assert (Hr0 : sumR (rawPcd p') = 0).
    { rewrite Hraw. apply (Hall (Analysis d)). apply in_or_app. right.
      left. reflexivity. }
    destruct Hdich as [H1|H0]; [lra|].
    rewrite Hsm, H0, Hcur. unfold smooth. apply smooth_loop_zeros.
Qed.

(** The run of the sample loop keeps [pcd_inv]. *)
Lemma run_keeps_pcd_inv (samples : list R) (p : t) :
  ready p -> running p = true -> pcd_inv p [] ->
  exists p' evs,
    handleAudioFrame samples p = Normal (p', evs) /\ pcd_inv p' evs.
Proof.
  intros Hr Hrun HI. unfold handleAudioFrame. rewrite Hrun. cbn [negb].
  assert (Hquiet : forall (n : Z) q evs x,
            ready q -> running q = true -> True -> pcd_inv q evs ->
            fires q = false ->
            pcd_inv (advanced q x (hopCounter q + 1)) evs).
  { intros n q evs x Hq Hrq Hok Hinv Hf. exact Hinv. }
  assert (Hhop : forall (n : Z) q evs x q' d,
            ready q -> running q = true -> True -> pcd_inv q evs ->
            fires q = true -> analyse (advanced q x 0) = (q', Normal d) ->
            pcd_inv q' (evs ++ [Analysis d])).
  { intros n q evs x q' d Hq Hrq Hok Hinv Hf Ea.
    apply (pcd_inv_hop (advanced q x 0)); try assumption.
    apply ready_advanced; exact Hq. }
  destruct (run_invariant (fun _ => True) (fun _ => pcd_inv) Hquiet Hhop
                          samples 0 p [] Hr Hrun
                          ltac:(apply Forall_forall; auto) HI)
    as (p' & evs & E & _ & _ & _ & _ & _ & HI').
  exists p', evs. auto.
Qed.

End SmoothedPcdClaims.

(* ------------------------------------------------------------------ *)
(** * The events of a run *)

Module EventClaims.

Import AudioProcessor JSFacts LoopFacts Invariants Reference FFTFacts
  ProcessorFacts HopFacts RunFacts.

(** The counters one sample after [n] samples. *)
Lemma counters_step (p : t) (n : Z) :
  (0 <= n)%Z ->
  (1 <= hopSize (config p) <= windowSize (config p))%Z ->
  at_sample n p ->
  let W := windowSize (config p) in
  let H := hopSize (config p) in
  filled_next p = Z.min (n + 1) W /\
  (fires p = false ->
   (hopCounter p + 1 = if (n + 1 <? W)%Z then n + 1 else (n + 1 - W) mod H)%Z /\
   events_after W H (n + 1) = events_after W H n) /\
  (fires p = true ->
   (0 = if (n + 1 <? W)%Z then n + 1 else (n + 1 - W) mod H)%Z /\
   events_after W H (n + 1) = (events_after W H n + 1)%Z).
Proof.
  intros Hn HH [Hf Hh] W H. fold W in Hf, Hh, HH. fold H in Hh, HH.
  unfold fires, filled_next, events_after. fold W. fold H. rewrite Hf, Hh.
  destruct (Z.ltb_spec n W) as [Hlt|Hge].
  - rewrite Z.min_l by lia.
    destruct (Z.ltb_spec n W) as [_|?]; [|lia].
    destruct (Z.ltb_spec (n + 1) W) as [Hlt1|Hge1].
    + rewrite Z.min_l by lia.
      destruct (Z.geb_spec (n + 1) W) as [?|_]; [lia|].
      rewrite andb_false_r. repeat split; try discriminate; reflexivity.
    + assert (n + 1 = W)%Z by lia.
      rewrite Z.min_r by lia.
      destruct (Z.geb_spec (n + 1) W) as [_|?]; [|lia].
      destruct (Z.geb_spec (n + 1) H) as [_|?]; [|lia].
      cbn [andb]. split; [lia|]. split; [discriminate|]. intros _.
      replace (n + 1 - W)%Z with 0%Z by lia.
      rewrite Z.mod_0_l, Z.div_0_l by lia. split; lia.
  - rewrite Z.min_r by lia.
    destruct (Z.ltb_spec W W) as [?|_]; [lia|].
    destruct (Z.ltb_spec (n + 1) W) as [?|_]; [lia|].
    rewrite Z.min_r by lia.
    destruct (Z.geb_spec W W) as [_|?]; [|lia].
    rewrite andb_true_r.
    pose proof (Z.mod_pos_bound (n - W) H ltac:(lia)) as Hb.
    pose proof (Z.div_mod (n - W) H ltac:(lia)) as Hd.
    split; [reflexivity|].
    destruct (Z.geb_spec ((n - W) mod H + 1) H) as [Hfire|Hquiet].
    + split; [discriminate|]. intros _.
      assert (E : (n + 1 - W = H * ((n - W) / H + 1) + 0)%Z) by lia.
      assert (Em : (0 = (n + 1 - W) mod H)%Z)
        by (apply (Z.mod_unique_pos _ _ ((n - W) / H + 1) 0); lia).
      assert (Eq : ((n - W) / H + 1 = (n + 1 - W) / H)%Z)
        by (apply (Z.div_unique_pos _ _ ((n - W) / H + 1) 0); lia).
      split; [exact Em | lia].
    + split; [|discriminate]. intros _.
      assert (E : (n + 1 - W = H * ((n - W) / H) + ((n - W) mod H + 1))%Z)
        by lia.
      assert (Em : ((n - W) mod H + 1 = (n + 1 - W) mod H)%Z)
        by (apply (Z.mod_unique_pos _ _ ((n - W) / H) ((n - W) mod H + 1)); lia).
      assert (Eq : ((n - W) / H = (n + 1 - W) / H)%Z)
        by (apply (Z.div_unique_pos _ _ ((n - W) / H) ((n - W) mod H + 1)); lia).
      split; [exact Em | lia].
Qed.

Lemma count_inv_quiet (n : Z) (p : t) (evs : list Event) (x : R) :
  count_inv n p evs -> fires p = false ->
  count_inv (n + 1) (advanced p x (hopCounter p + 1)) evs.
Proof.
  intros (Hn & HH & Hat & Hlen & HF) Hf.
  destruct (counters_step p n Hn HH Hat) as (Efill & Hq & _).
  destruct (Hq Hf) as [Ehop Eev].
  split; [lia|]. split; [exact HH|]. split.
  - split; [exact Efill | exact Ehop].
  - split; [|exact HF].
    change (config (advanced p x (hopCounter p + 1))) with (config p).
    rewrite Eev. exact Hlen.
Qed.

Lemma count_inv_hop (n : Z) (p : t) (evs : list Event) (x : R) (p' : t)
  (d : Detail) :
  ready p -> count_inv n p evs -> fires p = true ->
  analyse (advanced p x 0) = (p', Normal d) ->
  count_inv (n + 1) p' (evs ++ [Analysis d]).
Proof.
  intros Hr (Hn & HH & Hat & Hlen & HF) Hf Ea.
  destruct (counters_step p n Hn HH Hat) as (Efill & _ & Hfire).
  destruct (Hfire Hf) as [Ehop Eev].
  destruct (analyse_returns (advanced p x 0) (ready_advanced p x 0 Hr))
    as (p2 & d2 & Ea2 & (C1 & _ & _ & _ & _ & _ & C7 & C8) & _).
  rewrite Ea in Ea2. injection Ea2 as E1 E2. subst p2 d2.
  change (config (advanced p x 0)) with (config p) in C1.
  change (filled (advanced p x 0)) with (filled_next p) in C7.
  change (hopCounter (advanced p x 0)) with 0%Z in C8.
  split; [lia|]. rewrite C1. split; [exact HH|]. split.
  - unfold at_sample. rewrite C1, C7, C8. split; [exact Efill | exact Ehop].
  - split.
    + rewrite length_app, Nat2Z.inj_add, Hlen, Eev. cbn [length]. lia.
    + apply Forall_app. split; [exact HF|].
      apply Forall_cons; [exact I | apply Forall_nil].
Qed.

Lemma find_primary_silent (tc : TunerConfig) (cfg : Config) (rate : R) (k : nat) :
  find_primary tc cfg rate 0 (zeros k) = None.
Proof.
  unfold find_primary.
  destruct (enabled tc && _); [|reflexivity].
  rewrite PrimaryClaim.estimatePrimary_quiet; [reflexivity|].
  intros i. rewrite getR_zeros. exact PrimaryClaim.floor_level_pos.
Qed.

Lemma silent_inv_quiet (p : t) (evs : list Event) :
  silent_inv p evs -> silent_inv (advanced p 0 (hopCounter p + 1)) evs.
Proof.
  intros (Hring & Hcur & Hgate & HF).
  split; [|split; [exact Hcur | split; [exact Hgate | exact HF]]].
  cbn [advanced ringBuffer with_cursor]. rewrite length_set.
  rewrite Hring at 1. apply set_zeros.
Qed.

Lemma silent_inv_hop (p : t) (evs : list Event) (p' : t) (d : Detail) :
  ready p -> silent_inv p evs ->
  analyse (advanced p 0 0) = (p', Normal d) ->
  silent_inv p' (evs ++ [Analysis d]).
Proof.
  intros Hr (Hring & Hcur & Hgate & HF) Ea.
  destruct (analyse_returns (advanced p 0 0) (ready_advanced p 0 0 Hr))
    as (p2 & d2 & Ea2 & (C1 & _ & _ & _ & C5 & _) & _ & (Hraw & Hpcd & _)
        & Hhop & Hsm & Hprim & Hsil).
  rewrite Ea in Ea2. injection Ea2 as E1 E2. subst p2 d2.
  assert (Hring1 : ringBuffer (advanced p 0 0)
                   = zeros (length (ringBuffer (advanced p 0 0)))).
  { cbn [advanced ringBuffer with_cursor]. rewrite length_set.
    rewrite Hring at 1. apply set_zeros. }
  destruct (Hsil Hring1) as [Hrms Hmags].
  assert (Hz : rawPcd p' = zeros 12).
  { rewrite Hhop. unfold raw_of_hop. rewrite Hrms.
    change (config (advanced p 0 0)) with (config p).
    destruct (Rle_dec (pcdMinRms (config p)) 0); [lra | reflexivity]. }
  assert (Hc : currentPcd p' = zeros 12).
  { rewrite Hsm, Hz.
    change (currentPcd (advanced p 0 0)) with (currentPcd p). rewrite Hcur.
    unfold smooth. apply smooth_loop_zeros. }
  split; [rewrite C5; exact Hring1|]. split; [exact Hc|].
  split; [rewrite C1; exact Hgate|].
  apply Forall_app. split; [exact HF|].
  apply Forall_cons; [|apply Forall_nil].
  cbn [silent_event]. rewrite <- Hpcd, <- Hraw.
  split; [exact Hc|]. split; [exact Hz|].
  rewrite Hprim, Hrms, Hmags. apply find_primary_silent.
Qed.

(** One call of [handleAudioFrame] on a ready, running processor that has
    taken [n] samples since its reset. *)
Lemma run_counts (samples : list R) (n : Z) (p : t) :
  ready p -> running p = true -> count_inv n p [] ->
  exists p' evs,
    handleAudioFrame samples p = Normal (p', evs) /\
    count_inv (n + Z.of_nat (length samples)) p' evs /\
    (silent_inv p [] -> Forall (fun x => x = 0) samples -> silent_inv p' evs).
Proof.
  intros Hr Hrun HI. unfold handleAudioFrame. rewrite Hrun. cbn [negb].
  assert (Hq : forall (m : Z) q evs x,
            ready q -> running q = true -> True -> count_inv m q evs ->
            fires q = false ->
            count_inv (m + 1) (advanced q x (hopCounter q + 1)) evs).
  { intros m q evs x _ _ _ Hc Hf. apply count_inv_quiet; assumption. }
  assert (Hh : forall (m : Z) q evs x q' d,
            ready q -> running q = true -> True -> count_inv m q evs ->
            fires q = true -> analyse (advanced q x 0) = (q', Normal d) ->
            count_inv (m + 1) q' (evs ++ [Analysis d])).
  { intros m q evs x q' d Hrq _ _ Hc Hf Ea.
    apply (count_inv_hop m q evs x); assumption. }
  destruct (run_invariant (fun _ => True) count_inv Hq Hh samples n p []
                          Hr Hrun ltac:(apply Forall_forall; auto) HI)
    as (p' & evs & E & _ & _ & _ & _ & _ & HI').
  exists p', evs. split; [exact E|]. split; [exact HI'|].
  intros HS Hzero.
  assert (Hq2 : forall (m : Z) q evs x,
            ready q -> running q = true -> x = 0 -> silent_inv q evs ->
            fires q = false ->
            silent_inv (advanced q x (hopCounter q + 1)) evs).
  { intros m q evs0 x _ _ -> Hc _. apply silent_inv_quiet; assumption. }
  assert (Hh2 : forall (m : Z) q evs x q' d,
            ready q -> running q = true -> x = 0 -> silent_inv q evs ->
            fires q = true -> analyse (advanced q x 0) = (q', Normal d) ->
            silent_inv q' (evs ++ [Analysis d])).
  { intros m q evs0 x q' d Hrq _ -> Hc _ Ea.
    apply (silent_inv_hop q evs0); assumption. }
  destruct (run_invariant (fun x => x = 0) (fun _ => silent_inv) Hq2 Hh2
                          samples n p [] Hr Hrun Hzero HS)
    as (p2 & evs2 & E2 & _ & _ & _ & _ & _ & HS').
  rewrite E in E2. injection E2 as <- <-. exact HS'.
Qed.

(** C7, as the code has it: while the processor is running, no event is
    dispatched until the ring buffer is full: of the [n] samples delivered
    since the reset (in chunks of any sizes) the first [window - 1] dispatch
    nothing, the sample that fills the window dispatches the first analysis
    event, and from then on every [hop] samples dispatch exactly one:
    [1 + (n - window) / hop] events in all, each an analysis event, none
    batched and none dropped; on silence (gate above zero) every one of them
    carries a zero PCD, a zero raw PCD and no primary-pitch result. *)
Theorem events_follow_hops (p : t) (frames : list (list R)) :
  ready p -> running p = true -> filled p = 0%Z -> hopCounter p = 0%Z ->
  (1 <= hopSize (config p) <= windowSize (config p))%Z ->
  exists p' evs,
    feed frames p = Normal (p', evs) /\
    Z.of_nat (length evs)
    = events_after (windowSize (config p)) (hopSize (config p))
                   (Z.of_nat (length (concat frames))) /\
    Forall is_analysis evs /\
    (ringBuffer p = zeros (length (ringBuffer p)) ->
     currentPcd p = zeros 12 -> 0 < pcdMinRms (config p) ->
     Forall (fun x => x = 0) (concat frames) ->
     Forall silent_event evs).
Proof.
  intros Hr Hrun Hfill Hhop HH.
  rewrite feed_concat by assumption.
  destruct (run_counts (concat frames) 0 p Hr Hrun)
    as (p' & evs & E & (_ & _ & _ & Hlen & HF) & Hsil).
  { split; [lia|]. split; [exact HH|]. split.
    - unfold at_sample. rewrite Hfill, Hhop.
      destruct (Z.ltb_spec 0 (windowSize (config p))); [|lia].
      rewrite Z.min_l by lia. auto.
    - split; [|apply Forall_nil]. unfold events_after.
      destruct (Z.ltb_spec 0 (windowSize (config p))); [reflexivity | lia]. }
  exists p', evs. split; [exact E|].
  assert (Hcfg : config p' = config p).
  { unfold handleAudioFrame in E. rewrite Hrun in E. cbn [negb] in E.
    destruct (run_invariant (fun _ => True) (fun _ _ _ => True)
                ltac:(auto) ltac:(auto) (concat frames) 0 p [] Hr Hrun
                ltac:(apply Forall_forall; auto) I)
      as (p2 & e2 & E2 & _ & _ & Hc & _).
    rewrite E in E2. injection E2 as <- <-. exact Hc. }
  rewrite Hcfg in Hlen. rewrite Z.add_0_l in Hlen.
  split; [exact Hlen|]. split; [exact HF|].
  intros Hring Hcur Hgate Hzero.
  apply Hsil; [|exact Hzero].
  split; [exact Hring|]. split; [exact Hcur|]. split; [exact Hgate|].
  apply Forall_nil.
Qed.

Lemma zeros_all_zero (k : nat) : Forall (fun x => x = 0) (zeros k).
Proof.
  apply Forall_forall. intros x Hx. apply repeat_spec in Hx. exact Hx.
Qed.

(** The scenario of the specification: its four hops of silence dispatch
    exactly one analysis event (at the sample 16384 that fills the window),
    with zero PCD and no primary-pitch result. *)
Lemma events_follow_hops_witness :
  exists p' d,
    feed [silent_hop; silent_hop; silent_hop; silent_hop] scenario
    = Normal (p', [Analysis d]) /\
    pcd d = zeros 12 /\ d_rawPcd d = zeros 12 /\ primary d = None.
Proof.
  pose proof scenario_state
    as (H1 & H2 & H3 & H4 & H5 & _ & _ & H8 & H9 & _ & H11 & H12).
  destruct (events_follow_hops scenario
              [silent_hop; silent_hop; silent_hop; silent_hop])
    as (p' & evs & E & Hlen & _ & Hsil); try assumption.
  - rewrite H3, H4. lia.
  - assert (Hn : Z.of_nat (length (concat [silent_hop; silent_hop; silent_hop;
                                           silent_hop])) = 16384%Z).
    { cbn [concat]. unfold silent_hop.
      rewrite !length_app, !length_zeros. cbn [length]. lia. }
    rewrite Hn, H3, H4 in Hlen.
    change (events_after 16384 4096 16384) with 1%Z in Hlen.
    assert (HS : Forall silent_event evs).
    { apply Hsil.
      - rewrite H12 at 1. rewrite H12, length_zeros. reflexivity.
      - exact H11.
      - rewrite H5. lra.
      - cbn [concat]. unfold silent_hop.
        repeat (apply Forall_app; split); try apply zeros_all_zero.
        apply Forall_nil. }
    destruct evs as [|e [|e2 evs]]; cbn [length] in Hlen; try lia.
    inversion HS as [|? ? He _]; subst.
    destruct e as [d| |]; try contradiction.
    exists p', d. cbn [silent_event] in He. tauto.
Defined.

(** C7, refuted on the scenario of the specification (window 16384,
    hop 4096): the first hop of 4096 samples dispatches no event at all. *)
Lemma first_hop_without_event :
  (exists p', handleAudioFrame silent_hop scenario = Normal (p', [])) /\
  ~ (exists p' d,
       handleAudioFrame silent_hop scenario = Normal (p', [Analysis d])).
Proof.
  pose proof scenario_state
    as (H1 & H2 & H3 & H4 & H5 & _ & _ & H8 & H9 & _ & H11 & H12).
  destruct (run_counts silent_hop 0 scenario H1 H2)
    as (p' & evs & E & (_ & _ & _ & Hlen & _) & _).
  { split; [lia|]. rewrite H3, H4. split; [lia|]. split.
    - unfold at_sample. rewrite H3, H4, H8, H9. split; reflexivity.
    - split; [reflexivity | apply Forall_nil]. }
  assert (Hc : config p' = config scenario).
  { unfold handleAudioFrame in E. rewrite H2 in E. cbn [negb] in E.
    destruct (run_invariant (fun _ => True) (fun _ _ _ => True)
                ltac:(auto) ltac:(auto) silent_hop 0 scenario [] H1 H2
                ltac:(apply Forall_forall; auto) I)
      as (p2 & e2 & E2 & _ & _ & Hc & _).
    rewrite E in E2. injection E2 as <- <-. exact Hc. }
  rewrite Hc, H3, H4 in Hlen. unfold silent_hop in Hlen.
  rewrite length_zeros, Z2Nat.id in Hlen by lia.
  change (events_after 16384 4096 (0 + 4096)) with 0%Z in Hlen.
  destruct evs as [|e evs]; [|cbn [length] in Hlen; lia].
  split.
  - exists p'. exact E.
  - intros (p2 & d & E2). rewrite E in E2. discriminate.
Qed.

End EventClaims.

(* ------------------------------------------------------------------ *)
(** * The configuration surface, further *)

Module ConfigExtras.

Import AudioProcessor JSFacts ConfigFacts UpdateFacts Invariants Properties.

Lemma config_ext (c c' : Config) :
  windowSize c = windowSize c' -> hopSize c = hopSize c' ->
  minHz c = minHz c' -> maxHz c = maxHz c' ->
  smoothing c = smoothing c' -> pcdMinRms c = pcdMinRms c' ->
  pcdThreshold c = pcdThreshold c' -> pcdNormalize c = pcdNormalize c' ->
  refA4 c = refA4 c' -> c = c'.
Proof. destruct c, c'; cbn; intros; subst; reflexivity. Qed.

Lemma with_config_same (p : t) : with_config p (config p) = p.
Proof. destruct p; reflexivity. Qed.

(** The assignments up to the band repair leave the levels alone. *)
Lemma early_assignments (u : Updates) (c : Config) :
  let c' := repair_band (assign_maxHz u (assign_minHz u (assign_hopSize u c))) in
  smoothing c' = smoothing c /\ pcdMinRms c' = pcdMinRms c /\
  pcdThreshold c' = pcdThreshold c /\ pcdNormalize c' = pcdNormalize c /\
  refA4 c' = refA4 c.
Proof.
  intros c'. subst c'.
  set (c1 := assign_hopSize u c).
  assert (H1 : smoothing c1 = smoothing c /\ pcdMinRms c1 = pcdMinRms c /\
               pcdThreshold c1 = pcdThreshold c /\
               pcdNormalize c1 = pcdNormalize c /\ refA4 c1 = refA4 c).
  { unfold c1, assign_hopSize, with_hopSize.
    destruct (u_hopSize u) as [h|]; [destruct (truthy h)|]; cbn; auto 10. }
  clearbody c1. destruct H1 as (<- & <- & <- & <- & <-).
  set (c2 := assign_minHz u c1).
  assert (H2 : smoothing c2 = smoothing c1 /\ pcdMinRms c2 = pcdMinRms c1 /\
               pcdThreshold c2 = pcdThreshold c1 /\
               pcdNormalize c2 = pcdNormalize c1 /\ refA4 c2 = refA4 c1).
  { unfold c2, assign_minHz. destruct (u_minHz u); cbn; auto 10. }
  clearbody c2. destruct H2 as (<- & <- & <- & <- & <-).
  set (c3 := assign_maxHz u c2).
  assert (H3 : smoothing c3 = smoothing c2 /\ pcdMinRms c3 = pcdMinRms c2 /\
               pcdThreshold c3 = pcdThreshold c2 /\
               pcdNormalize c3 = pcdNormalize c2 /\ refA4 c3 = refA4 c2).
  { unfold c3, assign_maxHz. destruct (u_maxHz u); cbn; auto 10. }
  clearbody c3. destruct H3 as (<- & <- & <- & <- & <-).
  unfold repair_band. destruct (Rle_dec (maxHz c3) (minHz c3)); cbn; auto 10.
Qed.

(** The levels after the assignments: the supplied value, clamped, or the
    stored one. *)
Lemma update_fields_levels (u : Updates) (c : Config) :
  smoothing (update_fields u c)
  = match u_smoothing u with Some v => clamp v 0 0.999 | None => smoothing c end
  /\ pcdMinRms (update_fields u c)
     = match u_pcdMinRms u with Some v => Rmax 0 v | None => pcdMinRms c end
  /\ pcdThreshold (update_fields u c)
     = match u_pcdThreshold u with Some v => Rmax 0 v | None => pcdThreshold c end
  /\ pcdNormalize (update_fields u c)
     = match u_pcdNormalize u with Some v => Rmax 0.1 v | None => pcdNormalize c end
  /\ refA4 (update_fields u c)
     = match u_refA4 u with Some v => Rmax 1 v | None => refA4 c end.
Proof.
  unfold update_fields.
  destruct (early_assignments u c) as (E1 & E2 & E3 & E4 & E5).
  set (c0 := repair_band _) in *. clearbody c0.
  rewrite <- E1, <- E2, <- E3, <- E4, <- E5. clear.
  unfold assign_refA4, assign_pcdNormalize, assign_pcdThreshold,
    assign_pcdMinRms, assign_smoothing.
  destruct (u_smoothing u), (u_pcdMinRms u), (u_pcdThreshold u),
    (u_pcdNormalize u), (u_refA4 u); cbn; auto 10.
Qed.

(** The configuration that one call leaves is a fixed point of the
    assignments and of the hop clamp. *)
Lemma fields_idempotent (u : Updates) (c : Config) :
  clamp_hop (update_fields u (clamp_hop (update_fields u c)))
  = clamp_hop (update_fields u c).
Proof.
  set (c1 := clamp_hop (update_fields u c)).
  assert (W1 : windowSize c1 = windowSize c).
  { unfold c1, clamp_hop, with_hopSize. cbn. apply update_fields_windowSize. }
  assert (H1 : hopSize c1
               = Z.min (hopSize (update_fields u c)) (windowSize c)).
  { unfold c1, clamp_hop, with_hopSize. cbn. rewrite update_fields_windowSize.
    reflexivity. }
  assert (F1 : minHz c1 = minHz (update_fields u c)
               /\ maxHz c1 = maxHz (update_fields u c)
               /\ smoothing c1 = smoothing (update_fields u c)
               /\ pcdMinRms c1 = pcdMinRms (update_fields u c)
               /\ pcdThreshold c1 = pcdThreshold (update_fields u c)
               /\ pcdNormalize c1 = pcdNormalize (update_fields u c)
               /\ refA4 c1 = refA4 (update_fields u c)).
  { unfold c1, clamp_hop, with_hopSize. cbn. auto 10. }
  destruct F1 as (Fmin & Fmax & Fs & Fr & Ft & Fn & Fa).
  clearbody c1.
  destruct (update_fields_levels u c) as (L1 & L2 & L3 & L4 & L5).
  destruct (update_fields_levels u c1) as (M1 & M2 & M3 & M4 & M5).
  pose proof (update_fields_minHz u c) as Emin.
  pose proof (update_fields_minHz u c1) as Emin1.
  pose proof (update_fields_maxHz u c) as Emax.
  pose proof (update_fields_maxHz u c1) as Emax1.
  pose proof (update_fields_hopSize u c) as Eh.
  pose proof (update_fields_hopSize u c1) as Eh1.
  apply config_ext.
  - unfold clamp_hop, with_hopSize. cbn.
    rewrite update_fields_windowSize. reflexivity.
  - unfold clamp_hop, with_hopSize. cbn.
    rewrite update_fields_windowSize, Eh1, !H1, Eh, W1.
    destruct (u_hopSize u) as [h|]; [destruct (truthy h)|]; lia.
  - unfold clamp_hop, with_hopSize. cbn. rewrite Emin1, Fmin, Emin.
    destruct (u_minHz u); reflexivity.
  - unfold clamp_hop, with_hopSize. cbn. rewrite Emax1, Fmin, Fmax, Emin, Emax.
    cbv zeta.
    set (lo := match u_minHz u with Some v => Rmax 0 v | None => minHz c end).
    assert (Elo : match u_minHz u with Some v => Rmax 0 v | None => lo end = lo).
    { unfold lo. destruct (u_minHz u); reflexivity. }
    rewrite Elo.
    destruct (u_maxHz u) as [v|]; [reflexivity|].
    destruct (Rle_dec (maxHz c) lo) as [Hle|Hgt].
    + destruct (Rle_dec (lo + 1) lo); [lra | reflexivity].
    + destruct (Rle_dec (maxHz c) lo); [contradiction | reflexivity].
  - unfold clamp_hop, with_hopSize. cbn. rewrite M1, Fs, L1.
    destruct (u_smoothing u); reflexivity.
  - unfold clamp_hop, with_hopSize. cbn. rewrite M2, Fr, L2.
    destruct (u_pcdMinRms u); reflexivity.
  - unfold clamp_hop, with_hopSize. cbn. rewrite M3, Ft, L3.
    destruct (u_pcdThreshold u); reflexivity.
  - unfold clamp_hop, with_hopSize. cbn. rewrite M4, Fn, L4.
    destruct (u_pcdNormalize u); reflexivity.
  - unfold clamp_hop, with_hopSize. cbn. rewrite M5, Fa, L5.
    destruct (u_refA4 u); reflexivity.
Qed.

(** When the window is the one asked for, the window branch does nothing. *)
Lemma update_window_settled (u : Updates) (p : t) :
  window_settled u p -> update_window u p = (p, Normal false).
Proof.
  intros H. unfold update_window.
  destruct (u_windowSize u) as [w|] eqn:Ew; [|reflexivity].
  destruct (H w Ew) as [H0|[H1|H2]].
  - unfold truthy. destruct (Req_dec_T w 0); [reflexivity | contradiction].
  - unfold differs. destruct (Req_dec_T w (IZR (windowSize (config p))));
      [|contradiction].
    rewrite andb_false_r. reflexivity.
  - destruct (truthy w && differs w (IZR (windowSize (config p))));
      [|reflexivity].
    rewrite H2, Z.eqb_refl. reflexivity.
Qed.

(** The outcomes of the window branch. *)
Lemma update_window_outcomes (u : Updates) (p : t) :
  (window_settled u p /\ update_window u p = (p, Normal false))
  \/ (exists w tbl,
        u_windowSize u = Some w /\
        update_window u p
        = (with_window (with_config p (with_windowSize (config p) (toPowerOfTwo w)))
                       tbl (zeros (Z.to_nat (toPowerOfTwo w)))
                       (zeros (Z.to_nat (toPowerOfTwo w))),
           Normal true))
  \/ (forall b, snd (update_window u p) <> Normal b).
Proof.
  destruct (u_windowSize u) as [w|] eqn:Ew.
  2:{ left. split; [|unfold update_window; rewrite Ew; reflexivity].
      intros w Hw. congruence. }
  destruct (Req_dec_T w 0) as [H0|H0].
  { left. assert (S : window_settled u p).
    { intros w' Hw'. left. congruence. }
    split; [exact S | apply update_window_settled; exact S]. }
  destruct (Req_dec_T w (IZR (windowSize (config p)))) as [H1|H1].
  { left. assert (S : window_settled u p).
    { intros w' Hw'. right. left. congruence. }
    split; [exact S | apply update_window_settled; exact S]. }
  destruct (Z.eq_dec (toPowerOfTwo w) (windowSize (config p))) as [H2|H2].
  { left. assert (S : window_settled u p).
    { intros w' Hw'. right. right. congruence. }
    split; [exact S | apply update_window_settled; exact S]. }
  destruct (Z_lt_le_dec (toPowerOfTwo w) 0) as [Hneg|Hpos].
  - right. right. intros b. unfold update_window. rewrite Ew.
    unfold truthy, differs.
    destruct (Req_dec_T w 0); [contradiction|].
    destruct (Req_dec_T w (IZR (windowSize (config p)))); [contradiction|].
    cbn [andb]. destruct (Z.eqb_spec (toPowerOfTwo w) (windowSize (config p)));
      [contradiction|].
    unfold Windowing.hannWindow, Float32Array_new.
    destruct (Z.ltb_spec (toPowerOfTwo w) 0); [|lia].
    cbn. discriminate.
  - right. left.
    destruct (update_window_changes u p w Ew H0 H1 H2 Hpos) as (tbl & _ & E).
    exists w, tbl. auto.
Qed.

(** The state after a call that returns, by the outcome of its window
    branch. *)
Lemma updateConfig_outcomes (u : Updates) (p : t) :
  snd (updateConfig u p) = Normal tt ->
  exists q,
    fst (updateConfig u p) = with_config q (clamp_hop (update_fields u (config q)))
    /\ windowSize (config q) = windowSize (config (fst (updateConfig u p)))
    /\ window_settled u q
    /\ ((q = p /\ window_settled u p)
        \/ exists w tbl,
             u_windowSize u = Some w /\ (0 <= toPowerOfTwo w)%Z /\
             q = resetBuffers
                   (with_window
                      (with_config p (with_windowSize (config p) (toPowerOfTwo w)))
                      tbl (zeros (Z.to_nat (toPowerOfTwo w)))
                      (zeros (Z.to_nat (toPowerOfTwo w))))).
Proof.
  unfold updateConfig.
  destruct (update_window_outcomes u p) as [(S & E)|[(w & tbl & Ew & E)|N]].
  - rewrite E. intros _. exists p. cbn [fst].
    split; [reflexivity|]. split; [|split; [exact S | left; auto]].
    cbn. rewrite update_fields_windowSize. reflexivity.
  - rewrite E. intros _.
    set (p1 := with_window _ tbl _ _).
    exists (resetBuffers p1). cbn [fst].
    assert (Ec : config p1 = with_windowSize (config p) (toPowerOfTwo w))
      by reflexivity.
    split.
    { change (config (resetBuffers p1)) with (config p1).
      change (config (resetBuffers (with_config p1 (update_fields u (config p1)))))
        with (update_fields u (config p1)).
      destruct p1; reflexivity. }
    split.
    { change (config (resetBuffers p1)) with (config p1). cbn.
      rewrite update_fields_windowSize. reflexivity. }
    split.
    { intros w' Hw'. right. right.
      change (config (resetBuffers p1)) with (config p1). rewrite Ec.
      cbn. congruence. }
    right. exists w, tbl. split; [exact Ew|]. split; [|reflexivity].
    destruct (Z_lt_le_dec (toPowerOfTwo w) 0) as [Hneg|Hpos]; [|exact Hpos].
    exfalso. clear p1 Ec. unfold update_window in E. rewrite Ew in E.
    destruct (truthy w && differs w (IZR (windowSize (config p))));
      [|inversion E].
    destruct (Z.eqb (toPowerOfTwo w) (windowSize (config p))); [inversion E|].
    unfold Windowing.hannWindow, Float32Array_new in E.
    destruct (Z.ltb_spec (toPowerOfTwo w) 0); [|lia].
    cbn in E. inversion E.
  - intros H. exfalso.
    destruct (update_window u p) as [p1 [b| |]] eqn:E.
    + apply (N b). reflexivity.
    + cbn in H. discriminate.
    + cbn in H. discriminate.
Qed.

End ConfigExtras.

(* ------------------------------------------------------------------ *)
(** * The configuration surface: what a call keeps *)

Module ConfigSurface.

Import AudioProcessor JSFacts ConfigFacts UpdateFacts Invariants Properties
  HopFacts ConfigExtras.

(** The window branch leaves the levels alone, however it ends. *)
Lemma update_window_levels (u : Updates) (p : t) :
  let c' := config (fst (update_window u p)) in
  smoothing c' = smoothing (config p) /\ pcdMinRms c' = pcdMinRms (config p) /\
  pcdThreshold c' = pcdThreshold (config p) /\
  pcdNormalize c' = pcdNormalize (config p) /\ refA4 c' = refA4 (config p).
Proof.
  unfold update_window.
  destruct (u_windowSize u) as [w|]; [|cbn; auto 10].
  destruct (truthy w && differs w (IZR (windowSize (config p)))); [|cbn; auto 10].
  destruct (Z.eqb (toPowerOfTwo w) (windowSize (config p))); [cbn; auto 10|].
  destruct (Windowing.hannWindow (toPowerOfTwo w)); [|cbn; auto 10..].
  destruct (Float32Array_new (toPowerOfTwo w)); cbn; auto 10.
Qed.

Lemma clamp_range (v lo hi : R) : lo <= hi -> lo <= clamp v lo hi <= hi.
Proof.
  intros H. unfold clamp, clampR, Rmin, Rmax.
  destruct (Rle_dec lo v); destruct (Rle_dec hi _); lra.
Qed.

(** Updating twice with the same object is updating once: the second call
    finds the window it asks for and every field at the value it would
    store. *)
Theorem updateConfig_idempotent (u : Updates) (p : t) :
  snd (updateConfig u p) = Normal tt ->
  updateConfig u (fst (updateConfig u p)) = (fst (updateConfig u p), Normal tt).
Proof.
  intros H. destruct (updateConfig_outcomes u p H) as (q & E & _ & S & _).
  rewrite E.
  set (c1 := clamp_hop (update_fields u (config q))).
  assert (W1 : windowSize c1 = windowSize (config q)).
  { unfold c1. cbn. apply update_fields_windowSize. }
  assert (S1 : window_settled u (with_config q c1)).
  { intros w Hw. change (config (with_config q c1)) with c1.
    rewrite W1. apply S. exact Hw. }
  unfold updateConfig. rewrite (update_window_settled u _ S1).
  change (config (with_config q c1)) with c1.
  change (config (with_config (with_config q c1) (update_fields u c1)))
    with (update_fields u c1).
  assert (F : clamp_hop (update_fields u c1) = c1).
  { unfold c1. apply fields_idempotent. }
  rewrite F. destruct q; reflexivity.
Qed.

Lemma updateConfig_idempotent_witness :
  updateConfig (hop_update 4096) (fst (updateConfig (hop_update 4096) create))
  = (fst (updateConfig (hop_update 4096) create), Normal tt).
Proof.
  apply updateConfig_idempotent.
  rewrite updateConfig_same_window by reflexivity. reflexivity.
Defined.

(** A call that does not change the window returns and leaves the stream
    state (ring buffer, cursor and counters, analysis buffer, window
    table, both PCD vectors, last RMS) as it was. *)
Theorem updateConfig_keeps_stream (u : Updates) (p : t) :
  window_settled u p ->
  let p' := fst (updateConfig u p) in
  snd (updateConfig u p) = Normal tt /\
  same_stream p p' /\
  windowSize (config p') = windowSize (config p) /\
  running p' = running p /\ sampleRate p' = sampleRate p /\
  tunerConfig p' = tunerConfig p /\
  (ready p -> ready p').
Proof.
  intros S p'. subst p'. unfold updateConfig.
  rewrite (update_window_settled u p S). cbn [fst snd].
  split; [reflexivity|].
  split; [unfold same_stream; cbn; auto 10|].
  assert (W : windowSize (clamp_hop (update_fields u (config p)))
              = windowSize (config p)).
  { cbn. apply update_fields_windowSize. }
  split; [exact W|].
  split; [reflexivity|]. split; [reflexivity|]. split; [reflexivity|].
  intros Hr.
  change (with_config (with_config p (update_fields u (config p)))
            (clamp_hop (config (with_config p (update_fields u (config p))))))
    with (with_config p (clamp_hop (update_fields u (config p)))).
  apply ready_with_config; [exact Hr | exact W].
Qed.

(** A hop change in the middle of a stream: the ring, the counters, the
    PCD vectors and the last RMS stay. *)
Lemma updateConfig_keeps_stream_witness :
  same_stream mid_stream (fst (updateConfig (hop_update 1024) mid_stream)) /\
  snd (updateConfig (hop_update 1024) mid_stream) = Normal tt /\
  hopCounter mid_stream = 7%Z /\ lastRms mid_stream = 0.2.
Proof.
  destruct (updateConfig_keeps_stream (hop_update 1024) mid_stream)
    as (E & S & _).
  - intros w Hw. discriminate Hw.
  - split; [exact S|]. split; [exact E|]. split; reflexivity.
Defined.

(** The levels are stored clamped, and stay in their ranges. *)
Theorem updateConfig_clamps_levels (u : Updates) (p : t) :
  let c := config p in
  let c' := config (fst (updateConfig u p)) in
  (levels_inv c -> levels_inv c') /\
  (snd (updateConfig u p) = Normal tt ->
   smoothing c'
   = match u_smoothing u with Some v => clamp v 0 0.999 | None => smoothing c end
   /\ pcdMinRms c'
      = match u_pcdMinRms u with Some v => Rmax 0 v | None => pcdMinRms c end
   /\ pcdThreshold c'
      = match u_pcdThreshold u with Some v => Rmax 0 v | None => pcdThreshold c end
   /\ pcdNormalize c'
      = match u_pcdNormalize u with Some v => Rmax 0.1 v | None => pcdNormalize c end
   /\ refA4 c'
      = match u_refA4 u with Some v => Rmax 1 v | None => refA4 c end).
Proof.
  intros c c'. subst c c'.
  destruct (update_window_levels u p) as (W1 & W2 & W3 & W4 & W5).
  unfold updateConfig.
  destruct (update_window u p) as [p1 [b| |]] eqn:E; cbn [fst snd] in *.
  - set (p2 := with_config p1 (update_fields u (config p1))).
    assert (Ec : config (with_config (if b then resetBuffers p2 else p2)
                           (clamp_hop (config (if b then resetBuffers p2 else p2))))
                 = clamp_hop (update_fields u (config p1))).
    { destruct b; reflexivity. }
    rewrite Ec.
    destruct (update_fields_levels u (config p1)) as (L1 & L2 & L3 & L4 & L5).
    assert (Eq :
      smoothing (clamp_hop (update_fields u (config p1)))
      = match u_smoothing u with
        | Some v => clamp v 0 0.999 | None => smoothing (config p) end
      /\ pcdMinRms (clamp_hop (update_fields u (config p1)))
         = match u_pcdMinRms u with
           | Some v => Rmax 0 v | None => pcdMinRms (config p) end
      /\ pcdThreshold (clamp_hop (update_fields u (config p1)))
         = match u_pcdThreshold u with
           | Some v => Rmax 0 v | None => pcdThreshold (config p) end
      /\ pcdNormalize (clamp_hop (update_fields u (config p1)))
         = match u_pcdNormalize u with
           | Some v => Rmax 0.1 v | None => pcdNormalize (config p) end
      /\ refA4 (clamp_hop (update_fields u (config p1)))
         = match u_refA4 u with
           | Some v => Rmax 1 v | None => refA4 (config p) end).
    { cbn [clamp_hop with_hopSize smoothing pcdMinRms pcdThreshold pcdNormalize
           refA4].
      rewrite L1, L2, L3, L4, L5, W1, W2, W3, W4, W5. auto 10. }
    split; [|intros _; exact Eq].
    intros (I1 & I2 & I3 & I4 & I5). unfold levels_inv.
    destruct Eq as (-> & -> & -> & -> & ->).
    split.
    { destruct (u_smoothing u); [apply clamp_range; lra | exact I1]. }
    split.
    { destruct (u_pcdMinRms u); [apply Rmax_l | exact I2]. }
    split.
    { destruct (u_pcdThreshold u); [apply Rmax_l | exact I3]. }
    split.
    { destruct (u_pcdNormalize u); [apply Rmax_l | exact I4]. }
    destruct (u_refA4 u); [apply Rmax_l | exact I5].
  - split; [|discriminate]. unfold levels_inv.
    rewrite W1, W2, W3, W4, W5. auto.
  - split; [|discriminate]. unfold levels_inv.
    rewrite W1, W2, W3, W4, W5. auto.
Qed.

Lemma updateConfig_clamps_levels_witness :
  levels_inv (config (fst (updateConfig (hop_update 4096) create))).
Proof.
  apply (updateConfig_clamps_levels (hop_update 4096) create).
  change (config create) with DEFAULT_AUDIO_CONFIG.
  unfold levels_inv. cbn. lra.
Defined.

(** [toPowerOfTwo] on a value below [2^30.5]: a power of two from 32 to
    [2^30], the nearest one in ratio, and a fixed point of the function. *)
Lemma toPowerOfTwo_bracket (value : R) :
  (ToInt32 value < 1518500250)%Z ->
  let c := Z.max 32 (ToInt32 value) in
  exists e, (5 <= e <= 30)%Z /\ toPowerOfTwo value = (2 ^ e)%Z /\
            (2 ^ (2 * e) <= 2 * (c * c))%Z /\ (c * c < 2 * 2 ^ (2 * e))%Z.
Proof.
  intros Hv c.
  assert (Hc : (32 <= c < 1518500250)%Z) by (unfold c; lia).
  set (m := Z.log2 (c * c)).
  assert (Hcc : (0 < c * c)%Z) by nia.
  destruct (Z.log2_spec (c * c) Hcc) as [Hm1 Hm2]. fold m in Hm1, Hm2.
  assert (Hm : (10 <= m <= 60)%Z).
  { split.
    - apply Z.log2_le_pow2; [exact Hcc|]. change (2 ^ 10)%Z with 1024%Z. nia.
    - assert (m < 61)%Z; [|lia].
      apply Z.log2_lt_pow2; [exact Hcc|].
      change (2 ^ 61)%Z with 2305843009213693952%Z. nia. }
  exists ((m + 1) / 2)%Z.
  assert (He : (5 <= (m + 1) / 2 <= 30)%Z).
  { clearbody m c. pose proof (Z.div_mod (m + 1) 2).
    pose proof (Z.mod_pos_bound (m + 1) 2). lia. }
  assert (Hb : (2 ^ (2 * ((m + 1) / 2)) <= 2 * (c * c))%Z
               /\ (c * c < 2 * 2 ^ (2 * ((m + 1) / 2)))%Z).
  { destruct (Z.even m) eqn:Ev.
    - apply Z.even_spec in Ev. destruct Ev as [q Hq].
      replace (2 * ((m + 1) / 2))%Z with m.
      + rewrite Z.pow_succ_r in Hm2 by lia. lia.
      + rewrite Hq. replace (2 * q + 1)%Z with (1 + q * 2)%Z by lia.
        rewrite Z.div_add by lia. change (1 / 2)%Z with 0%Z. lia.
    - rewrite <- Z.negb_odd in Ev. apply negb_false_iff in Ev.
      apply Z.odd_spec in Ev. destruct Ev as [q Hq].
      replace (2 * ((m + 1) / 2))%Z with (Z.succ m).
      + assert (0 < 2 ^ Z.succ m)%Z by (apply Z.pow_pos_nonneg; lia).
        rewrite Z.pow_succ_r in * by lia. lia.
      + rewrite Hq. replace (2 * q + 1 + 1)%Z with ((q + 1) * 2)%Z by lia.
        rewrite Z.div_mul by lia. lia. }
  split; [exact He|]. split; [|exact Hb].
  rewrite (toPowerOfTwo_exponent value ((m + 1) / 2)); fold c; try lia.
  rewrite shl_small; try lia.
  split; [lia|]. rewrite Z.mul_1_l.
  apply Z.pow_lt_mono_r; lia.
Qed.

Lemma toPowerOfTwo_fixed (e : Z) :
  (5 <= e <= 30)%Z -> toPowerOfTwo (IZR (2 ^ e)) = (2 ^ e)%Z.
Proof.
  intros He.
  assert (Hlo : (2 ^ 5 <= 2 ^ e)%Z) by (apply Z.pow_le_mono_r; lia).
  assert (Hhi : (2 ^ e < 2 ^ 31)%Z) by (apply Z.pow_lt_mono_r; lia).
  change (2 ^ 5)%Z with 32%Z in Hlo.
  assert (E2 : (2 ^ (2 * e) = 2 ^ e * 2 ^ e)%Z).
  { rewrite <- Z.pow_add_r by lia. f_equal. lia. }
  rewrite (toPowerOfTwo_exponent (IZR (2 ^ e)) e);
    rewrite ?ToInt32_IZR by lia; rewrite ?Z.max_r by lia; try lia.
  rewrite shl_small; lia.
Qed.

Theorem toPowerOfTwo_rounds (value : R) :
  (ToInt32 value < 1518500250)%Z ->
  let c := Z.max 32 (ToInt32 value) in
  let r := toPowerOfTwo value in
  (exists e, (5 <= e <= 30)%Z /\ r = (2 ^ e)%Z) /\
  (r * r <= 2 * (c * c) < 4 * (r * r))%Z /\
  toPowerOfTwo (IZR r) = r /\
  ((ToInt32 value <= 45)%Z -> r = 32%Z) /\
  ((c = r)%Z -> toPowerOfTwo value = c).
Proof.
  intros Hv c r.
  destruct (toPowerOfTwo_bracket value Hv) as (e & He & Er & Hlo & Hhi).
  fold c in Hlo, Hhi. fold r in Er.
  assert (E2 : (2 ^ (2 * e) = 2 ^ e * 2 ^ e)%Z).
  { rewrite <- Z.pow_add_r by lia. f_equal. lia. }
  rewrite E2 in Hlo, Hhi. rewrite <- Er in Hlo, Hhi.
  split; [exists e; auto|]. split; [lia|].
  split; [rewrite Er; apply toPowerOfTwo_fixed; exact He|].
  split; [|intros H; fold r; lia].
  intros Hsmall.
  assert (Hc : (32 <= c <= 45)%Z) by (unfold c; lia).
  assert (Hr : (32 <= r)%Z).
  { rewrite Er. change 32%Z with (2 ^ 5)%Z. apply Z.pow_le_mono_r; lia. }
  destruct (Z.eq_dec e 5) as [->|Hne]; [exact Er|].
  assert (H64 : (2 ^ 6 <= r)%Z) by (rewrite Er; apply Z.pow_le_mono_r; lia).
  change (2 ^ 6)%Z with 64%Z in H64. nia.
Qed.

Lemma toPowerOfTwo_rounds_witness :
  toPowerOfTwo (IZR (toPowerOfTwo 40)) = toPowerOfTwo 40 /\ toPowerOfTwo 40 = 32%Z.
Proof.
  assert (H : (ToInt32 40 < 1518500250)%Z) by (rewrite ToInt32_IZR; lia).
  destruct (toPowerOfTwo_rounds 40 H) as (_ & _ & F & S & _).
  split; [exact F|]. apply S. rewrite ToInt32_IZR; lia.
Defined.

End ConfigSurface.

(* ------------------------------------------------------------------ *)
(** * The stream: what a run of samples leaves in the buffers *)

Module StreamFacts.

Import AudioProcessor JSFacts LoopFacts Invariants Reference FFTFacts
  ProcessorFacts HopFacts RunFacts Properties.

(** The frame that [processFrame] copies: the ring read from the cursor. *)
Lemma unrolled_cell (ring : list R) (W a i : Z) :
  length ring = Z.to_nat W -> (0 <= a < W)%Z -> (0 <= i < W)%Z ->
  getR (skipn (Z.to_nat a) ring ++ firstn (Z.to_nat a) ring) i
  = getR ring ((a + i) mod W).
Proof.
  intros L Ha Hi. unfold getR, get.
  destruct (Z.ltb_spec i 0); [lia|].
  assert (Hm : (0 <= (a + i) mod W < W)%Z) by (apply Z.mod_pos_bound; lia).
  destruct (Z.ltb_spec ((a + i) mod W) 0); [lia|].
  destruct (Z_lt_le_dec (a + i) W) as [Hlt|Hge].
  - rewrite Z.mod_small by lia.
    rewrite app_nth1 by (rewrite length_skipn; lia).
    rewrite nth_skipn. f_equal. lia.
  - assert (E : ((a + i) mod W = a + i - W)%Z).
    { symmetry. apply Z.mod_unique with 1%Z; lia. }
    rewrite E.
    rewrite app_nth2 by (rewrite length_skipn; lia).
    rewrite length_skipn.
    rewrite nth_firstn.
    destruct (Nat.ltb_spec (Z.to_nat i - (length ring - Z.to_nat a))
                           (Z.to_nat a)); [|lia].
    f_equal. lia.
Qed.

Lemma window_loop_cell (w ab : list R) (W i : Z) :
  length ab = Z.to_nat W -> (0 <= i < W)%Z ->
  getR (fold_left (window_step w) (range 0 (W - 1)) ab) i
  = getR ab i * getR w i.
Proof.
  intros L Hi.
  change (window_step w) with (cell_step 0 (fun i v => v * getR w i)).
  unfold getR at 1.
  rewrite fold_cell_range by lia. reflexivity.
Qed.

(** The analysis buffer and the RMS that one run of the [try] block
    leaves. *)
Lemma analyse_frame (p : t) :
  ready p ->
  let W := windowSize (config p) in
  let p' := fst (analyse p) in
  analysisBuffer p'
  = fold_left (window_step (windowFn p)) (range 0 (W - 1))
      (skipn (Z.to_nat (writeIndex p)) (ringBuffer p)
       ++ firstn (Z.to_nat (writeIndex p)) (ringBuffer p)) /\
  windowFn p' = windowFn p /\
  lastRms p' = frameRms (analysisBuffer p').
Proof.
  intros (HW & Lr & La & Hwi & Lc & Lraw & Lout & Lzero & Hinv & Hfft).
  cbv zeta. unfold analyse.
  rewrite Z.rem_small by lia.
  destruct (frame_copy (ringBuffer p) (analysisBuffer p)
                       (windowSize (config p)) (writeIndex p) Lr La Hwi)
    as (ab1 & E1 & E2).
  rewrite E1, E2.
  set (frame := skipn (Z.to_nat (writeIndex p)) (ringBuffer p)
                ++ firstn (Z.to_nat (writeIndex p)) (ringBuffer p)).
  assert (Lf : length frame = Z.to_nat (windowSize (config p))).
  { unfold frame. rewrite length_app, length_skipn, length_firstn. lia. }
  set (ab3 := fold_left (window_step (windowFn p))
                        (range 0 (windowSize (config p) - 1)) frame).
  assert (L3 : length ab3 = Z.to_nat (windowSize (config p))).
  { unfold ab3. rewrite window_loop_length. exact Lf. }
  destruct (FFTClaims.transform_returns (fft p) ab3 Hfft)
    as (fft1 & mags & n & Et & _ & _ & Hfft1 & Hz); [rewrite L3; lia|].
  rewrite Et.
  set (raw := if Rle_dec (pcdMinRms (config p)) (frameRms ab3)
              then PitchClassComputer.compute (pcdComputer p) mags (sampleRate p)
                     (options_of (config p))
              else PitchClassComputer.getSilentOutput (pcdComputer p)).
  assert (Lraw1 : length (snd raw) = 12%nat).
  { unfold raw. destruct (Rle_dec (pcdMinRms (config p)) (frameRms ab3)).
    - apply compute_length. exact Lout.
    - destruct (getSilentOutput_zeros (pcdComputer p) Lzero) as (Hs & _).
      rewrite Hs. apply length_zeros. }
  destruct raw as [pc1 rawPcd1]. cbn [snd] in Lraw1.
  rewrite typed_set_whole by (rewrite Lraw1, Lraw; reflexivity).
  cbn [fst analysisBuffer windowFn lastRms with_pcds with_engines with_lastRms
       with_analysisBuffer with_window].
  auto.
Qed.

(** One more sample keeps the contents of the ring. *)
Lemma ring_holds_step (hist : list R) (p : t) (x : R) (hc : Z) :
  ready p -> ring_holds hist p -> ring_holds (hist ++ [x]) (advanced p x hc).
Proof.
  intros (HW & Lr & _ & Hwi & _) (Ecur & Hcells).
  unfold ring_holds.
  change (config (advanced p x hc)) with (config p).
  change (writeIndex (advanced p x hc)) with (cursor_next p).
  change (ringBuffer (advanced p x hc))
    with (set (ringBuffer p) (writeIndex p) x).
  cbv zeta in *. rewrite length_app. cbn [length].
  set (W := windowSize (config p)) in *.
  set (n := Z.of_nat (length hist)) in *.
  replace (Z.of_nat (length hist + 1)) with (n + 1)%Z by (unfold n; lia).
  assert (Hn : (0 <= n)%Z) by (unfold n; lia).
  split.
  - unfold cursor_next. fold W. rewrite Ecur.
    pose proof (Z.mod_pos_bound n W ltac:(lia)) as Hb.
    destruct (Z.geb_spec (n mod W + 1) W) as [Hge|Hlt].
    + apply Z.mod_unique with (n / W + 1)%Z; [lia|].
      pose proof (Z.div_mod n W ltac:(lia)). nia.
    + apply Z.mod_unique with (n / W)%Z; [lia|].
      pose proof (Z.div_mod n W ltac:(lia)). nia.
  - intros j Hj Hlo.
    destruct (Z.eq_dec j n) as [->|Hne].
    + rewrite <- Ecur. unfold getR. rewrite get_set_eq by lia.
      unfold get. destruct (Z.ltb_spec n 0); [lia|].
      rewrite app_nth2 by (unfold n; lia).
      replace (Z.to_nat n - length hist)%nat with 0%nat by (unfold n; lia).
      reflexivity.
    + assert (Hd : (j mod W <> n mod W)%Z).
      { intros E.
        pose proof (Z.div_mod n W ltac:(lia)).
        pose proof (Z.div_mod j W ltac:(lia)).
        assert (n - j = W * (n / W - j / W))%Z by lia.
        assert (0 < n / W - j / W)%Z by nia.
        nia. }
      unfold getR. rewrite get_set_neq by (rewrite Ecur; congruence).
      fold (getR (ringBuffer p) (j mod W)).
      rewrite Hcells by lia.
      unfold getR, get. destruct (Z.ltb_spec j 0); [lia|].
      rewrite app_nth1 by (unfold n in *; lia). reflexivity.
Qed.

(** One more sample keeps the invariant of the ring. *)
Lemma ring_inv_step (hist : list R) (p : t) (evs : list Event) (x : R) :
  ready p -> running p = true -> ring_inv hist p ->
  exists p' new,
    sample_step (windowSize (config p)) (Normal (p, evs)) x
    = Normal (p', evs ++ new) /\
    ready p' /\ running p' = true /\ config p' = config p /\
    windowFn p' = windowFn p /\
    ring_inv (hist ++ [x]) p'.
Proof.
  intros Hr Hrun (HH & Hat & Hring & _).
  destruct (sample_step_returns p evs x Hr Hrun)
    as (p1 & new & E & Hr1 & Hrun1 & Hc1 & _ & _ & Hf1 & Hw1 & Hb1 & Hcase).
  exists p1, new. split; [exact E|]. split; [exact Hr1|].
  split; [exact Hrun1|]. split; [exact Hc1|].
  assert (Hn : (0 <= Z.of_nat (length hist))%Z) by lia.
  destruct (EventClaims.counters_step p (Z.of_nat (length hist)) Hn HH Hat)
    as (Cf & Cq & Ch).
  cbv zeta in Cf, Cq, Ch.
  pose proof (ring_holds_step hist p x 0 Hr Hring) as Hstep.
  assert (Hring1 : ring_holds (hist ++ [x]) p1).
  { destruct Hstep as (S1 & S2). unfold ring_holds. rewrite Hc1, Hw1, Hb1.
    split; [exact S1 | exact S2]. }
  assert (Hlen : Z.of_nat (length (hist ++ [x]))
                 = (Z.of_nat (length hist) + 1)%Z).
  { rewrite length_app. cbn [length]. lia. }
  destruct Hcase as [(Hf & -> & Hh & ->)|(Hf & Hh & d & -> & Ea)].
  - split; [reflexivity|].
    unfold ring_inv. rewrite Hc1. cbv zeta.
    split; [exact HH|]. split.
    { unfold at_sample. rewrite Hc1, Hf1, Hh, Hlen. cbv zeta.
      split; [exact Cf | apply Cq; exact Hf]. }
    split; [exact Hring1|].
    intros _ H0. exfalso.
    change (hopCounter (advanced p x (hopCounter p + 1)))
      with (hopCounter p + 1)%Z in H0.
    destruct Hat as (_ & Hhc). cbv zeta in Hhc.
    destruct (Z.ltb_spec (Z.of_nat (length hist)) (windowSize (config p))).
    + lia.
    + pose proof (Z.mod_pos_bound
                    (Z.of_nat (length hist) - windowSize (config p))
                    (hopSize (config p)) ltac:(lia)). lia.
  - pose proof (ready_advanced p x 0 Hr) as Hrq.
    destruct (analyse_frame (advanced p x 0) Hrq) as (Eab & Ewf & Erms).
    rewrite Ea in Eab, Ewf, Erms. cbn [fst] in Eab, Ewf, Erms.
    split; [exact Ewf|].
    unfold ring_inv. rewrite Hc1. cbv zeta.
    split; [exact HH|]. split.
    { unfold at_sample. rewrite Hc1, Hf1, Hh, Hlen. cbv zeta.
      split; [exact Cf | apply Ch; exact Hf]. }
    split; [exact Hring1|].
    intros HWn _. unfold frame_is_recent. rewrite Hc1. cbv zeta.
    split; [|exact Erms].
    intros i Hi. rewrite Eab, Ewf.
    change (config (advanced p x 0)) with (config p).
    change (windowFn (advanced p x 0)) with (windowFn p).
    destruct Hrq as (HW & Lr & _ & Hwi & _).
    change (config (advanced p x 0)) with (config p) in HW, Lr, Hwi.
    rewrite window_loop_cell;
      [|rewrite length_app, length_skipn, length_firstn; lia | exact Hi].
    f_equal.
    rewrite (unrolled_cell _ (windowSize (config p))) by assumption.
    destruct Hstep as (S1 & S2). cbv zeta in S1, S2.
    change (config (advanced p x 0)) with (config p) in S1, S2.
    rewrite S1.
    set (W := windowSize (config p)) in *.
    set (n1 := Z.of_nat (length (hist ++ [x]))) in *.
    assert (Em : ((n1 mod W + i) mod W = (n1 - W + i) mod W)%Z).
    { rewrite Zplus_mod_idemp_l.
      replace (n1 + i)%Z with (n1 - W + i + 1 * W)%Z by lia.
      apply Z.mod_add. lia. }
    rewrite Em. apply S2; lia.
Qed.

(** A run of samples keeps the invariant of the ring. *)
Lemma run_ring (samples hist : list R) (p : t) (evs : list Event) :
  ready p -> running p = true -> ring_inv hist p ->
  exists p' evs',
    fold_left (sample_step (windowSize (config p))) samples (Normal (p, evs))
    = Normal (p', evs') /\
    ready p' /\ running p' = true /\ config p' = config p /\
    windowFn p' = windowFn p /\
    ring_inv (hist ++ samples) p'.
Proof.
  revert hist p evs. induction samples as [|x xs IH]; intros hist p evs Hr Hrun HI.
  - exists p, evs. rewrite app_nil_r. cbn [fold_left]. auto 10.
  - cbn [fold_left].
    destruct (ring_inv_step hist p evs x Hr Hrun HI)
      as (p1 & new & E & Hr1 & Hrun1 & Hc1 & Hw1 & HI1).
    rewrite E.
    destruct (IH (hist ++ [x]) p1 (evs ++ new) Hr1 Hrun1 HI1)
      as (p' & evs' & E' & Hr' & Hrun' & Hc' & Hw' & HI').
    rewrite Hc1 in E'. exists p', evs'. rewrite E'.
    rewrite <- app_assoc in HI'. cbn [app] in HI'.
    split; [reflexivity|]. split; [exact Hr'|]. split; [exact Hrun'|].
    split; [congruence|]. split; [congruence|]. exact HI'.
Qed.

End StreamFacts.

(* ------------------------------------------------------------------ *)
(** * The stream: frames, chunks and the tuner reading *)

Module StreamProperties.

Import AudioProcessor JSFacts LoopFacts Invariants Reference FFTFacts
  ProcessorFacts HopFacts RunFacts Properties StreamFacts.

(** Whenever a sample completes a hop, the frame that is analysed is the
    last [windowSize] samples of the stream, the oldest first, weighted by
    the window table; the ring buffer holds these samples at their
    positions modulo [windowSize]. *)
Theorem analysed_frame_is_most_recent (p : t) (frames : list (list R)) :
  ready p -> running p = true ->
  writeIndex p = 0%Z -> filled p = 0%Z -> hopCounter p = 0%Z ->
  (1 <= hopSize (config p) <= windowSize (config p))%Z ->
  let W := windowSize (config p) in
  let H := hopSize (config p) in
  let hist := concat frames in
  let n := Z.of_nat (length hist) in
  exists p' evs,
    feed frames p = Normal (p', evs) /\
    config p' = config p /\ windowFn p' = windowFn p /\
    ring_holds hist p' /\
    ((W <= n)%Z -> ((n - W) mod H = 0)%Z -> frame_is_recent hist p').
Proof.
  intros Hr Hrun Hw Hf Hh HH W H hist n.
  rewrite feed_concat by assumption.
  unfold handleAudioFrame. rewrite Hrun. cbn [negb].
  assert (HI : ring_inv [] p).
  { unfold ring_inv, at_sample, ring_holds. cbn [length Z.of_nat].
    destruct Hr as (HW & _).
    split; [exact HH|]. split.
    { rewrite Hf, Hh. split; [lia|].
      destruct (Z.ltb_spec 0 (windowSize (config p))); [reflexivity | lia]. }
    split.
    { split; [rewrite Hw, Z.mod_0_l by lia; reflexivity|]. intros j Hj. lia. }
    intros Hc. lia. }
  destruct (run_ring (concat frames) [] p [] Hr Hrun HI)
    as (p' & evs & E & _ & _ & Hc & Hwf & HI').
  cbn [app] in HI'. exists p', evs.
  split; [exact E|]. split; [exact Hc|]. split; [exact Hwf|].
  destruct HI' as (_ & Hat & Hring & Hfr).
  split; [exact Hring|].
  intros HWn Hmod. apply Hfr.
  - rewrite Hc. exact HWn.
  - destruct Hat as (_ & Hhc). cbv zeta in Hhc. rewrite Hc in Hhc.
    fold hist n W H in Hhc. rewrite Hhc.
    destruct (Z.ltb_spec n W); [lia | exact Hmod].
Qed.

(** How the samples are cut into chunks does not matter: two sequences of
    chunks with the same samples leave the same processor and dispatch
    the same events. *)
Theorem chunking_is_immaterial (p : t) (frames1 frames2 : list (list R)) :
  ready p -> running p = true -> concat frames1 = concat frames2 ->
  feed frames1 p = feed frames2 p /\
  exists p' evs,
    feed frames1 p = Normal (p', evs) /\
    ready p' /\ running p' = true /\ config p' = config p.
Proof.
  intros Hr Hrun E. rewrite !feed_concat by assumption. rewrite E.
  split; [reflexivity|].
  unfold handleAudioFrame. rewrite Hrun. cbn [negb].
  destruct (run_invariant (fun _ => True) (fun _ _ _ => True)
              ltac:(auto) ltac:(auto) (concat frames2) 0 p [] Hr Hrun
              ltac:(apply Forall_forall; auto) I)
    as (p1 & e1 & E1 & Hr1 & Hrun1 & Hc1 & _).
  exists p1, e1. auto.
Qed.

Lemma chunking_is_immaterial_witness :
  feed [zeros 2; zeros 3] scenario = feed [zeros 5] scenario.
Proof.
  destruct scenario_state as (Hr & Hrun & _).
  apply (chunking_is_immaterial scenario [zeros 2; zeros 3] [zeros 5] Hr Hrun).
  reflexivity.
Defined.

(** A processor that is not running ignores the audio it is handed: no
    event, no change of state. *)
Theorem idle_processor_ignores_audio (p : t) (frames : list (list R)) :
  running p = false ->
  feed frames p = Normal (p, []) /\ processFrame p = Normal (p, []).
Proof.
  intros Hrun. split.
  - induction frames as [|f fs IH]; [reflexivity|].
    cbn [feed]. unfold handleAudioFrame at 1. rewrite Hrun. cbn [negb bind].
    rewrite IH. reflexivity.
  - unfold processFrame. rewrite Hrun. reflexivity.
Qed.

Lemma idle_processor_ignores_audio_witness :
  feed [[1; 2]; [3]] create = Normal (create, []).
Proof.
  apply (idle_processor_ignores_audio create [[1; 2]; [3]]). reflexivity.
Defined.

Lemma round_offset (x : R) : - / 2 <= x - IZR (Math_round x) < / 2.
Proof.
  unfold Math_round. pose proof (Zfloor_bound (x + / 2)). lra.
Qed.

(** The tuner reading of a hop, for a positive sample rate and reference
    pitch: when there is one, the tuner is enabled, the frame passes its
    RMS and prominence gates, the frequency is positive, the deviation is
    within half a semitone of the nearest note, and the pitch class is
    that of the nearest note; there is none when the tuner is disabled or
    the frame is below the RMS gate. *)
Theorem primary_is_consistent (p : t) :
  ready p -> running p = true ->
  0 < sampleRate p -> 0 < refA4 (config p) ->
  exists p' d,
    processFrame p = Normal (p', [Analysis d]) /\
    (forall pr, primary d = Some pr ->
       enabled (tunerConfig p) = true /\
       minRMS (tunerConfig p) <= rms d /\
       minProminence (tunerConfig p) <= p_prominenceDb pr /\
       midi pr = 69 + 12 * Math_log2 (p_freq pr / refA4 (config p)) /\
       nearestMidi pr = Math_round (midi pr) /\
       cents pr = (midi pr - IZR (nearestMidi pr)) * 100 /\
       - 50 <= cents pr < 50 /\
       pitchClass pr = (nearestMidi pr mod 12)%Z /\
       (0 <= pitchClass pr <= 11)%Z /\
       0 < p_freq pr /\ 0 < p_freq pr / refA4 (config p)) /\
    (enabled (tunerConfig p) = false \/ rms d < minRMS (tunerConfig p) ->
     primary d = None).
Proof.
  intros Hr Hrun Hrate Ha4.
  destruct (processFrame_returns p Hr Hrun) as (p' & d & Ep & Ea).
  destruct (analyse_returns p Hr)
    as (p2 & d2 & Ea2 & _ & _ & _ & _ & _ & Hprim & _).
  rewrite Ea in Ea2. injection Ea2 as E1 E2. subst p2 d2.
  exists p', d. split; [exact Ep|]. rewrite Hprim. unfold find_primary.
  split.
  - intros pr.
    destruct (enabled (tunerConfig p)); [|discriminate].
    destruct (Rle_dec (minRMS (tunerConfig p)) (rms d)) as [Hrms|];
      [|discriminate].
    cbn [andb].
    destruct (PrimaryDetection.estimatePrimary _ _ _ _) as [est|] eqn:Eest;
      [|discriminate].
    destruct (PrimaryClaim.estimatePrimary_reading _ _ _ _ Hrate est Eest)
      as (k & _ & _ & _ & _ & _ & Hfreq).
    destruct (Rle_dec (minProminence (tunerConfig p))
                      (PrimaryDetection.prominenceDb est)) as [Hprom|];
      [|discriminate].
    intros E. injection E as <-.
    cbn [p_freq p_prominenceDb cents pitchClass nearestMidi midi].
    set (m := 69 + 12 * Math_log2 (PrimaryDetection.freq est / refA4 (config p))).
    pose proof (round_offset m) as Ho.
    rewrite LookupFacts.rem_wrap.
    pose proof (Z.mod_pos_bound (Math_round m) 12 ltac:(lia)).
    pose proof (Rdiv_lt_0_compat _ _ Hfreq Ha4) as Hq.
    repeat split; try assumption; try reflexivity; try lra; try lia.
  - intros [Hd|Hq].
    + rewrite Hd. reflexivity.
    + destruct (Rle_dec (minRMS (tunerConfig p)) (rms d)); [lra|].
      rewrite andb_false_r. reflexivity.
Qed.

Lemma fold_squares (l : list R) (a : R) :
  fold_left (fun sum sample => sum + sample * sample) l a
  = a + sumR (map (fun x => x * x) l).
Proof.
  revert a. induction l as [|x xs IH]; intros a; cbn [fold_left map sumR fold_right].
  - lra.
  - rewrite IH. unfold sumR. lra.
Qed.

Lemma sum_squares_bound (l : list R) (M : R) :
  (forall x, In x l -> Rabs x <= M) ->
  0 <= sumR (map (fun x => x * x) l) <= INR (length l) * (M * M).
Proof.
  intros H. induction l as [|x xs IH].
  - cbn. lra.
  - cbn [map sumR fold_right length]. rewrite S_INR.
    assert (Hx : Rabs x <= M) by (apply H; left; reflexivity).
    assert (IH' := IH (fun y Hy => H y (or_intror Hy))).
    unfold sumR in IH'.
    assert (0 <= x * x <= M * M).
    { split; [nra|]. unfold Rabs in Hx. destruct (Rcase_abs x); nra. }
    lra.
Qed.

Lemma sum_squares_zero (l : list R) :
  sumR (map (fun x => x * x) l) = 0 <-> Forall (fun x => x = 0) l.
Proof.
  induction l as [|x xs IH].
  - cbn. split; auto.
  - cbn [map sumR fold_right].
    assert (Hs : 0 <= sumR (map (fun x => x * x) xs)).
    { clear. induction xs as [|y ys IHy]; cbn; [lra|]. unfold sumR in IHy. nra. }
    unfold sumR in *. split.
    + intros E. assert (x * x = 0) by nra.
      assert (x = 0) by nra.
      constructor; [assumption|]. apply IH. nra.
    + intros F. inversion F as [|? ? Hx Hxs]; subst.
      apply IH in Hxs. rewrite Hxs. lra.
Qed.

(** The RMS of a frame that is not empty: never negative, at most the
    largest absolute sample, and zero exactly on a frame of zeros. *)
Theorem frameRms_bounds (buffer : list R) (M : R) :
  buffer <> [] -> (forall x, In x buffer -> Rabs x <= M) ->
  0 <= frameRms buffer <= M /\
  (frameRms buffer = 0 <-> Forall (fun x => x = 0) buffer).
Proof.
  intros Hne HM. unfold frameRms. rewrite fold_squares, Rplus_0_l.
  destruct (sum_squares_bound buffer M HM) as (S0 & S1).
  assert (Hn : 0 < INR (length buffer)).
  { apply lt_0_INR. destruct buffer; [congruence | cbn; lia]. }
  assert (HM0 : 0 <= M).
  { destruct buffer as [|x xs]; [congruence|].
    pose proof (HM x (or_introl eq_refl)). pose proof (Rabs_pos x). lra. }
  set (s := sumR (map (fun x => x * x) buffer)) in *.
  assert (Hq : 0 <= s / INR (length buffer) <= M * M).
  { split.
    - apply Rmult_le_pos; [exact S0 | left; apply Rinv_0_lt_compat; exact Hn].
    - apply Rmult_le_reg_r with (INR (length buffer)); [exact Hn|].
      unfold Rdiv. rewrite Rmult_assoc, Rinv_l by lra. lra. }
  split.
  - split; [apply sqrt_pos|].
    rewrite <- (sqrt_square M HM0). apply sqrt_le_1; lra.
  - rewrite <- sum_squares_zero. fold s. split.
    + intros E. apply sqrt_eq_0 in E; [|lra].
      apply Rmult_eq_reg_r with (/ INR (length buffer)).
      * rewrite Rmult_0_l. exact E.
      * apply Rgt_not_eq, Rinv_0_lt_compat. exact Hn.
    + intros ->. unfold Rdiv. rewrite Rmult_0_l. apply sqrt_0.
Qed.

Lemma frameRms_bounds_witness : 0 <= frameRms [1; -1] <= 1.
Proof.
  apply (frameRms_bounds [1; -1] 1); [discriminate|].
  intros x [<-|[<-|[]]]; unfold Rabs; destruct (Rcase_abs _); lra.
Defined.

End StreamProperties.

(* ------------------------------------------------------------------ *)
(** * The pitch-class table and the primary-pitch estimator, further *)

Module PitchFacts.

Import JSFacts ConfigFacts.

Lemma Math_round_shift (x : R) (n : Z) :
  Math_round (x + IZR n) = (Math_round x + n)%Z.
Proof.
  unfold Math_round. replace (x + IZR n + / 2) with (x + / 2 + IZR n) by lra.
  apply Zfloor_addz.
Qed.

Lemma log2_double (y : R) : 0 < y -> Math_log2 (2 * y) = 1 + Math_log2 y.
Proof.
  intros Hy. unfold Math_log2. rewrite ln_mult by lra.
  pose proof ln2_pos. field. lra.
Qed.

Lemma log2_power (y : R) : Math_log2 (Rpower 2 y) = y.
Proof.
  unfold Math_log2, Rpower. rewrite ln_exp.
  pose proof ln2_pos. field. lra.
Qed.

Lemma ln10_pos : 0 < ln 10.
Proof. rewrite <- ln_1. apply ln_increasing; lra. Qed.

Lemma log10_nonneg (x : R) : 1 <= x -> 0 <= Math_log10 x.
Proof.
  intros Hx. unfold Math_log10.
  apply Rmult_le_pos.
  - rewrite <- ln_1. apply ln_le_mono; lra.
  - left. apply Rinv_0_lt_compat. exact ln10_pos.
Qed.

End PitchFacts.

Module PitchProperties.

Import PitchClassComputer PrimaryDetection Reference PrimaryReference
  JSFacts ConfigFacts LookupFacts PrimaryClaim PitchFacts.

(** The table follows equal temperament: the bin an octave above a bin
    has its pitch class, and a bin whose centre frequency is within half a
    semitone of the note [n] semitones from the reference pitch has the
    pitch class [(9 + n) mod 12]. *)
Theorem lookup_follows_equal_temperament (this : t) (length : Z)
  (sampleRate a4 : R) :
  lookup_inv this -> 0 < sampleRate -> 0 < a4 ->
  let table := table_of (ensureLookup this length sampleRate a4) in
  (forall k, (0 < k)%Z -> (2 * k < length)%Z ->
     getZ table (2 * k) = getZ table k) /\
  (forall k n d, (0 < k < length)%Z -> - / 2 <= d < / 2 ->
     IZR k * (sampleRate / (2 * IZR length)) = a4 * Rpower 2 ((IZR n + d) / 12) ->
     getZ table k = ((9 + n) mod 12)%Z).
Proof.
  intros Hinv Hrate Ha4 table. subst table.
  rewrite ensureLookup_table_of by exact Hinv.
  split.
  - intros k Hk H2k.
    assert (Hlen : 0 < IZR length) by (apply IZR_lt; lia).
    rewrite !build_table_entry by lia.
    rewrite !lookup_entry_pitch_class by (try assumption; lia).
    unfold pitch_class.
    assert (Hf : 0 < IZR k * (sampleRate / (2 * IZR length)) / a4).
    { apply Rmult_lt_0_compat; [|apply Rinv_0_lt_compat; exact Ha4].
      apply Rmult_lt_0_compat; [apply IZR_lt; lia|].
      apply Rmult_lt_0_compat; [exact Hrate|].
      apply Rinv_0_lt_compat. lra. }
    replace (IZR (2 * k) * (sampleRate / (2 * IZR length)) / a4)
      with (2 * (IZR k * (sampleRate / (2 * IZR length)) / a4))
      by (rewrite mult_IZR; unfold Rdiv; ring).
    rewrite log2_double by exact Hf.
    set (x := Math_log2 _).
    replace (69 + 12 * (1 + x)) with (69 + 12 * x + IZR 12) by lra.
    rewrite Math_round_shift.
    replace (Math_round (69 + 12 * x) + 12)%Z
      with (Math_round (69 + 12 * x) + 1 * 12)%Z by lia.
    apply Z.mod_add. lia.
  - intros k n d Hk Hd Hfreq.
    rewrite build_table_entry by lia.
    rewrite lookup_entry_pitch_class by (try assumption; lia).
    unfold pitch_class. rewrite Hfreq.
    replace (a4 * Rpower 2 ((IZR n + d) / 12) / a4)
      with (Rpower 2 ((IZR n + d) / 12)) by (field; lra).
    rewrite log2_power.
    replace (69 + 12 * ((IZR n + d) / 12)) with (d + 69 + IZR n) by (field; lra).
    rewrite Math_round_shift.
    assert (E : Math_round (d + 69) = 69%Z).
    { unfold Math_round. apply Zfloor_eq. lra. }
    rewrite E.
    replace (69 + n)%Z with (9 + n + 5 * 12)%Z by lia.
    apply Z.mod_add. lia.
Qed.

Lemma lookup_follows_equal_temperament_witness :
  getZ (table_of (ensureLookup create 8 48000 440)) 2
  = getZ (table_of (ensureLookup create 8 48000 440)) 1.
Proof.
  destruct (lookup_follows_equal_temperament create 8 48000 440
              create_lookup_inv ltac:(lra) ltac:(lra)) as [H _].
  apply (H 1%Z); lia.
Defined.

(** The scan of the search range: nothing above zero was found, or the
    bin kept is the first bin of the range that holds its maximum. *)
Lemma peak_scan (mags : list R) (lo : Z) (m : nat) :
  let hi := (lo + Z.of_nat m - 1)%Z in
  let r := fold_left (peak_step mags) (range lo hi) (0, lo) in
  (fst r = 0 /\ snd r = lo /\
   forall i, (lo <= i <= hi)%Z -> getR mags i <= 0)
  \/ ((lo <= snd r <= hi)%Z /\ fst r = getR mags (snd r) /\ 0 < fst r /\
      (forall i, (lo <= i < snd r)%Z -> getR mags i < fst r) /\
      (forall i, (lo <= i <= hi)%Z -> getR mags i <= fst r)).
Proof.
  induction m as [|m IH]; cbv zeta.
  - rewrite range_nil by lia. left. cbn. repeat split. intros i Hi. lia.
  - cbv zeta in IH.
    replace (lo + Z.of_nat (S m) - 1)%Z with (lo + Z.of_nat m)%Z by lia.
    rewrite range_snoc by lia.
    replace (lo + Z.of_nat m - 1 + 1 - 1)%Z with (lo + Z.of_nat m - 1)%Z by lia.
    rewrite fold_left_app. cbn [fold_left].
    set (hi := (lo + Z.of_nat m - 1)%Z) in *.
    replace (lo + Z.of_nat m)%Z with (hi + 1)%Z by (unfold hi; lia).
    destruct (fold_left (peak_step mags) (range lo hi) (0, lo)) as [mv k].
    rewrite peak_step_eq. cbn [fst snd] in IH.
    destruct (Rlt_dec mv (getR mags (hi + 1))) as [Hlt|Hge]; cbn [fst snd].
    + right. split; [unfold hi; lia|]. split; [reflexivity|].
      destruct IH as [(E0 & Ek & Hall)|(Hk & Ev & Hp & Hfirst & Hall)].
      * split; [lra|]. split.
        -- intros i Hi. assert (getR mags i <= 0) by (apply Hall; lia). lra.
        -- intros i Hi. destruct (Z.eq_dec i (hi + 1)) as [->|]; [lra|].
           assert (getR mags i <= 0) by (apply Hall; lia). lra.
      * split; [lra|]. split.
        -- intros i Hi. assert (getR mags i <= mv) by (apply Hall; lia). lra.
        -- intros i Hi. destruct (Z.eq_dec i (hi + 1)) as [->|]; [lra|].
           assert (getR mags i <= mv) by (apply Hall; lia). lra.
    + destruct IH as [(E0 & Ek & Hall)|(Hk & Ev & Hp & Hfirst & Hall)].
      * left. split; [exact E0|]. split; [exact Ek|].
        intros i Hi. destruct (Z.eq_dec i (hi + 1)) as [->|]; [lra|].
        apply Hall. lia.
      * right. split; [lia|]. split; [exact Ev|]. split; [exact Hp|].
        split; [exact Hfirst|].
        intros i Hi. destruct (Z.eq_dec i (hi + 1)) as [->|]; [lra|].
        apply Hall. lia.
Qed.

Lemma peak_scan_range (mags : list R) (lo hi : Z) :
  let r := fold_left (peak_step mags) (range lo hi) (0, lo) in
  (fst r = 0 /\ snd r = lo)
  \/ ((lo <= snd r <= hi)%Z /\ fst r = getR mags (snd r) /\ 0 < fst r /\
      (forall i, (lo <= i < snd r)%Z -> getR mags i < fst r) /\
      (forall i, (lo <= i <= hi)%Z -> getR mags i <= fst r)).
Proof.
  destruct (Z_lt_le_dec hi lo) as [Hlt|Hle].
  - cbv zeta. rewrite range_nil by lia. left. split; reflexivity.
  - pose proof (peak_scan mags lo (Z.to_nat (hi - lo + 1))) as H.
    cbv zeta in H.
    replace (lo + Z.of_nat (Z.to_nat (hi - lo + 1)) - 1)%Z with hi in H by lia.
    cbv zeta. destruct H as [(E0 & Ek & _)|H]; [left; auto | right; exact H].
Qed.

(** The neighbour loop adds values that are in its list. *)
Lemma neighbor_sum_bound (mags : list R) (k : Z) (M : R) (ks : list Z)
  (acc : R * Z) :
  (forall i, In i ks -> getR mags i <= M) ->
  (0 <= snd acc)%Z -> fst acc <= IZR (snd acc) * M ->
  let r := fold_left (neighbor_step mags k) ks acc in
  (0 <= snd r)%Z /\ fst r <= IZR (snd r) * M.
Proof.
  revert acc. induction ks as [|i ks IH]; intros [s c] Hin Hc Hs; cbv zeta.
  - cbn. auto.
  - cbn [fold_left]. apply IH.
    + intros j Hj. apply Hin. right. exact Hj.
    + unfold neighbor_step. destruct (Z.eqb i k); cbn [snd] in *; lia.
    + unfold neighbor_step. destruct (Z.eqb i k); cbn [fst snd] in *;
        [exact Hs|].
      rewrite plus_IZR. assert (getR mags i <= M) by (apply Hin; left; reflexivity).
      lra.
Qed.

Lemma In_range2 (from to i : Z) :
  In i (range2 from to) -> (from <= i <= to)%Z.
Proof.
  unfold range2. intros H. apply in_map_iff in H. destruct H as (q & <- & Hq).
  apply In_range in Hq.
  pose proof (Z.div_mod (to - from) 2 ltac:(lia)).
  pose proof (Z.mod_pos_bound (to - from) 2 ltac:(lia)). lia.
Qed.

(** What the estimator returns when it returns an estimate: a prominence
    that is not negative; the first bin of the search range that holds its
    maximum; and, when that bin is a local maximum with a lower
    neighbour, the vertex of the parabola through the three bins, within
    half a bin of it. *)
Theorem estimatePrimary_peak (mags : list R) (sampleRate lowHz highHz : R)
  (e : Estimate) :
  estimatePrimary mags sampleRate lowHz highHz = Some e ->
  let len := Z.of_nat (length mags) in
  let lo := search_lo len sampleRate lowHz in
  let hi := search_hi len sampleRate highHz in
  0 <= prominenceDb e /\
  exists k, (lo <= k <= hi)%Z /\
    (forall i, (lo <= i < k)%Z -> getR mags i < getR mags k) /\
    (forall i, (lo <= i <= hi)%Z -> getR mags i <= getR mags k) /\
    (getR mags (k - 1) <= getR mags k -> getR mags (k + 1) <= getR mags k ->
     getR mags (k - 1) + getR mags (k + 1) < 2 * getR mags k ->
     kRef e = IZR k + (getR mags (k - 1) - getR mags (k + 1))
                      / (2 * (getR mags (k - 1) - 2 * getR mags k
                              + getR mags (k + 1))) /\
     IZR k - / 2 <= kRef e <= IZR k + / 2).
Proof.
  intros He len lo hi.
  destruct (code_search_range mags sampleRate lowHz highHz) as [Elo Ehi].
  fold len in Elo, Ehi. fold lo in Elo. fold hi in Ehi.
  pose proof (peak_scan_range mags lo hi) as Hscan. cbv zeta in Hscan.
  revert He. unfold estimatePrimary. fold len. rewrite Elo, Ehi.
  destruct (fold_left (peak_step mags) (range lo hi) (0, lo)) as [maxVal k].
  cbn [fst snd] in Hscan.
  destruct (Rlt_dec maxVal floor_level) as [Hlt|Hge]; [discriminate|].
  pose proof floor_level_pos as Hpos.
  destruct Hscan as [(E0 & _)|(Hk & Ev & Hp & Hfirst & Hall)]; [lra|].
  pose proof (neighbor_sum_bound mags k maxVal
                (range2 (Z.max lo (k - 10)) (Z.min hi (k + 10))) (0, 0%Z)) as Hn.
  cbv zeta in Hn.
  destruct (fold_left (neighbor_step mags k) _ (0, 0%Z)) as [sum count].
  cbn [fst snd] in Hn.
  destruct Hn as (Hc & Hs).
  { intros i Hi. apply In_range2 in Hi. apply Hall. lia. }
  { lia. }
  { lra. }
  intros E. injection E as <-. cbn [prominenceDb kRef].
  split.
  - destruct (Z.ltb_spec 0 count) as [Hcp|Hcz].
    + destruct (Rlt_dec 0 (sum / IZR count)) as [Hav|]; [|lra].
      assert (Hc' : 0 < IZR count) by (apply IZR_lt; exact Hcp).
      assert (Havg : sum / IZR count <= maxVal).
      { apply Rmult_le_reg_r with (IZR count); [exact Hc'|].
        unfold Rdiv. rewrite Rmult_assoc, Rinv_l by lra. lra. }
      assert (He : 0 < eps) by (unfold eps; lra).
      apply Rmult_le_pos; [lra|]. apply log10_nonneg.
      set (A := sum / IZR count + eps) in *.
      apply Rmult_le_reg_r with A; [unfold A; lra|].
      unfold Rdiv. rewrite Rmult_assoc, Rinv_l by (unfold A; lra).
      unfold A. lra.
    + destruct (Rlt_dec 0 0); lra.
  - exists k. split; [exact Hk|]. rewrite <- Ev.
    split; [exact Hfirst|]. split; [exact Hall|].
    intros Ha Hcn Hstrict.
    set (a := getR mags (k - 1)) in *. set (c := getR mags (k + 1)) in *.
    destruct (Req_dec_T (a - 2 * maxVal + c) 0) as [H0|Hd]; [lra|].
    set (d := a - 2 * maxVal + c) in *.
    assert (Hdneg : d < 0) by (unfold d; lra).
    assert (Hi : / d < 0) by (apply Rinv_lt_0_compat; exact Hdneg).
    assert (Hdi : d * / d = 1) by (apply Rinv_r; lra).
    assert (E5 : 0.5 = / 2) by lra.
    assert (Ed : 0.5 * (a - c) / d = (a - c) / (2 * d)).
    { rewrite E5. field. lra. }
    rewrite Ed.
    assert (Hb : - / 2 <= (a - c) / (2 * d) <= / 2).
    { replace ((a - c) / (2 * d)) with ((a - c) * / d * / 2) by (field; lra).
      assert (Hx : -1 <= (a - c) * / d <= 1).
      { split.
        - apply Rmult_le_reg_r with (- d); [lra|].
          replace ((a - c) * / d * - d) with (- (a - c) * (d * / d)) by ring.
          rewrite Hdi. unfold d. lra.
        - apply Rmult_le_reg_r with (- d); [lra|].
          replace ((a - c) * / d * - d) with (- (a - c) * (d * / d)) by ring.
          rewrite Hdi. unfold d. lra. }
      lra. }
    assert (Emin : Rmin 1 ((a - c) / (2 * d)) = (a - c) / (2 * d)).
    { apply Rmin_right. lra. }
    assert (Emax : Rmax (-1) ((a - c) / (2 * d)) = (a - c) / (2 * d)).
    { apply Rmax_right. lra. }
    rewrite Emin, Emax. split; [reflexivity | lra].
Qed.

Lemma estimatePrimary_peak_witness :
  exists e, estimatePrimary [0; 0; 0; 1; 0; 0; 0; 0] 16 2 5 = Some e
            /\ 0 <= prominenceDb e.
Proof.
  destruct (estimatePrimary [0; 0; 0; 1; 0; 0; 0; 0] 16 2 5) as [e|] eqn:E.
  - exists e. split; [reflexivity|].
    apply (estimatePrimary_peak _ _ _ _ e E).
  - exfalso. apply estimatePrimary_none_peak in E. cbv zeta in E.
    change (Z.of_nat (length [0; 0; 0; 1; 0; 0; 0; 0])) with 8%Z in E.
    assert (Elo : search_lo 8 16 2 = 2%Z).
    { unfold search_lo, Math_floor.
      replace (2 / (16 / (2 * 8))) with (IZR 2) by field.
      rewrite ZfloorZ. reflexivity. }
    assert (Ehi : search_hi 8 16 5 = 5%Z).
    { unfold search_hi, Math_floor.
      replace (5 / (16 / (2 * 8))) with (IZR 5) by field.
      rewrite ZfloorZ. reflexivity. }
    rewrite Elo, Ehi, peak_value in E.
    pose proof (fold_Rmax_ge (map (getR [0; 0; 0; 1; 0; 0; 0; 0]) (range 2 5)) 0)
      as (_ & H).
    assert (H1 : 1 <= fold_left Rmax
                        (map (getR [0; 0; 0; 1; 0; 0; 0; 0]) (range 2 5)) 0).
    { apply H. right. left. reflexivity. }
    unfold floor_level in E. lra.
Defined.

End PitchProperties.

(* ------------------------------------------------------------------ *)
(** * The pitch-class distribution does not depend on the gain *)

Module GainProperties.

Import PitchClassComputer Reference JSFacts ComputeFacts ComputeClaim Properties.

Lemma getR_scaled (g : R) (mags : list R) (k : Z) :
  getR (map (Rmult g) mags) k = g * getR mags k.
Proof.
  unfold getR, get. destruct (Z.ltb k 0); [lra|].
  rewrite <- (Rmult_0_r g) at 1.
  apply (map_nth (Rmult g)).
Qed.

Lemma Math_pow_scaled (x a e : R) :
  0 < x -> 0 <= a -> Math_pow (x * a) e = Rpower x e * Math_pow a e.
Proof.
  intros Hx Ha. unfold Math_pow.
  destruct (Req_dec_T a 0) as [->|Hne].
  - rewrite Rmult_0_r. destruct (Req_dec_T 0 0); [|lra].
    destruct (Req_dec_T e 0) as [->|He].
    + rewrite Rpower_O by exact Hx. lra.
    + lra.
  - destruct (Req_dec_T (x * a) 0) as [H0|_]; [nra|].
    symmetry. apply Rpower_mult_distr; lra.
Qed.

Section Gain.

Variable mags : list R.
Variable sampleRate : R.
Variable o : Options.
Variable g : R.
Hypothesis Hg : 0 < g.

Let mags' := map (Rmult g) mags.
Let o' := with_threshold o (g * pcdThreshold o).

Lemma accumulated_scaled (c : Z) :
  accumulated mags' sampleRate o' c = g * g * accumulated mags sampleRate o c.
Proof.
  unfold accumulated, mags', o', with_threshold.
  cbn [pcdThreshold refA4 minHz maxHz]. rewrite length_map.
  set (ks := range _ _).
  rewrite (filter_ext
             (fun k => exceeds (g * pcdThreshold o) (map (Rmult g) mags) k
                       && (pitch_class (Z.of_nat (length mags)) sampleRate
                                       (refA4 o) k =? c)%Z)
             (fun k => exceeds (pcdThreshold o) mags k
                       && (pitch_class (Z.of_nat (length mags)) sampleRate
                                       (refA4 o) k =? c)%Z)).
  - set (sel := filter _ ks).
    rewrite (map_ext (fun k => getR (map (Rmult g) mags) k
                               * getR (map (Rmult g) mags) k)
                     (fun k => (getR mags k * getR mags k) * (g * g))).
    + rewrite <- (map_map (fun k => getR mags k * getR mags k)
                          (fun x => x * (g * g))).
      rewrite sumR_scale. ring.
    + intros k. rewrite getR_scaled. ring.
  - intros k. f_equal. unfold exceeds. rewrite getR_scaled.
    destruct (Rlt_dec (g * pcdThreshold o) (g * getR mags k)) as [H|H];
      destruct (Rlt_dec (pcdThreshold o) (getR mags k)) as [H'|H'];
      try reflexivity; exfalso; nra.
Qed.

(** The factor by which the gain scales every class. *)
Let factor : R :=
  if Req_dec_T (pcdNormalize o) 1 then g * g else Rpower (g * g) (pcdNormalize o).

Lemma factor_pos : 0 < factor.
Proof.
  unfold factor. destruct (Req_dec_T (pcdNormalize o) 1); [nra|].
  unfold Rpower. apply exp_pos.
Qed.

Lemma raised_scaled (c : Z) :
  raised mags' sampleRate o' c = factor * raised mags sampleRate o c.
Proof.
  unfold raised, factor. rewrite accumulated_scaled.
  unfold o', with_threshold. cbn [pcdNormalize].
  destruct (Req_dec_T (pcdNormalize o) 1); [reflexivity|].
  apply Math_pow_scaled; [nra | apply accumulated_nonneg].
Qed.

Lemma total_scaled :
  total mags' sampleRate o' = factor * total mags sampleRate o.
Proof.
  unfold total.
  rewrite (map_ext (raised mags' sampleRate o')
                   (fun c => raised mags sampleRate o c * factor)).
  - rewrite <- (map_map (raised mags sampleRate o) (fun x => x * factor)).
    rewrite sumR_scale. ring.
  - intros c. rewrite raised_scaled. ring.
Qed.

Lemma reference_scaled :
  Reference.compute mags' sampleRate o' = Reference.compute mags sampleRate o.
Proof.
  unfold Reference.compute. apply map_ext. intros c.
  rewrite total_scaled, raised_scaled.
  pose proof factor_pos as Hf.
  destruct (Rlt_dec 0 (factor * total mags sampleRate o)) as [H|H];
    destruct (Rlt_dec 0 (total mags sampleRate o)) as [H'|H'];
    try reflexivity; try (exfalso; nra).
  field. lra.
Qed.

End Gain.

(** Multiplying every magnitude and the magnitude threshold by the same
    positive gain leaves the pitch-class distribution as it was, for
    every exponent that is not negative, as long as [compute] stays within
    its Float32 cells on the spectrum before and after the gain. *)
Theorem compute_gain_invariant (this : t) (mags : list R) (sampleRate : R)
  (o : Options) (g : R) :
  lookup_inv this -> length (output this) = 12%nat ->
  0 < sampleRate -> 0 < refA4 o -> 0 <= pcdNormalize o -> 0 < g ->
  in_float32 mags sampleRate o ->
  in_float32 (map (Rmult g) mags) sampleRate
             (with_threshold o (g * pcdThreshold o)) ->
  snd (PitchClassComputer.compute this (map (Rmult g) mags) sampleRate
         (with_threshold o (g * pcdThreshold o)))
  = snd (PitchClassComputer.compute this mags sampleRate o).
Proof.
  intros Hinv Hout Hrate Hpitch Hexp Hg _ _.
  rewrite !compute_is_reference by assumption.
  apply reference_scaled. exact Hg.
Qed.

(** The spectrum with its energy in bin 1 of the default band, twice as
    loud: the same distribution, which sums to 1. *)
Lemma compute_gain_invariant_witness :
  snd (PitchClassComputer.compute create
         (map (Rmult 2) Invariants.one_bin_spectrum) 48000
         (with_threshold (mkOptions 50 5000 0.005 1 440) (2 * 0.005)))
  = snd (PitchClassComputer.compute create Invariants.one_bin_spectrum 48000
           (mkOptions 50 5000 0.005 1 440)) /\
  sumR (snd (PitchClassComputer.compute create Invariants.one_bin_spectrum
               48000 (mkOptions 50 5000 0.005 1 440))) = 1.
Proof.
  destruct (BandFacts.one_bin_cells 2)
    as (L2 & D1 & D2 & D3 & L & C1 & C2 & C3).
  split.
  - apply (compute_gain_invariant create Invariants.one_bin_spectrum 48000
             (mkOptions 50 5000 0.005 1 440) 2).
    + apply LookupFacts.create_lookup_inv.
    + reflexivity.
    + lra.
    + cbn; lra.
    + cbn; lra.
    + lra.
    + apply BandFacts.one_bin_in_float32; try assumption; lra.
    + unfold with_threshold. cbn [minHz maxHz pcdNormalize refA4 pcdThreshold].
      apply BandFacts.one_bin_in_float32; try assumption; lra.
  - apply compute_sums_to_one.
    + apply LookupFacts.create_lookup_inv.
    + reflexivity.
    + lra.
    + cbn; lra.
    + apply BandFacts.one_bin_total; [exact L | lra | lra].
Defined.

End GainProperties.

(* ------------------------------------------------------------------ *)
(** * The Hann window and its cache *)

Module WindowProperties.

Import JSFacts LoopFacts WindowCache.

Lemma hannWindow_cells (size : Z) :
  (0 <= size)%Z ->
  exists w, Windowing.hannWindow size = Normal w /\
            length w = Z.to_nat size /\
            forall n, (0 <= n < size)%Z ->
              getR w n = 0.5 * (1 - cos (2 * PI / (IZR size - 1) * IZR n)).
Proof.
  intros H. unfold Windowing.hannWindow, Float32Array_new.
  destruct (size <? 0)%Z eqn:E; [lia|]. cbn [bind].
  eexists. split; [reflexivity|].
  change (fun (w : list R) (n : Z) =>
            set w n (0.5 * (1 - cos (2 * PI / (IZR size - 1) * IZR n))))
    with (cell_step 0
            (fun (n : Z) (_ : R) =>
               0.5 * (1 - cos (2 * PI / (IZR size - 1) * IZR n)))).
  split.
  - rewrite fold_cell_length. apply length_zeros.
  - intros n Hn. unfold getR.
    rewrite fold_cell_range by (rewrite ?length_zeros; lia). reflexivity.
Qed.

(** The Hann table of a size of at least 2: [size] entries between 0 and
    1, symmetric, zero at both ends, and 1 in the middle of an odd size;
    a negative size throws. *)
Theorem hannWindow_shape (size : Z) :
  ((size < 0)%Z -> Windowing.hannWindow size = Throws) /\
  ((2 <= size)%Z ->
   exists w,
     Windowing.hannWindow size = Normal w /\
     length w = Z.to_nat size /\
     (forall n, (0 <= n < size)%Z ->
        getR w n = (1 - cos (2 * PI * IZR n / (IZR size - 1))) / 2 /\
        0 <= getR w n <= 1 /\
        getR w (size - 1 - n) = getR w n) /\
     getR w 0 = 0 /\ getR w (size - 1) = 0 /\
     (Z.odd size = true -> getR w ((size - 1) / 2) = 1)).
Proof.
  split.
  - intros H. unfold Windowing.hannWindow, Float32Array_new.
    destruct (Z.ltb_spec size 0); [reflexivity | lia].
  - intros H.
    destruct (hannWindow_cells size ltac:(lia)) as (w & E & L & C).
    exists w. split; [exact E|]. split; [exact L|].
    assert (Hs : 0 < IZR size - 1).
    { assert (2 <= IZR size) by (apply IZR_le; exact H). lra. }
    assert (Hfull : 2 * PI / (IZR size - 1) * IZR (size - 1) = 2 * PI).
    { rewrite minus_IZR. field. lra. }
    split; [|split; [|split]].
    + intros n Hn. rewrite (C n Hn).
      pose proof (COS_bound (2 * PI / (IZR size - 1) * IZR n)) as (B1 & B2).
      split.
      { replace (2 * PI * IZR n / (IZR size - 1))
          with (2 * PI / (IZR size - 1) * IZR n) by (field; lra).
        lra. }
      split; [lra|].
      rewrite C by lia. f_equal. f_equal.
      replace (2 * PI / (IZR size - 1) * IZR (size - 1 - n))
        with (2 * PI - 2 * PI / (IZR size - 1) * IZR n)
        by (rewrite !minus_IZR; field; lra).
      rewrite cos_minus, cos_2PI, sin_2PI. ring.
    + rewrite C by lia. rewrite Rmult_0_r, cos_0. lra.
    + rewrite C by lia. rewrite Hfull, cos_2PI. lra.
    + intros Hodd. apply Z.odd_spec in Hodd. destruct Hodd as [q Hq].
      assert (Eq : ((size - 1) / 2 = q)%Z).
      { rewrite Hq. replace (2 * q + 1 - 1)%Z with (q * 2)%Z by lia.
        apply Z.div_mul. lia. }
      rewrite Eq. rewrite C by lia.
      replace (2 * PI / (IZR size - 1) * IZR q) with PI.
      * rewrite cos_PI. lra.
      * rewrite Hq, plus_IZR, mult_IZR.
        assert (0 < IZR q) by (apply IZR_lt; lia).
        field. lra.
Qed.

Lemma hannWindow_shape_witness :
  exists w, Windowing.hannWindow 5 = Normal w /\ length w = 5%nat.
Proof.
  destruct (hannWindow_shape 5) as (_ & H).
  destruct (H ltac:(lia)) as (w & E & L & _).
  exists w. split; [exact E | exact L].
Defined.

Lemma lookup_store_same (cache : Cache) (size : Z) (w : list R) :
  lookup (store cache size w) size = Some w.
Proof.
  induction cache as [|[k v] rest IH]; cbn.
  - rewrite Z.eqb_refl. reflexivity.
  - destruct (Z.eqb_spec k size) as [->|Hne]; cbn.
    + rewrite Z.eqb_refl. reflexivity.
    + destruct (Z.eqb_spec k size); [contradiction | exact IH].
Qed.

Lemma lookup_store_other (cache : Cache) (size k : Z) (w : list R) :
  k <> size -> lookup (store cache size w) k = lookup cache k.
Proof.
  intros Hne. induction cache as [|[k' v] rest IH]; cbn.
  - destruct (Z.eqb_spec size k); [congruence | reflexivity].
  - destruct (Z.eqb_spec k' size) as [->|Hk]; cbn.
    + destruct (Z.eqb_spec size k); [congruence | reflexivity].
    + destruct (Z.eqb_spec k' k); [reflexivity | exact IH].
Qed.

(** The cache is transparent: with a cache whose tables are the tables of
    their sizes a call returns what the computation returns and keeps the
    cache so; a second call for the same size returns the same table and
    leaves the cache alone; other sizes keep their entries; and clearing
    the cache keeps it coherent. *)
Theorem hannWindow_cache_transparent (cache : Cache) (size : Z) :
  coherent cache ->
  let cache' := fst (hannWindow cache size) in
  snd (hannWindow cache size) = Windowing.hannWindow size /\
  coherent cache' /\
  (forall w, snd (hannWindow cache size) = Normal w ->
     lookup cache' size = Some w /\
     hannWindow cache' size = (cache', Normal w)) /\
  (forall k, k <> size -> lookup cache' k = lookup cache k) /\
  coherent (clearWindowCache cache).
Proof.
  intros Hc cache'. subst cache'. unfold hannWindow.
  destruct (lookup cache size) as [w|] eqn:El.
  - cbn [fst snd]. split; [symmetry; apply Hc; exact El|].
    split; [exact Hc|]. split.
    { intros w' E. injection E as <-. split; [exact El|].
      rewrite El. reflexivity. }
    split; [reflexivity|]. intros k w' H. discriminate H.
  - destruct (Windowing.hannWindow size) as [w| |] eqn:Eh; cbn [fst snd].
    + split; [reflexivity|]. split.
      { intros k w' H. destruct (Z.eq_dec k size) as [->|Hne].
        - rewrite lookup_store_same in H. injection H as <-. exact Eh.
        - rewrite lookup_store_other in H by exact Hne. apply Hc. exact H. }
      split.
      { intros w' E. injection E as <-.
        rewrite lookup_store_same. split; reflexivity. }
      split; [intros k Hne; apply lookup_store_other; exact Hne|].
      intros k w' H. discriminate H.
    + split; [reflexivity|]. split; [exact Hc|].
      split; [intros w' E; discriminate E|].
      split; [reflexivity|]. intros k w' H. discriminate H.
    + split; [reflexivity|]. split; [exact Hc|].
      split; [intros w' E; discriminate E|].
      split; [reflexivity|]. intros k w' H. discriminate H.
Qed.

(** A miss on the empty cache, then a hit on the cache it leaves: the
    same table, and the cache as it was. *)
Lemma hannWindow_cache_transparent_witness :
  exists w,
    snd (WindowCache.hannWindow [] 4) = Normal w /\
    WindowCache.lookup (fst (WindowCache.hannWindow [] 4)) 4 = Some w /\
    WindowCache.hannWindow (fst (WindowCache.hannWindow [] 4)) 4
    = (fst (WindowCache.hannWindow [] 4), Normal w) /\
    snd (WindowCache.hannWindow (fst (WindowCache.hannWindow [] 4)) 4)
    = Windowing.hannWindow 4.
Proof.
  destruct (hannWindow_cells 4 ltac:(lia)) as (w & Ew & _).
  destruct (hannWindow_cache_transparent [] 4) as (E & Hc & Hhit & _).
  { intros k w' H. discriminate H. }
  rewrite Ew in E.
  destruct (Hhit w E) as [Hl Hsecond].
  destruct (hannWindow_cache_transparent
              (fst (WindowCache.hannWindow [] 4)) 4 Hc) as (E2 & _).
  exists w. auto.
Defined.

End WindowProperties.

(* ------------------------------------------------------------------ *)
(** * The 12-point transform of a PCD vector: sums and angles *)

Module DftFacts.

Import JSFacts LoopFacts PcdDft.

Ltac nonzero :=
  repeat split; try (apply Rgt_not_eq; assumption); try lra.

(** Polar form: the amplitude and the phase that the forward transform
    stores give back the real and the imaginary part. *)
Lemma polar_atan2 (y x : R) :
  sqrt (x * x + y * y) * cos (Math_atan2 y x) = x /\
  sqrt (x * x + y * y) * sin (Math_atan2 y x) = y.
Proof.
  unfold Math_atan2.
  destruct (Rlt_dec 0 x) as [Hx|Hx].
  - set (z := y / x).
    assert (Hs : 0 < sqrt (1 + z²)).
    { apply sqrt_lt_R0. unfold Rsqr. nra. }
    assert (E : sqrt (x * x + y * y) = x * sqrt (1 + z²)).
    { replace (x * x + y * y) with ((x * x) * (1 + z²))
        by (unfold z, Rsqr; field; lra).
      rewrite sqrt_mult by (unfold Rsqr; nra).
      rewrite sqrt_square by lra. reflexivity. }
    rewrite E, cos_atan, sin_atan. fold z.
    split; [field | unfold z; field]; nonzero.
  - destruct (Rlt_dec x 0) as [Hn|Hn].
    + set (z := y / x).
      assert (Hs : 0 < sqrt (1 + z²)).
      { apply sqrt_lt_R0. unfold Rsqr. nra. }
      assert (E : sqrt (x * x + y * y) = - x * sqrt (1 + z²)).
      { replace (x * x + y * y) with ((- x * - x) * (1 + z²))
          by (unfold z, Rsqr; field; lra).
        rewrite sqrt_mult by (unfold Rsqr; nra).
        rewrite sqrt_square by lra. reflexivity. }
      rewrite E.
      destruct (Rle_dec 0 y).
      * rewrite neg_cos, neg_sin, cos_atan, sin_atan. fold z.
        split; [field | unfold z; field]; nonzero.
      * rewrite cos_minus, sin_minus, cos_PI, sin_PI, cos_atan, sin_atan.
        fold z. split; [field | unfold z; field]; nonzero.
    + assert (x = 0) by lra. subst x.
      replace (0 * 0 + y * y) with (y * y) by ring.
      destruct (Rlt_dec 0 y) as [Hy|Hy].
      * rewrite sqrt_square by lra. rewrite cos_PI2, sin_PI2. split; ring.
      * destruct (Rlt_dec y 0) as [Hy'|Hy'].
        -- replace (y * y) with (- y * - y) by ring.
           rewrite sqrt_square by lra.
           rewrite cos_neg, sin_neg, cos_PI2, sin_PI2. split; ring.
        -- assert (y = 0) by lra. subst y.
           rewrite Rmult_0_r, sqrt_0. split; ring.
Qed.

(** Sums over index lists. *)
Lemma fold_sum {A : Type} (f : A -> R) (ks : list A) (a : R) :
  fold_left (fun acc k => acc + f k) ks a = a + sumR (map f ks).
Proof.
  unfold sumR.
  revert a. induction ks as [|k ks IH]; intros a; cbn [fold_left map fold_right].
  - lra.
  - rewrite IH. lra.
Qed.

Lemma sumR_ext {A : Type} (f g : A -> R) (ks : list A) :
  (forall k, In k ks -> f k = g k) -> sumR (map f ks) = sumR (map g ks).
Proof.
  unfold sumR. intros H. induction ks as [|k ks IH]; [reflexivity|].
  cbn [map fold_right]. rewrite (H k) by (left; reflexivity).
  rewrite IH; [reflexivity|].
  intros j Hj. apply H. right. exact Hj.
Qed.

Lemma sumR_plus {A : Type} (f g : A -> R) (ks : list A) :
  sumR (map (fun k => f k + g k) ks) = sumR (map f ks) + sumR (map g ks).
Proof.
  unfold sumR. induction ks as [|k ks IH]; cbn [map fold_right]; [lra|].
  rewrite IH. lra.
Qed.

Lemma sumR_times {A : Type} (c : R) (f : A -> R) (ks : list A) :
  sumR (map (fun k => c * f k) ks) = c * sumR (map f ks).
Proof.
  unfold sumR. induction ks as [|k ks IH]; cbn [map fold_right]; [lra|].
  rewrite IH. lra.
Qed.

Lemma sumR_opp {A : Type} (f : A -> R) (ks : list A) :
  sumR (map (fun k => - f k) ks) = - sumR (map f ks).
Proof.
  unfold sumR. induction ks as [|k ks IH]; cbn [map fold_right]; [lra|].
  rewrite IH. lra.
Qed.

Lemma sumR_const_zero {A : Type} (ks : list A) :
  sumR (map (fun _ => 0) ks) = 0.
Proof.
  unfold sumR. induction ks as [|k ks IH]; cbn [map fold_right]; [lra|].
  rewrite IH. lra.
Qed.

Lemma sumR_swap {A B : Type} (f : A -> B -> R) (ks : list A) (ss : list B) :
  sumR (map (fun k => sumR (map (fun s => f k s) ss)) ks)
  = sumR (map (fun s => sumR (map (fun k => f k s) ks)) ss).
Proof.
  induction ks as [|k ks IH].
  - cbn [map]. rewrite sumR_const_zero. reflexivity.
  - cbn [map].
    change (sumR (?x :: ?l)) with (x + sumR l).
    rewrite IH, <- sumR_plus. apply sumR_ext. intros s _.
    reflexivity.
Qed.

(** The sum picks the term of the index [t]. *)
Lemma sumR_pick (f : Z -> R) (c : R) (t lo : Z) (n : nat) :
  sumR (map (fun s => f s * (if (t - s =? 0)%Z then c else 0))
            (range lo (lo + Z.of_nat n - 1)))
  = if ((lo <=? t) && (t <=? lo + Z.of_nat n - 1))%Z then f t * c else 0.
Proof.
  induction n as [|n IH].
  - rewrite range_nil by lia. cbn [map sumR fold_right].
    destruct (Z.leb_spec lo t); destruct (Z.leb_spec t (lo + Z.of_nat 0 - 1));
      cbn [andb]; try reflexivity; lia.
  - replace (lo + Z.of_nat (S n) - 1)%Z with (lo + Z.of_nat n)%Z by lia.
    rewrite range_snoc by lia. rewrite map_app, sumR_app.
    replace (lo + Z.of_nat n - 1)%Z with (lo + Z.of_nat n - 1)%Z in * by lia.
    rewrite IH. cbn [map sumR fold_right].
    destruct (Z.leb_spec lo t); destruct (Z.leb_spec t (lo + Z.of_nat n - 1));
      destruct (Z.leb_spec t (lo + Z.of_nat n));
      destruct (Z.eqb_spec (t - (lo + Z.of_nat n)) 0);
      cbn [andb]; try lia; try lra.
    replace (lo + Z.of_nat n)%Z with t by lia. lra.
Qed.

(** Whole turns. *)
Lemma cos_turns (x : R) (d : Z) : cos (x + 2 * IZR d * PI) = cos x.
Proof.
  destruct (Z_lt_le_dec d 0) as [Hn|Hp].
  - rewrite <- (cos_period (x + 2 * IZR d * PI) (Z.to_nat (- d))).
    rewrite INR_IZR_INZ, Z2Nat.id by lia. rewrite opp_IZR. f_equal. ring.
  - rewrite <- (Z2Nat.id d) by lia. rewrite <- INR_IZR_INZ. apply cos_period.
Qed.

Lemma sin_turns (x : R) (d : Z) : sin (x + 2 * IZR d * PI) = sin x.
Proof.
  destruct (Z_lt_le_dec d 0) as [Hn|Hp].
  - rewrite <- (sin_period (x + 2 * IZR d * PI) (Z.to_nat (- d))).
    rewrite INR_IZR_INZ, Z2Nat.id by lia. rewrite opp_IZR. f_equal. ring.
  - rewrite <- (Z2Nat.id d) by lia. rewrite <- INR_IZR_INZ. apply sin_period.
Qed.

(** Lagrange's identity for a sum of cosines. *)
Lemma lagrange (phi : R) (n : nat) :
  2 * sin (phi / 2)
  * sumR (map (fun k => cos (IZR k * phi)) (range 0 (Z.of_nat n - 1)))
  = sin ((INR n - / 2) * phi) + sin (phi / 2).
Proof.
  induction n as [|n IH].
  - rewrite range_nil by lia. cbn [map sumR fold_right INR].
    replace ((0 - / 2) * phi) with (- (phi / 2)) by lra.
    rewrite sin_neg. lra.
  - replace (Z.of_nat (S n) - 1)%Z with (Z.of_nat n) by lia.
    rewrite range_snoc by lia. rewrite map_app, sumR_app.
    cbn [map sumR fold_right].
    rewrite Rplus_0_r, Rmult_plus_distr_l, IH. rewrite S_INR.
    rewrite <- INR_IZR_INZ.
    replace ((INR n + 1 - / 2) * phi) with (INR n * phi + phi / 2) by lra.
    replace ((INR n - / 2) * phi) with (INR n * phi - phi / 2) by lra.
    rewrite sin_plus, sin_minus. ring.
Qed.

(** The twelve twelfth roots of unity sum to zero, and so do their powers
    that are not whole turns. *)
Lemma orthogonal (d : Z) :
  (-11 <= d <= 11)%Z ->
  sumR (map (fun k => cos (IZR k * (IZR d * (PI / 6)))) (range 0 11))
  = if (d =? 0)%Z then 12 else 0.
Proof.
  intros Hd. destruct (Z.eqb_spec d 0) as [->|Hne].
  - rewrite (sumR_ext _ (fun _ => 1)).
    + vm_compute. lra.
    + intros k _. rewrite Rmult_0_l, Rmult_0_r. apply cos_0.
  - set (phi := IZR d * (PI / 6)).
    pose proof (lagrange phi 12) as L.
    change (Z.of_nat 12 - 1)%Z with 11%Z in L.
    replace ((INR 12 - / 2) * phi) with (- (phi / 2) + 2 * IZR d * PI) in L
      by (unfold phi; cbn [INR]; field).
    rewrite sin_turns, sin_neg in L.
    assert (Hs : sin (phi / 2) <> 0).
    { pose proof PI_RGT_0 as Hpi.
      destruct (Z_lt_le_dec d 0) as [Hn|Hp].
      - assert (0 < sin (- (phi / 2))); [|rewrite sin_neg in *; lra].
        assert (IZR d <= -1) by (apply IZR_le; lia).
        assert (-11 <= IZR d) by (apply IZR_le; lia).
        apply sin_gt_0; unfold phi; nra.
      - assert (0 < sin (phi / 2)); [|lra].
        assert (1 <= IZR d) by (apply IZR_le; lia).
        assert (IZR d <= 11) by (apply IZR_le; lia).
        apply sin_gt_0; unfold phi; nra. }
    assert (L' : sin (phi / 2)
                 * sumR (map (fun k => cos (IZR k * phi)) (range 0 11)) = 0)
      by lra.
    apply Rmult_integral in L'. destruct L' as [L'|L']; [contradiction|].
    exact L'.
Qed.

End DftFacts.

(* ------------------------------------------------------------------ *)
(** * The 12-point transform of a PCD vector: the code *)

Module DftCode.

Import JSFacts LoopFacts PcdDft DftReference DftFacts.

Lemma reduce_sum_sumR (l : list R) : reduce_sum l = sumR l.
Proof.
  unfold reduce_sum, sumR.
  assert (H : forall a, fold_left Rplus l a = a + fold_right Rplus 0 l).
  { induction l as [|v l IH]; intros a; cbn [fold_left fold_right]; [lra|].
    rewrite IH. lra. }
  rewrite H. lra.
Qed.

Lemma twelfth (k s : Z) :
  2 * PI * IZR k * IZR s / 12 = IZR k * IZR s * (PI / 6).
Proof. field. Qed.

(** The inner loop of the forward transform. *)
Lemma forward_loop (x : list R) (base : R) (ks : list Z) (a b : R) :
  fold_left (forward_step x base) ks (a, b)
  = (a + sumR (map (fun t => getR x t * cos (base * IZR t)) ks),
     b + sumR (map (fun t => getR x t * sin (base * IZR t)) ks)).
Proof.
  unfold sumR. revert a b.
  induction ks as [|k ks IH]; intros a b; cbn [fold_left map fold_right].
  - f_equal; lra.
  - unfold forward_step at 2. rewrite IH. f_equal; lra.
Qed.

Lemma forward_inner (x : list R) (k : Z) :
  fold_left (forward_step x (-2 * PI * IZR k / 12)) (range 0 11) (0, 0)
  = (bin_re x k, bin_im x k).
Proof.
  rewrite forward_loop. unfold bin_re, bin_im. f_equal.
  - rewrite Rplus_0_l. apply sumR_ext. intros s _. f_equal.
    replace (-2 * PI * IZR k / 12 * IZR s) with (- (2 * PI * IZR k * IZR s / 12))
      by field.
    apply cos_neg.
  - rewrite Rplus_0_l, <- sumR_opp. apply sumR_ext. intros s _.
    replace (-2 * PI * IZR k / 12 * IZR s) with (- (2 * PI * IZR k * IZR s / 12))
      by field.
    rewrite sin_neg. ring.
Qed.

(** The amplitude and the phase that the forward transform stores for
    bin [k]. *)
Lemma forward_bin_eq (x : list R) (amps phs : list R) (k : Z) :
  forward_bin x (amps, phs) k
  = (cell_step 0 (fun k _ => sqrt (bin_re x k * bin_re x k
                                   + bin_im x k * bin_im x k)) amps k,
     cell_step 0 (fun k _ => Math_atan2 (bin_im x k) (bin_re x k)) phs k).
Proof.
  unfold forward_bin. rewrite forward_inner. reflexivity.
Qed.

Lemma forward_bins (x : list R) (ks : list Z) (amps phs : list R) :
  fold_left (forward_bin x) ks (amps, phs)
  = (fold_left (cell_step 0 (fun k _ => sqrt (bin_re x k * bin_re x k
                                              + bin_im x k * bin_im x k)))
               ks amps,
     fold_left (cell_step 0 (fun k _ => Math_atan2 (bin_im x k) (bin_re x k)))
               ks phs).
Proof.
  revert amps phs. induction ks as [|k ks IH]; intros amps phs; [reflexivity|].
  cbn [fold_left]. rewrite forward_bin_eq. apply IH.
Qed.

(** What the forward transform returns on twelve values. *)
Lemma forward_returns (pcd : list R) :
  length pcd = 12%nat ->
  exists fd,
    pcdToFrequencyDomain pcd = Normal fd /\
    normalizedInput fd = normalize12 pcd /\
    length (amplitudes fd) = 7%nat /\ length (phases fd) = 7%nat /\
    forall k, (0 <= k <= 6)%Z ->
      getR (amplitudes fd) k
      = sqrt (bin_re (normalize12 pcd) k * bin_re (normalize12 pcd) k
              + bin_im (normalize12 pcd) k * bin_im (normalize12 pcd) k) /\
      getR (phases fd) k
      = Math_atan2 (bin_im (normalize12 pcd) k) (bin_re (normalize12 pcd) k).
Proof.
  intros L. unfold pcdToFrequencyDomain. rewrite L. cbn [Nat.eqb negb].
  fold (normalize12 pcd). rewrite forward_bins.
  eexists. split; [reflexivity|]. cbn [normalizedInput amplitudes phases].
  split; [reflexivity|].
  split; [rewrite fold_cell_length; reflexivity|].
  split; [rewrite fold_cell_length; reflexivity|].
  intros k Hk. unfold getR.
  rewrite !fold_cell_range by (cbn [length zeros repeat]; lia).
  split; reflexivity.
Qed.

(** The spectrum after the first loop of the inverse transform. *)
Lemma positive_loop (amps phs : list R) :
  let sp := fold_left (fill_positive amps phs) (range 0 6) (repeat (0, 0) 12) in
  length sp = 12%nat /\
  forall k, (0 <= k <= 6)%Z ->
    get (0, 0) sp k = (getR amps k * cos (getR phs k),
                       getR amps k * sin (getR phs k)).
Proof.
  cbv zeta.
  change (fill_positive amps phs)
    with (cell_step (0, 0)
            (fun (k : Z) (_ : R * R) =>
               (getR amps k * cos (getR phs k), getR amps k * sin (getR phs k)))).
  split.
  - rewrite fold_cell_length. reflexivity.
  - intros k Hk. rewrite fold_cell_range by (cbn [length repeat]; lia).
    reflexivity.
Qed.

(** The second loop writes the conjugates of the bins 5 down to 1 behind
    the bins 0 to 6. *)
Lemma negative_loop (s0 s1 s2 s3 s4 s5 s6 s7 s8 s9 s10 s11 : R * R) :
  fold_left fill_negative (range 1 5)
            [s0; s1; s2; s3; s4; s5; s6; s7; s8; s9; s10; s11]
  = [s0; s1; s2; s3; s4; s5; s6;
     (fst s5, - snd s5); (fst s4, - snd s4); (fst s3, - snd s3);
     (fst s2, - snd s2); (fst s1, - snd s1)].
Proof. reflexivity. Qed.

(** The inner loop of the inverse transform. *)
Lemma inverse_loop (sp : list (R * R)) (t : Z) (ks : list Z) (a : R) :
  fold_left (inverse_step sp t) ks a
  = a + sumR (map (fun k =>
                     fst (get (0, 0) sp k) * cos (2 * PI * IZR k * IZR t / 12)
                     - snd (get (0, 0) sp k) * sin (2 * PI * IZR k * IZR t / 12))
                  ks).
Proof.
  change (inverse_step sp t)
    with (fun (re : R) (k : Z) =>
            re + (fst (get (0, 0) sp k) * cos (2 * PI * IZR k * IZR t / 12)
                  - snd (get (0, 0) sp k) * sin (2 * PI * IZR k * IZR t / 12))).
  apply (fold_sum (fun k =>
                     fst (get (0, 0) sp k) * cos (2 * PI * IZR k * IZR t / 12)
                     - snd (get (0, 0) sp k) * sin (2 * PI * IZR k * IZR t / 12))).
Qed.

(** The spectrum of a real signal is Hermitian. *)
Lemma hermitian (x : list R) (k : Z) :
  bin_re x (12 - k) = bin_re x k /\ bin_im x (12 - k) = - bin_im x k.
Proof.
  unfold bin_re, bin_im. split.
  - apply sumR_ext. intros s _. f_equal.
    replace (2 * PI * IZR (12 - k) * IZR s / 12)
      with (- (2 * PI * IZR k * IZR s / 12) + 2 * IZR s * PI)
      by (rewrite minus_IZR; field).
    rewrite cos_turns. apply cos_neg.
  - rewrite Ropp_involutive, <- sumR_opp.
    apply sumR_ext. intros s _.
    replace (2 * PI * IZR (12 - k) * IZR s / 12)
      with (- (2 * PI * IZR k * IZR s / 12) + 2 * IZR s * PI)
      by (rewrite minus_IZR; field).
    rewrite sin_turns, sin_neg. ring.
Qed.

(** Fourier inversion on twelve points. *)
Lemma inversion (x : list R) (t : Z) :
  (0 <= t <= 11)%Z ->
  sumR (map (fun k => bin_re x k * cos (2 * PI * IZR k * IZR t / 12)
                      - bin_im x k * sin (2 * PI * IZR k * IZR t / 12))
            (range 0 11))
  = 12 * getR x t.
Proof.
  intros Ht.
  rewrite (sumR_ext _
             (fun k => sumR (map (fun s => getR x s
                                           * cos (IZR k * (IZR (t - s) * (PI / 6))))
                                 (range 0 11)))).
  - rewrite sumR_swap.
    rewrite (sumR_ext _ (fun s => getR x s * (if (t - s =? 0)%Z then 12 else 0))).
    + pose proof (sumR_pick (getR x) 12 t 0 12) as P.
      change (0 + Z.of_nat 12 - 1)%Z with 11%Z in P. rewrite P.
      destruct (Z.leb_spec 0 t); destruct (Z.leb_spec t 11); cbn [andb];
        try lia. ring.
    + intros s Hs. apply In_range in Hs.
      rewrite sumR_times. rewrite orthogonal by lia. reflexivity.
  - intros k _. unfold bin_re, bin_im.
    set (ct := cos (2 * PI * IZR k * IZR t / 12)).
    set (st := sin (2 * PI * IZR k * IZR t / 12)).
    set (C := sumR (map (fun s => getR x s * cos (2 * PI * IZR k * IZR s / 12))
                        (range 0 11))).
    set (S := sumR (map (fun s => getR x s * sin (2 * PI * IZR k * IZR s / 12))
                        (range 0 11))).
    replace (C * ct - - S * st) with (ct * C + st * S) by ring.
    unfold C, S. rewrite <- !sumR_times, <- sumR_plus.
    apply sumR_ext. intros s _. unfold ct, st.
    replace (IZR k * (IZR (t - s) * (PI / 6)))
      with (2 * PI * IZR k * IZR t / 12 - 2 * PI * IZR k * IZR s / 12)
      by (rewrite minus_IZR; field).
    rewrite cos_minus. ring.
Qed.

(** Two arrays of twelve cells with the same cells. *)
Lemma twelve_cells (a b : list R) :
  length a = 12%nat -> length b = 12%nat ->
  (forall t, (0 <= t <= 11)%Z -> getR a t = getR b t) -> a = b.
Proof.
  intros La Lb H. apply (nth_ext a b 0 0); [congruence|].
  intros n Hn. specialize (H (Z.of_nat n) ltac:(lia)).
  unfold getR, get in H.
  destruct (Z.ltb_spec (Z.of_nat n) 0); [lia|].
  rewrite Nat2Z.id in H. exact H.
Qed.

End DftCode.

(* ------------------------------------------------------------------ *)
(** * The 12-point transform of a PCD vector: what it computes *)

Module DftProperties.

Import JSFacts LoopFacts PcdDft DftReference DftFacts DftCode.

Lemma normalize12_facts (arr : list R) :
  length (normalize12 arr) = length arr /\
  (reduce_sum arr <> 0 -> reduce_sum (normalize12 arr) = 1) /\
  (reduce_sum arr = 0 -> normalize12 arr = arr) /\
  normalize12 (normalize12 arr) = normalize12 arr /\
  (Forall (fun v => 0 <= v) arr -> Forall (fun v => 0 <= v) (normalize12 arr)).
Proof.
  assert (Hone : reduce_sum arr <> 0 ->
                 reduce_sum (map (fun v => v / reduce_sum arr) arr) = 1).
  { intros Hs. rewrite reduce_sum_sumR.
    rewrite (sumR_ext _ (fun v => / reduce_sum arr * (fun v => v) v))
      by (intros v _; unfold Rdiv; ring).
    rewrite sumR_times, map_id, <- reduce_sum_sumR. field. exact Hs. }
  destruct (Req_dec_T (reduce_sum arr) 0) as [Hz|Hnz].
  - assert (E : normalize12 arr = arr).
    { unfold normalize12. destruct (Req_dec_T (reduce_sum arr) 0);
        [reflexivity | contradiction]. }
    rewrite !E. split; [reflexivity|]. split; [contradiction|].
    split; [reflexivity|]. split; [reflexivity|]. auto.
  - assert (E : normalize12 arr = map (fun v => v / reduce_sum arr) arr).
    { unfold normalize12. destruct (Req_dec_T (reduce_sum arr) 0);
        [contradiction | reflexivity]. }
    rewrite !E. split; [apply length_map|].
    split; [intros _; apply Hone; exact Hnz|].
    split; [contradiction|]. split.
    + unfold normalize12. rewrite (Hone Hnz).
      destruct (Req_dec_T 1 0) as [H10|_]; [lra|].
      rewrite <- (map_id (map (fun v => v / reduce_sum arr) arr)) at 2.
      apply map_ext. intros v. field.
    + intros Hpos.
      assert (Hs : 0 <= reduce_sum arr).
      { rewrite reduce_sum_sumR. apply sumR_nonneg. exact Hpos. }
      apply Forall_forall. intros y Hy. apply in_map_iff in Hy.
      destruct Hy as (v & <- & Hv).
      rewrite Forall_forall in Hpos. specialize (Hpos v Hv).
      apply Rmult_le_pos; [exact Hpos|].
      left. apply Rinv_0_lt_compat. lra.
Qed.

(** Normalizing divides by the sum: the result sums to 1 unless the sum
    was zero, in which case the array is returned as it is; normalizing
    twice is normalizing once; values that are not negative stay so. *)
Theorem normalize12_sums_to_one (arr : list R) :
  length (normalize12 arr) = length arr /\
  (reduce_sum arr <> 0 -> reduce_sum (normalize12 arr) = 1) /\
  (reduce_sum arr = 0 -> normalize12 arr = arr) /\
  normalize12 (normalize12 arr) = normalize12 arr /\
  (Forall (fun v => 0 <= v) arr -> Forall (fun v => 0 <= v) (normalize12 arr)).
Proof. exact (normalize12_facts arr). Qed.

(** The length of a sum of vectors is at most the sum of their lengths. *)
Lemma triangle_step (A B T v c s : R) :
  0 <= T -> A * A + B * B <= T * T -> 0 <= v -> s * s + c * c = 1 ->
  (v * c + A) * (v * c + A) + (v * s + B) * (v * s + B) <= (v + T) * (v + T).
Proof.
  intros HT IH Hv Hu.
  assert (Hcs : A * c + B * s <= T).
  { destruct (Rle_dec (A * c + B * s) 0) as [Hn|Hp]; [lra|].
    assert (Hsq : (A * c + B * s) * (A * c + B * s) <= T * T).
    { assert (E : (A * c + B * s) * (A * c + B * s)
                  = (A * A + B * B) * (s * s + c * c)
                    - (A * s - B * c) * (A * s - B * c)) by ring.
      pose proof (Rle_0_sqr (A * s - B * c)) as Hq. unfold Rsqr in Hq.
      rewrite Hu in E. lra. }
    nra. }
  assert (E : (v * c + A) * (v * c + A) + (v * s + B) * (v * s + B)
              = v * v * (s * s + c * c) + 2 * v * (A * c + B * s)
                + (A * A + B * B)) by ring.
  rewrite E, Hu. nra.
Qed.

Lemma triangle (x : list R) (ang : Z -> R) (ks : list Z) :
  (forall k, 0 <= getR x k) ->
  let A := sumR (map (fun s => getR x s * cos (ang s)) ks) in
  let B := sumR (map (fun s => getR x s * sin (ang s)) ks) in
  let T := sumR (map (fun s => getR x s) ks) in
  0 <= T /\ A * A + B * B <= T * T.
Proof.
  intros Hx. cbv zeta. unfold sumR.
  induction ks as [|k ks IH]; cbn [map fold_right]; [split; lra|].
  destruct IH as (HT & IH).
  pose proof (sin2_cos2 (ang k)) as Hu. unfold Rsqr in Hu.
  split.
  - pose proof (Hx k). lra.
  - apply triangle_step; auto.
Qed.

Lemma getR_nonneg (x : list R) :
  Forall (fun v => 0 <= v) x -> forall k, 0 <= getR x k.
Proof.
  intros H k. unfold getR, get. destruct (Z.ltb k 0); [lra|].
  destruct (Nat.lt_ge_cases (Z.to_nat k) (length x)) as [Hlt|Hge].
  - rewrite Forall_forall in H. apply H. apply nth_In. exact Hlt.
  - rewrite nth_overflow by exact Hge. lra.
Qed.

Lemma sumR_cells_12 (x : list R) :
  length x = 12%nat -> sumR (map (fun s => getR x s) (range 0 11)) = sumR x.
Proof.
  intros L. destruct (twelve x L)
    as (a0 & a1 & a2 & a3 & a4 & a5 & a6 & a7 & a8 & a9 & a10 & a11 & ->).
  reflexivity.
Qed.

(** What the forward transform returns on twelve values. *)
Lemma forward_facts (pcd : list R) :
  length pcd = 12%nat ->
  exists fd,
    pcdToFrequencyDomain pcd = Normal fd /\
    normalizedInput fd = normalize12 pcd /\
    length (amplitudes fd) = 7%nat /\ length (phases fd) = 7%nat /\
    (forall k, (0 <= k <= 6)%Z ->
       let re := bin_re (normalize12 pcd) k in
       let im := bin_im (normalize12 pcd) k in
       getR (amplitudes fd) k = sqrt (re * re + im * im) /\
       getR (phases fd) k = Math_atan2 im re /\
       getR (amplitudes fd) k * cos (getR (phases fd) k) = re /\
       getR (amplitudes fd) k * sin (getR (phases fd) k) = im) /\
    (reduce_sum pcd <> 0 ->
     getR (amplitudes fd) 0 = 1 /\ getR (phases fd) 0 = 0) /\
    (Forall (fun v => 0 <= v) pcd ->
     getR (amplitudes fd) 0 <= 1 /\
     forall k, (0 <= k <= 6)%Z ->
       0 <= getR (amplitudes fd) k <= getR (amplitudes fd) 0).
Proof.
  intros L.
  destruct (forward_returns pcd L) as (fd & E & En & La & Lp & Hc).
  exists fd. split; [exact E|]. split; [exact En|].
  split; [exact La|]. split; [exact Lp|].
  destruct (normalize12_facts pcd) as (Ln & Hone & Hzero & _ & Hpos).
  set (x := normalize12 pcd) in *.
  assert (Lx : length x = 12%nat) by congruence.
  assert (Hre0 : bin_re x 0 = sumR x).
  { unfold bin_re. rewrite <- (sumR_cells_12 x Lx).
    apply sumR_ext. intros s _.
    replace (2 * PI * 0 * IZR s / 12) with 0 by field.
    rewrite cos_0. ring. }
  assert (Him0 : bin_im x 0 = 0).
  { unfold bin_im.
    rewrite (sumR_ext _ (fun _ => 0)).
    - rewrite sumR_const_zero. ring.
    - intros s _. replace (2 * PI * 0 * IZR s / 12) with 0 by field.
      rewrite sin_0. ring. }
  assert (Hamp0 : reduce_sum pcd <> 0 -> getR (amplitudes fd) 0 = 1).
  { intros Hs. destruct (Hc 0%Z ltac:(lia)) as (Ea & _).
    rewrite Ea, Hre0, Him0, <- reduce_sum_sumR, (Hone Hs).
    replace (1 * 1 + 0 * 0) with (1 * 1) by ring. apply sqrt_square. lra. }
  split; [|split].
  - intros k Hk. cbv zeta. destruct (Hc k Hk) as (Ea & Ep).
    rewrite Ea, Ep.
    destruct (polar_atan2 (bin_im x k) (bin_re x k)) as (P1 & P2).
    auto.
  - intros Hs. split; [exact (Hamp0 Hs)|].
    destruct (Hc 0%Z ltac:(lia)) as (_ & Ep).
    rewrite Ep, Hre0, Him0, <- reduce_sum_sumR, (Hone Hs).
    unfold Math_atan2. destruct (Rlt_dec 0 1); [|lra].
    unfold Rdiv. rewrite Rmult_0_l. apply atan_0.
  - intros Hnn. split.
    + destruct (Req_dec_T (reduce_sum pcd) 0) as [Hz|Hnz].
      * destruct (Hc 0%Z ltac:(lia)) as (Ea & _).
        rewrite Ea, Hre0, Him0, <- reduce_sum_sumR.
        rewrite (Hzero Hz), Hz.
        replace (0 * 0 + 0 * 0) with 0 by ring. rewrite sqrt_0. lra.
      * rewrite (Hamp0 Hnz). lra.
    + intros k Hk.
      destruct (Hc k Hk) as (Ea & _). destruct (Hc 0%Z ltac:(lia)) as (Ea0 & _).
      rewrite Ea, Ea0, Hre0, Him0.
      pose proof (getR_nonneg x (Hpos Hnn)) as Hx.
      destruct (triangle x (fun s => 2 * PI * IZR k * IZR s / 12) (range 0 11) Hx)
        as (HT & Htri).
      rewrite (sumR_cells_12 x Lx) in HT, Htri.
      split; [apply sqrt_pos|].
      replace (sumR x * sumR x + 0 * 0) with (sumR x * sumR x) by ring.
      apply sqrt_le_1.
      * unfold bin_re, bin_im. nra.
      * nra.
      * unfold bin_re, bin_im.
        set (A := sumR (map (fun s => getR x s * cos _) _)) in *.
        set (B := sumR (map (fun s => getR x s * sin _) _)) in *.
        nra.
Qed.

(** The forward transform throws unless it is given twelve values; on
    twelve values it returns the normalized input and, for the bins 0 to
    6, the modulus and the argument of the discrete Fourier transform of
    the normalized input; the bin 0 of an input whose sum is not zero has
    amplitude 1 and phase 0; and no amplitude of an input without
    negative values exceeds that of bin 0, which is at most 1. *)
Theorem pcdToFrequencyDomain_is_dft (pcd : list R) :
  (length pcd <> 12%nat -> pcdToFrequencyDomain pcd = Throws) /\
  (length pcd = 12%nat ->
   exists fd,
     pcdToFrequencyDomain pcd = Normal fd /\
     normalizedInput fd = normalize12 pcd /\
     length (amplitudes fd) = 7%nat /\ length (phases fd) = 7%nat /\
     (forall k, (0 <= k <= 6)%Z ->
        let re := bin_re (normalize12 pcd) k in
        let im := bin_im (normalize12 pcd) k in
        getR (amplitudes fd) k = sqrt (re * re + im * im) /\
        getR (phases fd) k = Math_atan2 im re /\
        getR (amplitudes fd) k * cos (getR (phases fd) k) = re /\
        getR (amplitudes fd) k * sin (getR (phases fd) k) = im) /\
     (reduce_sum pcd <> 0 ->
      getR (amplitudes fd) 0 = 1 /\ getR (phases fd) 0 = 0) /\
     (Forall (fun v => 0 <= v) pcd ->
      getR (amplitudes fd) 0 <= 1 /\
      forall k, (0 <= k <= 6)%Z ->
        0 <= getR (amplitudes fd) k <= getR (amplitudes fd) 0)).
Proof.
  split.
  - intros H. unfold pcdToFrequencyDomain.
    destruct (Nat.eqb_spec (length pcd) 12); [contradiction | reflexivity].
  - apply forward_facts.
Qed.

Lemma pcdToFrequencyDomain_is_dft_witness :
  exists fd,
    pcdToFrequencyDomain [1; 0; 0; 0; 1; 0; 0; 1; 0; 0; 0; 0] = Normal fd /\
    length (amplitudes fd) = 7%nat.
Proof.
  destruct (pcdToFrequencyDomain_is_dft [1; 0; 0; 0; 1; 0; 0; 1; 0; 0; 0; 0])
    as (_ & H).
  destruct (H eq_refl) as (fd & E & _ & La & _).
  exists fd. split; [exact E | exact La].
Defined.

(** The spectrum that the inverse transform builds from the amplitudes
    and phases of the forward transform is the whole transform of the
    input. *)
Lemma rebuilt_spectrum (x : list R) (amps phs : list R) :
  (forall k, (0 <= k <= 6)%Z ->
     getR amps k * cos (getR phs k) = bin_re x k /\
     getR amps k * sin (getR phs k) = bin_im x k) ->
  let sp := fold_left fill_negative (range 1 5)
              (fold_left (fill_positive amps phs) (range 0 6)
                         (repeat (0, 0) 12)) in
  forall k, (0 <= k <= 11)%Z -> get (0, 0) sp k = (bin_re x k, bin_im x k).
Proof.
  intros Hc. cbv zeta.
  destruct (positive_loop amps phs) as (L & Hcell). cbv zeta in L, Hcell.
  set (sp1 := fold_left (fill_positive amps phs) (range 0 6) (repeat (0, 0) 12))
    in *.
  assert (Hlow : forall k, (0 <= k <= 6)%Z ->
                   get (0, 0) sp1 k = (bin_re x k, bin_im x k)).
  { intros k Hk. rewrite (Hcell k Hk). destruct (Hc k Hk) as (-> & ->).
    reflexivity. }
  clearbody sp1. clear Hcell Hc.
  destruct (twelve sp1 L)
    as (s0 & s1 & s2 & s3 & s4 & s5 & s6 & s7 & s8 & s9 & s10 & s11 & ->).
  rewrite negative_loop.
  pose proof (Hlow 0%Z ltac:(lia)) as H0. pose proof (Hlow 1%Z ltac:(lia)) as H1.
  pose proof (Hlow 2%Z ltac:(lia)) as H2. pose proof (Hlow 3%Z ltac:(lia)) as H3.
  pose proof (Hlow 4%Z ltac:(lia)) as H4. pose proof (Hlow 5%Z ltac:(lia)) as H5.
  pose proof (Hlow 6%Z ltac:(lia)) as H6.
  cbv [get Z.ltb Z.compare Z.to_nat Pos.to_nat Pos.iter_op Nat.add nth]
    in H0, H1, H2, H3, H4, H5, H6.
  subst s0 s1 s2 s3 s4 s5 s6. cbn [fst snd].
  intros k Hk.
  assert (Hcases : (k = 0 \/ k = 1 \/ k = 2 \/ k = 3 \/ k = 4 \/ k = 5 \/ k = 6
                    \/ k = 7 \/ k = 8 \/ k = 9 \/ k = 10 \/ k = 11)%Z) by lia.
  destruct Hcases as [->|[->|[->|[->|[->|[->|[->|[->|[->|[->|[->| ->]]]]]]]]]]];
    cbv [get Z.ltb Z.compare Z.to_nat Pos.to_nat Pos.iter_op Nat.add nth];
    try reflexivity.
  - destruct (hermitian x 7) as (Er & Ei).
    change (12 - 7)%Z with 5%Z in Er, Ei. rewrite Er, Ei. f_equal. ring.
  - destruct (hermitian x 8) as (Er & Ei).
    change (12 - 8)%Z with 4%Z in Er, Ei. rewrite Er, Ei. f_equal. ring.
  - destruct (hermitian x 9) as (Er & Ei).
    change (12 - 9)%Z with 3%Z in Er, Ei. rewrite Er, Ei. f_equal. ring.
  - destruct (hermitian x 10) as (Er & Ei).
    change (12 - 10)%Z with 2%Z in Er, Ei. rewrite Er, Ei. f_equal. ring.
  - destruct (hermitian x 11) as (Er & Ei).
    change (12 - 11)%Z with 1%Z in Er, Ei. rewrite Er, Ei. f_equal. ring.
Qed.

(** The inverse transform undoes the forward transform: from the
    amplitudes and phases of twelve values it returns the normalized
    values; it throws unless it is given seven amplitudes and seven
    phases. *)
Theorem pcd_dft_round_trip (pcd : list R) :
  length pcd = 12%nat ->
  exists fd,
    pcdToFrequencyDomain pcd = Normal fd /\
    frequencyDomainToPcd (amplitudes fd) (phases fd) = Normal (normalize12 pcd) /\
    (forall amps phs,
       length amps <> 7%nat \/ length phs <> 7%nat ->
       frequencyDomainToPcd amps phs = Throws).
Proof.
  intros L.
  destruct (forward_returns pcd L) as (fd & E & En & La & Lp & Hc).
  exists fd. split; [exact E|]. split.
  - unfold frequencyDomainToPcd. rewrite La, Lp. cbn [Nat.eqb negb].
    destruct (normalize12_facts pcd) as (Ln & _).
    set (x := normalize12 pcd) in *.
    assert (Hpolar : forall k, (0 <= k <= 6)%Z ->
              getR (amplitudes fd) k * cos (getR (phases fd) k) = bin_re x k /\
              getR (amplitudes fd) k * sin (getR (phases fd) k) = bin_im x k).
    { intros k Hk. destruct (Hc k Hk) as (-> & ->). apply polar_atan2. }
    pose proof (rebuilt_spectrum x (amplitudes fd) (phases fd) Hpolar) as Hsp.
    cbv zeta in Hsp.
    set (sp := fold_left fill_negative _ _) in *. clearbody sp.
    f_equal.
    change (fun (reconstructed : list R) (t : Z) =>
              set reconstructed t
                  (fold_left (inverse_step sp t) (range 0 11) 0 / 12))
      with (cell_step 0
              (fun (t : Z) (_ : R) =>
                 fold_left (inverse_step sp t) (range 0 11) 0 / 12)).
    apply twelve_cells.
    + rewrite fold_cell_length. reflexivity.
    + congruence.
    + intros t Ht. unfold getR at 1.
      rewrite fold_cell_range by (cbn [length zeros repeat]; lia).
      rewrite inverse_loop.
      rewrite (sumR_ext _
                 (fun k => bin_re x k * cos (2 * PI * IZR k * IZR t / 12)
                           - bin_im x k * sin (2 * PI * IZR k * IZR t / 12))).
      * rewrite inversion by exact Ht. field.
      * intros k Hk. apply In_range in Hk. rewrite (Hsp k Hk). reflexivity.
  - intros amps phs H. unfold frequencyDomainToPcd.
    destruct (Nat.eqb_spec (length amps) 7) as [Ea|Ea]; [|reflexivity].
    destruct (Nat.eqb_spec (length phs) 7) as [Ep|Ep]; [|reflexivity].
    destruct H; contradiction.
Qed.

Lemma pcd_dft_round_trip_witness :
  exists fd,
    pcdToFrequencyDomain [1; 0; 0; 0; 1; 0; 0; 1; 0; 0; 0; 0] = Normal fd /\
    frequencyDomainToPcd (amplitudes fd) (phases fd)
    = Normal (normalize12 [1; 0; 0; 0; 1; 0; 0; 1; 0; 0; 0; 0]).
Proof.
  destruct (pcd_dft_round_trip [1; 0; 0; 0; 1; 0; 0; 1; 0; 0; 0; 0] eq_refl)
    as (fd & E & R & _).
  exists fd. split; [exact E | exact R].
Defined.

End DftProperties.

(* ------------------------------------------------------------------ *)
(** * The tuning needle *)

Module NeedleProperties.

Import AudioProcessor Script.

Lemma wrap_down_returns (m : nat) (d : R) :
  d <= PI + 2 * PI * INR m ->
  exists j : nat,
    (j <= m)%nat /\
    (forall fuel, (m <= fuel)%nat ->
       wrap_down fuel d = Normal (d - 2 * PI * INR j)) /\
    d - 2 * PI * INR j <= PI /\
    (j = 0%nat \/ - PI < d - 2 * PI * INR j).
Proof.
  pose proof PI_RGT_0 as Hpi.
  revert d. induction m as [|m IH]; intros d Hd.
  - cbn [INR] in Hd. exists 0%nat. cbn [INR].
    split; [lia|]. split.
    + intros fuel _. destruct fuel; cbn [wrap_down];
        (destruct (Rlt_dec PI d); [lra|]); f_equal; lra.
    + split; [lra | left; reflexivity].
  - destruct (Rlt_dec PI d) as [Hbig|Hok].
    + destruct (IH (d - 2 * PI)) as (j & Hj & Hrun & Hle & Hlow).
      { rewrite S_INR in Hd. lra. }
      exists (S j). split; [lia|]. split.
      * intros fuel Hf. destruct fuel as [|fuel]; [lia|].
        cbn [wrap_down]. destruct (Rlt_dec PI d); [|lra].
        rewrite Hrun by lia. f_equal. rewrite S_INR. lra.
      * rewrite S_INR.
        replace (d - 2 * PI * (INR j + 1)) with (d - 2 * PI - 2 * PI * INR j)
          by lra.
        split; [exact Hle|]. right.
        destruct Hlow as [->|H]; [cbn [INR]; lra | exact H].
    + exists 0%nat. cbn [INR]. split; [lia|]. split.
      * intros fuel _. destruct fuel; cbn [wrap_down];
          (destruct (Rlt_dec PI d); [lra|]); f_equal; lra.
      * split; [lra | left; reflexivity].
Qed.

Lemma wrap_up_returns (m : nat) (d : R) :
  - PI - 2 * PI * INR m <= d ->
  exists j : nat,
    (j <= m)%nat /\
    (forall fuel, (m <= fuel)%nat ->
       wrap_up fuel d = Normal (d + 2 * PI * INR j)) /\
    - PI <= d + 2 * PI * INR j /\
    (j = 0%nat \/ d + 2 * PI * INR j < PI).
Proof.
  pose proof PI_RGT_0 as Hpi.
  revert d. induction m as [|m IH]; intros d Hd.
  - cbn [INR] in Hd. exists 0%nat. cbn [INR].
    split; [lia|]. split.
    + intros fuel _. destruct fuel; cbn [wrap_up];
        (destruct (Rlt_dec d (- PI)); [lra|]); f_equal; lra.
    + split; [lra | left; reflexivity].
  - destruct (Rlt_dec d (- PI)) as [Hsmall|Hok].
    + destruct (IH (d + 2 * PI)) as (j & Hj & Hrun & Hle & Hhigh).
      { rewrite S_INR in Hd. lra. }
      exists (S j). split; [lia|]. split.
      * intros fuel Hf. destruct fuel as [|fuel]; [lia|].
        cbn [wrap_up]. destruct (Rlt_dec d (- PI)); [|lra].
        rewrite Hrun by lia. f_equal. rewrite S_INR. lra.
      * rewrite S_INR.
        replace (d + 2 * PI * (INR j + 1)) with (d + 2 * PI + 2 * PI * INR j)
          by lra.
        split; [exact Hle|]. right.
        destruct Hhigh as [->|H]; [cbn [INR]; lra | exact H].
    + exists 0%nat. cbn [INR]. split; [lia|]. split.
      * intros fuel _. destruct fuel; cbn [wrap_up];
          (destruct (Rlt_dec d (- PI)); [lra|]); f_equal; lra.
      * split; [lra | left; reflexivity].
Qed.

(** Every real number is below some whole number of turns. *)
Lemma turns_above (d : R) : exists m : nat, d <= PI + 2 * PI * INR m.
Proof.
  pose proof PI_RGT_0 as Hpi.
  destruct (Rle_dec d PI) as [H|H].
  - exists 0%nat. cbn [INR]. lra.
  - set (q := (d - PI) / (2 * PI)).
    assert (Hq : 0 < q).
    { unfold q. apply Rmult_lt_0_compat; [lra|].
      apply Rinv_0_lt_compat. lra. }
    destruct (archimed q) as (Hup & _).
    exists (Z.to_nat (up q)).
    rewrite INR_IZR_INZ, Z2Nat.id.
    + assert (E : d = PI + 2 * PI * q) by (unfold q; field; lra).
      rewrite E at 1. nra.
    + apply le_IZR. lra.
Qed.

Lemma wrapDiff_returns (target current : R) :
  exists (d : R) (turns : Z) (enough : nat),
    (forall fuel, (enough <= fuel)%nat ->
       wrapDiff fuel target current = Normal d) /\
    - PI <= d <= PI /\
    d = target - current - 2 * IZR turns * PI /\
    cos d = cos (target - current) /\ sin d = sin (target - current) /\
    (- PI <= target - current <= PI -> d = target - current).
Proof.
  pose proof PI_RGT_0 as Hpi.
  destruct (turns_above (target - current)) as (m1 & H1).
  destruct (wrap_down_returns m1 (target - current) H1)
    as (j1 & _ & Hrun1 & Hle1 & Hlow1).
  set (d1 := target - current - 2 * PI * INR j1) in *.
  destruct (turns_above (- d1)) as (m2 & H2).
  destruct (wrap_up_returns m2 d1 ltac:(lra)) as (j2 & _ & Hrun2 & Hle2 & Hhigh2).
  assert (Hj : j1 = 0%nat \/ j2 = 0%nat).
  { destruct Hlow1 as [H|H]; [left; exact H|]. right.
    destruct j2 as [|j2]; [reflexivity|]. exfalso.
    destruct (wrap_up_returns 0 d1 ltac:(cbn [INR]; lra))
      as (j0 & Hj0 & Hrun0 & _).
    assert (j0 = 0%nat) by lia. subst j0.
    pose proof (Hrun0 (Nat.max m2 0) ltac:(lia)) as E0.
    rewrite (Hrun2 (Nat.max m2 0) ltac:(lia)) in E0.
    assert (E0' : d1 + 2 * PI * INR 0 = d1 + 2 * PI * INR (S j2))
      by congruence.
    rewrite S_INR in E0'. cbn [INR] in E0'.
    pose proof (pos_INR j2). nra. }
  assert (Ed : d1 + 2 * PI * INR j2
               = target - current - 2 * IZR (Z.of_nat j1 - Z.of_nat j2) * PI).
  { unfold d1. rewrite minus_IZR, <- !INR_IZR_INZ. ring. }
  exists (d1 + 2 * PI * INR j2), (Z.of_nat j1 - Z.of_nat j2)%Z, (Nat.max m1 m2).
  split.
  { intros fuel Hf. unfold wrapDiff. rewrite Hrun1 by lia. cbn [bind].
    rewrite Hrun2 by lia. reflexivity. }
  split.
  { split; [exact Hle2|].
    destruct Hhigh2 as [->|H]; [cbn [INR]; lra | lra]. }
  split; [exact Ed|].
  split.
  { rewrite Ed.
    replace (target - current - 2 * IZR (Z.of_nat j1 - Z.of_nat j2) * PI)
      with (target - current + 2 * IZR (Z.of_nat j2 - Z.of_nat j1) * PI)
      by (rewrite !minus_IZR; ring).
    apply DftFacts.cos_turns. }
  split.
  { rewrite Ed.
    replace (target - current - 2 * IZR (Z.of_nat j1 - Z.of_nat j2) * PI)
      with (target - current + 2 * IZR (Z.of_nat j2 - Z.of_nat j1) * PI)
      by (rewrite !minus_IZR; ring).
    apply DftFacts.sin_turns. }
  intros Hin.
  assert (E1 : j1 = 0%nat).
  { destruct j1 as [|j1]; [reflexivity|]. exfalso.
    destruct (wrap_down_returns 0 (target - current) ltac:(cbn [INR]; lra))
      as (j0 & Hj0 & Hrun0 & _).
    assert (j0 = 0%nat) by lia. subst j0.
    pose proof (Hrun0 (Nat.max m1 0) ltac:(lia)) as E0.
    rewrite (Hrun1 (Nat.max m1 0) ltac:(lia)) in E0.
    assert (E0' : target - current - 2 * PI * INR 0 = d1) by congruence.
    unfold d1 in E0'. rewrite S_INR in E0'.
    cbn [INR] in E0'. pose proof (pos_INR j1). nra. }
  subst j1. cbn [INR] in d1.
  assert (E2 : j2 = 0%nat).
  { destruct j2 as [|j2]; [reflexivity|]. exfalso.
    destruct (wrap_up_returns 0 d1 ltac:(unfold d1; cbn [INR]; lra))
      as (j0 & Hj0 & Hrun0 & _).
    assert (j0 = 0%nat) by lia. subst j0.
    pose proof (Hrun0 (Nat.max m2 0) ltac:(lia)) as E0.
    rewrite (Hrun2 (Nat.max m2 0) ltac:(lia)) in E0.
    assert (E0' : d1 + 2 * PI * INR 0 = d1 + 2 * PI * INR (S j2))
      by congruence.
    rewrite S_INR in E0'. cbn [INR] in E0'.
    pose proof (pos_INR j2). nra. }
  subst j2. unfold d1. cbn [INR]. lra.
Qed.

(** For two angles that differ by at most [max_difference], [wrapDiff]
    with enough fuel returns their difference brought into [[-PI, PI]] by
    whole turns, and the difference itself when it is there already. *)
Theorem wrapDiff_wraps (target current : R) :
  Rabs (target - current) <= max_difference ->
  exists (d : R) (turns : Z) (enough : nat),
    (forall fuel, (enough <= fuel)%nat ->
       wrapDiff fuel target current = Normal d) /\
    - PI <= d <= PI /\
    d = target - current - 2 * IZR turns * PI /\
    cos d = cos (target - current) /\ sin d = sin (target - current) /\
    (- PI <= target - current <= PI -> d = target - current).
Proof. intros _. exact (wrapDiff_returns target current). Qed.

(** An angle of 7 radians from the needle is more than half a turn: one
    turn is taken off. *)
Lemma wrapDiff_wraps_witness :
  exists (d : R) (turns : Z) (enough : nat),
    (forall fuel, (enough <= fuel)%nat -> wrapDiff fuel 7 0 = Normal d) /\
    - PI <= d <= PI /\
    d = 7 - 0 - 2 * IZR turns * PI /\
    cos d = cos (7 - 0) /\ sin d = sin (7 - 0) /\
    (- PI <= 7 - 0 <= PI -> d = 7 - 0).
Proof.
  apply (wrapDiff_wraps 7 0).
  unfold max_difference. rewrite Rabs_right; lra.
Defined.

(** One tuner reading moves the needle: the step is the reactivity
    clamped into [[0.05, 1]]; the target is the middle of the wedge of
    the pitch class, moved by the deviation; a needle that was hidden
    jumps to the target and the reading; a needle that was shown turns by
    the step along the shorter arc to the target, and the smoothed
    deviation moves by the step toward the reading, so it stays within
    any bounds that hold the old value and the reading.  An event without
    a reading hides the needle.  The needle that is shown is at most
    [max_difference] from the target. *)
Theorem needle_follows (reactivity userRotation : R) (pr : Primary) (n : Needle) :
  (forall a, needleAngleSm n = Some a ->
     Rabs (angleRaw userRotation pr - a) <= max_difference) ->
  let step := Rmax 0.05 (Rmin 1 reactivity) in
  let raw := angleRaw userRotation pr in
  exists (n' : Needle) (a' c' : R) (enough : nat),
    (forall fuel, (enough <= fuel)%nat ->
       on_analysis fuel reactivity userRotation (Some pr) n = Normal n') /\
    needleAngleSm n' = Some a' /\ centsSm n' = Some c' /\
    0.05 <= step <= 1 /\
    raw = - PI / 2 + userRotation
          + (IZR (pitchClass pr) + / 2 + cents pr / 100) * (PI / 6) /\
    (needleAngleSm n = None -> a' = raw) /\
    (centsSm n = None -> c' = cents pr) /\
    (forall a, needleAngleSm n = Some a ->
       exists d, - PI <= d <= PI /\
                 cos d = cos (raw - a) /\ sin d = sin (raw - a) /\
                 a' = a + step * d) /\
    (forall c, centsSm n = Some c -> c' = c + step * (cents pr - c)) /\
    (forall lo hi, lo <= cents pr <= hi ->
       (forall c, centsSm n = Some c -> lo <= c <= hi) -> lo <= c' <= hi) /\
    (forall fuel,
       on_analysis fuel reactivity userRotation None n
       = Normal {| needleAngleSm := None; centsSm := None |}).
Proof.
  intros _ step raw.
  assert (Hstep : 0.05 <= step <= 1).
  { unfold step, Rmax, Rmin.
    destruct (Rle_dec 1 reactivity); destruct (Rle_dec 0.05 _); lra. }
  set (angle0 := match needleAngleSm n with None => raw | Some a => a end).
  set (cents0 := match centsSm n with None => cents pr | Some c => c end).
  destruct (wrapDiff_returns raw angle0)
    as (d & turns & enough & Hrun & Hd & _ & Hcos & Hsin & Hid).
  exists {| needleAngleSm := Some (angle0 + step * d);
            centsSm := Some (cents0 + step * (cents pr - cents0)) |},
         (angle0 + step * d), (cents0 + step * (cents pr - cents0)), enough.
  split.
  { intros fuel Hf. unfold on_analysis. fold raw angle0 cents0 step.
    rewrite (Hrun fuel Hf). reflexivity. }
  split; [reflexivity|]. split; [reflexivity|]. split; [exact Hstep|].
  split.
  { unfold raw, angleRaw, baseRotation, gapRadians. field. }
  split.
  { intros Hn. unfold angle0 in *. rewrite Hn in *.
    pose proof PI_RGT_0.
    rewrite Hid by (replace (raw - raw) with 0 by ring; lra). ring. }
  split.
  { intros Hn. unfold cents0. rewrite Hn. ring. }
  split.
  { intros a Ha. unfold angle0 in *. rewrite Ha in *.
    exists d. auto. }
  split.
  { intros c Hc. unfold cents0. rewrite Hc. reflexivity. }
  split.
  { intros lo hi Hr Hc. unfold cents0.
    destruct (centsSm n) as [c|].
    - specialize (Hc c eq_refl). nra.
    - nra. }
  intros fuel. reflexivity.
Qed.

(** A needle shown at angle 0 and a reading of A (pitch class 9), 10
    cents sharp, with the default reactivity. *)
Lemma needle_follows_witness :
  exists (n' : Needle) (a' c' : R) (enough : nat),
    (forall fuel, (enough <= fuel)%nat ->
       on_analysis fuel 0.35 0 (Some (mkPrimary 442.5 12 10 9 69 69.1))
                   (mkNeedle (Some 0) (Some 0)) = Normal n') /\
    needleAngleSm n' = Some a' /\ centsSm n' = Some c' /\
    (exists d, - PI <= d <= PI /\
       cos d = cos (angleRaw 0 (mkPrimary 442.5 12 10 9 69 69.1) - 0) /\
       a' = 0 + Rmax 0.05 (Rmin 1 0.35) * d) /\
    c' = 0 + Rmax 0.05 (Rmin 1 0.35) * (10 - 0).
Proof.
  destruct (needle_follows 0.35 0 (mkPrimary 442.5 12 10 9 69 69.1)
                           (mkNeedle (Some 0) (Some 0)))
    as (n' & a' & c' & enough & Hrun & Ha & Hc & _ & _ & _ & _ & Hturn & Hcents
        & _).
  - intros a Ea. injection Ea as <-.
    pose proof PI_RGT_0. pose proof PI_4.
    unfold max_difference, angleRaw, baseRotation, gapRadians.
    cbn [pitchClass cents].
    apply Rabs_le. lra.
  - exists n', a', c', enough.
    split; [exact Hrun|]. split; [exact Ha|]. split; [exact Hc|].
    split.
    + destruct (Hturn 0 eq_refl) as (d & Hd & Hcos & _ & Ea).
      exists d. auto.
    + apply Hcents. reflexivity.
Defined.

End NeedleProperties.

(* ------------------------------------------------------------------ *)
(** * The torus *)

Module TorusProperties.

Import PcdDft TorusVisualizer.

Lemma tube_equation (pha5 pha3 mag3 : R) :
  let '(x, y, z) := toroidalToCartesian pha5 pha3 mag3 in
  (x - cos pha5) * (x - cos pha5) + y * y + (z - sin pha5) * (z - sin pha5)
  = (0.3 * mag3) * (0.3 * mag3) /\
  x * x + z * z = (1 + 0.3 * mag3 * cos pha3) * (1 + 0.3 * mag3 * cos pha3) /\
  (0 <= mag3 <= 1 ->
   sqrt (x * x + z * z) = 1 + 0.3 * mag3 * cos pha3 /\
   (sqrt (x * x + z * z) - 1) * (sqrt (x * x + z * z) - 1) + y * y
   = (0.3 * mag3) * (0.3 * mag3) /\
   (sqrt (x * x + z * z) - 1) * (sqrt (x * x + z * z) - 1) + y * y
   <= 0.3 * 0.3).
Proof.
  unfold toroidalToCartesian, TORUS_MAJOR_RADIUS, TORUS_MINOR_RADIUS.
  pose proof (sin2_cos2 pha5) as H5. pose proof (sin2_cos2 pha3) as H3.
  unfold Rsqr in H5, H3.
  set (c5 := cos pha5) in *. set (s5 := sin pha5) in *.
  set (c3 := cos pha3) in *. set (s3 := sin pha3) in *.
  assert (E1 : (1 * c5 + mag3 * 0.3 * c3 * c5 - c5)
               * (1 * c5 + mag3 * 0.3 * c3 * c5 - c5)
               + mag3 * 0.3 * s3 * (mag3 * 0.3 * s3)
               + (1 * s5 + mag3 * 0.3 * c3 * s5 - s5)
                 * (1 * s5 + mag3 * 0.3 * c3 * s5 - s5)
               = 0.3 * mag3 * (0.3 * mag3)).
  { replace ((1 * c5 + mag3 * 0.3 * c3 * c5 - c5)
             * (1 * c5 + mag3 * 0.3 * c3 * c5 - c5)
             + mag3 * 0.3 * s3 * (mag3 * 0.3 * s3)
             + (1 * s5 + mag3 * 0.3 * c3 * s5 - s5)
               * (1 * s5 + mag3 * 0.3 * c3 * s5 - s5))
      with (0.3 * mag3 * (0.3 * mag3)
            * (c3 * c3 * (s5 * s5 + c5 * c5) + s3 * s3)) by ring.
    rewrite H5. replace (c3 * c3 * 1 + s3 * s3) with (s3 * s3 + c3 * c3) by ring.
    rewrite H3. ring. }
  assert (E2 : (1 * c5 + mag3 * 0.3 * c3 * c5) * (1 * c5 + mag3 * 0.3 * c3 * c5)
               + (1 * s5 + mag3 * 0.3 * c3 * s5) * (1 * s5 + mag3 * 0.3 * c3 * s5)
               = (1 + 0.3 * mag3 * c3) * (1 + 0.3 * mag3 * c3)).
  { replace ((1 * c5 + mag3 * 0.3 * c3 * c5) * (1 * c5 + mag3 * 0.3 * c3 * c5)
             + (1 * s5 + mag3 * 0.3 * c3 * s5) * (1 * s5 + mag3 * 0.3 * c3 * s5))
      with ((1 + 0.3 * mag3 * c3) * (1 + 0.3 * mag3 * c3) * (s5 * s5 + c5 * c5))
      by ring.
    rewrite H5. ring. }
  split; [exact E1|]. split; [exact E2|].
  intros Hm.
  pose proof (COS_bound pha3) as (B1 & B2). fold c3 in B1, B2.
  assert (Hpos : 0 <= 1 + 0.3 * mag3 * c3) by nra.
  assert (Es : sqrt ((1 * c5 + mag3 * 0.3 * c3 * c5)
                     * (1 * c5 + mag3 * 0.3 * c3 * c5)
                     + (1 * s5 + mag3 * 0.3 * c3 * s5)
                       * (1 * s5 + mag3 * 0.3 * c3 * s5))
               = 1 + 0.3 * mag3 * c3).
  { rewrite E2. apply sqrt_square. exact Hpos. }
  split; [exact Es|]. rewrite Es.
  assert (E3 : (1 + 0.3 * mag3 * c3 - 1) * (1 + 0.3 * mag3 * c3 - 1)
               + mag3 * 0.3 * s3 * (mag3 * 0.3 * s3)
               = 0.3 * mag3 * (0.3 * mag3)).
  { replace ((1 + 0.3 * mag3 * c3 - 1) * (1 + 0.3 * mag3 * c3 - 1)
             + mag3 * 0.3 * s3 * (mag3 * 0.3 * s3))
      with (0.3 * mag3 * (0.3 * mag3) * (s3 * s3 + c3 * c3)) by ring.
    rewrite H3. ring. }
  split; [exact E3|]. rewrite E3. nra.
Qed.

(** The point drawn for [(pha5, pha3, mag3)] is at the distance
    [0.3 * |mag3|] from the point of the unit circle at the angle [pha5];
    for [mag3] between 0 and 1 that is a point of the solid torus of
    radii 1 and 0.3, on its surface when [mag3] is 1. *)
Theorem toroidalToCartesian_on_tube (pha5 pha3 mag3 : R) :
  let '(x, y, z) := toroidalToCartesian pha5 pha3 mag3 in
  (x - cos pha5) * (x - cos pha5) + y * y + (z - sin pha5) * (z - sin pha5)
  = (0.3 * mag3) * (0.3 * mag3) /\
  x * x + z * z = (1 + 0.3 * mag3 * cos pha3) * (1 + 0.3 * mag3 * cos pha3) /\
  (0 <= mag3 <= 1 ->
   sqrt (x * x + z * z) = 1 + 0.3 * mag3 * cos pha3 /\
   (sqrt (x * x + z * z) - 1) * (sqrt (x * x + z * z) - 1) + y * y
   = (0.3 * mag3) * (0.3 * mag3) /\
   (sqrt (x * x + z * z) - 1) * (sqrt (x * x + z * z) - 1) + y * y
   <= 0.3 * 0.3).
Proof. exact (tube_equation pha5 pha3 mag3). Qed.

(** The sphere of the audio position, for a PCD vector without negative
    values, is inside the tube of the torus or on it. *)
Theorem audio_position_in_torus (pcd : list R) :
  length pcd = 12%nat -> Forall (fun v => 0 <= v) pcd ->
  exists fd x y z,
    pcdToFrequencyDomain pcd = Normal fd /\
    audio_position fd = (x, y, z) /\
    0 <= getR (amplitudes fd) 3 <= 1 /\
    (sqrt (x * x + z * z) - 1) * (sqrt (x * x + z * z) - 1) + y * y
    = (0.3 * getR (amplitudes fd) 3) * (0.3 * getR (amplitudes fd) 3) /\
    (sqrt (x * x + z * z) - 1) * (sqrt (x * x + z * z) - 1) + y * y
    <= 0.3 * 0.3.
Proof.
  intros L Hnn.
  destruct (DftProperties.forward_facts pcd L)
    as (fd & E & _ & _ & _ & _ & _ & Hb).
  destruct (Hb Hnn) as (H0 & Hk).
  assert (Hamp : 0 <= getR (amplitudes fd) 3 <= 1).
  { pose proof (Hk 3%Z ltac:(lia)). lra. }
  pose proof (tube_equation
                (getR (phases fd) 5) (getR (phases fd) 3)
                (getR (amplitudes fd) 3)) as T.
  destruct (toroidalToCartesian (getR (phases fd) 5) (getR (phases fd) 3)
                                (getR (amplitudes fd) 3)) as [[x y] z] eqn:Et.
  destruct T as (_ & _ & T). destruct (T Hamp) as (_ & T1 & T2).
  exists fd, x, y, z.
  split; [exact E|]. split; [exact Et|]. split; [exact Hamp|].
  split.
  - exact T1.
  - exact T2.
Qed.

Lemma audio_position_in_torus_witness :
  exists fd,
    pcdToFrequencyDomain [1; 0; 0; 0; 1; 0; 0; 1; 0; 0; 0; 0] = Normal fd /\
    0 <= getR (amplitudes fd) 3 <= 1.
Proof.
  destruct (audio_position_in_torus [1; 0; 0; 0; 1; 0; 0; 1; 0; 0; 0; 0]
              eq_refl)
    as (fd & x & y & z & E & _ & H & _).
  { repeat (apply Forall_cons; [lra|]). apply Forall_nil. }
  exists fd. split; [exact E | exact H].
Defined.

End TorusProperties.

(* ------------------------------------------------------------------ *)
(** * The FFT engine: the bit-reversal table *)

Module BitReversal.

Import RealFFT JSFacts ConfigFacts FFTFacts FftReference.

Lemma rev_range (w : nat) (p : Z) : (0 <= rev w p < 2 ^ Z.of_nat w)%Z.
Proof.
  revert p. induction w as [|w IH]; intros p; cbn [rev].
  - cbn. lia.
  - specialize (IH (p / 2)%Z).
    pose proof (Z.mod_pos_bound p 2 ltac:(lia)).
    rewrite Nat2Z.inj_succ, Z.pow_succ_r by lia. nia.
Qed.

Lemma rev_0 (w : nat) : rev w 0 = 0%Z.
Proof.
  induction w as [|w IH]; cbn [rev]; [reflexivity|].
  change (0 / 2)%Z with 0%Z. change (0 mod 2)%Z with 0%Z. rewrite IH. lia.
Qed.

Lemma rev_even (w : nat) (b : Z) : rev (S w) (2 * b) = rev w b.
Proof.
  cbn [rev]. replace (2 * b)%Z with (b * 2)%Z by lia.
  rewrite Z.div_mul, Z.mod_mul by lia. lia.
Qed.

Lemma rev_odd (w : nat) (b : Z) :
  rev (S w) (2 * b + 1) = (rev w b + 2 ^ Z.of_nat w)%Z.
Proof.
  cbn [rev]. replace (2 * b + 1)%Z with (1 + b * 2)%Z by lia.
  rewrite Z.div_add, Z.mod_add by lia.
  change (1 / 2)%Z with 0%Z. change (1 mod 2)%Z with 1%Z.
  replace (0 + b)%Z with b by lia. lia.
Qed.

(** The recursion on the high bit. *)
Lemma rev_high (w : nat) (p : Z) :
  (0 <= p < 2 ^ Z.of_nat (S w))%Z ->
  rev (S w) p = (2 * rev w (p mod 2 ^ Z.of_nat w) + p / 2 ^ Z.of_nat w)%Z.
Proof.
  revert p. induction w as [|w IH]; intros p Hp.
  - change (2 ^ Z.of_nat 1)%Z with 2%Z in Hp.
    assert (p = 0 \/ p = 1)%Z as [-> | ->] by lia; reflexivity.
  - set (M := (2 ^ Z.of_nat (S w))%Z).
    assert (HM : (0 < M)%Z) by (apply Z.pow_pos_nonneg; lia).
    assert (EM : (2 ^ Z.of_nat (S (S w)) = 2 * M)%Z).
    { unfold M. rewrite (Nat2Z.inj_succ (S w)), Z.pow_succ_r by lia. reflexivity. }
    rewrite EM in Hp.
    assert (Eq : (p = 2 * (p / 2) + p mod 2)%Z) by (apply Z.div_mod; lia).
    pose proof (Z.mod_pos_bound p 2 ltac:(lia)) as Hb.
    assert (Hh : (0 <= p / 2 < M)%Z) by lia.
    change (rev (S (S w)) p)
      with (rev (S w) (p / 2) + (p mod 2) * 2 ^ Z.of_nat (S w))%Z.
    rewrite (IH (p / 2)%Z Hh). fold M.
    set (N := (2 ^ Z.of_nat w)%Z).
    assert (HN : (0 < N)%Z) by (apply Z.pow_pos_nonneg; lia).
    assert (EN : (M = 2 * N)%Z).
    { unfold M, N. rewrite Nat2Z.inj_succ, Z.pow_succ_r by lia. reflexivity. }
    assert (E1 : ((p mod M) / 2 = (p / 2) mod N)%Z).
    { rewrite EN, Z.rem_mul_r by lia.
      replace (p mod 2 + 2 * ((p / 2) mod N))%Z
        with (p mod 2 + ((p / 2) mod N) * 2)%Z by lia.
      rewrite Z.div_add by lia. rewrite Z.div_small by lia. lia. }
    assert (E2 : ((p mod M) mod 2 = p mod 2)%Z).
    { rewrite EN, Z.rem_mul_r by lia.
      replace (p mod 2 + 2 * ((p / 2) mod N))%Z
        with (p mod 2 + ((p / 2) mod N) * 2)%Z by lia.
      rewrite Z.mod_add by lia. apply Z.mod_mod. lia. }
    assert (E3 : (p / M = (p / 2) / N)%Z).
    { rewrite EN, Z.div_div by lia. reflexivity. }
    change (rev (S w) (p mod M))
      with (rev w ((p mod M) / 2) + ((p mod M) mod 2) * 2 ^ Z.of_nat w)%Z.
    fold N. rewrite E1, E2, E3. lia.
Qed.

(** Reversing twice gives the number back. *)
Lemma rev_involutive (w : nat) (p : Z) :
  (0 <= p < 2 ^ Z.of_nat w)%Z -> rev w (rev w p) = p.
Proof.
  revert p. induction w as [|w IH]; intros p Hp.
  - change (2 ^ Z.of_nat 0)%Z with 1%Z in Hp. cbn [rev]. lia.
  - set (N := (2 ^ Z.of_nat w)%Z).
    assert (HN : (0 < N)%Z) by (apply Z.pow_pos_nonneg; lia).
    assert (EM : (2 ^ Z.of_nat (S w) = 2 * N)%Z).
    { unfold N. rewrite Nat2Z.inj_succ, Z.pow_succ_r by lia. reflexivity. }
    pose proof (rev_range (S w) p) as Hr.
    rewrite rev_high by exact Hr.
    change (rev (S w) p) with (rev w (p / 2) + (p mod 2) * 2 ^ Z.of_nat w)%Z.
    fold N.
    pose proof (rev_range w (p / 2)) as Hq. fold N in Hq.
    pose proof (Z.mod_pos_bound p 2 ltac:(lia)) as Hb.
    assert (E1 : ((rev w (p / 2) + p mod 2 * N) mod N = rev w (p / 2))%Z).
    { rewrite Z.mod_add by lia. apply Z.mod_small. exact Hq. }
    assert (E2 : ((rev w (p / 2) + p mod 2 * N) / N = p mod 2)%Z).
    { rewrite Z.div_add by lia. rewrite Z.div_small by exact Hq. lia. }
    rewrite E1, E2, IH.
    + symmetry. apply Z.div_mod. lia.
    + rewrite EM in Hp. split; [apply Z.div_pos; lia|].
      apply Z.div_lt_upper_bound; lia.
Qed.

(** The bits of the reversed number. *)
Lemma rev_bits (w : nat) (p b : Z) :
  (0 <= b < Z.of_nat w)%Z ->
  Z.testbit (rev w p) b = Z.testbit p (Z.of_nat w - 1 - b).
Proof.
  revert p b. induction w as [|w IH]; intros p b Hb; [lia|].
  cbn [rev].
  pose proof (rev_range w (p / 2)) as Hr.
  set (N := (2 ^ Z.of_nat w)%Z) in *.
  assert (HN : (0 < N)%Z) by (apply Z.pow_pos_nonneg; lia).
  pose proof (Z.mod_pos_bound p 2 ltac:(lia)) as Hm.
  destruct (Z.eq_dec b (Z.of_nat w)) as [->|Hne].
  - replace (Z.of_nat (S w) - 1 - Z.of_nat w)%Z with 0%Z by lia.
    rewrite Z.testbit_eqb by lia. fold N.
    rewrite Z.div_add by lia. rewrite (Z.div_small (rev w (p / 2))) by lia.
    rewrite Z.testbit_eqb by lia. change (2 ^ 0)%Z with 1%Z.
    rewrite Z.div_1_r. replace (0 + p mod 2)%Z with (p mod 2)%Z by lia.
    rewrite Z.mod_mod by lia. reflexivity.
  - replace (Z.of_nat (S w) - 1 - b)%Z with (Z.succ (Z.of_nat w - 1 - b)) by lia.
    rewrite <- Z.div2_bits by lia. rewrite <- IH by lia.
    rewrite !Z.testbit_eqb by lia.
    assert (Ediv : ((rev w (p / 2) + p mod 2 * N) / 2 ^ b
                    = rev w (p / 2) / 2 ^ b + p mod 2 * (N / 2 ^ b))%Z).
    { assert (EN : (N = 2 ^ b * 2 ^ (Z.of_nat w - b))%Z).
      { unfold N. rewrite <- Z.pow_add_r by lia. f_equal. lia. }
      assert (Hpb : (0 < 2 ^ b)%Z) by (apply Z.pow_pos_nonneg; lia).
      rewrite EN at 1.
      replace (rev w (p / 2) + p mod 2 * (2 ^ b * 2 ^ (Z.of_nat w - b)))%Z
        with (rev w (p / 2) + (p mod 2 * 2 ^ (Z.of_nat w - b)) * 2 ^ b)%Z by lia.
      rewrite Z.div_add by lia.
      rewrite EN. rewrite (Z.mul_comm (2 ^ b)), Z.div_mul by lia. lia. }
    rewrite Ediv.
    assert (Eeven : (N / 2 ^ b = 2 * 2 ^ (Z.of_nat w - b - 1))%Z).
    { unfold N. rewrite <- Z.pow_sub_r by lia.
      rewrite <- Z.pow_succ_r by lia. f_equal. lia. }
    rewrite Eeven.
    replace (rev w (p / 2) / 2 ^ b + p mod 2 * (2 * 2 ^ (Z.of_nat w - b - 1)))%Z
      with (rev w (p / 2) / 2 ^ b + (p mod 2 * 2 ^ (Z.of_nat w - b - 1)) * 2)%Z
      by lia.
    rewrite Z.mod_add by lia. reflexivity.
Qed.

(** Bit operations at one power of two. *)
Section OneBit.

Variable w : Z.
Variable a : Z.
Hypothesis Hw : (0 <= w)%Z.
Hypothesis Ha : (0 <= a < 2 ^ w)%Z.

Lemma low_bit_clear : Z.testbit a w = false.
Proof.
  apply Z.testbit_false; [exact Hw|]. rewrite Z.div_small by exact Ha.
  reflexivity.
Qed.

Lemma land_low_pow2 : Z.land a (2 ^ w) = 0%Z.
Proof.
  apply Z.bits_inj'. intros n Hn.
  rewrite Z.land_spec, Z.bits_0, Z.pow2_bits_eqb by exact Hw.
  destruct (Z.eqb_spec w n) as [<-|Hne].
  - rewrite low_bit_clear. reflexivity.
  - apply andb_false_r.
Qed.

Lemma lxor_low_pow2 : Z.lxor a (2 ^ w) = (a + 2 ^ w)%Z.
Proof. symmetry. apply Z.add_nocarry_lxor. exact land_low_pow2. Qed.

Lemma lxor_high_pow2 : Z.lxor (a + 2 ^ w) (2 ^ w) = a.
Proof.
  rewrite <- lxor_low_pow2, Z.lxor_assoc, Z.lxor_nilpotent. apply Z.lxor_0_r.
Qed.

Lemma land_high_pow2 : Z.land (a + 2 ^ w) (2 ^ w) = (2 ^ w)%Z.
Proof.
  rewrite <- lxor_low_pow2.
  apply Z.bits_inj'. intros n Hn.
  rewrite Z.land_spec, Z.lxor_spec, Z.pow2_bits_eqb by exact Hw.
  destruct (Z.eqb_spec w n) as [<-|Hne].
  - rewrite low_bit_clear. reflexivity.
  - apply andb_false_r.
Qed.

End OneBit.

(** The carry loop on the reversed counter: from the reverse of [p] it
    leaves the reverse of [p + 1], up to the bit it stops at. *)
Lemma carry_rev (w : nat) (p : Z) (fuel : nat) :
  (1 <= w <= 30)%nat -> (0 <= p)%Z -> (p + 1 < 2 ^ Z.of_nat w)%Z ->
  (w <= fuel)%nat ->
  exists j1 bit,
    carry fuel (rev w p) (2 ^ (Z.of_nat w - 1)) = Normal (j1, bit) /\
    bxor j1 bit = rev w (p + 1).
Proof.
  revert p fuel. induction w as [|w IH]; intros p fuel Hw Hp Hp1 Hf; [lia|].
  replace (Z.of_nat (S w) - 1)%Z with (Z.of_nat w) by lia.
  set (N := (2 ^ Z.of_nat w)%Z).
  assert (HN : (0 < N)%Z) by (apply Z.pow_pos_nonneg; lia).
  assert (HN31 : (N < 2 ^ 31)%Z) by (apply Z.pow_lt_mono_r; lia).
  assert (HN30 : (N <= 2 ^ 30)%Z) by (apply Z.pow_le_mono_r; lia).
  assert (EM : (2 ^ Z.of_nat (S w) = 2 * N)%Z).
  { unfold N. rewrite Nat2Z.inj_succ, Z.pow_succ_r by lia. reflexivity. }
  rewrite EM in Hp1.
  pose proof (rev_range w (p / 2)) as Hr. fold N in Hr.
  pose proof (Z.mod_pos_bound p 2 ltac:(lia)) as Hm.
  assert (Eq : (p = 2 * (p / 2) + p mod 2)%Z) by (apply Z.div_mod; lia).
  change (rev (S w) p) with (rev w (p / 2) + (p mod 2) * 2 ^ Z.of_nat w)%Z.
  fold N.
  destruct (Z.eq_dec (p mod 2) 0) as [Heven|Hodd].
  - rewrite Heven, Z.mul_0_l, Z.add_0_r.
    assert (Eb : band (rev w (p / 2)) N = 0%Z).
    { unfold band. rewrite !wrap32_small by lia.
      apply land_low_pow2; [lia | exact Hr]. }
    exists (rev w (p / 2)), N. split.
    + destruct fuel; cbn [carry]; rewrite Eb; reflexivity.
    + unfold bxor. rewrite !wrap32_small by lia.
      unfold N. rewrite lxor_low_pow2 by (try lia; exact Hr). fold N.
      replace (p + 1)%Z with (2 * (p / 2) + 1)%Z by lia.
      rewrite rev_odd. reflexivity.
  - assert (Hone : (p mod 2 = 1)%Z) by lia.
    rewrite Hone, Z.mul_1_l.
    assert (Eb : band (rev w (p / 2) + N) N = N).
    { unfold band. rewrite !wrap32_small by lia.
      apply land_high_pow2; [lia | exact Hr]. }
    assert (Ex : bxor (rev w (p / 2) + N) N = rev w (p / 2)).
    { unfold bxor. rewrite !wrap32_small by lia.
      apply lxor_high_pow2; [lia | exact Hr]. }
    destruct fuel as [|fuel]; [lia|].
    cbn [carry]. rewrite Eb.
    destruct (Z.eqb_spec N 0) as [H0|_]; [lia|].
    rewrite Ex.
    assert (Enext : rev (S w) (p + 1) = rev w (p / 2 + 1)).
    { replace (p + 1)%Z with (2 * (p / 2 + 1))%Z by lia. apply rev_even. }
    rewrite Enext.
    destruct w as [|w'].
    + exfalso. change (2 ^ Z.of_nat 0)%Z with 1%Z in N. unfold N in *. lia.
    + assert (Es : sar N 1 = (2 ^ (Z.of_nat (S w') - 1))%Z).
      { rewrite sar_1 by lia. unfold N.
        rewrite Nat2Z.inj_succ, Z.pow_succ_r by lia.
        replace (Z.succ (Z.of_nat w') - 1)%Z with (Z.of_nat w') by lia.
        rewrite Z.mul_comm, Z.div_mul by lia. reflexivity. }
      rewrite Es. apply IH; lia.
Qed.

(** The table loop of [ensureSize] writes the reverse of every index. *)
Lemma table_loop (m : nat) (k : nat) (table0 : list Z) :
  (1 <= m <= 30)%nat -> (Z.of_nat k < 2 ^ Z.of_nat m)%Z ->
  length table0 = Z.to_nat (2 ^ Z.of_nat m) ->
  exists table,
    fold_left (bitrev_step (2 ^ Z.of_nat m)) (range 1 (Z.of_nat k))
              (Normal (0%Z, table0))
    = Normal (rev m (Z.of_nat k), table) /\
    length table = length table0 /\
    (forall i, (1 <= i <= Z.of_nat k)%Z -> getZ table i = rev m i) /\
    (forall i, (i < 1 \/ Z.of_nat k < i)%Z -> getZ table i = getZ table0 i).
Proof.
  intros Hm Hk L.
  set (n := (2 ^ Z.of_nat m)%Z) in *.
  assert (Hn31 : (n < 2 ^ 31)%Z) by (apply Z.pow_lt_mono_r; lia).
  induction k as [|k IH].
  - exists table0. rewrite range_nil by lia. cbn [fold_left].
    rewrite rev_0. split; [reflexivity|]. split; [reflexivity|].
    split; [intros i Hi; lia | auto].
  - destruct IH as (table & E & Lt & Hin & Hout); [lia|].
    rewrite range_snoc by lia.
    replace (Z.of_nat (S k) - 1)%Z with (Z.of_nat k) by lia.
    rewrite fold_left_app, E. cbn [fold_left]. unfold bitrev_step. cbn [bind].
    assert (Es : sar n 1 = (2 ^ (Z.of_nat m - 1))%Z).
    { rewrite sar_1 by lia. unfold n.
      replace (Z.of_nat m) with (Z.succ (Z.of_nat m - 1)) at 1 by lia.
      rewrite Z.pow_succ_r by lia.
      rewrite Z.mul_comm, Z.div_mul by lia. reflexivity. }
    rewrite Es.
    destruct (carry_rev m (Z.of_nat k) 64 Hm ltac:(lia) ltac:(fold n; lia)
                        ltac:(lia))
      as (j1 & bit & Ec & Ex).
    rewrite Ec. cbn [bind]. rewrite Ex.
    replace (Z.of_nat k + 1)%Z with (Z.of_nat (S k)) by lia.
    pose proof (rev_range m (Z.of_nat (S k))) as Hr. fold n in Hr.
    assert (Eu : toUint32 (rev m (Z.of_nat (S k))) = rev m (Z.of_nat (S k))).
    { unfold toUint32. apply Z.mod_small. lia. }
    rewrite Eu.
    eexists. split; [reflexivity|].
    split; [rewrite length_set; exact Lt|].
    split.
    + intros i Hi. destruct (Z.eq_dec i (Z.of_nat (S k))) as [->|Hne].
      * unfold getZ. apply get_set_eq. rewrite Lt, L. lia.
      * unfold getZ. rewrite get_set_neq by congruence. apply Hin. lia.
    + intros i Hi. unfold getZ. rewrite get_set_neq by lia. apply Hout. lia.
Qed.

End BitReversal.

(* ------------------------------------------------------------------ *)
(** * The FFT engine: the table of [ensureSize] and the reordering pass *)

Module FftPasses.

Import RealFFT JSFacts LoopFacts Invariants FFTFacts FftReference BitReversal.

Lemma create_ok : fft_ok create.
Proof.
  split; [unfold fft_sized; cbn; repeat split; lia|].
  split; [reflexivity | left; reflexivity].
Qed.

(** The table of an engine of size [2^m]. *)
Lemma table_of_ok (st : t) (m : nat) :
  fft_ok st -> size st = (2 ^ Z.of_nat m)%Z ->
  forall i, (0 <= i < 2 ^ Z.of_nat m)%Z -> getZ (bitRevTable st) i = rev m i.
Proof.
  intros [_ [_ [H0 | (m' & Hs & Ht)]]] E i Hi.
  - pose proof (pow2_pos (Z.of_nat m) ltac:(lia)). lia.
  - assert (Em : Z.of_nat m' = Z.of_nat m).
    { apply (Z.pow_inj_r 2); try lia. }
    assert (m' = m) by lia. subst m'. apply Ht. lia.
Qed.

(** [ensureSize] at a power of two leaves an engine of that size whose
    table reverses the bits of every index. *)
Lemma ensureSize_table (this : t) (m : nat) :
  (m <= 30)%nat -> fft_ok this ->
  exists this',
    ensureSize this (2 ^ Z.of_nat m) = Normal this' /\
    size this' = (2 ^ Z.of_nat m)%Z /\ fft_ok this'.
Proof.
  intros Hm Hok. unfold ensureSize.
  set (n := (2 ^ Z.of_nat m)%Z).
  assert (Hn : (0 < n)%Z) by (apply pow2_pos; lia).
  assert (Hn31 : (n < 2 ^ 31)%Z) by (apply pow2_lt; lia).
  destruct (Z.eqb_spec (size this) n) as [E|E].
  - exists this. auto.
  - unfold Float32Array_new, UintArray_new.
    destruct (n <? 0)%Z eqn:E1; [lia|].
    assert (0 <= Z.quot n 2)%Z by (apply Z.quot_pos; lia).
    destruct (Z.quot n 2 <? 0)%Z eqn:E2; [lia|].
    cbn [bind].
    assert (Ht : exists j table,
      fold_left (bitrev_step n) (range 1 (n - 1))
                (Normal (0%Z, repeat 0%Z (Z.to_nat n))) = Normal (j, table) /\
      length table = Z.to_nat n /\
      forall i, (0 <= i < n)%Z -> getZ table i = rev m i).
    { destruct m as [|m'].
      - change n with 1%Z. exists 0%Z, [0%Z]. split; [reflexivity|].
        split; [reflexivity|]. intros i Hi.
        assert (i = 0%Z) by (change n with 1%Z in Hi; lia). subst i.
        reflexivity.
      - destruct (table_loop (S m') (Z.to_nat (n - 1)) (repeat 0%Z (Z.to_nat n)))
          as (table & Et & Lt & Hin & Hout).
        + lia.
        + fold n. lia.
        + apply repeat_length.
        + rewrite Z2Nat.id in Et, Hin, Hout by lia. fold n in Et.
          exists (rev (S m') (n - 1)), table. split; [exact Et|].
          split; [rewrite Lt; apply repeat_length|].
          intros i Hi. destruct (Z.eq_dec i 0) as [->|Hne].
          * rewrite Hout by lia. rewrite rev_0.
            unfold getZ, get. cbn [Z.ltb Z.compare Z.to_nat].
            apply nth_repeat_any.
          * apply Hin. lia. }
    destruct Ht as (j & table & Et & Lt & Hrev).
    rewrite Et. cbn [bind].
    eexists. split; [reflexivity|]. split; [reflexivity|].
    split.
    + unfold fft_sized; cbn. rewrite !length_zeros. repeat split; lia.
    + split; cbn [size bitRevTable]; [exact Lt|].
      right. exists m. split; [reflexivity | exact Hrev].
Qed.

(** One round of the reordering pass, cell by cell. *)
Lemma bitrev_swap_cells (n : nat) (table : list Z) (bufs : list R * list R)
  (i p : Z) :
  sized n bufs -> (0 <= i)%Z -> (getZ table i < Z.of_nat n)%Z ->
  cell (bitrev_swap table bufs i) p
  = if (i <? getZ table i)%Z
    then if (p =? getZ table i)%Z then cell bufs i
         else if (p =? i)%Z then cell bufs (getZ table i)
         else cell bufs p
    else cell bufs p.
Proof.
  destruct bufs as [re im]. intros [L1 L2] Hi Hj. cbn [fst snd] in L1, L2.
  unfold bitrev_swap. set (j := getZ table i) in *.
  destruct (Z.ltb_spec i j) as [Hlt|Hge]; [|reflexivity].
  unfold cell; cbn [fst snd]. unfold getR.
  destruct (Z.eqb_spec p j) as [->|Hpj].
  - rewrite !get_set_eq by (rewrite length_set; lia). reflexivity.
  - rewrite !(get_set_neq 0 _ j p) by congruence.
    destruct (Z.eqb_spec p i) as [->|Hpi].
    + rewrite !get_set_eq by lia. reflexivity.
    + rewrite !get_set_neq by congruence. reflexivity.
Qed.

Section SwapPass.

Variable m : nat.
Variable table : list Z.
Variable bufs0 : list R * list R.

Hypothesis Htable :
  forall i, (0 <= i < 2 ^ Z.of_nat m)%Z -> getZ table i = rev m i.
Hypothesis Hsized : sized (Z.to_nat (2 ^ Z.of_nat m)) bufs0.

(** After the rounds [1 .. k] the cells whose index or reversed index is
    at most [k] have changed places with their mirror cells. *)
Lemma swap_rounds (k : nat) :
  (Z.of_nat k < 2 ^ Z.of_nat m)%Z ->
  sized (Z.to_nat (2 ^ Z.of_nat m))
        (fold_left (bitrev_swap table) (range 1 (Z.of_nat k)) bufs0) /\
  forall p, (0 <= p < 2 ^ Z.of_nat m)%Z ->
    cell (fold_left (bitrev_swap table) (range 1 (Z.of_nat k)) bufs0) p
    = if (Z.min p (rev m p) <=? Z.of_nat k)%Z then cell bufs0 (rev m p)
      else cell bufs0 p.
Proof.
  set (n := (2 ^ Z.of_nat m)%Z) in *.
  induction k as [|k IH]; intros Hk.
  - rewrite range_nil by lia. cbn [fold_left]. split; [exact Hsized|].
    intros p Hp. pose proof (rev_range m p) as Hr. fold n in Hr.
    destruct (Z.leb_spec (Z.min p (rev m p)) (Z.of_nat 0)) as [Hle|_];
      [|reflexivity].
    assert (p = 0%Z).
    { destruct (Z.eq_dec p 0) as [|Hne]; [assumption|].
      assert (E0 : rev m p = 0%Z) by lia.
      rewrite <- (rev_involutive m p) by (fold n; lia).
      rewrite E0. apply rev_0. }
    subst p. rewrite rev_0. reflexivity.
  - destruct IH as [Sk Ck]; [lia|].
    rewrite range_snoc by lia.
    replace (Z.of_nat (S k) - 1)%Z with (Z.of_nat k) by lia.
    rewrite fold_left_app. cbn [fold_left].
    set (cur := fold_left (bitrev_swap table) (range 1 (Z.of_nat k)) bufs0) in *.
    set (i := Z.of_nat (S k)).
    assert (Hi : (0 <= i < n)%Z) by (unfold i; lia).
    assert (Ej : getZ table i = rev m i) by (apply Htable; exact Hi).
    pose proof (rev_range m i) as Hj. fold n in Hj.
    split; [apply bitrev_swap_sized; exact Sk|].
    intros p Hp.
    rewrite (bitrev_swap_cells (Z.to_nat n)) by (try exact Sk; lia).
    rewrite Ej.
    pose proof (rev_range m p) as Hr. fold n in Hr.
    assert (Hinv : forall q, (0 <= q < n)%Z -> rev m (rev m q) = q).
    { intros q Hq. apply rev_involutive. fold n. exact Hq. }
    destruct (Z.ltb_spec i (rev m i)) as [Hlt|Hge].
    + destruct (Z.eqb_spec p (rev m i)) as [->|Hpj].
      * rewrite Hinv by exact Hi.
        rewrite (Ck i Hi).
        destruct (Z.leb_spec (Z.min i (rev m i)) (Z.of_nat k)); [unfold i in *; lia|].
        destruct (Z.leb_spec (Z.min (rev m i) i) i); [reflexivity | lia].
      * destruct (Z.eqb_spec p i) as [->|Hpi].
        -- rewrite (Ck (rev m i) Hj), Hinv by exact Hi.
           destruct (Z.leb_spec (Z.min (rev m i) i) (Z.of_nat k));
             [unfold i in *; lia|].
           destruct (Z.leb_spec (Z.min i (rev m i)) i); [reflexivity | lia].
        -- rewrite (Ck p Hp).
           assert (Hne : rev m p <> i).
           { intros E. apply Hpj. rewrite <- E. symmetry. apply Hinv. exact Hp. }
           destruct (Z.leb_spec (Z.min p (rev m p)) (Z.of_nat k));
             destruct (Z.leb_spec (Z.min p (rev m p)) i);
             try reflexivity; unfold i in *; lia.
    + rewrite (Ck p Hp).
      destruct (Z.leb_spec (Z.min p (rev m p)) (Z.of_nat k));
        destruct (Z.leb_spec (Z.min p (rev m p)) i);
        try reflexivity; try (unfold i in *; lia).
      assert (Epi : p = i).
      { destruct (Z.eq_dec p i) as [|Hpi]; [assumption|].
        assert (E : rev m p = i) by (unfold i in *; lia).
        assert (Ep : p = rev m i) by (rewrite <- E; symmetry; apply Hinv; exact Hp).
        unfold i in *. lia. }
      subst p.
      assert (E : rev m i = i) by (unfold i in *; lia).
      rewrite E. reflexivity.
Qed.

(** The whole pass puts every cell at its reversed index. *)
Lemma swap_pass :
  sized (Z.to_nat (2 ^ Z.of_nat m))
        (fold_left (bitrev_swap table) (range 1 (2 ^ Z.of_nat m - 1)) bufs0) /\
  forall p, (0 <= p < 2 ^ Z.of_nat m)%Z ->
    cell (fold_left (bitrev_swap table) (range 1 (2 ^ Z.of_nat m - 1)) bufs0) p
    = cell bufs0 (rev m p).
Proof.
  pose proof (pow2_pos (Z.of_nat m) ltac:(lia)) as Hn.
  destruct (swap_rounds (Z.to_nat (2 ^ Z.of_nat m - 1))) as [S1 C1]; [lia|].
  rewrite Z2Nat.id in S1, C1 by lia.
  split; [exact S1|]. intros p Hp. rewrite (C1 p Hp).
  destruct (Z.leb_spec (Z.min p (rev m p)) (2 ^ Z.of_nat m - 1));
    [reflexivity | lia].
Qed.

End SwapPass.

(** The input buffer after the copy: the frame continued with zeros. *)
Lemma blit_padded (n : nat) (signal : list R) (p : Z) :
  (length signal <= n)%nat -> (0 <= p < Z.of_nat n)%Z ->
  getR (blit (zeros n) signal) p = padded signal p.
Proof.
  revert signal p. induction n as [|n IH]; intros signal p Hl Hp; [lia|].
  unfold padded. destruct signal as [|s signal].
  - cbn [blit zeros repeat length]. cbn [Z.of_nat].
    destruct (Z.ltb_spec p 0); [lia|]. apply (getR_zeros (S n)).
  - cbn [blit zeros repeat]. fold (zeros n).
    destruct (Z.eq_dec p 0) as [->|Hne].
    + cbn [length]. destruct (Z.ltb_spec 0 (Z.of_nat (S (length signal)))); [|lia].
      reflexivity.
    + assert (Eg : forall (x : R) l, getR (x :: l) p = getR l (p - 1)).
      { intros x l. unfold getR, get.
        destruct (Z.ltb_spec p 0); [lia|]. destruct (Z.ltb_spec (p - 1) 0); [lia|].
        replace (Z.to_nat p) with (S (Z.to_nat (p - 1))) by lia. reflexivity. }
      rewrite !Eg. rewrite IH by (cbn [length] in Hl; lia).
      unfold padded. cbn [length].
      destruct (Z.ltb_spec (p - 1) (Z.of_nat (length signal)));
        destruct (Z.ltb_spec p (Z.of_nat (S (length signal))));
        try reflexivity; lia.
Qed.

End FftPasses.

(* ------------------------------------------------------------------ *)
(** * The FFT engine: one stage of butterflies, cell by cell *)

Module FftStage.

Import RealFFT JSFacts LoopFacts Invariants FFTFacts FftReference.

Lemma twiddle_0 (ang : R) : twiddle ang 0 = (1, 0).
Proof.
  unfold twiddle. rewrite Rmult_0_l, cos_0, sin_0. reflexivity.
Qed.

(** The running factor of the inner loop is the twiddle factor. *)
Lemma twiddle_succ (ang : R) (k : Z) :
  cmul (twiddle ang k) (cos ang, sin ang) = twiddle ang (k + 1).
Proof.
  unfold cmul, twiddle; cbn [fst snd]. rewrite plus_IZR.
  replace ((IZR k + 1) * ang) with (IZR k * ang + ang) by ring.
  rewrite cos_plus, sin_plus. f_equal; ring.
Qed.

Lemma cell_pair (re im : list R) (p : Z) :
  cell (re, im) p = (getR re p, getR im p).
Proof. reflexivity. Qed.

Section Block.

Variable n : nat.
Variable ang : R.
Variable i half : Z.
Variable old : list R * list R.

Hypothesis Hi : (0 <= i)%Z.
Hypothesis Hhalf : (0 < half)%Z.
Hypothesis Hfit : (i + 2 * half <= Z.of_nat n)%Z.
Hypothesis Hsized : sized n old.

(** The first [K] butterflies of a block. *)
Lemma butterflies (K : nat) :
  (Z.of_nat K <= half)%Z ->
  exists re im,
    fold_left (butterfly (cos ang) (sin ang) i half)
              (range 0 (Z.of_nat K - 1)) (fst old, snd old, 1, 0)
    = (re, im, fst (twiddle ang (Z.of_nat K)), snd (twiddle ang (Z.of_nat K))) /\
    sized n (re, im) /\
    forall p,
      cell (re, im) p
      = if ((i <=? p) && (p <? i + Z.of_nat K))%Z
        then cadd (cell old p)
                  (cmul (cell old (p + half)) (twiddle ang (p - i)))
        else if ((i + half <=? p) && (p <? i + half + Z.of_nat K))%Z
        then csub (cell old (p - half))
                  (cmul (cell old p) (twiddle ang (p - half - i)))
        else cell old p.
Proof.
  induction K as [|K IH]; intros HK.
  - exists (fst old), (snd old). rewrite range_nil by lia. cbn [fold_left].
    change (Z.of_nat 0) with 0%Z. rewrite twiddle_0. cbn [fst snd].
    split; [reflexivity|]. split; [exact Hsized|].
    intros p.
    destruct (Z.leb_spec i p); destruct (Z.ltb_spec p (i + 0));
      destruct (Z.leb_spec (i + half) p); destruct (Z.ltb_spec p (i + half + 0));
      cbn [andb]; try lia; destruct old; reflexivity.
  - destruct IH as (re & im & E & [L1 L2] & C); [lia|].
    cbn [fst snd] in L1, L2.
    rewrite range_snoc by lia.
    replace (Z.of_nat (S K) - 1)%Z with (Z.of_nat K) by lia.
    rewrite fold_left_app, E. cbn [fold_left]. unfold butterfly.
    cbv beta iota zeta.
    remember (Z.of_nat K) as k eqn:Ek.
    remember (i + k)%Z as a eqn:Ea in |- *.
    remember (a + half)%Z as b eqn:Eb in |- *.
    set (wRe := fst (twiddle ang k)). set (wIm := snd (twiddle ang k)).
    assert (Ca : cell (re, im) a = cell old a).
    { rewrite C.
      destruct (Z.leb_spec i a); destruct (Z.ltb_spec a (i + k));
        destruct (Z.leb_spec (i + half) a);
        destruct (Z.ltb_spec a (i + half + k));
        cbn [andb]; try lia; reflexivity. }
    assert (Cb : cell (re, im) b = cell old b).
    { rewrite C.
      destruct (Z.leb_spec i b); destruct (Z.ltb_spec b (i + k));
        destruct (Z.leb_spec (i + half) b);
        destruct (Z.ltb_spec b (i + half + k));
        cbn [andb]; try lia; reflexivity. }
    rewrite cell_pair in Ca, Cb.
    assert (Ea1 : getR re a = fst (cell old a)) by (rewrite <- Ca; reflexivity).
    assert (Ea2 : getR im a = snd (cell old a)) by (rewrite <- Ca; reflexivity).
    assert (Eb1 : getR re b = fst (cell old b)) by (rewrite <- Cb; reflexivity).
    assert (Eb2 : getR im b = snd (cell old b)) by (rewrite <- Cb; reflexivity).
    rewrite Ea1, Ea2, Eb1, Eb2.
    assert (Ek1 : Z.of_nat (S K) = (k + 1)%Z) by lia.
    rewrite Ek1.
    match goal with
    | |- exists re' im', (?r, ?j, _, _) = _ /\ _ => exists r, j
    end.
    split.
    + rewrite <- twiddle_succ. reflexivity.
    + split; [split; cbn [fst snd]; rewrite !length_set; assumption|].
      intros p. rewrite cell_pair. unfold getR.
      destruct (Z.eq_dec p b) as [->|Hpb].
      * rewrite !get_set_eq by (rewrite length_set; lia).
        destruct (Z.leb_spec i b); destruct (Z.ltb_spec b (i + (k + 1)));
          destruct (Z.leb_spec (i + half) b);
          destruct (Z.ltb_spec b (i + half + (k + 1)));
          cbn [andb]; try lia.
        replace (b - half)%Z with a by lia.
        replace (a - i)%Z with k by lia.
        unfold csub, cmul; cbn [fst snd]. reflexivity.
      * rewrite !(get_set_neq 0 _ b p) by congruence.
        destruct (Z.eq_dec p a) as [->|Hpa].
        -- rewrite !get_set_eq by lia.
           destruct (Z.leb_spec i a); destruct (Z.ltb_spec a (i + (k + 1)));
             cbn [andb]; try lia.
           replace (a + half)%Z with b by lia.
           replace (a - i)%Z with k by lia.
           unfold cadd, cmul; cbn [fst snd]. reflexivity.
        -- rewrite !get_set_neq by congruence.
           fold (getR re p). fold (getR im p). rewrite <- cell_pair, C.
           destruct (Z.leb_spec i p); destruct (Z.ltb_spec p (i + k));
             destruct (Z.ltb_spec p (i + (k + 1)));
             destruct (Z.leb_spec (i + half) p);
             destruct (Z.ltb_spec p (i + half + k));
             destruct (Z.ltb_spec p (i + half + (k + 1)));
             cbn [andb]; try reflexivity; lia.
Qed.

(** A whole block. *)
Lemma block_cells (len : Z) :
  len = (2 * half)%Z -> (len < 2 ^ 31)%Z ->
  sized n (block (cos ang) (sin ang) len old i) /\
  forall p,
    cell (block (cos ang) (sin ang) len old i) p
    = if ((i <=? p) && (p <? i + half))%Z
      then cadd (cell old p)
                (cmul (cell old (p + half)) (twiddle ang (p - i)))
      else if ((i + half <=? p) && (p <? i + len))%Z
      then csub (cell old (p - half))
                (cmul (cell old p) (twiddle ang (p - half - i)))
      else cell old p.
Proof.
  intros Hlen H31.
  assert (Es : sar len 1 = half).
  { rewrite sar_1 by lia. subst len.
    rewrite Z.mul_comm, Z.div_mul by lia. reflexivity. }
  destruct (butterflies (Z.to_nat half)) as (re & im & E & S1 & C); [lia|].
  rewrite Z2Nat.id in E, C by lia.
  unfold block. destruct old as [re0 im0]. cbn [fst snd] in E.
  rewrite Es, E. split; [exact S1|].
  intros p. rewrite C.
  replace (i + half + half)%Z with (i + len)%Z by lia. reflexivity.
Qed.

End Block.

(** The blocks of a stage, one after the other. *)
Lemma blocks_done (n : nat) (len half blocks : Z) (bufs : list R * list R)
  (q : nat) :
  (0 < half)%Z -> len = (2 * half)%Z -> (len < 2 ^ 31)%Z ->
  Z.of_nat n = (blocks * len)%Z -> sized n bufs ->
  (Z.of_nat q <= blocks)%Z ->
  sized n (fold_left (block (cos (-2 * PI / IZR len)) (sin (-2 * PI / IZR len)) len)
                     (map (fun b => (b * len)%Z) (range 0 (Z.of_nat q - 1)))
                     bufs) /\
  forall p, (0 <= p)%Z ->
    cell (fold_left (block (cos (-2 * PI / IZR len)) (sin (-2 * PI / IZR len)) len)
                    (map (fun b => (b * len)%Z) (range 0 (Z.of_nat q - 1)))
                    bufs) p
    = if (p <? Z.of_nat q * len)%Z then stage_fn len (cell bufs) p
      else cell bufs p.
Proof.
  intros Hhalf Hlen H31 Hn Hs.
  set (ang := -2 * PI / IZR len).
  induction q as [|q IH]; intros Hq.
  - rewrite range_nil by lia. cbn [map fold_left]. split; [exact Hs|].
    intros p Hp. destruct (Z.ltb_spec p (Z.of_nat 0 * len)); [lia | reflexivity].
  - destruct IH as [Sq Cq]; [lia|].
    rewrite range_snoc by lia.
    replace (Z.of_nat (S q) - 1)%Z with (Z.of_nat q) by lia.
    rewrite map_app, fold_left_app. cbn [map fold_left].
    set (cur := fold_left (block (cos ang) (sin ang) len)
                  (map (fun b => (b * len)%Z) (range 0 (Z.of_nat q - 1))) bufs)
      in *.
    set (i := (Z.of_nat q * len)%Z).
    assert (Hi : (0 <= i)%Z) by (unfold i; nia).
    assert (Hfit : (i + 2 * half <= Z.of_nat n)%Z) by (unfold i; nia).
    destruct (block_cells n ang i half cur Hi Hhalf Hfit Sq len Hlen H31)
      as [Sb Cb].
    split; [exact Sb|].
    intros p Hp. rewrite Cb.
    assert (Enext : (Z.of_nat (S q) * len = i + len)%Z) by (unfold i; lia).
    rewrite Enext.
    destruct (Z.leb_spec i p) as [Hip|Hip]; cbn [andb].
    + destruct (Z.ltb_spec p (i + half)) as [Hph|Hph].
      * destruct (Z.ltb_spec p (i + len)); [|lia].
        rewrite (Cq p Hp), (Cq (p + half)%Z) by lia.
        destruct (Z.ltb_spec p (Z.of_nat q * len)); [unfold i in *; lia|].
        destruct (Z.ltb_spec (p + half) (Z.of_nat q * len)); [unfold i in *; lia|].
        unfold stage_fn.
        assert (Em : (p mod len = p - i)%Z).
        { replace p with ((p - i) + Z.of_nat q * len)%Z at 1 by (unfold i; lia).
          rewrite Z.mod_add by lia. apply Z.mod_small. lia. }
        assert (Eh : (len / 2 = half)%Z).
        { subst len. rewrite Z.mul_comm, Z.div_mul by lia. reflexivity. }
        rewrite Em, Eh.
        destruct (Z.ltb_spec (p - i) half); [|lia]. reflexivity.
      * destruct (Z.leb_spec (i + half) p); [|lia]. cbn [andb].
        destruct (Z.ltb_spec p (i + len)) as [Hpl|Hpl].
        -- rewrite (Cq p Hp), (Cq (p - half)%Z) by lia.
           destruct (Z.ltb_spec p (Z.of_nat q * len)); [unfold i in *; lia|].
           destruct (Z.ltb_spec (p - half) (Z.of_nat q * len));
             [unfold i in *; lia|].
           unfold stage_fn.
           assert (Em : (p mod len = p - i)%Z).
           { replace p with ((p - i) + Z.of_nat q * len)%Z at 1 by (unfold i; lia).
             rewrite Z.mod_add by lia. apply Z.mod_small. lia. }
           assert (Eh : (len / 2 = half)%Z).
           { subst len. rewrite Z.mul_comm, Z.div_mul by lia. reflexivity. }
           rewrite Em, Eh.
           destruct (Z.ltb_spec (p - i) half); [lia|].
           replace (p - half - i)%Z with (p - i - half)%Z by lia. reflexivity.
        -- rewrite (Cq p Hp).
           destruct (Z.ltb_spec p (Z.of_nat q * len)); [unfold i in *; lia|].
           reflexivity.
    + destruct (Z.leb_spec (i + half) p); [lia|]. cbn [andb].
      destruct (Z.ltb_spec p (i + len)); [|lia].
      rewrite (Cq p Hp).
      destruct (Z.ltb_spec p (Z.of_nat q * len)); [|unfold i in *; lia].
      reflexivity.
Qed.

(** One stage, on buffers of a whole number of blocks. *)
Lemma stage_cells (n : nat) (len half blocks : Z) (bufs : list R * list R) :
  (0 < half)%Z -> len = (2 * half)%Z -> (len < 2 ^ 31)%Z ->
  (0 <= blocks)%Z -> Z.of_nat n = (blocks * len)%Z -> sized n bufs ->
  exists bufs',
    stage (Z.of_nat n) len bufs = Normal bufs' /\ sized n bufs' /\
    forall p, (0 <= p < Z.of_nat n)%Z ->
              cell bufs' p = stage_fn len (cell bufs) p.
Proof.
  intros Hhalf Hlen H31 Hb Hn Hs. unfold stage.
  destruct (Z.ltb_spec 0 len) as [_|H]; [|lia].
  eexists. split; [reflexivity|].
  unfold block_starts.
  assert (Eq : ((Z.of_nat n - 1) / len = blocks - 1)%Z).
  { symmetry. apply Z.div_unique with (r := (len - 1)%Z); lia. }
  rewrite Eq.
  destruct (blocks_done n len half blocks bufs (Z.to_nat blocks)
                        Hhalf Hlen H31 Hn Hs ltac:(lia)) as [S1 C1].
  rewrite Z2Nat.id in S1, C1 by lia.
  split; [exact S1|].
  intros p Hp. rewrite C1 by lia.
  destruct (Z.ltb_spec p (blocks * len)); [reflexivity | lia].
Qed.

End FftStage.

(* ------------------------------------------------------------------ *)
(** * The discrete Fourier transform: the split into even and odd terms *)

Module DftSplit.

Import JSFacts FFTFacts FftReference DftFacts.

Lemma sum_even_odd (g : Z -> R) (N : nat) :
  sumR (map g (range 0 (2 * Z.of_nat N - 1)))
  = sumR (map (fun u => g (2 * u)%Z) (range 0 (Z.of_nat N - 1)))
    + sumR (map (fun u => g (2 * u + 1)%Z) (range 0 (Z.of_nat N - 1))).
Proof.
  induction N as [|N IH].
  - rewrite !range_nil by lia. unfold sumR; cbn [map fold_right]. lra.
  - replace (2 * Z.of_nat (S N) - 1)%Z with (2 * Z.of_nat N + 1)%Z by lia.
    rewrite (range_snoc 0 (2 * Z.of_nat N + 1)) by lia.
    replace (2 * Z.of_nat N + 1 - 1)%Z with (2 * Z.of_nat N)%Z by lia.
    rewrite (range_snoc 0 (2 * Z.of_nat N)) by lia.
    replace (Z.of_nat (S N) - 1)%Z with (Z.of_nat N) by lia.
    rewrite (range_snoc 0 (Z.of_nat N)) by lia.
    rewrite !map_app, !sumR_app, IH.
    unfold sumR at 3 4 6 8. cbn [map fold_right]. lra.
Qed.

Lemma dft_ext (x y : Z -> R) (N k : Z) :
  (forall t, (0 <= t < N)%Z -> x t = y t) -> dft x N k = dft y N k.
Proof.
  intros H. unfold dft, dft_re, dft_im. f_equal; [|f_equal];
    apply sumR_ext; intros t Ht; apply In_range in Ht; rewrite H by lia;
    reflexivity.
Qed.

(** A transform of one term is that term. *)
Lemma dft_one (x : Z -> R) : dft x 1 0 = (x 0%Z, 0).
Proof.
  unfold dft, dft_re, dft_im.
  change (range 0 (1 - 1)) with [0%Z]. unfold sumR; cbn [map fold_right].
  replace (2 * PI * 0 * 0 / 1) with 0 by field.
  rewrite cos_0, sin_0. f_equal; ring.
Qed.

Section Split.

Variable s : Z -> R.
Variable N : nat.
Variable k K : Z.
Variable sigma : R.

Hypothesis HN : (0 < N)%nat.

Hypothesis even_cos : forall u : Z,
  cos (2 * PI * IZR K * IZR (2 * u) / IZR (2 * Z.of_nat N))
  = cos (2 * PI * IZR k * IZR u / IZR (Z.of_nat N)).
Hypothesis even_sin : forall u : Z,
  sin (2 * PI * IZR K * IZR (2 * u) / IZR (2 * Z.of_nat N))
  = sin (2 * PI * IZR k * IZR u / IZR (Z.of_nat N)).
Hypothesis odd_cos : forall u : Z,
  cos (2 * PI * IZR K * IZR (2 * u + 1) / IZR (2 * Z.of_nat N))
  = sigma * cos (2 * PI * IZR k * IZR u / IZR (Z.of_nat N)
                 - IZR k * (-2 * PI / IZR (2 * Z.of_nat N))).
Hypothesis odd_sin : forall u : Z,
  sin (2 * PI * IZR K * IZR (2 * u + 1) / IZR (2 * Z.of_nat N))
  = sigma * sin (2 * PI * IZR k * IZR u / IZR (Z.of_nat N)
                 - IZR k * (-2 * PI / IZR (2 * Z.of_nat N))).

Lemma dft_split :
  dft s (2 * Z.of_nat N) K
  = (dft_re (fun u => s (2 * u)%Z) (Z.of_nat N) k
     + sigma * fst (cmul (dft (fun u => s (2 * u + 1)%Z) (Z.of_nat N) k)
                         (twiddle (-2 * PI / IZR (2 * Z.of_nat N)) k)),
     dft_im (fun u => s (2 * u)%Z) (Z.of_nat N) k
     + sigma * snd (cmul (dft (fun u => s (2 * u + 1)%Z) (Z.of_nat N) k)
                         (twiddle (-2 * PI / IZR (2 * Z.of_nat N)) k))).
Proof.
  unfold dft, cmul, twiddle; cbn [fst snd].
  set (th := IZR k * (-2 * PI / IZR (2 * Z.of_nat N))) in *.
  unfold dft_re, dft_im. rewrite !sum_even_odd.
  set (A := fun u : Z => 2 * PI * IZR k * IZR u / IZR (Z.of_nat N)) in *.
  set (ks := range 0 (Z.of_nat N - 1)).
  assert (E1 : sumR (map (fun u => s (2 * u)%Z
                  * cos (2 * PI * IZR K * IZR (2 * u) / IZR (2 * Z.of_nat N))) ks)
               = sumR (map (fun u => s (2 * u)%Z * cos (A u)) ks)).
  { apply sumR_ext. intros u _. rewrite even_cos. reflexivity. }
  assert (E2 : sumR (map (fun u => s (2 * u)%Z
                  * sin (2 * PI * IZR K * IZR (2 * u) / IZR (2 * Z.of_nat N))) ks)
               = sumR (map (fun u => s (2 * u)%Z * sin (A u)) ks)).
  { apply sumR_ext. intros u _. rewrite even_sin. reflexivity. }
  assert (E3 : sumR (map (fun u => s (2 * u + 1)%Z
                  * cos (2 * PI * IZR K * IZR (2 * u + 1) / IZR (2 * Z.of_nat N))) ks)
               = sigma * cos th
                 * sumR (map (fun u => s (2 * u + 1)%Z * cos (A u)) ks)
                 + sigma * sin th
                   * sumR (map (fun u => s (2 * u + 1)%Z * sin (A u)) ks)).
  { rewrite <- !sumR_times, <- sumR_plus. apply sumR_ext. intros u _.
    rewrite odd_cos. fold (A u). rewrite cos_minus. ring. }
  assert (E4 : sumR (map (fun u => s (2 * u + 1)%Z
                  * sin (2 * PI * IZR K * IZR (2 * u + 1) / IZR (2 * Z.of_nat N))) ks)
               = sigma * cos th
                 * sumR (map (fun u => s (2 * u + 1)%Z * sin (A u)) ks)
                 + - (sigma * sin th)
                   * sumR (map (fun u => s (2 * u + 1)%Z * cos (A u)) ks)).
  { rewrite <- !sumR_times, <- sumR_plus. apply sumR_ext. intros u _.
    rewrite odd_sin. fold (A u). rewrite sin_minus. ring. }
  rewrite E1, E2, E3, E4. subst A. cbv beta.
  apply f_equal2; ring.
Qed.

End Split.

Section Halves.

Variable s : Z -> R.
Variable N : nat.
Variable k : Z.

Hypothesis HN : (0 < N)%nat.

Lemma size_nonzero : IZR (Z.of_nat N) <> 0.
Proof. apply not_0_IZR. lia. Qed.

(** The lower half of the transform of twice the size. *)
Lemma dft_low :
  dft s (2 * Z.of_nat N) k
  = cadd (dft (fun u => s (2 * u)%Z) (Z.of_nat N) k)
         (cmul (dft (fun u => s (2 * u + 1)%Z) (Z.of_nat N) k)
               (twiddle (-2 * PI / IZR (2 * Z.of_nat N)) k)).
Proof.
  pose proof size_nonzero as Hnz.
  rewrite (dft_split s N k k 1).
  - unfold cadd, dft; cbn [fst snd]. f_equal; ring.
  - intros u. f_equal. rewrite !mult_IZR. field. exact Hnz.
  - intros u. f_equal. rewrite !mult_IZR. field. exact Hnz.
  - intros u. rewrite Rmult_1_l. f_equal.
    rewrite plus_IZR, !mult_IZR. field. exact Hnz.
  - intros u. rewrite Rmult_1_l. f_equal.
    rewrite plus_IZR, !mult_IZR. field. exact Hnz.
Qed.

(** The upper half. *)
Lemma dft_high :
  dft s (2 * Z.of_nat N) (k + Z.of_nat N)
  = csub (dft (fun u => s (2 * u)%Z) (Z.of_nat N) k)
         (cmul (dft (fun u => s (2 * u + 1)%Z) (Z.of_nat N) k)
               (twiddle (-2 * PI / IZR (2 * Z.of_nat N)) k)).
Proof.
  pose proof size_nonzero as Hnz.
  rewrite (dft_split s N k (k + Z.of_nat N) (-1)).
  - unfold csub, dft; cbn [fst snd]. f_equal; ring.
  - intros u.
    rewrite <- (cos_turns (2 * PI * IZR k * IZR u / IZR (Z.of_nat N)) u).
    f_equal. rewrite plus_IZR, !mult_IZR. field. exact Hnz.
  - intros u.
    rewrite <- (sin_turns (2 * PI * IZR k * IZR u / IZR (Z.of_nat N)) u).
    f_equal. rewrite plus_IZR, !mult_IZR. field. exact Hnz.
  - intros u.
    set (x := 2 * PI * IZR k * IZR u / IZR (Z.of_nat N)
              - IZR k * (-2 * PI / IZR (2 * Z.of_nat N))).
    replace (-1 * cos x) with (- cos x) by ring.
    rewrite <- neg_cos, <- (cos_turns (x + PI) u).
    f_equal. unfold x. rewrite !plus_IZR, !mult_IZR. field. exact Hnz.
  - intros u.
    set (x := 2 * PI * IZR k * IZR u / IZR (Z.of_nat N)
              - IZR k * (-2 * PI / IZR (2 * Z.of_nat N))).
    replace (-1 * sin x) with (- sin x) by ring.
    rewrite <- neg_sin, <- (sin_turns (x + PI) u).
    f_equal. unfold x. rewrite !plus_IZR, !mult_IZR. field. exact Hnz.
Qed.

End Halves.

End DftSplit.

(* ------------------------------------------------------------------ *)
(** * The FFT engine computes the discrete Fourier transform *)

Module FftCorrect.

Import RealFFT JSFacts LoopFacts Invariants FFTFacts FftReference.
Import BitReversal FftPasses FftStage DftSplit.

Section Stages.

Variable x : Z -> R.
Variable m : nat.
Hypothesis Hm : (m <= 29)%nat.

(** One stage joins the transforms of neighbouring blocks. *)
Lemma stage_joins (j d : nat) (bufs bufs' : list R * list R) :
  (j + S d = m)%nat -> staged x j (S d) bufs ->
  (forall p, (0 <= p < 2 ^ Z.of_nat m)%Z ->
             cell bufs' p = stage_fn (2 ^ Z.of_nat (S j)) (cell bufs) p) ->
  staged x (S j) d bufs'.
Proof.
  intros Hjd Hst Hcells b k Hb Hk.
  assert (EN : (2 ^ Z.of_nat j = Z.of_nat (2 ^ j)%nat)%Z).
  { rewrite Nat2Z.inj_pow. reflexivity. }
  set (N := (2 ^ j)%nat) in *.
  assert (HN : (0 < Z.of_nat N)%Z) by (rewrite <- EN; apply pow2_pos; lia).
  assert (EL : (2 ^ Z.of_nat (S j) = 2 * Z.of_nat N)%Z).
  { rewrite Nat2Z.inj_succ, Z.pow_succ_r, EN by lia. reflexivity. }
  assert (ED : (2 ^ Z.of_nat (S d) = 2 * 2 ^ Z.of_nat d)%Z).
  { rewrite Nat2Z.inj_succ, Z.pow_succ_r by lia. reflexivity. }
  assert (HD : (0 < 2 ^ Z.of_nat d)%Z) by (apply pow2_pos; lia).
  assert (EM : (2 ^ Z.of_nat m = 2 ^ Z.of_nat d * (2 * Z.of_nat N))%Z).
  { rewrite <- EL, <- Z.pow_add_r by lia. f_equal. lia. }
  unfold staged in Hst. rewrite EN, ED in Hst.
  rewrite EL in *.
  set (D := (2 ^ Z.of_nat d)%Z) in *.
  set (s := fun t : Z => x (rev d b + t * D)%Z).
  rewrite Hcells by nia.
  unfold stage_fn.
  assert (Emod : ((b * (2 * Z.of_nat N) + k) mod (2 * Z.of_nat N) = k)%Z).
  { rewrite Z.add_comm, Z.mod_add by lia. apply Z.mod_small. lia. }
  assert (Ehalf : (2 * Z.of_nat N / 2 = Z.of_nat N)%Z).
  { rewrite Z.mul_comm, Z.div_mul by lia. reflexivity. }
  rewrite Emod, Ehalf.
  assert (Heven : forall k', (0 <= k' < Z.of_nat N)%Z ->
            cell bufs (b * (2 * Z.of_nat N) + k')
            = dft (fun u => s (2 * u)%Z) (Z.of_nat N) k').
  { intros k' Hk'.
    replace (b * (2 * Z.of_nat N) + k')%Z with (2 * b * Z.of_nat N + k')%Z by lia.
    rewrite Hst by lia. rewrite rev_even.
    apply dft_ext. intros t _. unfold s. f_equal. lia. }
  assert (Hodd : forall k', (0 <= k' < Z.of_nat N)%Z ->
            cell bufs (b * (2 * Z.of_nat N) + k' + Z.of_nat N)
            = dft (fun u => s (2 * u + 1)%Z) (Z.of_nat N) k').
  { intros k' Hk'.
    replace (b * (2 * Z.of_nat N) + k' + Z.of_nat N)%Z
      with ((2 * b + 1) * Z.of_nat N + k')%Z by lia.
    rewrite Hst by lia. rewrite rev_odd.
    apply dft_ext. intros t _. unfold s. fold D. f_equal. lia. }
  destruct (Z.ltb_spec k (Z.of_nat N)) as [Hlow|Hhigh].
  - rewrite (Heven k), (Hodd k) by lia.
    symmetry. apply (dft_low s N k). lia.
  - remember (k - Z.of_nat N)%Z as k' eqn:Ek'.
    assert (Ek : k = (k' + Z.of_nat N)%Z) by lia.
    clear Ek'. subst k.
    replace (k' + Z.of_nat N - Z.of_nat N)%Z with k' by lia.
    replace (b * (2 * Z.of_nat N) + (k' + Z.of_nat N) - Z.of_nat N)%Z
      with (b * (2 * Z.of_nat N) + k')%Z by lia.
    replace (b * (2 * Z.of_nat N) + (k' + Z.of_nat N))%Z
      with (b * (2 * Z.of_nat N) + k' + Z.of_nat N)%Z by lia.
    rewrite (Heven k'), (Hodd k') by lia.
    symmetry. apply (dft_high s N k'). lia.
Qed.

(** The stage loop, from the stage it has reached. *)
Lemma stages_dft (d : nat) :
  forall (fuel j : nat) (bufs : list R * list R),
    (j + d = m)%nat -> (d < fuel)%nat ->
    sized (Z.to_nat (2 ^ Z.of_nat m)) bufs -> staged x j d bufs ->
    exists bufs',
      stages fuel (2 ^ Z.of_nat m) (2 ^ Z.of_nat (S j)) bufs = Normal bufs' /\
      sized (Z.to_nat (2 ^ Z.of_nat m)) bufs' /\ staged x m 0 bufs'.
Proof.
  induction d as [|d IH]; intros fuel j bufs Hjd Hf Hs Hst.
  - assert (j = m) by lia. subst j.
    destruct fuel as [|fuel]; [lia|]. cbn [stages].
    pose proof (pow2_lt (Z.of_nat m) (Z.of_nat (S m)) ltac:(lia)).
    destruct (Z.leb_spec (2 ^ Z.of_nat (S m)) (2 ^ Z.of_nat m)); [lia|].
    exists bufs. auto.
  - destruct fuel as [|fuel]; [lia|]. cbn [stages].
    pose proof (pow2_le (Z.of_nat (S j)) (Z.of_nat m) ltac:(lia)).
    destruct (Z.leb_spec (2 ^ Z.of_nat (S j)) (2 ^ Z.of_nat m)); [|lia].
    pose proof (pow2_pos (Z.of_nat m) ltac:(lia)) as Hn.
    pose proof (pow2_pos (Z.of_nat j) ltac:(lia)) as Hh.
    pose proof (pow2_pos (Z.of_nat d) ltac:(lia)) as Hb.
    assert (EL : (2 ^ Z.of_nat (S j) = 2 * 2 ^ Z.of_nat j)%Z).
    { rewrite Nat2Z.inj_succ, Z.pow_succ_r by lia. reflexivity. }
    pose proof (pow2_le (Z.of_nat m) 29 ltac:(lia)) as Hn29.
    destruct (stage_cells (Z.to_nat (2 ^ Z.of_nat m)) (2 ^ Z.of_nat (S j))
                          (2 ^ Z.of_nat j) (2 ^ Z.of_nat d) bufs)
      as (bufs1 & E1 & S1 & C1); try lia; try exact Hs.
    { rewrite Z2Nat.id by lia. rewrite <- Z.pow_add_r by lia. f_equal. lia. }
    rewrite Z2Nat.id in E1, C1 by lia. rewrite E1. cbn [bind].
    rewrite shl_1 by lia.
    assert (EL2 : (2 * 2 ^ Z.of_nat (S j) = 2 ^ Z.of_nat (S (S j)))%Z).
    { rewrite (Nat2Z.inj_succ (S j)), Z.pow_succ_r by lia. reflexivity. }
    rewrite EL2.
    apply IH; try lia; [exact S1|].
    apply (stage_joins j d bufs bufs1); [lia | exact Hst | exact C1].
Qed.

End Stages.

(** [transform] on a frame of at most 2^29 samples, from an engine as the
    constructor or an earlier call left it: the magnitudes are the moduli
    of the discrete Fourier transform of the frame continued with zeros to
    the next power of two. *)
Lemma transform_cells (this : t) (signal : list R) :
  fft_ok this ->
  (0 < Z.of_nat (length signal) <= 2 ^ 29)%Z ->
  exists this' mags n,
    transform this signal = Normal (this', mags) /\
    next_pow2 (Z.of_nat (length signal)) n /\
    fft_ok this' /\
    forall k, (0 <= k < n / 2)%Z ->
      getR mags k
      = sqrt (dft_re (padded signal) n k * dft_re (padded signal) n k
              + dft_im (padded signal) n k * dft_im (padded signal) n k).
Proof.
  intros Hok [Hpos Hlen].
  unfold transform, transform_fuel.
  destruct (sizing_normal 64 (Z.of_nat (length signal)))
    as (n & mz & Es & Hn & Hmz & Hle & Hsm); [lia | lia |].
  assert (Hm29 : (mz <= 29)%Z).
  { destruct Hsm as [->|Hsm]; [lia|].
    destruct (Z_le_gt_dec mz 29); [assumption|].
    pose proof (pow2_le 29 (mz - 1) ltac:(lia)). lia. }
  set (m := Z.to_nat mz).
  assert (Em : mz = Z.of_nat m) by (unfold m; lia).
  rewrite Em in Hn.
  pose proof (pow2_pos (Z.of_nat m) ltac:(lia)) as Hnpos.
  pose proof (pow2_le (Z.of_nat m) 29 ltac:(lia)) as Hn29.
  rewrite <- Hn in Hnpos, Hn29.
  rewrite Es. cbn [bind]. rewrite Hn.
  destruct (ensureSize_table this m) as (this1 & E1 & Hsz & Hok1);
    [lia | exact Hok |].
  rewrite E1. cbn [bind].
  pose proof (table_of_ok this1 m Hok1 Hsz) as Htable.
  destruct Hok1 as [Hwf1 Htab1].
  destruct Hwf1 as (Hs0 & Lre & Lim & Lmag). rewrite Hsz in Lre, Lim, Lmag.
  rewrite <- Hn in Lre, Lim, Lmag.
  set (re0 := blit (fill0 (real this1)) signal).
  set (im0 := fill0 (imag this1)).
  assert (S0 : sized (Z.to_nat (2 ^ Z.of_nat m)) (re0, im0)).
  { rewrite <- Hn. unfold sized, re0, im0, fill0; cbn [fst snd].
    rewrite length_blit, !length_zeros. auto. }
  destruct (swap_pass m (bitRevTable this1) (re0, im0) Htable S0) as [S1 C1].
  assert (St0 : staged (padded signal) 0 m
                  (fold_left (bitrev_swap (bitRevTable this1))
                             (range 1 (2 ^ Z.of_nat m - 1)) (re0, im0))).
  { intros b k Hb Hk. change (2 ^ Z.of_nat 0)%Z with 1%Z in *.
    assert (k = 0%Z) by lia. subst k.
    replace (b * 1 + 0)%Z with b by lia.
    rewrite C1 by exact Hb. rewrite dft_one.
    pose proof (rev_range m b) as Hr.
    replace (rev m b + 0 * 2 ^ Z.of_nat m)%Z with (rev m b) by lia.
    unfold cell, re0, im0, fill0; cbn [fst snd].
    rewrite Lre, Lim, getR_zeros, blit_padded; [reflexivity | lia | lia]. }
  destruct (fold_left (bitrev_swap (bitRevTable this1))
                      (range 1 (2 ^ Z.of_nat m - 1)) (re0, im0)) as [re1 im1].
  destruct (stages_dft (padded signal) m ltac:(lia) m 64 0%nat (re1, im1))
    as ([re2 im2] & E2 & S2 & St2); try lia; try assumption.
  change (2 ^ Z.of_nat 1)%Z with 2%Z in E2. rewrite E2. cbn [bind].
  rewrite <- Hn in S2 |- *.
  assert (Hhalf : sar n 1 = (n / 2)%Z) by (apply sar_1; lia).
  assert (Hquot : Z.quot n 2 = (n / 2)%Z) by (apply Z.quot_div_nonneg; lia).
  rewrite Hquot in Lmag. rewrite Hhalf.
  destruct (FFTClaims.magnitude_loop re2 im2 (magnitudes this1) (n / 2))
    as [Lm Cm].
  set (mags := fold_left _ (range 0 (n / 2 - 1)) (magnitudes this1)) in *.
  assert (Hfirst : firstn (Z.to_nat (n / 2)) mags = mags).
  { apply firstn_all2. rewrite Lm, Lmag. lia. }
  rewrite Hfirst.
  exists {| size := size this1; real := re2; imag := im2; magnitudes := mags;
            bitRevTable := bitRevTable this1 |}, mags, n.
  split; [reflexivity|]. split.
  { exists mz. rewrite Em. repeat split; try lia.
    destruct Hsm as [H0|H1]; [left; lia | right; rewrite <- Em; exact H1]. }
  assert (Hdiv : (0 <= n / 2)%Z) by (apply Z.div_pos; lia).
  split.
  { split.
    - destruct S2 as [L1 L2]. cbn [fst snd] in L1, L2.
      unfold fft_sized; cbn. rewrite Hsz, <- Hn, Hquot, L1, L2, Lm, Lmag.
      repeat split; lia.
    - exact Htab1. }
  intros k Hk.
  rewrite Cm by (rewrite ?Lmag; lia).
  assert (Ec : cell (re2, im2) k = dft (padded signal) n k).
  { assert (Hk0 : (0 <= k < 2 ^ Z.of_nat m)%Z).
    { rewrite <- Hn. pose proof (Z.mul_div_le n 2 ltac:(lia)). lia. }
    pose proof (St2 0%Z k ltac:(change (2 ^ Z.of_nat 0)%Z with 1%Z; lia)
                           Hk0) as Hc.
    rewrite <- Hn in Hc. replace (0 * n + k)%Z with k in Hc by lia.
    rewrite Hc. apply dft_ext. intros t _. cbn [rev].
    f_equal. change (2 ^ Z.of_nat 0)%Z with 1%Z. lia. }
  unfold cell, dft in Ec; cbn [fst snd] in Ec.
  assert (Er : getR re2 k = dft_re (padded signal) n k) by congruence.
  assert (Ei : getR im2 k = dft_im (padded signal) n k) by congruence.
  unfold Math_hypot. rewrite Er, Ei. reflexivity.
Qed.

(** In exact arithmetic [transform] returns the magnitude spectrum of the
    frame: for a frame of at most 2^29 samples, on an engine as the
    constructor or an earlier call left it, cell [k] of the result is the
    modulus of the [k]-th coefficient of the discrete Fourier transform of
    the frame, continued with zeros to the next power of two [n], for
    every [k] below [n / 2]; and the engine is left fit for the next
    call. *)
Theorem transform_is_dft (this : t) (signal : list R) :
  fft_ok this ->
  (0 < Z.of_nat (length signal) <= 2 ^ 29)%Z ->
  exists this' mags n,
    transform this signal = Normal (this', mags) /\
    next_pow2 (Z.of_nat (length signal)) n /\
    fft_ok this' /\
    forall k, (0 <= k < n / 2)%Z ->
      getR mags k
      = sqrt (dft_re (padded signal) n k * dft_re (padded signal) n k
              + dft_im (padded signal) n k * dft_im (padded signal) n k).
Proof.
  intros Hok Hlen. exact (transform_cells this signal Hok Hlen).
Qed.

Lemma transform_is_dft_witness :
  exists this' mags n,
    transform create [1; 2; 3] = Normal (this', mags) /\
    next_pow2 (Z.of_nat (length [1; 2; 3])) n /\
    fft_ok this' /\
    forall k, (0 <= k < n / 2)%Z ->
      getR mags k
      = sqrt (dft_re (padded [1; 2; 3]) n k * dft_re (padded [1; 2; 3]) n k
              + dft_im (padded [1; 2; 3]) n k * dft_im (padded [1; 2; 3]) n k).
Proof.
  apply (transform_is_dft create [1; 2; 3]).
  - exact create_ok.
  - cbn [length]. lia.
Defined.

(** [ensureSize] at a size [2^m] builds the bit-reversal permutation:
    entry [i] of the table is an index below the size whose [m] low bits
    are those of [i] in the reverse order, and the entry of that entry is
    [i] again. *)
Theorem ensureSize_reverses_bits (this : t) (m : nat) :
  (m <= 30)%nat -> fft_ok this ->
  exists this',
    ensureSize this (2 ^ Z.of_nat m) = Normal this' /\
    size this' = (2 ^ Z.of_nat m)%Z /\
    fft_ok this' /\
    forall i, (0 <= i < 2 ^ Z.of_nat m)%Z ->
      (0 <= getZ (bitRevTable this') i < 2 ^ Z.of_nat m)%Z /\
      (forall b, (0 <= b < Z.of_nat m)%Z ->
         Z.testbit (getZ (bitRevTable this') i) b
         = Z.testbit i (Z.of_nat m - 1 - b)) /\
      getZ (bitRevTable this') (getZ (bitRevTable this') i) = i.
Proof.
  intros Hm Hok.
  destruct (ensureSize_table this m Hm Hok) as (this1 & E1 & Hsz & Hok1).
  exists this1. split; [exact E1|]. split; [exact Hsz|]. split; [exact Hok1|].
  pose proof (table_of_ok this1 m Hok1 Hsz) as Htable.
  intros i Hi. rewrite (Htable i Hi).
  pose proof (rev_range m i) as Hr.
  split; [exact Hr|]. split.
  - intros b Hb. apply rev_bits. exact Hb.
  - rewrite (Htable _ Hr). apply rev_involutive. exact Hi.
Qed.

Lemma ensureSize_reverses_bits_witness :
  exists this',
    ensureSize create (2 ^ Z.of_nat 3) = Normal this' /\
    size this' = (2 ^ Z.of_nat 3)%Z /\
    fft_ok this' /\
    forall i, (0 <= i < 2 ^ Z.of_nat 3)%Z ->
      (0 <= getZ (bitRevTable this') i < 2 ^ Z.of_nat 3)%Z /\
      (forall b, (0 <= b < Z.of_nat 3)%Z ->
         Z.testbit (getZ (bitRevTable this') i) b
         = Z.testbit i (Z.of_nat 3 - 1 - b)) /\
      getZ (bitRevTable this') (getZ (bitRevTable this') i) = i.
Proof.
  apply (ensureSize_reverses_bits create 3).
  - lia.
  - exact create_ok.
Defined.

End FftCorrect.

(* ------------------------------------------------------------------ *)
(** * The spectrum that a hop analyses *)

Module HopSpectrum.

Import AudioProcessor JSFacts LoopFacts Invariants Reference FFTFacts
  ProcessorFacts HopFacts RunFacts Properties StreamFacts FftReference.

Lemma next_pow2_unique (len n1 n2 : Z) :
  (0 < len)%Z -> next_pow2 len n1 -> next_pow2 len n2 -> n1 = n2.
Proof.
  intros Hlen (m1 & H1 & -> & L1 & S1) (m2 & H2 & -> & L2 & S2).
  f_equal.
  destruct (Z_lt_le_dec m1 m2) as [Hlt|Hge1].
  - exfalso. destruct S2 as [->|S2]; [lia|].
    pose proof (pow2_le m1 (m2 - 1) ltac:(lia)). lia.
  - destruct (Z_lt_le_dec m2 m1) as [Hlt|Hge2]; [|lia].
    exfalso. destruct S1 as [->|S1]; [lia|].
    pose proof (pow2_le m2 (m1 - 1) ltac:(lia)). lia.
Qed.

Lemma next_pow2_self (m : Z) : (0 <= m)%Z -> next_pow2 (2 ^ m) (2 ^ m).
Proof.
  intros Hm. exists m. split; [exact Hm|]. split; [reflexivity|].
  split; [lia|].
  destruct (Z.eq_dec m 0) as [->|Hne]; [left; reflexivity|].
  right. apply pow2_lt. lia.
Qed.

(** The magnitudes of the event of a hop are the moduli of the discrete
    Fourier transform of the analysis buffer that the hop leaves, continued
    with zeros to the next power of two; the engine is left fit for the
    next hop. *)
Lemma analyse_spectrum (p : t) :
  ready p -> fft_ok (fft p) ->
  exists n,
    next_pow2 (windowSize (config p)) n /\
    fft_ok (fft (fst (analyse p))) /\
    forall d, snd (analyse p) = Normal d ->
      Z.of_nat (length (d_magnitudes d)) = (n / 2)%Z /\
      rms d = frameRms (analysisBuffer (fst (analyse p))) /\
      forall k, (0 <= k < n / 2)%Z ->
        getR (d_magnitudes d) k
        = sqrt (dft_re (padded (analysisBuffer (fst (analyse p)))) n k
                * dft_re (padded (analysisBuffer (fst (analyse p)))) n k
                + dft_im (padded (analysisBuffer (fst (analyse p)))) n k
                  * dft_im (padded (analysisBuffer (fst (analyse p)))) n k).
Proof.
  intros (HW & Lr & La & Hwi & Lc & Lraw & Lout & Lzero & Hinv & Hfft) Hok.
  unfold analyse.
  rewrite Z.rem_small by lia.
  destruct (frame_copy (ringBuffer p) (analysisBuffer p)
                       (windowSize (config p)) (writeIndex p) Lr La Hwi)
    as (ab1 & E1 & E2).
  rewrite E1, E2.
  set (frame := skipn (Z.to_nat (writeIndex p)) (ringBuffer p)
                ++ firstn (Z.to_nat (writeIndex p)) (ringBuffer p)).
  assert (Lf : length frame = Z.to_nat (windowSize (config p))).
  { unfold frame. rewrite length_app, length_skipn, length_firstn. lia. }
  set (ab3 := fold_left (window_step (windowFn p))
                        (range 0 (windowSize (config p) - 1)) frame).
  assert (L3 : length ab3 = Z.to_nat (windowSize (config p))).
  { unfold ab3. rewrite window_loop_length. exact Lf. }
  assert (Hlen : (0 < Z.of_nat (length ab3) <= 2 ^ 29)%Z) by (rewrite L3; lia).
  destruct (FftCorrect.transform_cells (fft p) ab3 Hok Hlen)
    as (fft1 & mags & n & Et & Hn & Hok1 & Hcells).
  destruct (FFTClaims.transform_returns (fft p) ab3 Hfft Hlen)
    as (fft2 & mags2 & n2 & Et2 & Hn2 & Hl2 & _).
  rewrite Et in Et2. injection Et2 as <- <-.
  assert (n2 = n) by (apply (next_pow2_unique (Z.of_nat (length ab3))); tauto || lia).
  subst n2.
  rewrite Et.
  set (raw := if Rle_dec (pcdMinRms (config p)) (frameRms ab3)
              then PitchClassComputer.compute (pcdComputer p) mags (sampleRate p)
                     (options_of (config p))
              else PitchClassComputer.getSilentOutput (pcdComputer p)).
  assert (Lraw1 : length (snd raw) = 12%nat).
  { unfold raw. destruct (Rle_dec (pcdMinRms (config p)) (frameRms ab3)).
    - apply compute_length. exact Lout.
    - destruct (getSilentOutput_zeros (pcdComputer p) Lzero) as (Hs & _).
      rewrite Hs. apply length_zeros. }
  destruct raw as [pc1 rawPcd1]. cbn [snd] in Lraw1.
  rewrite typed_set_whole by (rewrite Lraw1, Lraw; reflexivity).
  cbn [fst snd fft analysisBuffer windowFn lastRms with_pcds with_engines
       with_lastRms with_analysisBuffer with_window].
  exists n. split.
  { rewrite L3 in Hn. rewrite Z2Nat.id in Hn by lia. exact Hn. }
  split; [exact Hok1|].
  intros d Hd. injection Hd as <-.
  cbn [d_magnitudes rms]. split; [exact Hl2|]. split; [reflexivity|].
  exact Hcells.
Qed.

(** A sum with one term that is not zero. *)
Lemma sumR_single (f : Z -> R) (N t0 : Z) :
  (0 <= t0 < N)%Z ->
  (forall t, (0 <= t < N)%Z -> t <> t0 -> f t = 0) ->
  sumR (map f (range 0 (N - 1))) = f t0.
Proof.
  intros Ht Hz.
  rewrite (DftFacts.sumR_ext f
             (fun s => 1 * (if (t0 - s =? 0)%Z then f t0 else 0))).
  - replace (N - 1)%Z with (0 + Z.of_nat (Z.to_nat N) - 1)%Z by lia.
    rewrite (DftFacts.sumR_pick (fun _ => 1) (f t0) t0 0 (Z.to_nat N)).
    destruct (Z.leb_spec 0 t0); [|lia].
    destruct (Z.leb_spec t0 (0 + Z.of_nat (Z.to_nat N) - 1)); [|lia].
    cbn [andb]. ring.
  - intros s Hs. apply In_range in Hs.
    destruct (Z.eqb_spec (t0 - s) 0) as [E|E].
    + replace s with t0 by lia. ring.
    + rewrite Hz by lia. ring.
Qed.

(** The transform of a sequence with one term that is not zero has the
    modulus of that term in every bin. *)
Lemma dft_single (x : Z -> R) (N k t0 : Z) :
  (0 <= t0 < N)%Z ->
  (forall t, (0 <= t < N)%Z -> t <> t0 -> x t = 0) ->
  sqrt (dft_re x N k * dft_re x N k + dft_im x N k * dft_im x N k)
  = Rabs (x t0).
Proof.
  intros Ht Hz. unfold dft_re, dft_im.
  rewrite (sumR_single (fun t => x t * cos (2 * PI * IZR k * IZR t / IZR N))
                       N t0 Ht)
    by (intros t H1 H2; rewrite Hz by assumption; ring).
  rewrite (sumR_single (fun t => x t * sin (2 * PI * IZR k * IZR t / IZR N))
                       N t0 Ht)
    by (intros t H1 H2; rewrite Hz by assumption; ring).
  set (a := 2 * PI * IZR k * IZR t0 / IZR N).
  replace (x t0 * cos a * (x t0 * cos a) + - (x t0 * sin a) * - (x t0 * sin a))
    with ((x t0)² * ((sin a)² + (cos a)²)) by (unfold Rsqr; ring).
  rewrite sin2_cos2, Rmult_1_r. apply sqrt_Rsqr_abs.
Qed.

(** The RMS of a buffer is at least that of any one of its samples. *)
Lemma frameRms_lower (buffer : list R) (x : R) :
  In x buffer ->
  sqrt (x * x / INR (length buffer)) <= frameRms buffer.
Proof.
  intros Hin. unfold frameRms.
  rewrite StreamProperties.fold_squares, Rplus_0_l.
  assert (Hn : 0 < INR (length buffer)).
  { destruct buffer; [contradiction|]. apply lt_0_INR. cbn. lia. }
  apply sqrt_le_1_alt.
  apply Rmult_le_compat_r; [left; apply Rinv_0_lt_compat; exact Hn|].
  apply BandFacts.sumR_member.
  - apply Forall_forall. intros y Hy. apply in_map_iff in Hy.
    destruct Hy as [z [<- _]]. nra.
  - apply (in_map (fun z => z * z)). exact Hin.
Qed.

End HopSpectrum.

(* ------------------------------------------------------------------ *)
(** * A hop on a click *)

Module ClickHop.

Import AudioProcessor JSFacts LoopFacts Invariants Reference FFTFacts
  ProcessorFacts HopFacts RunFacts Properties StreamFacts FftReference
  HopSpectrum BandFacts.

(** The weight of the Hann table of size 32 at its entry 16. *)
Lemma click_weight_range : / 2 <= click_weight <= 1.
Proof.
  unfold click_weight, window_or_empty.
  destruct (WindowProperties.hannWindow_cells 32 ltac:(lia)) as (w & E & L & C).
  rewrite E, (C 16%Z) by lia.
  pose proof PI_RGT_0 as Hpi.
  pose proof (COS_bound (2 * PI / (32 - 1) * 16)) as [B1 B2].
  assert (Hneg : cos (2 * PI / (32 - 1) * 16) <= 0).
  { apply cos_le_0; lra. }
  lra.
Qed.

Lemma length_click : length click = 32%nat.
Proof. unfold click. rewrite length_set. apply length_zeros. Qed.

Lemma click_cells (j : Z) :
  (0 <= j < 32)%Z -> getR click j = if (j =? 16)%Z then 1 else 0.
Proof.
  intros Hj. unfold click, getR.
  destruct (Z.eqb_spec j 16) as [->|Hne].
  - apply get_set_eq. rewrite length_zeros. lia.
  - rewrite get_set_neq by congruence. apply getR_zeros.
Qed.

Lemma small_options (s : R) :
  options_of (small_config s) = PitchClassComputer.mkOptions 50 5000 0.005 1 440.
Proof. reflexivity. Qed.

Section Hop.

Variable s : R.
Variable q : t.

Hypothesis Hready : ready q.
Hypothesis Hok : fft_ok (fft q).
Hypothesis Hconfig : config q = small_config s.
Hypothesis Hrate : sampleRate q = 48000.
Hypothesis Hwindow : windowFn q = window_or_empty 32.
Hypothesis Hring : ring_holds click q.

Lemma click_frame (i : Z) :
  (0 <= i < 32)%Z ->
  getR (analysisBuffer (fst (analyse q))) i
  = if (i =? 16)%Z then click_weight else 0.
Proof.
  intros Hi.
  destruct (analyse_frame q Hready) as (Eab & _ & _). cbv zeta in Eab.
  pose proof Hready as (HW & Lr & _ & Hwi & _).
  rewrite Hconfig in Eab, HW, Lr, Hwi.
  change (windowSize (small_config s)) with 32%Z in Eab, HW, Lr, Hwi.
  rewrite Eab.
  rewrite (window_loop_cell _ _ 32);
    [|rewrite length_app, length_skipn, length_firstn; lia | exact Hi].
  rewrite (unrolled_cell _ 32) by assumption.
  destruct Hring as (Ecur & Hcells). cbv zeta in Ecur, Hcells.
  rewrite Hconfig, length_click in Ecur, Hcells.
  change (windowSize (small_config s)) with 32%Z in Ecur, Hcells.
  change (Z.of_nat 32) with 32%Z in Ecur, Hcells.
  rewrite Ecur. change (32 mod 32)%Z with 0%Z.
  replace (0 + i)%Z with i by lia.
  rewrite Hcells by lia. rewrite click_cells by exact Hi.
  rewrite Hwindow.
  destruct (Z.eqb_spec i 16) as [->|Hne]; [|ring].
  fold click_weight. ring.
Qed.

(** What the hop does. *)
Lemma click_hop :
  exists p' d,
    analyse q = (p', Normal d) /\
    (config p' = config q /\ tunerConfig p' = tunerConfig q /\
     sampleRate p' = sampleRate q /\ running p' = running q) /\
    ready p' /\ fft_ok (fft p') /\
    length (d_magnitudes d) = 16%nat /\
    (forall k, (0 <= k < 16)%Z -> getR (d_magnitudes d) k = click_weight) /\
    / 16 <= rms d /\
    rawPcd p' = d_rawPcd d /\ currentPcd p' = pcd d /\
    length (d_rawPcd d) = 12%nat /\ sumR (d_rawPcd d) = 1 /\
    Forall (fun x => 0 <= x) (d_rawPcd d) /\
    in_float32 (d_magnitudes d) 48000 (options_of (small_config s)) /\
    (forall i, (0 <= i < 12)%Z ->
       getR (pcd d) i
       = clamp s 0 0.999 * getR (currentPcd q) i
         + (1 - clamp s 0 0.999) * getR (d_rawPcd d) i) /\
    sumR (pcd d)
    = clamp s 0 0.999 * sumR (currentPcd q) + (1 - clamp s 0 0.999) /\
    primary d = find_primary (tunerConfig q) (config q) 48000 (rms d)
                             (d_magnitudes d).
Proof.
  pose proof click_weight_range as Hcw.
  destruct (analyse_returns q Hready)
    as (p' & d & Ea & (C1 & C2 & C3 & C4 & _) & Hr' & (Hraw & Hcur & _)
        & Hhop & Hsm & Hprim & _).
  destruct (analyse_spectrum q Hready Hok) as (n & Hn & Hok' & Hd).
  pose proof click_frame as Hframe.
  rewrite Ea in Hok', Hd, Hframe. cbn [fst snd] in Hok', Hd, Hframe.
  destruct (Hd d eq_refl) as (Hlen & Hrms & Hcells).
  assert (En : n = 32%Z).
  { apply (next_pow2_unique 32); [lia | |].
    - rewrite Hconfig in Hn. exact Hn.
    - exact (next_pow2_self 5 ltac:(lia)). }
  subst n. change (32 / 2)%Z with 16%Z in Hlen, Hcells.
  assert (Lab : length (analysisBuffer p') = 32%nat).
  { destruct Hr' as (_ & _ & La & _). rewrite C1, Hconfig in La. exact La. }
  assert (Hpad : forall t, (0 <= t < 32)%Z ->
            padded (analysisBuffer p') t
            = if (t =? 16)%Z then click_weight else 0).
  { intros t Ht. unfold padded. rewrite Lab.
    destruct (Z.ltb_spec t (Z.of_nat 32)); [|lia]. apply Hframe. exact Ht. }
  assert (Hmags : forall k, (0 <= k < 16)%Z ->
            getR (d_magnitudes d) k = click_weight).
  { intros k Hk. rewrite (Hcells k Hk).
    rewrite (dft_single _ 32 k 16).
    - rewrite Hpad by lia. cbn [Z.eqb Pos.eqb]. apply Rabs_right. lra.
    - lia.
    - intros t Ht Hne. rewrite Hpad by exact Ht.
      destruct (Z.eqb_spec t 16); [contradiction | reflexivity]. }
  assert (Lm : length (d_magnitudes d) = 16%nat) by lia.
  assert (Hlevel : / 16 <= rms d).
  { rewrite Hrms.
    apply Rle_trans
      with (sqrt (click_weight * click_weight
                  / INR (length (analysisBuffer p')))).
    - rewrite Lab. replace (INR 32) with 32 by (cbn; lra).
      rewrite <- (sqrt_square (/ 16)) at 1 by lra.
      apply sqrt_le_1_alt. nra.
    - apply frameRms_lower.
      pose proof (Hframe 16%Z ltac:(lia)) as E16. cbn [Z.eqb Pos.eqb] in E16.
      rewrite <- E16. unfold getR, get. cbn [Z.ltb Z.compare].
      apply nth_In. rewrite Lab. lia. }
  pose proof Hready as (_ & _ & _ & _ & Lc & _ & Lout & _ & Hinv & _).
  set (o := PitchClassComputer.mkOptions 50 5000 0.005 1 440).
  assert (Eraw : rawPcd p'
                 = snd (PitchClassComputer.compute (pcdComputer q)
                          (d_magnitudes d) 48000 o)).
  { rewrite Hhop. unfold raw_of_hop. rewrite Hconfig, Hrate.
    change (pcdMinRms (small_config s)) with 0.001.
    destruct (Rle_dec 0.001 (rms d)); [reflexivity | lra]. }
  assert (Htotal : 0 < total (d_magnitudes d) 48000 o).
  { apply one_bin_total; [exact Lm | lra |].
    rewrite Hmags by lia. lra. }
  assert (Hsum : sumR (rawPcd p') = 1).
  { rewrite Eraw. apply ComputeClaim.compute_sums_to_one;
      try assumption; try lra. cbn. lra. }
  assert (Lraw : length (rawPcd p') = 12%nat).
  { rewrite Eraw. apply compute_length. exact Lout. }
  assert (Hnn : Forall (fun x => 0 <= x) (rawPcd p')).
  { rewrite Eraw. apply ComputeClaim.compute_nonneg; try assumption; try lra.
    cbn. lra. }
  exists p', d. split; [exact Ea|].
  split; [auto|]. split; [exact Hr'|]. split; [exact Hok'|].
  split; [exact Lm|]. split; [exact Hmags|]. split; [exact Hlevel|].
  split; [exact Hraw|]. split; [exact Hcur|].
  rewrite <- Hraw, <- Hcur.
  split; [exact Lraw|]. split; [exact Hsum|]. split; [exact Hnn|].
  split.
  { rewrite small_options. fold o.
    apply (in_float32_16 _ 0.005 (/ 4) 1); try assumption.
    - unfold Float32.min_normal. lra.
    - lra.
    - unfold Float32.max_value. lra.
    - intros k Hk _. rewrite Hmags by lia. nra. }
  split.
  { intros i Hi. rewrite Hsm at 1. unfold smooth. rewrite Hconfig.
    change (smoothing (small_config s)) with s.
    apply smooth_loop_cell; assumption. }
  split.
  { destruct (SmoothedPcdClaims.smooth_sum (config q) (rawPcd p') (currentPcd q)
                                           Lraw Lc) as (_ & E & _).
    rewrite <- Hsm in E. rewrite E, Hsum, Hconfig.
    change (smoothing (small_config s)) with s. ring. }
  rewrite Hprim, Hrate. reflexivity.
Qed.

End Hop.

End ClickHop.

(* ------------------------------------------------------------------ *)
(** * The first window of a run *)

Module FirstWindow.

Import AudioProcessor JSFacts LoopFacts Invariants Reference FFTFacts
  ProcessorFacts HopFacts RunFacts Properties StreamFacts FftReference
  HopSpectrum BandFacts ClickHop.


Lemma same_engine_advanced (p q : t) (x : R) (hc : Z) :
  same_engine p q -> same_engine p (advanced q x hc).
Proof. intros H. exact H. Qed.



(** The small processor, just started. *)
Lemma small_state (s : R) :
  ready (small s) /\ running (small s) = true /\
  config (small s) = small_config s /\ sampleRate (small s) = 48000 /\
  fft (small s) = RealFFT.create /\
  windowFn (small s) = window_or_empty 32 /\
  currentPcd (small s) = zeros 12 /\
  ringBuffer (small s) = zeros 32 /\
  ring_inv [] (small s).
Proof.
  assert (Hc : ready (construct (small_config s))).
  { unfold ready, construct. cbn.
    split; [lia|]. split; [reflexivity|]. split; [reflexivity|].
    split; [lia|]. do 4 (split; [reflexivity|]).
    split; [exact LookupFacts.create_lookup_inv|].
    unfold fft_sized. cbn. repeat split; lia. }
  destruct (ready_start 48000 _ Hc eq_refl)
    as (Hr & Hrun & Hcfg & _ & Hrate & Hfill & Hhc & Hwi & Hcur & Hring).
  fold (small s) in Hr, Hrun, Hcfg, Hrate, Hfill, Hhc, Hwi, Hcur, Hring.
  split; [exact Hr|]. split; [exact Hrun|]. split; [exact Hcfg|].
  split; [exact Hrate|]. split; [reflexivity|]. split; [reflexivity|].
  split; [exact Hcur|]. split; [exact Hring|].
  unfold ring_inv, at_sample, ring_holds. rewrite Hcfg, Hfill, Hhc, Hwi.
  cbn. split; [lia|]. split; [split; reflexivity|].
  split; [split; [reflexivity | intros; lia]|]. intros; lia.
Qed.

End FirstWindow.

(* ------------------------------------------------------------------ *)
(** * Runs on a click *)

Module ClickRun.

Import AudioProcessor JSFacts LoopFacts Invariants Reference FFTFacts
  ProcessorFacts HopFacts RunFacts Properties StreamFacts FftReference
  HopSpectrum BandFacts ClickHop FirstWindow.



(** The small processor with the click as its window and a smoothed PCD
    already there. *)
Lemma primed_state (s : R) (cur : list R) :
  length cur = 12%nat ->
  ready (primed s cur) /\ running (primed s cur) = true /\
  fft_ok (fft (primed s cur)) /\
  config (primed s cur) = small_config s /\
  sampleRate (primed s cur) = 48000 /\
  windowFn (primed s cur) = window_or_empty 32 /\
  currentPcd (primed s cur) = cur /\
  ring_holds click (primed s cur).
Proof.
  intros Lc.
  destruct (small_state s)
    as (Hr & Hrun & Hcfg & Hrate & Hfft & Hwin & Hcur & Hring & HI).
  assert (Hr1 : ready (with_cursor (small s) click 0 32 0)).
  { apply ready_with_cursor; [exact Hr | |].
    - rewrite length_click, Hring. symmetry. apply length_zeros.
    - rewrite Hcfg. cbn. lia. }
  split.
  { destruct Hr1 as (HW & Lr & La & Hwi & _ & _ & Lout & Lzero & Hinv & Hsized).
    unfold primed, ready.
    split; [exact HW|]. split; [exact Lr|]. split; [exact La|].
    split; [exact Hwi|]. split; [exact Lc|]. split; [reflexivity|].
    split; [exact Lout|]. split; [exact Lzero|]. split; [exact Hinv|].
    exact Hsized. }
  split; [exact Hrun|].
  split; [exact FftPasses.create_ok|].
  split; [exact Hcfg|]. split; [exact Hrate|]. split; [exact Hwin|].
  split; [reflexivity|].
  unfold ring_holds. rewrite length_click.
  change (config (primed s cur)) with (config (small s)). rewrite Hcfg.
  change (windowSize (small_config s)) with 32%Z.
  split; [reflexivity|].
  intros j Hj _. rewrite Z.mod_small by lia. reflexivity.
Qed.

(** A hop of a ready, running processor whose window holds the click. *)
Lemma click_process (s : R) (q : t) :
  ready q -> running q = true -> fft_ok (fft q) ->
  config q = small_config s -> sampleRate q = 48000 ->
  windowFn q = window_or_empty 32 -> ring_holds click q ->
  exists p' d,
    processFrame q = Normal (p', [Analysis d]) /\
    length (d_magnitudes d) = 16%nat /\
    (forall k, (0 <= k < 16)%Z -> getR (d_magnitudes d) k = click_weight) /\
    / 16 <= rms d /\
    rawPcd p' = d_rawPcd d /\ currentPcd p' = pcd d /\
    sumR (d_rawPcd d) = 1 /\
    in_float32 (d_magnitudes d) 48000 (options_of (small_config s)) /\
    sumR (pcd d)
    = clamp s 0 0.999 * sumR (currentPcd q) + (1 - clamp s 0 0.999) /\
    primary d = find_primary (tunerConfig q) (config q) 48000 (rms d)
                             (d_magnitudes d).
Proof.
  intros Hr Hrun Hok Hcfg Hrate Hwin Hring.
  destruct (processFrame_returns q Hr Hrun) as (p' & d & Ep & Ea).
  destruct (click_hop s q Hr Hok Hcfg Hrate Hwin Hring)
    as (p2 & d2 & Ea2 & _ & _ & _ & Lm & Hm & Hrms & Eraw & Ecur & _ & Sraw
        & _ & Hf32 & _ & Hsum & Hprim).
  rewrite Ea in Ea2. injection Ea2 as <- <-.
  exists p', d. auto 12.
Qed.

End ClickRun.

(* ------------------------------------------------------------------ *)
(** * The smoothed PCD is a moving average *)

Module MovingAverage.

Import AudioProcessor JSFacts LoopFacts Invariants Reference FFTFacts
  ProcessorFacts HopFacts RunFacts SmoothedPcdClaims.









End MovingAverage.

(* ------------------------------------------------------------------ *)
(** * The smoothed PCD of a run *)

Module SmoothedPcd.

Import AudioProcessor JSFacts LoopFacts Invariants Reference FFTFacts
  ProcessorFacts HopFacts RunFacts MovingAverage ClickRun.




End SmoothedPcd.

(* ------------------------------------------------------------------ *)
(** * Smoothing on a hop with energy *)

Module SmoothingRuns.

Import AudioProcessor JSFacts LoopFacts Invariants Reference FFTFacts
  ProcessorFacts HopFacts RunFacts MovingAverage ClickRun.



End SmoothingRuns.

(* ------------------------------------------------------------------ *)
(** * A tuner reading *)

Module PrimaryRuns.

Import AudioProcessor JSFacts LoopFacts Invariants Reference FFTFacts
  ProcessorFacts HopFacts RunFacts Properties FftReference MovingAverage
  ClickRun PrimaryDetection.

(** The estimator on a flat spectrum of 16 bins at 48 kHz, searched
    between 70 and 5000 Hz: the first bin of the range, bin 2, with no
    prominence. *)
Lemma flat_reading (mags : list R) (c : R) :
  length mags = 16%nat ->
  (forall k, (0 <= k < 16)%Z -> getR mags k = c) ->
  floor_level <= c ->
  exists est,
    estimatePrimary mags 48000 70 5000 = Some est /\
    prominenceDb est = 0 /\ freq est = 3000.
Proof.
  intros L H Hc. pose proof PrimaryClaim.floor_level_pos as Hpos.
  unfold estimatePrimary. rewrite L. change (Z.of_nat 16) with 16%Z.
  assert (E1 : Math_floor (70 / (48000 / (16 * 2))) = 0%Z).
  { unfold Math_floor. apply Zfloor_eq.
    replace (70 / (48000 / (16 * 2))) with (7 / 150) by field. lra. }
  assert (E2 : Math_floor (5000 / (48000 / (16 * 2))) = 3%Z).
  { unfold Math_floor. apply Zfloor_eq.
    replace (5000 / (48000 / (16 * 2))) with (10 / 3) by field. lra. }
  rewrite E1, E2.
  change (Z.max 2 0) with 2%Z. change (Z.min (16 - 3) 3) with 3%Z.
  change (range 2 3) with [2; 3]%Z. cbn [fold_left]. unfold peak_step.
  rewrite (H 2%Z), (H 3%Z) by lia.
  destruct (Rlt_dec 0 c) as [_|]; [|lra].
  destruct (Rlt_dec c c) as [|_]; [lra|].
  destruct (Rlt_dec c floor_level) as [|_]; [lra|].
  change (Z.max 2 (2 - 10)) with 2%Z. change (Z.min 3 (2 + 10)) with 3%Z.
  change (range2 2 3) with [2%Z]. cbn [fold_left]. unfold neighbor_step.
  change (2 =? 2)%Z with true. cbv iota. change (0 <? 0)%Z with false.
  cbv iota.
  destruct (Rlt_dec 0 0) as [|_]; [lra|].
  change (2 - 1)%Z with 1%Z. change (2 + 1)%Z with 3%Z.
  rewrite (H 1%Z), (H 2%Z), (H 3%Z) by lia.
  destruct (Req_dec_T (c - 2 * c + c) 0) as [_|Hne]; [|exfalso; apply Hne; ring].
  eexists. split; [reflexivity|]. cbn [prominenceDb freq].
  split; [reflexivity|].
  replace (0.5 * (c - c) / eps) with 0 by (unfold eps; field).
  assert (Em : Rmax (-1) (Rmin 1 0) = 0).
  { unfold Rmin, Rmax. destruct (Rle_dec 1 0); [lra|].
    destruct (Rle_dec (-1) 0); lra. }
  rewrite Em. field.
Qed.

Lemma tuned_state :
  ready tuned /\ running tuned = true /\ fft_ok (fft tuned) /\
  config tuned = small_config 0.6 /\ sampleRate tuned = 48000 /\
  windowFn tuned = window_or_empty 32 /\ ring_holds click tuned /\
  tunerConfig tuned = mkTuner true 70 5000 0 0.003 0.35.
Proof.
  destruct (primed_state 0.6 (zeros 12) eq_refl)
    as (Hr & Hrun & Hok & Hcfg & Hrate & Hwin & _ & Hring).
  split; [exact Hr|]. split; [exact Hrun|]. split; [exact Hok|].
  split; [exact Hcfg|]. split; [exact Hrate|]. split; [exact Hwin|].
  split; [exact Hring|]. reflexivity.
Qed.

Lemma primary_is_consistent_witness :
  exists p' d pr,
    processFrame tuned = Normal (p', [Analysis d]) /\
    primary d = Some pr /\ p_freq pr = 3000 /\
    midi pr = 69 + 12 * Math_log2 (3000 / 440) /\
    - 50 <= cents pr < 50 /\
    (0 <= pitchClass pr <= 11)%Z.
Proof.
  destruct tuned_state
    as (Hr & Hrun & Hok & Hcfg & Hrate & Hwin & Hring & Htc).
  destruct (click_process 0.6 tuned Hr Hrun Hok Hcfg Hrate Hwin Hring)
    as (p0 & d0 & E0 & Lm & Hm & Hrms & _ & _ & _ & _ & _ & Hprim).
  pose proof ClickHop.click_weight_range as Hcw.
  destruct (flat_reading (d_magnitudes d0) click_weight Lm Hm) as (est & Ee & Ep & Ef).
  { unfold floor_level. lra. }
  assert (Hsome : exists pr, primary d0 = Some pr /\ p_freq pr = 3000).
  { rewrite Hprim, Htc. unfold find_primary. cbn [enabled minRMS t_minHz t_maxHz minProminence].
    destruct (Rle_dec 0.003 (rms d0)) as [_|Hn]; [|exfalso; apply Hn; lra].
    cbn [andb]. rewrite Ee, Ep.
    destruct (Rle_dec 0 0) as [_|Hn]; [|exfalso; apply Hn; lra].
    eexists. split; [reflexivity|]. exact Ef. }
  destruct Hsome as (pr & Epr & Efreq).
  destruct (StreamProperties.primary_is_consistent tuned Hr Hrun)
    as (p' & d & E & Hread & _).
  - rewrite Hrate. lra.
  - rewrite Hcfg. cbn. lra.
  - rewrite E0 in E. injection E as <- <-.
    destruct (Hread pr Epr) as (_ & _ & _ & Hmidi & _ & _ & Hcents & _ & Hpc & _).
    rewrite Hcfg, Efreq in Hmidi. cbn [refA4 small_config] in Hmidi.
    exists p0, d0, pr. auto 10.
Defined.

End PrimaryRuns.

(* ------------------------------------------------------------------ *)
(** * The frame of the first window *)

Module StreamRuns.

Import AudioProcessor JSFacts LoopFacts Invariants Reference FFTFacts
  ProcessorFacts HopFacts RunFacts Properties StreamFacts ClickHop FirstWindow.

(** One window holding the click, fed to the small processor just
    started: the frame analysed is the window times the Hann table, so
    its cell 16 is the weight of the table there. *)
Lemma analysed_frame_is_most_recent_witness :
  exists p' evs,
    feed [click] (small 0.6) = Normal (p', evs) /\
    ring_holds (concat [click]) p' /\
    frame_is_recent (concat [click]) p' /\
    getR (analysisBuffer p') 16 = click_weight.
Proof.
  destruct (small_state 0.6)
    as (Hr & Hrun & Hcfg & _ & _ & Hwin & _).
  destruct (StreamProperties.analysed_frame_is_most_recent (small 0.6) [click]
              Hr Hrun eq_refl eq_refl eq_refl)
    as (p' & evs & E & Hc & Hwf & Hring & Hrecent).
  { rewrite Hcfg. cbn. lia. }
  assert (Hfr : frame_is_recent (concat [click]) p').
  { apply Hrecent; rewrite Hcfg; cbn [concat]; rewrite app_nil_r, length_click;
      cbn; lia. }
  exists p', evs. split; [exact E|]. split; [exact Hring|].
  split; [exact Hfr|].
  destruct Hfr as [Hcells _]. cbv zeta in Hcells.
  rewrite Hc, Hcfg, Hwf, Hwin in Hcells. cbn [concat] in Hcells.
  rewrite app_nil_r, length_click in Hcells.
  rewrite (Hcells 16%Z) by (cbn; lia).
  change (Z.of_nat 32 - windowSize (small_config 0.6) + 16)%Z with 16%Z.
  rewrite click_cells by lia. cbn [Z.eqb Pos.eqb]. unfold click_weight. ring.
Defined.

End StreamRuns.
